(** * The acquisition service of the code-push server: model and properties

    A shallow embedding of the update-check path of the server
    (version normaliser, rollout selector, update-selection engine,
    response cache client, cache-key builder and the report-deploy
    handler), followed by the properties established about it.

    Conventions of the embedding.
    - A JavaScript [string] is a [string] of the Standard Library; the
      code unit of a character is [charCodeAt].  The hash function is
      also given over arbitrary lists of code units.
    - A JavaScript [number] is an IEEE 754 double ([Double.number],
      the primitive floats) where the code computes with it: the
      arithmetic of [getEffectiveRollout], with its rounding, NaN
      and the infinities.  Where the code only stores, compares or
      adds a number (the clock, the fields of a release, the
      deadlines of the in-process cache) it is a rational [Q], and an
      integer [Z] where the code only ever produces integers;
      [Double.of_Q] is the double nearest to a rational.
    - An optional field [f?: T] is an [option T]; [None] stands for
      [undefined] and for [null].
    - Asynchronous code runs in the monad [IO]: a computation threads
      the console and the state of the store, and ends resolved with
      a value or rejected with an error. *)

From Stdlib Require Import ZArith QArith Qround Qminmax Qpower Qabs Lqa.
From Stdlib Require Import String Ascii List Sorted Lia Bool.
From Stdlib Require PrimFloat SpecFloat FloatOps FloatAxioms.
From stdpp Require Import base list sorting gmap strings.

Set Default Proof Using "Type".
Local Open Scope Z_scope.

(** ** JavaScript values *)

Module JS.

(** [!!s] for a string: the empty string is the only falsy one. *)
Definition truthy (s : string) : bool :=
  match s with EmptyString => false | _ => true end.

(** [!!o] for an optional string field. *)
Definition truthy_opt (o : option string) : bool :=
  match o with Some s => truthy s | None => false end.

(** [!!o] for an optional boolean field. *)
Definition truthy_bool (o : option bool) : bool :=
  match o with Some b => b | None => false end.

(** [a || b] on strings. *)
Definition or_else (a b : string) : string := if truthy a then a else b.

(** [a || b] on optional strings; the result is the last operand
    when neither is truthy. *)
Definition or_opt (a b : option string) : option string :=
  if truthy_opt a then a else b.

Definition Qltb (x y : Q) : bool := negb (Qle_bool y x).

(** [s.charCodeAt(i)] of one character. *)
Definition charCodeAt (c : ascii) : Z := Z.of_nat (nat_of_ascii c).

Definition codeUnits (s : string) : list Z :=
  map charCodeAt (list_ascii_of_string s).

(** [ToInt32]: the integer modulo 2^32, read as a signed 32-bit word. *)
Definition toInt32 (z : Z) : Z := (z + 2 ^ 31) mod 2 ^ 32 - 2 ^ 31.

(** [a << n] : both operands go through [ToInt32]/[ToUint32], the
    count is taken modulo 32 and the shifted word is truncated to a
    signed 32-bit integer. *)
Definition shl (a n : Z) : Z := toInt32 (Z.shiftl (toInt32 a) (n mod 32)).

End JS.

(** ** Rounding to the nearest double

    The rational [RN v] is the double nearest to [v] when the
    exponents of doubles are unbounded above; a result of magnitude
    [2^1024] or more stands for an overflow. *)

Module Rounding.
Local Open Scope Q_scope.

Definition pow2 (e : Z) : Q := 2 ^ e.

(** The exponent of the last bit of a double of magnitude [e]. *)
Definition fexp (e : Z) : Z := Z.max (e - 53) (-1074).

(** The integer nearest to [x], the even one of two that are as
    near. *)
Definition rne (x : Q) : Z :=
  let f := Qfloor x in
  match Qcompare (x - inject_Z f) (1 # 2) with
  | Lt => f
  | Eq => if Z.even f then f else (f + 1)%Z
  | Gt => (f + 1)%Z
  end.

(** The magnitude of a positive rational: [2^(mag v - 1) <= v < 2^(mag v)]. *)
Definition mag (v : Q) : Z :=
  let c := (Z.log2 (Qnum v) - Z.log2 (Zpos (Qden v)))%Z in
  if Qle_bool (pow2 c) v then (c + 1)%Z else c.

Definition RNpos (v : Q) : Q :=
  inject_Z (rne (v / pow2 (fexp (mag v)))) * pow2 (fexp (mag v)).

Definition RN (v : Q) : Q :=
  match Qcompare v 0 with
  | Gt => RNpos v
  | Lt => - RNpos (- v)
  | Eq => 0
  end.

End Rounding.

(** ** The numbers of JavaScript as doubles *)

Module Double.
Import PrimFloat SpecFloat FloatOps.

(** A number of JavaScript: an IEEE 754 binary64 value. *)
Definition number : Set := float.

(** [NaN], [+0] and [-0] are falsy. *)
Definition truthy (x : number) : bool := negb (is_nan x || is_zero x).

(** [x || y] for a field [x] that may be missing. *)
Definition or_else (x : option number) (y : number) : number :=
  match x with
  | Some x => if truthy x then x else y
  | None => y
  end.

(** [Math.max] and [Math.min] of two numbers: NaN when one of them
    is, and [+0] above [-0]. *)
Definition Math_max (x y : number) : number :=
  match compare x y with
  | FNotComparable => nan
  | FLt => y
  | FGt => x
  | FEq => if get_sign x then y else x
  end.

Definition Math_min (x y : number) : number :=
  match compare x y with
  | FNotComparable => nan
  | FLt => x
  | FGt => y
  | FEq => if get_sign x then x else y
  end.

(** The double nearest to an integer (the integer itself up to
    2^53). *)
Definition of_Z (z : Z) : number := SF2Prim (binary_normalize prec emax z 0 false).

(** [Math.round]: the integer nearest to [x], the larger one of two
    that are as near; [x] itself when it is an integer, an infinity
    or NaN, and [-0] for [-0.5 <= x < 0]. *)
Definition Math_round (x : number) : number :=
  match Prim2SF x with
  | S754_finite s m e =>
      if (0 <=? e)%Z then x
      else
        let z := ((2 * cond_Zopp s (Zpos m) + 2 ^ (- e)) / 2 ^ (- e + 1))%Z in
        if (z =? 0)%Z then (if s then neg_zero else zero) else of_Z z
  | _ => x
  end.

(** The double nearest to a rational: the quotient of its numerator
    and its denominator as the division of doubles rounds it. *)
Definition of_Q (q : Q) : number :=
  match Qnum q with
  | Z0 => zero
  | Zpos n => SF2Prim (SFdiv prec emax (S754_finite false n 0) (S754_finite false (Qden q) 0))
  | Zneg n => SF2Prim (SFdiv prec emax (S754_finite true n 0) (S754_finite false (Qden q) 0))
  end.

(** The rational a finite double stands for. *)
Definition SFvalue (x : spec_float) : Q :=
  match x with
  | S754_finite s m e => inject_Z (cond_Zopp s (Zpos m)) * 2 ^ e
  | _ => 0
  end.

Definition value (x : number) : Q := SFvalue (Prim2SF x).

(** The doubles that are numbers of finite magnitude. *)
Definition SFfin (x : spec_float) : bool :=
  match x with
  | S754_zero _ | S754_finite _ _ _ => true
  | _ => false
  end.

Definition finite (x : number) : bool := SFfin (Prim2SF x).

(** The finite doubles of magnitude at most [2^k]. *)
Definition within (k : Z) (x : number) : Prop :=
  finite x = true /\ (- Rounding.pow2 k <= value x <= Rounding.pow2 k)%Q.

Definition within_opt (k : Z) (o : option number) : Prop :=
  match o with Some x => within k x | None => True end.

(** The rationals of magnitude at most [2^k]. *)
Definition small (k : Z) (q : Q) : Prop :=
  (- Rounding.pow2 k <= q <= Rounding.pow2 k)%Q.

Definition small_opt (k : Z) (o : option Q) : Prop :=
  match o with Some q => small k q | None => True end.

(** The rational on which [z < x] is decided for a finite number
    [z]: the value of a finite double; [2^1024], the first magnitude
    out of range, for plus infinity; and [- 2^1024] for minus
    infinity and for NaN, which no finite number is below. *)
Definition to_Q (x : number) : Q :=
  match Prim2SF x with
  | S754_infinity false => Rounding.pow2 1024
  | S754_infinity true | S754_nan => - Rounding.pow2 1024
  | _ => value x
  end.

End Double.

(** ** What the steps of the rounding of SpecFloat stand for *)

Module Located.
Import SpecFloat FloatOps.
Local Open Scope Q_scope.

(** Where [x] lies between the integers [m] and [m + 1], as the
    round bit and the sticky bit tell. *)
Definition located (mrs : shr_record) (x : Q) : Prop :=
  match shr_r mrs, shr_s mrs with
  | false, false => x == inject_Z (shr_m mrs)
  | false, true => inject_Z (shr_m mrs) < x < inject_Z (shr_m mrs) + (1 # 2)
  | true, false => x == inject_Z (shr_m mrs) + (1 # 2)
  | true, true => inject_Z (shr_m mrs) + (1 # 2) < x < inject_Z (shr_m mrs) + 1
  end.

(** What a rounded operation returns for the sign [s] and the
    rounded magnitude [R]. *)
Definition rounds_to (s : bool) (R : Q) (z : spec_float) : Prop :=
  (R == 0 /\ z = S754_zero s)
  \/ (0 < R < Rounding.pow2 1024
      /\ exists m e, z = S754_finite s m e /\ bounded prec emax m e = true
                     /\ inject_Z (Zpos m) * Rounding.pow2 e == R)
  \/ (Rounding.pow2 1024 <= R /\ z = S754_infinity s).

(** What an operation whose exact result is [v] returns: the double
    nearest to [v], or an infinity when that is out of range. *)
Definition rounded (v : Q) (z : spec_float) : Prop :=
  valid_binary prec emax z = true
  /\ ((Qabs (Rounding.RN v) < Rounding.pow2 1024
       /\ Double.SFfin z = true /\ Double.SFvalue z == Rounding.RN v)
      \/ (Rounding.pow2 1024 <= Rounding.RN v /\ z = S754_infinity false)
      \/ (Rounding.RN v <= - Rounding.pow2 1024 /\ z = S754_infinity true)).

End Located.

(** ** Rollout selector (rollout-selector.ts) *)

Module RolloutSelector.
Import PrimFloat JS.

Definition DELIMITER : string := "-".
Definition MS_PER_MINUTE : Double.number := (60 * 1000)%float.

Record RolloutComputationInput := {
    rollout : option Double.number;
    holdDurationMinutes : option Double.number;
    rampDurationMinutes : option Double.number;
    uploadTime : option Double.number
  }.

(** The loop of [getHashCode]: [hash = (hash << 5) - hash + chr].
    Only the shift goes through 32-bit words; the subtraction and
    the addition are those of numbers. *)
Fixpoint hashLoop (chrs : list Z) (hash : Z) : Z :=
  match chrs with
  | [] => hash
  | chr :: rest => hashLoop rest (shl hash 5 - hash + chr)
  end.

Definition hashCodeUnits (chrs : list Z) : Z := hashLoop chrs 0.

Definition getHashCode (input : string) : Z :=
  if (String.length input =? 0)%nat then 0 else hashCodeUnits (codeUnits input).

Definition isSelectedForRollout (clientId : string) (rollout : Q) (releaseTag : string) : bool :=
  let identifier := (clientId ++ DELIMITER ++ releaseTag)%string in
  let hashValue := getHashCode identifier in
  Qltb (inject_Z (Z.rem (Z.abs hashValue) 100)) rollout.

Definition isUnfinishedRollout (rollout : option Q) : bool :=
  match rollout with
  | None => false
  | Some r => negb (Qeq_bool r 100)
  end.

(** [isUnfinishedRollout] on the double that [getEffectiveRollout]
    holds; the engine applies it to the rational of a release. *)
Definition isUnfinishedRolloutNumber (rollout : option Double.number) : bool :=
  match rollout with
  | None => false
  | Some r => negb (r =? 100)%float
  end.

Definition getEffectiveRollout (rolloutInput : option RolloutComputationInput)
    (now : Double.number) : option Double.number :=
  match rolloutInput with
  | None => None
  | Some input =>
    Some
      (let rollout := rollout input in
       if negb (isUnfinishedRolloutNumber rollout) then
         match rollout with None => 100 | Some r => r end
       else
         let uploadTime := uploadTime input in
         let holdDurationMinutes := Double.or_else (holdDurationMinutes input) 0 in
         let rampDurationMinutes := Double.or_else (rampDurationMinutes input) 0 in
         let baseRollout := match rollout with Some r => r | None => 0 end in
         match uploadTime with
         | None => baseRollout
         | Some uploadTime =>
           if negb (Double.truthy uploadTime) then baseRollout
           else
             let elapsedMs := now - uploadTime in
             let holdMs := holdDurationMinutes * MS_PER_MINUTE in
             if ((0 <? holdMs) && (elapsedMs <? holdMs))
                || ((holdMs =? 0) && (elapsedMs <? 0)) then baseRollout
             else if rampDurationMinutes <=? 0 then baseRollout
             else
               let rampMs := rampDurationMinutes * MS_PER_MINUTE in
               let rampElapsed := Double.Math_max 0 (elapsedMs - holdMs) in
               if rampElapsed <=? 0 then baseRollout
               else
                 let progress := Double.Math_min 1 (rampElapsed / rampMs) in
                 let computed := baseRollout + (100 - baseRollout) * progress in
                 Double.Math_min 100
                   (Double.Math_max baseRollout
                      (Double.Math_round (computed * 1000) / 1000))
         end)%float
  end.

(** The accumulator of the specification: every step wrapped to a
    signed 32-bit integer. *)
Fixpoint hash32Loop (chrs : list Z) (h : Z) : Z :=
  match chrs with
  | [] => h
  | chr :: rest => hash32Loop rest (toInt32 (shl h 5 - h + chr))
  end.

Definition hash32 (input : string) : Z := hash32Loop (codeUnits input) 0.

End RolloutSelector.

(** ** Regular expressions of the version normaliser

    The three patterns of update-check-request.ts are written as
    terms and run by their derivatives; [test] is [RegExp.test] for a
    pattern anchored by [^] and [$] (no [m] flag), [search] is
    [String.search]. *)

Module Regex.

Inductive re : Type :=
  | Void : re
  | Eps : re
  | Class : (ascii -> bool) -> re
  | Cat : re -> re -> re
  | Alt : re -> re -> re
  | Star : re -> re.

(** [r+] and [r?] *)
Definition Plus (r : re) : re := Cat r (Star r).
Definition Opt (r : re) : re := Alt r Eps.

Fixpoint nullable (r : re) : bool :=
  match r with
  | Void => false
  | Eps => true
  | Class _ => false
  | Cat r1 r2 => nullable r1 && nullable r2
  | Alt r1 r2 => nullable r1 || nullable r2
  | Star _ => true
  end.

Fixpoint deriv (c : ascii) (r : re) : re :=
  match r with
  | Void => Void
  | Eps => Void
  | Class p => if p c then Eps else Void
  | Cat r1 r2 =>
      if nullable r1 then Alt (Cat (deriv c r1) r2) (deriv c r2)
      else Cat (deriv c r1) r2
  | Alt r1 r2 => Alt (deriv c r1) (deriv c r2)
  | Star r1 => Cat (deriv c r1) (Star r1)
  end.

(** The whole word is matched by [r]. *)
Fixpoint matches (r : re) (w : list ascii) : bool :=
  match w with
  | [] => nullable r
  | c :: w' => matches (deriv c r) w'
  end.

(** Some prefix of the word is matched by [r]. *)
Fixpoint matchesPrefix (r : re) (w : list ascii) : bool :=
  nullable r ||
  match w with
  | [] => false
  | c :: w' => matchesPrefix (deriv c r) w'
  end.

(** [/^r$/.test(s)] *)
Definition test (r : re) (s : string) : bool :=
  matches r (list_ascii_of_string s).

Fixpoint searchFrom (r : re) (w : list ascii) (i : nat) : option nat :=
  if matchesPrefix r w then Some i
  else match w with
       | [] => None
       | _ :: w' => searchFrom r w' (S i)
       end.

(** [s.search(/r/)]: the index of the first match, [None] for -1. *)
Definition search (r : re) (s : string) : option nat :=
  searchFrom r (list_ascii_of_string s) 0.

(** The language of a pattern, for the proofs. *)
Inductive Matches : re -> list ascii -> Prop :=
  | MEps : Matches Eps []
  | MClass p c : p c = true -> Matches (Class p) [c]
  | MCat r1 r2 w1 w2 : Matches r1 w1 -> Matches r2 w2 -> Matches (Cat r1 r2) (w1 ++ w2)
  | MAltL r1 r2 w : Matches r1 w -> Matches (Alt r1 r2) w
  | MAltR r1 r2 w : Matches r2 w -> Matches (Alt r1 r2) w
  | MStarNil r : Matches (Star r) []
  | MStarCons r w1 w2 : Matches r w1 -> Matches (Star r) w2 -> Matches (Star r) (w1 ++ w2).

(** Character classes. *)
Definition isDigit (c : ascii) : bool :=
  (48 <=? nat_of_ascii c)%nat && (nat_of_ascii c <=? 57)%nat.
Definition isChar (d c : ascii) : bool := Ascii.eqb d c.
Definition isPlusMinus (c : ascii) : bool := isChar "+" c || isChar "-" c.
(** [.] without the [s] flag: anything but a line terminator (of
    which LF and CR are the ones below 256). *)
Definition isLineTerminator (c : ascii) : bool :=
  (nat_of_ascii c =? 10)%nat || (nat_of_ascii c =? 13)%nat.
Definition isDot (c : ascii) : bool := negb (isLineTerminator c).

Definition digit : re := Class isDigit.
Definition chr (d : ascii) : re := Class (isChar d).

End Regex.

(** ** Version normaliser and cache-key builder (update-check-request.ts) *)

Module RequestUtils.
Import JS Regex.

(** [s.slice(0, e)] and [s.slice(b)] for indices within the string. *)
Definition slice_to (s : string) (e : nat) : string :=
  string_of_list_ascii (firstn e (list_ascii_of_string s)).
Definition slice_from (s : string) (b : nat) : string :=
  string_of_list_ascii (skipn b (list_ascii_of_string s)).

(** [/^\d+$/] *)
Definition reMajorOnly : re := Plus digit.
(** The pattern [^\d+\.\d+(TAG)?$], where TAG is a [+] or a [-]
    followed by any run of characters matched by the dot. *)
Definition reMajorMinor : re :=
  Cat (Plus digit)
    (Cat (chr ".")
       (Cat (Plus digit)
          (Opt (Cat (Class isPlusMinus) (Star (Class isDot)))))).
(** [/[\+\-]/] *)
Definition reTag : re := Class isPlusMinus.

Definition normalizeAppVersion (version : string) : string :=
  if negb (truthy version) then version
  else if test reMajorOnly version then (version ++ ".0.0")%string
  else if test reMajorMinor version then
    match search reTag version with
    | None => (version ++ ".0")%string
    | Some tagIndex =>
        (slice_to version tagIndex ++ ".0" ++ slice_from version tagIndex)%string
    end
  else version.

(** A value of the parsed query: a string, or the array of the
    values of a repeated field. *)
Inductive QueryValue : Type :=
  | QString : string -> QueryValue
  | QArray : list string -> QueryValue.

(** The parsed query is an object: its own keys in their order of
    enumeration, each once. *)
Definition Query : Type := list (string * QueryValue).

Record UrlObject : Type := { pathname : option string; query : Query }.

(** [url.parse(u, true)] and [querystring.stringify] of Node. *)
Class UrlModule : Type := {
    URL_parse : string -> UrlObject;
    queryString_stringify : Query -> string
  }.

(** [delete q.k] *)
Definition qdelete (k : string) (q : Query) : Query :=
  List.filter (fun kv => negb (String.eqb (fst kv) k)) q.

(** [q.k], [None] for undefined. *)
Fixpoint qget (k : string) (q : Query) : option QueryValue :=
  match q with
  | [] => None
  | (k', v) :: q' => if String.eqb k' k then Some v else qget k q'
  end.

(** [q.k = v]: in place when the key is there, a new last key
    otherwise. *)
Fixpoint qset (k : string) (v : QueryValue) (q : Query) : Query :=
  match q with
  | [] => [(k, v)]
  | (k', v') :: q' => if String.eqb k' k then (k', v) :: q' else (k', v') :: qset k v q'
  end.

(** Truth of [q.k]: an array is an object, an empty string is false. *)
Definition qtruthy (v : option QueryValue) : bool :=
  match v with
  | Some (QString s) => truthy s
  | Some (QArray _) => true
  | None => false
  end.

(** [String(v)]: an array is joined by commas. *)
Definition String_of (v : QueryValue) : string :=
  match v with
  | QString s => s
  | QArray l => String.concat "," l
  end.

(** [p + "?"] for a path name that may be null. *)
Definition pathname_string (p : option string) : string :=
  match p with Some s => s | None => "null" end.

Section CacheKey.
Context `{UrlModule}.

Definition buildUpdateCheckCacheKey (originalUrl : string) (cacheSchema : option string)
  : string :=
  let obj := URL_parse originalUrl in
  let query := qdelete "clientUniqueId" (query obj) in
  let query := qdelete "client_unique_id" query in
  let query := qdelete "beta" query in
  let query := qdelete "packageHash" query in
  let query := qdelete "package_hash" query in
  let query := qdelete "label" query in
  let rawAppVersion :=
    if qtruthy (qget "appVersion" query) then qget "appVersion" query
    else qget "app_version" query in
  let query :=
    match rawAppVersion with
    | Some raw =>
        if qtruthy rawAppVersion then
          let normalizedAppVersion := normalizeAppVersion (String_of raw) in
          let query :=
            if qtruthy (qget "appVersion" query)
            then qset "appVersion" (QString normalizedAppVersion) query else query in
          if qtruthy (qget "app_version" query)
          then qset "app_version" (QString normalizedAppVersion) query else query
        else query
    | None => query
    end in
  let query :=
    match cacheSchema with
    | Some schema =>
        if truthy schema then qset "__cacheSchema" (QString schema) query else query
    | None => query
    end in
  (pathname_string (pathname obj) ++ "?" ++ queryString_stringify query)%string.

End CacheKey.

(** For the statements: the fields of a request that say who asks
    and what the client runs, and the test that a field of the query
    is none of them. *)
Definition clientFields : list string :=
  ["clientUniqueId"; "beta"; "packageHash"; "label"]%string.

Definition otherField (kv : string * QueryValue) : bool :=
  negb (existsb (String.eqb (fst kv)) clientFields).

End RequestUtils.

(** ** Promises and the console

    A computation reads and changes the world (the console, the
    clock, the store behind the cache client) and settles: resolved
    with a value, or rejected with an error.  [try_catch] is both
    [try { await m } catch (e) { h e }] and [m.catch(h)]. *)

Module IO.

Definition Error : Type := string.

Inductive Level : Type := LOG | WARN | ERROR.

(** One call of [console.log], [console.warn] or [console.error]:
    the text, and the error object passed along, if any. *)
Record Entry : Type := { level : Level; text : string; detail : option Error }.

Inductive Outcome (A : Type) : Type :=
  | Resolved : A -> Outcome A
  | Rejected : Error -> Outcome A.
Arguments Resolved {A} _.
Arguments Rejected {A} _.

(** The state of the store behind the cache clients. *)
Class Backend : Type := { Store : Type }.

Section WithBackend.
Context `{Backend}.

Record World : Type := { console : list Entry; clock : Q; store : Store }.

Definition IO (A : Type) : Type := World -> World * Outcome A.

Definition ret {A} (a : A) : IO A := fun w => (w, Resolved a).

Definition throw {A} (e : Error) : IO A := fun w => (w, Rejected e).

Definition bind {A B} (m : IO A) (k : A -> IO B) : IO B :=
  fun w =>
    match m w with
    | (w', Resolved a) => k a w'
    | (w', Rejected e) => (w', Rejected e)
    end.

Definition try_catch {A} (m : IO A) (h : Error -> IO A) : IO A :=
  fun w =>
    match m w with
    | (w', Resolved a) => (w', Resolved a)
    | (w', Rejected e) => h e w'
    end.

Definition console_write (l : Level) (msg : string) (err : option Error) : IO unit :=
  fun w =>
    ({| console := console w ++ [ {| level := l; text := msg; detail := err |} ];
        clock := clock w; store := store w |}, Resolved tt).

Definition console_log (msg : string) : IO unit := console_write LOG msg None.
Definition console_warn (msg : string) (err : Error) : IO unit :=
  console_write WARN msg (Some err).
Definition console_error (msg : string) (err : Error) : IO unit :=
  console_write ERROR msg (Some err).

(** [Date.now()] *)
Definition Date_now : IO Q := fun w => (w, Resolved (clock w)).

(** An operation of the store: it may change the store, and it
    settles either way. *)
Definition store_op {A} (f : Store -> Store * Outcome A) : IO A :=
  fun w =>
    let (s', o) := f (store w) in
    ({| console := console w; clock := clock w; store := s' |}, o).

End WithBackend.

Declare Scope io_scope.
Delimit Scope io_scope with io.
Notation "'do' x <- m ; k" := (bind m (fun x => k))
  (at level 10, x name, m at level 100, k at level 200, only parsing) : io_scope.
Notation "'run' m ; k" := (bind m (fun _ => k))
  (at level 10, m at level 100, k at level 200, only parsing) : io_scope.

End IO.

(** ** Types of the update check (rest-definitions.ts, storage.ts) *)

Module BlobInfo.
(** Modelled from the spec: the declaration of the entries of a diff
    map (storage.ts) is not among the sources; an entry is the
    [{size, url}] of a binary-diff archive. *)
Record t : Type := { size : Q; url : string }.
End BlobInfo.

(** [PackageHashToBlobInfoMap]: from a source package hash to the diff
    archive leading from it. *)
Abbreviation PackageHashToBlobInfoMap := (gmap string BlobInfo.t).

Module Package.
(** Modelled from the spec: the declaration of [Package] (storage.ts)
    is not among the sources; these are the fields read by
    [convertToCachedRelease], with the types of the release of the
    data model. *)
Record t : Type := {
    appVersion : string;
    blobUrl : string;
    description : option string;
    isDisabled : option bool;
    isMandatory : option bool;
    label : option string;
    packageHash : string;
    size : Q;
    rollout : option Q;
    holdDurationMinutes : option Q;
    rampDurationMinutes : option Q;
    uploadTime : Q
  }.
End Package.

Module CachedRelease.
Record t : Type := {
    appVersion : string;
    blobUrl : string;
    description : option string;
    isDisabled : option bool;
    isMandatory : option bool;
    label : option string;
    packageHash : string;
    size : Q;
    rollout : option Q;
    rolloutHoldDurationMinutes : option Q;
    rolloutRampDurationMinutes : option Q;
    rolloutUploadTime : option Q
  }.
End CachedRelease.

Module UpdateCheckResponse.
(** The fields of [PackageInfo] that the update check never writes
    ([rollout] and the two durations) are left out. *)
Record t : Type := {
    downloadURL : option string;
    description : option string;
    isAvailable : bool;
    isMandatory : option bool;
    appVersion : string;
    packageHash : option string;
    label : option string;
    packageSize : option Q;
    updateAppVersion : bool;
    target_binary_range : option string
  }.

Definition set_downloadURL (v : string) (r : t) : t :=
  {| downloadURL := Some v; description := description r; isAvailable := isAvailable r;
     isMandatory := isMandatory r; appVersion := appVersion r; packageHash := packageHash r;
     label := label r; packageSize := packageSize r; updateAppVersion := updateAppVersion r;
     target_binary_range := target_binary_range r |}.
Definition set_packageSize (v : Q) (r : t) : t :=
  {| downloadURL := downloadURL r; description := description r; isAvailable := isAvailable r;
     isMandatory := isMandatory r; appVersion := appVersion r; packageHash := packageHash r;
     label := label r; packageSize := Some v; updateAppVersion := updateAppVersion r;
     target_binary_range := target_binary_range r |}.
Definition set_isMandatory (v : bool) (r : t) : t :=
  {| downloadURL := downloadURL r; description := description r; isAvailable := isAvailable r;
     isMandatory := Some v; appVersion := appVersion r; packageHash := packageHash r;
     label := label r; packageSize := packageSize r; updateAppVersion := updateAppVersion r;
     target_binary_range := target_binary_range r |}.
Definition set_appVersion (v : string) (r : t) : t :=
  {| downloadURL := downloadURL r; description := description r; isAvailable := isAvailable r;
     isMandatory := isMandatory r; appVersion := v; packageHash := packageHash r;
     label := label r; packageSize := packageSize r; updateAppVersion := updateAppVersion r;
     target_binary_range := target_binary_range r |}.
Definition set_target_binary_range (v : string) (r : t) : t :=
  {| downloadURL := downloadURL r; description := description r; isAvailable := isAvailable r;
     isMandatory := isMandatory r; appVersion := appVersion r; packageHash := packageHash r;
     label := label r; packageSize := packageSize r; updateAppVersion := updateAppVersion r;
     target_binary_range := Some v |}.
End UpdateCheckResponse.

Module UpdateCheckCacheResponse.
(** The body of a cached response is parsed JSON: the list may be
    missing and may hold nulls, which the selection engine skips. *)
Record t : Type := { releases : option (list (option CachedRelease.t)) }.
End UpdateCheckCacheResponse.

Module UpdateCheckRequest.
Record t : Type := {
    appVersion : string;
    clientUniqueId : option string;
    deploymentKey : string;
    isCompanion : option bool;
    beta : option bool;
    label : option string;
    packageHash : option string
  }.
End UpdateCheckRequest.

(** [CacheableResponse] of redis-manager.ts. *)
Module CacheableResponse.
Record t : Type := { statusCode : Z; body : UpdateCheckCacheResponse.t }.
End CacheableResponse.

(** ** What the code takes from its platform

    [semver.satisfies], the environment variable read by
    environment.ts and the four lines of [proxyBlobUrl] that go
    through the URL class of Node: the URL of the proxy with the path
    and the query of the blob URL, or the error thrown on the way. *)
Class Platform : Type := {
  semver_satisfies : string -> string -> bool;
  process_env_UPDATE_CHECK_PROXY_URL : option string;
  URL_rebase : string -> string -> IO.Outcome string
}.

(** ** The update-selection engine (acquisition.ts) *)

Module Acquisition.
Import JS IO RolloutSelector RequestUtils.
Local Open Scope io_scope.

Section Engine.
Context `{Backend} `{Platform}.

(** environment.ts *)
Definition getUpdateCheckProxyUrl : option string := process_env_UPDATE_CHECK_PROXY_URL.

Definition proxyBlobUrl (azureUrl : string) : IO string :=
  try_catch
    (let proxyUrl := getUpdateCheckProxyUrl in
     match proxyUrl with
     | Some p => if negb (truthy p) then ret azureUrl
                 else fun w => (w, URL_rebase p azureUrl)
     | None => ret azureUrl
     end)
    (fun error =>
       run console_warn "Failed to proxy blob URL:" error ;
       ret azureUrl).

Definition convertToCachedRelease (pkg : Package.t) : CachedRelease.t :=
  {| CachedRelease.appVersion := Package.appVersion pkg;
     CachedRelease.blobUrl := Package.blobUrl pkg;
     CachedRelease.description := Package.description pkg;
     CachedRelease.isDisabled := Package.isDisabled pkg;
     CachedRelease.isMandatory := Package.isMandatory pkg;
     CachedRelease.label := Package.label pkg;
     CachedRelease.packageHash := Package.packageHash pkg;
     CachedRelease.size := Package.size pkg;
     CachedRelease.rollout := Package.rollout pkg;
     CachedRelease.rolloutHoldDurationMinutes := Package.holdDurationMinutes pkg;
     CachedRelease.rolloutRampDurationMinutes := Package.rampDurationMinutes pkg;
     CachedRelease.rolloutUploadTime := Some (Package.uploadTime pkg) |}.

(** The loop runs [i] from the last index down to 0 and pushes the
    packages that apply: a left fold over the reversed history. *)
Definition getUpdatePackageInfo (packageHistory : option (list Package.t))
    (request : UpdateCheckRequest.t) : UpdateCheckCacheResponse.t :=
  let releases :=
    match packageHistory with
    | Some ((_ :: _) as history) =>
        let normalizedVersion := normalizeAppVersion (UpdateCheckRequest.appVersion request) in
        fold_left
          (fun releases pkg =>
             if truthy_bool (UpdateCheckRequest.isCompanion request)
                || semver_satisfies normalizedVersion (Package.appVersion pkg)
             then releases ++ [Some (convertToCachedRelease pkg)]
             else releases)
          (rev history) []
    | _ => []
    end in
  {| UpdateCheckCacheResponse.releases := Some releases |}.

Definition createUpdateInfoFromRelease (release : CachedRelease.t)
  : IO UpdateCheckResponse.t :=
  do downloadURL <- proxyBlobUrl (CachedRelease.blobUrl release) ;
  let response :=
    {| UpdateCheckResponse.downloadURL := Some downloadURL;
       UpdateCheckResponse.description := CachedRelease.description release;
       UpdateCheckResponse.isAvailable := negb (truthy_bool (CachedRelease.isDisabled release));
       UpdateCheckResponse.isMandatory := Some (truthy_bool (CachedRelease.isMandatory release));
       UpdateCheckResponse.appVersion := CachedRelease.appVersion release;
       UpdateCheckResponse.packageHash := Some (CachedRelease.packageHash release);
       UpdateCheckResponse.label := CachedRelease.label release;
       UpdateCheckResponse.packageSize := Some (CachedRelease.size release);
       UpdateCheckResponse.updateAppVersion := false;
       UpdateCheckResponse.target_binary_range := None |} in
  ret (UpdateCheckResponse.set_target_binary_range (CachedRelease.appVersion release) response).

(** The update information is changed in place by the source; here
    the changed record is returned.  [diffMap[requestPackageHash]] is
    the lookup of the own entries of the map: the members that an
    object of JavaScript inherits are not among them. *)
Definition applyDiffPayload (updateInfo : UpdateCheckResponse.t)
    (diffMap : option PackageHashToBlobInfoMap) (requestPackageHash : string)
  : IO UpdateCheckResponse.t :=
  match diffMap with
  | Some diffMap =>
      if negb (truthy requestPackageHash) then ret updateInfo
      else
        match diffMap !! requestPackageHash with
        | Some diff =>
            do downloadURL <- proxyBlobUrl (BlobInfo.url diff) ;
            ret (UpdateCheckResponse.set_packageSize (BlobInfo.size diff)
                   (UpdateCheckResponse.set_downloadURL downloadURL updateInfo))
        | None => ret updateInfo
        end
  | None => ret updateInfo
  end.

Definition isClientPackage (release : CachedRelease.t)
    (requestLabel requestPackageHash : string) : bool :=
  if truthy requestLabel then
    match CachedRelease.label release with
    | Some l => String.eqb l requestLabel
    | None => false
    end
  else truthy requestPackageHash
       && String.eqb (CachedRelease.packageHash release) requestPackageHash.

(** [getEffectiveRollout] is called with its default [now], the
    clock read at the call; a null result would compare as 0.  The
    fields of the release and the clock are rationals:
    [getEffectiveRollout] receives the doubles nearest to them, and
    its result is compared as the number it stands for. *)
Definition isClientSelectedForRollout (release : CachedRelease.t)
    (clientUniqueId releaseKey : string) : IO bool :=
  match CachedRelease.rollout release with
  | Some _ =>
      if negb (truthy clientUniqueId) then ret false
      else
        do now <- Date_now ;
        let effectiveRollout :=
          getEffectiveRollout
            (Some {| rollout := option_map Double.of_Q (CachedRelease.rollout release);
                     holdDurationMinutes :=
                       option_map Double.of_Q (CachedRelease.rolloutHoldDurationMinutes release);
                     rampDurationMinutes :=
                       option_map Double.of_Q (CachedRelease.rolloutRampDurationMinutes release);
                     uploadTime :=
                       option_map Double.of_Q (CachedRelease.rolloutUploadTime release) |})
            (Double.of_Q now) in
        ret (isSelectedForRollout clientUniqueId
               (match effectiveRollout with Some e => Double.to_Q e | None => 0%Q end)
               releaseKey)
  | None => ret false
  end.

Definition buildNoUpdateResponse (rawAppVersion normalizedAppVersion : string)
  : UpdateCheckResponse.t :=
  {| UpdateCheckResponse.downloadURL := None;
     UpdateCheckResponse.description := None;
     UpdateCheckResponse.isAvailable := false;
     UpdateCheckResponse.isMandatory := None;
     UpdateCheckResponse.appVersion := or_else rawAppVersion normalizedAppVersion;
     UpdateCheckResponse.packageHash := None;
     UpdateCheckResponse.label := None;
     UpdateCheckResponse.packageSize := None;
     UpdateCheckResponse.updateAppVersion := false;
     UpdateCheckResponse.target_binary_range := None |}.

Definition DiffMapFetcher : Type := string -> IO (option PackageHashToBlobInfoMap).

Definition hydrateDiffPayloadForRelease (updateInfo : UpdateCheckResponse.t)
    (release : option CachedRelease.t) (requestPackageHash : string)
    (diffMapFetcher : DiffMapFetcher) : IO UpdateCheckResponse.t :=
  match release with
  | Some release =>
      if negb (truthy requestPackageHash) then ret updateInfo
      else
        try_catch
          (do diffMap <- diffMapFetcher (CachedRelease.packageHash release) ;
           match diffMap with
           | Some _ => applyDiffPayload updateInfo diffMap requestPackageHash
           | None => ret updateInfo
           end)
          (fun error =>
             run console_warn "Failed to hydrate diff package map for updateCheck" error ;
             ret updateInfo)
  | None => ret updateInfo
  end.

Record UpdateCheckBody : Type := { updateInfo : UpdateCheckResponse.t }.

Definition finalizeUpdateCheckResponse (updateInfo : UpdateCheckResponse.t)
    (release : CachedRelease.t) (forceMandatory : bool)
    (rawAppVersion normalizedAppVersion : string) : UpdateCheckBody :=
  let updateInfo :=
    if forceMandatory then UpdateCheckResponse.set_isMandatory true updateInfo
    else updateInfo in
  let updateInfo :=
    UpdateCheckResponse.set_target_binary_range (CachedRelease.appVersion release) updateInfo in
  let updateInfo :=
    UpdateCheckResponse.set_appVersion (or_else rawAppVersion normalizedAppVersion) updateInfo in
  {| updateInfo := updateInfo |}.

(** The four variables of the walk of [buildUpdateCheckBody]. *)
Record Walk : Type := {
    selectedUpdate : option UpdateCheckResponse.t;
    selectedRelease : option CachedRelease.t;
    forceMandatory : bool;
    pendingMandatory : bool
  }.

Definition walkStart : Walk :=
  {| selectedUpdate := None; selectedRelease := None;
     forceMandatory := false; pendingMandatory := false |}.

(** The parameters of [buildUpdateCheckBody] other than the response. *)
Record Request : Type := {
    clientUniqueId : string;
    betaRequested : bool;
    requestLabel : string;
    requestPackageHash : string;
    rawAppVersion : string;
    normalizedAppVersion : string;
    requestIsCompanion : bool;
    diffMapFetcher : DiffMapFetcher
  }.

(** How one turn of the loop ends: [continue] (or the end of the
    body) with the variables as they are then, or [return]. *)
Inductive Turn : Type :=
  | Continue : Walk -> Turn
  | Return : UpdateCheckBody -> Turn.

Definition releaseApplies (rq : Request) (release : CachedRelease.t) : bool :=
  requestIsCompanion rq
  || (truthy (normalizedAppVersion rq)
      && (0 <? String.length (normalizedAppVersion rq))%nat
      && semver_satisfies (normalizedAppVersion rq) (CachedRelease.appVersion release)).

Definition releaseKey (release : CachedRelease.t) : string :=
  match CachedRelease.label release with
  | Some l => or_else l (CachedRelease.packageHash release)
  | None => CachedRelease.packageHash release
  end.

(** The body of [for (const release of releases)]. *)
Definition walkRelease (rq : Request) (vars : Walk) (release : option CachedRelease.t)
  : IO Turn :=
  match release with
  | None => ret (Continue vars)
  | Some release =>
    let isCurrentRelease :=
      isClientPackage release (requestLabel rq) (requestPackageHash rq) in
    if isCurrentRelease && truthy_bool (CachedRelease.isDisabled release) then
      ret (Continue vars)
    else if isCurrentRelease then
      match selectedUpdate vars, selectedRelease vars with
      | Some update, Some selected =>
          do update <- hydrateDiffPayloadForRelease update (Some selected)
                         (requestPackageHash rq) (diffMapFetcher rq) ;
          ret (Return (finalizeUpdateCheckResponse update selected (forceMandatory vars)
                         (rawAppVersion rq) (normalizedAppVersion rq)))
      | _, _ =>
          let noUpdate := buildNoUpdateResponse (rawAppVersion rq) (normalizedAppVersion rq) in
          ret (Return
                 {| updateInfo :=
                      UpdateCheckResponse.set_target_binary_range
                        (UpdateCheckResponse.appVersion noUpdate) noUpdate |})
      end
    else if truthy_bool (CachedRelease.isDisabled release) then
      ret (Continue vars)
    else if negb (releaseApplies rq release) then
      ret (Continue vars)
    else
      match selectedUpdate vars with
      | Some _ =>
          ret (Continue
                 (if truthy_bool (CachedRelease.isMandatory release)
                  then {| selectedUpdate := selectedUpdate vars;
                          selectedRelease := selectedRelease vars;
                          forceMandatory := true;
                          pendingMandatory := pendingMandatory vars |}
                  else vars))
      | None =>
          let isRollout := isUnfinishedRollout (CachedRelease.rollout release) in
          do updateInfo <-
            (if negb isRollout then
               do u <- createUpdateInfoFromRelease release ; ret (Some u)
             else if betaRequested rq then
               do u <- createUpdateInfoFromRelease release ; ret (Some u)
             else
               do selected <- isClientSelectedForRollout release (clientUniqueId rq)
                                (releaseKey release) ;
               if (selected : bool) then
                 do u <- createUpdateInfoFromRelease release ; ret (Some u)
               else ret None) ;
          match updateInfo with
          | Some updateInfo =>
              ret (Continue
                     {| selectedUpdate := Some updateInfo;
                        selectedRelease := Some release;
                        forceMandatory :=
                          pendingMandatory vars
                          || truthy_bool (CachedRelease.isMandatory release);
                        pendingMandatory := pendingMandatory vars |})
          | None =>
              ret (Continue
                     (if truthy_bool (CachedRelease.isMandatory release)
                      then {| selectedUpdate := selectedUpdate vars;
                              selectedRelease := selectedRelease vars;
                              forceMandatory := forceMandatory vars;
                              pendingMandatory := true |}
                      else vars))
          end
      end
  end.

(** The loop: the turns in the order of the list, up to the first
    [return]. *)
Fixpoint walk (rq : Request) (releases : list (option CachedRelease.t)) (vars : Walk)
  : IO Turn :=
  match releases with
  | [] => ret (Continue vars)
  | release :: rest =>
      do turn <- walkRelease rq vars release ;
      match turn with
      | Continue vars' => walk rq rest vars'
      | Return body => ret (Return body)
      end
  end.

(** After the loop: a [return] of the loop is the result; otherwise
    the selected update is completed, or there is none. *)
Definition afterWalk (rq : Request) (turn : Turn) : IO UpdateCheckBody :=
  match turn with
  | Return body => ret body
  | Continue vars =>
      match selectedUpdate vars, selectedRelease vars with
      | Some update, Some selected =>
          do update <- hydrateDiffPayloadForRelease update (Some selected)
                         (requestPackageHash rq) (diffMapFetcher rq) ;
          ret (finalizeUpdateCheckResponse update selected (forceMandatory vars)
                 (rawAppVersion rq) (normalizedAppVersion rq))
      | _, _ =>
          let fallback := buildNoUpdateResponse (rawAppVersion rq) (normalizedAppVersion rq) in
          ret {| updateInfo :=
                   UpdateCheckResponse.set_target_binary_range
                     (UpdateCheckResponse.appVersion fallback) fallback |}
      end
  end.

(** The body that says there is no update, as both exits build it. *)
Definition noUpdateBody (rq : Request) : UpdateCheckBody :=
  let noUpdate := buildNoUpdateResponse (rawAppVersion rq) (normalizedAppVersion rq) in
  {| updateInfo :=
       UpdateCheckResponse.set_target_binary_range
         (UpdateCheckResponse.appVersion noUpdate) noUpdate |}.

Definition buildUpdateCheckBody (response : CacheableResponse.t) (rq : Request)
  : IO UpdateCheckBody :=
  let cachedResponseObject := CacheableResponse.body response in
  let releases :=
    match UpdateCheckCacheResponse.releases cachedResponseObject with
    | Some releases => releases
    | None => []
    end in
  do turn <- walk rq releases walkStart ;
  afterWalk rq turn.

End Engine.

Arguments proxyBlobUrl : simpl never.
Arguments createUpdateInfoFromRelease : simpl never.
Arguments isClientSelectedForRollout : simpl never.
Arguments hydrateDiffPayloadForRelease : simpl never.
Arguments applyDiffPayload : simpl never.
Arguments finalizeUpdateCheckResponse : simpl never.

End Acquisition.

(** ** The response cache client (redis-manager.ts) *)

Module RedisManager.
Import JS IO.
Local Open Scope io_scope.
Local Open Scope string_scope.

Definition DEPLOYMENT_SUCCEEDED : string := "DeploymentSucceeded".
Definition DEPLOYMENT_FAILED : string := "DeploymentFailed".
Definition ACTIVE : string := "Active".
Definition DOWNLOADED : string := "Downloaded".

Module Utilities.
Definition isValidDeploymentStatus (status : string) : bool :=
  String.eqb status DEPLOYMENT_SUCCEEDED
  || String.eqb status DEPLOYMENT_FAILED
  || String.eqb status DOWNLOADED.

Definition getDeploymentKeyHash (deploymentKey : string) : string :=
  "deploymentKey:" ++ deploymentKey.
End Utilities.

(** [JSON.parse] (which throws on text that is not JSON) and
    [JSON.stringify] on cacheable responses. *)
Class Json : Type := {
    JSON_parse : string -> Outcome CacheableResponse.t;
    JSON_stringify : CacheableResponse.t -> string
  }.

Section Manager.
Context `{Backend} `{Json}.

(** The promisified commands used by the response cache. *)
Record PromisifiedRedisClient : Type := {
    exists_ : string -> IO Z;
    expire : string -> Z -> IO Z;
    hget : string -> string -> IO (option string);
    hset : string -> string -> string -> IO Z
  }.

(** A client and its promisified wrapper are created together, so
    one optional field stands for both; when the manager is enabled
    both are there, and the call of a command on a missing client
    (a TypeError in the source) is never reached. *)
Record t : Type := {
    _promisifiedOpsClient : option PromisifiedRedisClient;
    _promisifiedMetricsClient : option PromisifiedRedisClient
  }.

Definition DEFAULT_EXPIRY : Z := 3600.

Definition isEnabled (this : t) : bool :=
  match _promisifiedOpsClient this, _promisifiedMetricsClient this with
  | Some _, Some _ => true
  | _, _ => false
  end.

Definition getCachedResponse (this : t) (expiryKey url : string)
  : IO (option CacheableResponse.t) :=
  if negb (isEnabled this) then
    run console_log ("[Redis] Cache disabled, skipping getCachedResponse for key: " ++ expiryKey) ;
    ret None
  else
    run console_log ("[Redis] Attempting to get cached response - Key: " ++ expiryKey
                     ++ ", URL: " ++ url) ;
    match _promisifiedOpsClient this with
    | Some ops =>
        try_catch
          (do serializedResponse <- hget ops expiryKey url ;
           if truthy_opt serializedResponse then
             run console_log ("[Redis] Found cached response for key: " ++ expiryKey) ;
             do response <- (fun w => (w, JSON_parse (default "" serializedResponse))) ;
             ret (Some response)
           else
             run console_log ("[Redis] No cached response found for key: " ++ expiryKey) ;
             ret None)
          (fun err =>
             run console_error ("[Redis] Error getting cached response for key "
                                ++ expiryKey ++ ":") err ;
             throw err)
    | None => throw "TypeError: Cannot read properties of undefined"
    end.

Definition setCachedResponse (this : t) (expiryKey url : string)
    (response : CacheableResponse.t) : IO unit :=
  if negb (isEnabled this) then
    run console_log ("[Redis] Cache disabled, skipping setCachedResponse for key: " ++ expiryKey) ;
    ret tt
  else
    run console_log ("[Redis] Setting cached response - Key: " ++ expiryKey
                     ++ ", URL: " ++ url) ;
    let serializedResponse := JSON_stringify response in
    match _promisifiedOpsClient this with
    | Some ops =>
        try_catch
          (do isExisting <- exists_ ops expiryKey ;
           let isNewKey := (isExisting =? 0)%Z in
           run console_log ("[Redis] Key " ++ expiryKey ++ " exists: "
                            ++ (if negb isNewKey then "true" else "false")) ;
           run hset ops expiryKey url serializedResponse ;
           run (if isNewKey then
                  run console_log ("[Redis] Setting expiry for new key: " ++ expiryKey) ;
                  run expire ops expiryKey DEFAULT_EXPIRY ;
                  ret tt
                else ret tt) ;
           run console_log ("[Redis] Successfully cached response for key: " ++ expiryKey) ;
           ret tt)
          (fun err =>
             run console_error ("[Redis] Error setting cached response for key "
                                ++ expiryKey ++ ":") err ;
             throw err)
    | None => throw "TypeError: Cannot read properties of undefined"
    end.

(** The two places of the update-check handler (routes/acquisition.ts)
    that call the cache: the read, whose error is kept aside in
    [redisError] while the handler goes on with null, and the write
    after the response is sent, whose error is only warned about. *)
Definition updateCheck_readCache (redisManager : t) (key url : string)
  : IO (option CacheableResponse.t * option Error) :=
  try_catch
    (do cachedResponse <- getCachedResponse redisManager key url ;
     ret (cachedResponse, None))
    (fun error => ret (None, Some error)).

Definition updateCheck_writeCache (redisManager : t) (key url : string)
    (response : CacheableResponse.t) : IO unit :=
  try_catch
    (setCachedResponse redisManager key url response)
    (fun error => console_warn "Failed to set updateCheck cache" error).

End Manager.
End RedisManager.

(** ** The report-deploy handler (routes/acquisition.ts) *)

Module Routes.
Import JS IO.
Local Open Scope io_scope.
Local Open Scope string_scope.

Definition METRICS_BREAKING_VERSION : string := "1.5.2-beta".

(** The JSON body of a deploy report, in both spellings. *)
Record DeployReportBody : Type := {
    deploymentKey : option string;
    deployment_key : option string;
    appVersion : option string;
    app_version : option string;
    previousDeploymentKey : option string;
    previous_deployment_key : option string;
    previousLabelOrAppVersion : option string;
    previous_label_or_app_version : option string;
    clientUniqueId : option string;
    client_unique_id : option string;
    label : option string;
    status : option string
  }.

(** The request: its body and what [restHeaders.getSdkVersion]
    reads from its headers. *)
Record Request : Type := { body : DeployReportBody; sdkVersion : option string }.

(** Modelled from the spec: rest-error-handling.ts is not among the
    sources; a malformed request is answered synchronously with
    HTTP 400 and a message.  [res.sendStatus(200)] is the other
    reply of the handler. *)
Inductive Reply : Type :=
  | MalformedRequestError : string -> Reply
  | SendStatus : Z -> Reply.

Definition replyStatus (r : Reply) : Z :=
  match r with MalformedRequestError _ => 400 | SendStatus code => code end.

(** [semver.valid] (as a truth value) and [semver.gte]. *)
Class SemverOrder : Type := {
    semver_valid : option string -> bool;
    semver_gte : string -> string -> bool
  }.

Section Handler.
Context `{Backend} `{SemverOrder}.

(** The metrics methods of the manager that the handler calls. *)
Record MetricsManager : Type := {
    incrementLabelStatusCount : string -> string -> string -> IO unit;
    recordUpdate : string -> string -> string -> option string -> IO unit;
    removeDeploymentKeyClientActiveLabel : string -> string -> IO unit;
    getCurrentActiveLabel : string -> string -> IO (option string);
    updateActiveAppForClient : string -> string -> string -> option string -> IO unit
  }.

(** The string of a field already known to be truthy. *)
Definition str (o : option string) : string :=
  match o with Some s => s | None => "" end.

Definition reportStatusDeploy (redisManager : MetricsManager) (req : Request) : IO Reply :=
  let b := body req in
  let deploymentKey := or_opt (deploymentKey b) (deployment_key b) in
  let appVersion := or_opt (appVersion b) (app_version b) in
  let previousDeploymentKey :=
    or_opt (or_opt (previousDeploymentKey b) (previous_deployment_key b)) deploymentKey in
  let previousLabelOrAppVersion :=
    or_opt (previousLabelOrAppVersion b) (previous_label_or_app_version b) in
  let clientUniqueId := or_opt (clientUniqueId b) (client_unique_id b) in
  if negb (truthy_opt deploymentKey) || negb (truthy_opt appVersion) then
    ret (MalformedRequestError
           "A deploy status report must contain a valid appVersion and deploymentKey.")
  else if truthy_opt (label b) && negb (truthy_opt (status b)) then
    ret (MalformedRequestError
           "A deploy status report for a labelled package must contain a valid status.")
  else if truthy_opt (label b)
          && negb (RedisManager.Utilities.isValidDeploymentStatus (str (status b))) then
    ret (MalformedRequestError ("Invalid status: " ++ str (status b)))
  else if semver_valid (sdkVersion req)
          && semver_gte (str (sdkVersion req)) METRICS_BREAKING_VERSION then
    (* the reply is sent first; the metrics follow *)
    run try_catch
          (run (if truthy_opt (label b)
                   && String.eqb (str (status b)) RedisManager.DEPLOYMENT_FAILED
                then incrementLabelStatusCount redisManager
                       (str deploymentKey) (str (label b)) (str (status b))
                else
                  let labelOrAppVersion := str (or_opt (label b) appVersion) in
                  recordUpdate redisManager (str deploymentKey) labelOrAppVersion
                    (str previousDeploymentKey) previousLabelOrAppVersion) ;
           if truthy_opt clientUniqueId then
             removeDeploymentKeyClientActiveLabel redisManager
               (str previousDeploymentKey) (str clientUniqueId)
           else ret tt)
          (fun error => console_warn "Failed to record deploy metric" error) ;
    ret (SendStatus 200)
  else if negb (truthy_opt clientUniqueId) then
    ret (MalformedRequestError
           "A deploy status report must contain a valid appVersion, clientUniqueId and deploymentKey.")
  else
    run try_catch
          (do currentVersionLabel <-
             getCurrentActiveLabel redisManager (str deploymentKey) (str clientUniqueId) ;
           if truthy_opt (label b)
              && negb (bool_decide (label b = currentVersionLabel)) then
             run incrementLabelStatusCount redisManager
                   (str deploymentKey) (str (label b)) (str (status b)) ;
             if String.eqb (str (status b)) RedisManager.DEPLOYMENT_SUCCEEDED then
               updateActiveAppForClient redisManager (str deploymentKey)
                 (str clientUniqueId) (str (label b)) currentVersionLabel
             else ret tt
           else if negb (truthy_opt (label b))
                   && negb (bool_decide (appVersion = currentVersionLabel)) then
             updateActiveAppForClient redisManager (str deploymentKey)
               (str clientUniqueId) (str appVersion) appVersion
           else ret tt)
          (fun error => console_warn "Failed to record legacy deploy metric" error) ;
    ret (SendStatus 200).

End Handler.
End Routes.

(** ** A small deployment, to run the model on *)

Module Fixtures.
Import JS IO Acquisition.
Local Open Scope string_scope.

(** A store without state. *)
Definition backend : Backend := {| Store := unit |}.

(** No proxy is configured; a range is satisfied by the version
    equal to it. *)
Definition platform : Platform :=
  {| semver_satisfies := String.eqb;
     process_env_UPDATE_CHECK_PROXY_URL := None;
     URL_rebase := fun _ azureUrl => Resolved azureUrl |}.

Definition world : @World backend := @Build_World backend [] 0 tt.

Definition release (label packageHash : string) (isMandatory : bool) (rollout : option Q)
  : CachedRelease.t :=
  {| CachedRelease.appVersion := "1.0.0";
     CachedRelease.blobUrl := "https://blobs.example/" ++ packageHash;
     CachedRelease.description := None;
     CachedRelease.isDisabled := Some false;
     CachedRelease.isMandatory := Some isMandatory;
     CachedRelease.label := Some label;
     CachedRelease.packageHash := packageHash;
     CachedRelease.size := 1000;
     CachedRelease.rollout := rollout;
     CachedRelease.rolloutHoldDurationMinutes := None;
     CachedRelease.rolloutRampDurationMinutes := None;
     CachedRelease.rolloutUploadTime := None |}.

(** A release at 20 percent, uploaded at the time 1000, held for 5
    minutes and ramped up over the 10 minutes that follow. *)
Definition rampedRelease (label packageHash : string) : CachedRelease.t :=
  {| CachedRelease.appVersion := "1.0.0";
     CachedRelease.blobUrl := "https://blobs.example/" ++ packageHash;
     CachedRelease.description := None;
     CachedRelease.isDisabled := Some false;
     CachedRelease.isMandatory := Some false;
     CachedRelease.label := Some label;
     CachedRelease.packageHash := packageHash;
     CachedRelease.size := 1000;
     CachedRelease.rollout := Some 20%Q;
     CachedRelease.rolloutHoldDurationMinutes := Some 5%Q;
     CachedRelease.rolloutRampDurationMinutes := Some 10%Q;
     CachedRelease.rolloutUploadTime := Some 1000%Q |}.

Definition response (releases : list CachedRelease.t) : CacheableResponse.t :=
  {| CacheableResponse.statusCode := 200;
     CacheableResponse.body :=
       {| UpdateCheckCacheResponse.releases := Some (map Some releases) |} |}.

(** A request for version 1.0.0 from a client that runs the package
    [packageHash]. *)
Definition request (clientUniqueId packageHash : string)
    (diffMapFetcher : @DiffMapFetcher backend) : @Request backend :=
  {| clientUniqueId := clientUniqueId;
     betaRequested := false;
     requestLabel := "";
     requestPackageHash := packageHash;
     rawAppVersion := "1.0.0";
     normalizedAppVersion := "1.0.0";
     requestIsCompanion := false;
     diffMapFetcher := diffMapFetcher |}.

Definition package (label packageHash : string) (uploadTime : Q) : Package.t :=
  {| Package.appVersion := "1.0.0";
     Package.blobUrl := "https://blobs.example/" ++ packageHash;
     Package.description := None;
     Package.isDisabled := Some false;
     Package.isMandatory := Some false;
     Package.label := Some label;
     Package.packageHash := packageHash;
     Package.size := 1000;
     Package.rollout := None;
     Package.holdDurationMinutes := None;
     Package.rampDurationMinutes := None;
     Package.uploadTime := uploadTime |}.

Definition updateRequest : UpdateCheckRequest.t :=
  {| UpdateCheckRequest.appVersion := "1.0.0";
     UpdateCheckRequest.clientUniqueId := None;
     UpdateCheckRequest.deploymentKey := "key";
     UpdateCheckRequest.isCompanion := None;
     UpdateCheckRequest.beta := None;
     UpdateCheckRequest.label := None;
     UpdateCheckRequest.packageHash := None |}.

(** A cache whose connection is down: every command is rejected. *)
Definition json : RedisManager.Json :=
  {| RedisManager.JSON_parse := fun _ => Rejected "SyntaxError";
     RedisManager.JSON_stringify := fun _ => "{}" |}.

Definition brokenClient : @RedisManager.PromisifiedRedisClient backend :=
  {| RedisManager.exists_ := fun _ => throw "ECONNRESET";
     RedisManager.expire := fun _ _ => throw "ECONNRESET";
     RedisManager.hget := fun _ _ => throw "ECONNRESET";
     RedisManager.hset := fun _ _ _ => throw "ECONNRESET" |}.

Definition brokenManager : @RedisManager.t backend :=
  {| RedisManager._promisifiedOpsClient := Some brokenClient;
     RedisManager._promisifiedMetricsClient := Some brokenClient |}.

(** A metrics store that keeps the journal of the calls it receives,
    on a platform where every SDK version given is valid and recent. *)
Definition journalBackend : Backend := {| Store := list string |}.

Definition journalWorld : @World journalBackend := @Build_World journalBackend [] 0 [].

Definition journal {A : Type} (call : string) (a : A) : @IO.IO journalBackend A :=
  @store_op journalBackend A (fun calls : list string => ((calls ++ [call])%list, Resolved a)).

Definition journalManager : @Routes.MetricsManager journalBackend :=
  {| Routes.incrementLabelStatusCount := fun deploymentKey label status =>
       journal ("incrementLabelStatusCount " ++ deploymentKey ++ " " ++ label ++ " " ++ status) tt;
     Routes.recordUpdate := fun deploymentKey label _ _ =>
       journal ("recordUpdate " ++ deploymentKey ++ " " ++ label) tt;
     Routes.removeDeploymentKeyClientActiveLabel := fun deploymentKey clientUniqueId =>
       journal ("removeDeploymentKeyClientActiveLabel " ++ deploymentKey ++ " " ++ clientUniqueId) tt;
     Routes.getCurrentActiveLabel := fun deploymentKey clientUniqueId =>
       journal ("getCurrentActiveLabel " ++ deploymentKey ++ " " ++ clientUniqueId) None;
     Routes.updateActiveAppForClient := fun deploymentKey clientUniqueId label _ =>
       journal ("updateActiveAppForClient " ++ deploymentKey ++ " " ++ clientUniqueId
                ++ " " ++ label) tt |}.

Definition recentSdk : Routes.SemverOrder :=
  {| Routes.semver_valid := truthy_opt; Routes.semver_gte := fun _ _ => true |}.

(** A deploy report for the label [v1] with the given status. *)
Definition deployReport (status : option string) : Routes.Request :=
  {| Routes.body :=
       {| Routes.deploymentKey := Some "key";
          Routes.deployment_key := None;
          Routes.appVersion := Some "1.0.0";
          Routes.app_version := None;
          Routes.previousDeploymentKey := None;
          Routes.previous_deployment_key := None;
          Routes.previousLabelOrAppVersion := None;
          Routes.previous_label_or_app_version := None;
          Routes.clientUniqueId := None;
          Routes.client_unique_id := None;
          Routes.label := Some "v1";
          Routes.status := status |};
     Routes.sdkVersion := Some "1.6.0" |}.

(** A plain reading of URLs, for the examples: the path up to the
    first [?], then the fields between [&], each cut at its first
    [=]; nothing is decoded and no field is repeated. *)
Fixpoint splitOn (sep : ascii) (s : string) : list string :=
  match s with
  | EmptyString => [EmptyString]
  | String c s' =>
      if Ascii.eqb c sep then EmptyString :: splitOn sep s'
      else match splitOn sep s' with
           | [] => [String c EmptyString]
           | part :: parts => String c part :: parts
           end
  end.

Fixpoint cut (sep : ascii) (s : string) : string * option string :=
  match s with
  | EmptyString => (EmptyString, None)
  | String c s' =>
      if Ascii.eqb c sep then (EmptyString, Some s')
      else let (before, after) := cut sep s' in (String c before, after)
  end.

Definition urlModule : RequestUtils.UrlModule :=
  {| RequestUtils.URL_parse := fun url =>
       let (path, search) := cut "?" url in
       {| RequestUtils.pathname := Some path;
          RequestUtils.query :=
            match search with
            | Some search =>
                map (fun field =>
                       let (k, v) := cut "=" field in
                       (k, RequestUtils.QString (match v with Some v => v | None => "" end)))
                    (splitOn "&" search)
            | None => []
            end |};
     RequestUtils.queryString_stringify := fun q =>
       String.concat "&"
         (map (fun kv => fst kv ++ "=" ++ RequestUtils.String_of (snd kv)) q) |}.

End Fixtures.

(** ** Vocabulary for the statements about the selection engine *)

Module Selection.
Import JS IO Acquisition.

Section Vocabulary.
Context `{Backend} `{Platform}.

(** The release is the one the client runs. *)
Definition isCurrent (rq : Request) (release : CachedRelease.t) : bool :=
  isClientPackage release (requestLabel rq) (requestPackageHash rq).

(** The release can be offered: it is enabled, applies to the
    request and is not the one the client runs. *)
Definition eligible (rq : Request) (release : CachedRelease.t) : bool :=
  negb (truthy_bool (CachedRelease.isDisabled release))
  && releaseApplies rq release
  && negb (isCurrent rq release).

(** The walk goes past the entry without looking at its rollout: a
    null, a disabled release, or a release, not the client's, that
    does not apply. *)
Definition passedOver (rq : Request) (entry : option CachedRelease.t) : bool :=
  match entry with
  | None => true
  | Some release =>
      truthy_bool (CachedRelease.isDisabled release)
      || (negb (isCurrent rq release) && negb (releaseApplies rq release))
  end.

(** The entry is the enabled release that the client runs, where the
    walk ends. *)
Definition endsWalk (rq : Request) (entry : option CachedRelease.t) : bool :=
  match entry with
  | None => false
  | Some release =>
      isCurrent rq release && negb (truthy_bool (CachedRelease.isDisabled release))
  end.

(** The releases of a cacheable response, as the walk reads them. *)
Definition releasesOf (response : CacheableResponse.t) : list (option CachedRelease.t) :=
  match UpdateCheckCacheResponse.releases (CacheableResponse.body response) with
  | Some releases => releases
  | None => []
  end.

(** The same request with another way to fetch diff maps. *)
Definition withFetcher (rq : Request) (fetcher : DiffMapFetcher) : Request :=
  {| clientUniqueId := clientUniqueId rq;
     betaRequested := betaRequested rq;
     requestLabel := requestLabel rq;
     requestPackageHash := requestPackageHash rq;
     rawAppVersion := rawAppVersion rq;
     normalizedAppVersion := normalizedAppVersion rq;
     requestIsCompanion := requestIsCompanion rq;
     diffMapFetcher := fetcher |}.

End Vocabulary.
End Selection.

(** ** More scenarios, to run the model on *)

Module Scenarios.
Import JS IO Acquisition.
Local Open Scope string_scope.

(** A request for beta releases of version 1.0.0, from a client
    without identifier that runs no known package. *)
Definition betaRequest : @Request Fixtures.backend :=
  {| clientUniqueId := "";
     betaRequested := true;
     requestLabel := "";
     requestPackageHash := "";
     rawAppVersion := "1.0.0";
     normalizedAppVersion := "1.0.0";
     requestIsCompanion := false;
     diffMapFetcher := fun _ => ret None |}.

End Scenarios.

(** ** The in-process cache (microcache.ts)

    The cache object is changed in place by the source; here every
    method returns the cache as it leaves it.  [now] is the value of
    [Date.now()] at the call. *)

Module Microcache.

Section Cache.
Variable T : Type.

Record MicrocacheEntry : Type := { expiresAt : Q; value : T }.

Record t : Type := { ttlMs : Q; store : gmap string MicrocacheEntry }.

(** [new Microcache(ttlMs)]: [Math.max(0, ttlMs || 0)] and an empty
    map. *)
Definition new (ttlMs : Q) : t :=
  {| ttlMs := Qmax 0 (if Qeq_bool ttlMs 0 then 0 else ttlMs); store := ∅ |}.

Definition get (this : t) (key : string) (now : Q) : option T * t :=
  if Qle_bool (ttlMs this) 0 then (None, this)
  else
    match store this !! key with
    | None => (None, this)
    | Some entry =>
        if Qle_bool (expiresAt entry) now then
          (None, {| ttlMs := ttlMs this; store := base.delete key (store this) |})
        else (Some (value entry), this)
    end.

Definition set (this : t) (key : string) (value : T) (now : Q) : t :=
  if Qle_bool (ttlMs this) 0 then this
  else
    {| ttlMs := ttlMs this;
       store := <[key := {| expiresAt := (now + ttlMs this)%Q; value := value |}]>
                  (store this) |}.

Definition delete (this : t) (key : string) : t :=
  {| ttlMs := ttlMs this; store := base.delete key (store this) |}.

Definition clear (this : t) : t :=
  {| ttlMs := ttlMs this; store := ∅ |}.

End Cache.

Arguments expiresAt {T} _.
Arguments value {T} _.
Arguments ttlMs {T} _.
Arguments store {T} _.
Arguments new {T} _.
Arguments get {T} _ _ _.
Arguments set {T} _ _ _ _.
Arguments delete {T} _ _.
Arguments clear {T} _.

End Microcache.

(** ** The cache of diff maps (diff-cache.ts) *)

Module DiffCache.
Import JS IO Acquisition.
Local Open Scope io_scope.
Local Open Scope string_scope.

(** What a promise kept in the cache of the module is resolved
    with: a diff map, or null. *)
Definition CachedDiffMap : Type := option PackageHashToBlobInfoMap.

(** Modelled from the spec: the declaration of [Package] (storage.ts)
    is not among the sources; a stored package is a release with its
    [diffPackageMap], from a source package hash to the diff archive
    leading from it. *)
Record StoredPackage : Type := {
    package : Package.t;
    diffPackageMap : option PackageHashToBlobInfoMap
  }.

Section Process.
Context {base : Backend}.

(** Modelled from the spec: [getPackageDiffMap] and
    [setPackageDiffMap] of the cache client are not among the
    sources; they read and write the diff map kept per deployment
    key and package hash in the distributed cache. *)
Record DiffMapStore : Type := {
    getPackageDiffMap : string -> string -> @IO base (option PackageHashToBlobInfoMap);
    setPackageDiffMap : string -> string -> PackageHashToBlobInfoMap -> @IO base unit
  }.

(** The state of the process: the cache [diffMapCache] of the module,
    next to the store behind the cache clients. *)
Definition process : Backend :=
  {| Store := (Microcache.t CachedDiffMap * @Store base)%type |}.

(** A computation on the store behind the clients, run in the
    process: the cache of the module is out of its reach. *)
Definition lift {A : Type} (m : @IO base A) : @IO process A :=
  fun w =>
    let (w', outcome) :=
      m (@Build_World base (console w) (clock w) (snd (store w))) in
    (@Build_World process (console w') (clock w') (fst (store w), store w'), outcome).

(** [diffMapCache.get(key)] and [diffMapCache.set(key, promise)]. *)
Definition diffMapCache_get (key : string) : @IO process (option CachedDiffMap) :=
  fun w =>
    let (found, cache) := Microcache.get (fst (store w)) key (clock w) in
    (@Build_World process (console w) (clock w) (cache, snd (store w)), Resolved found).

Definition diffMapCache_set (key : string) (promise : CachedDiffMap) : @IO process unit :=
  fun w =>
    (@Build_World process (console w) (clock w)
       (Microcache.set (fst (store w)) key promise (clock w), snd (store w)),
     Resolved tt).

(** The promise kept in the cache is resolved already: returning it
    resolves with its value. *)
Definition createDiffMapFetcher (deploymentKey : string) (redisManager : option DiffMapStore)
  : @DiffMapFetcher process :=
  match redisManager with
  | None => fun _ => ret None
  | Some redisManager =>
      if negb (truthy deploymentKey) then fun _ => ret None
      else fun packageHash =>
        if negb (truthy packageHash) then ret None
        else
          let cacheKey := deploymentKey ++ ":" ++ packageHash in
          do cachedPromise <- diffMapCache_get cacheKey ;
          match cachedPromise with
          | Some promise => ret promise
          | None =>
              do diffMap <- lift (getPackageDiffMap redisManager deploymentKey packageHash) ;
              let normalizedDiffMap := diffMap in
              run diffMapCache_set cacheKey normalizedDiffMap ;
              ret normalizedDiffMap
          end
  end.

(** The writes are started in the order of the releases, each with
    its own [catch]; [q.all] of them resolves when all have. *)
Definition primeDiffCacheForReleases (deploymentKey : string)
    (releases : option (list (option CachedRelease.t)))
    (packageLookup : gmap string StoredPackage) (redisManager : option DiffMapStore)
  : @IO base unit :=
  match redisManager, releases with
  | Some redisManager, Some ((_ :: _) as releases) =>
      if negb (truthy deploymentKey) then ret tt
      else
        fold_left
          (fun diffCacheWrites release =>
             match release with
             | None => diffCacheWrites
             | Some release =>
                 let pkg := packageLookup !! CachedRelease.packageHash release in
                 match pkg ≫= diffPackageMap with
                 | Some diffMap =>
                     if bool_decide (diffMap = ∅) then diffCacheWrites
                     else
                       run diffCacheWrites ;
                       try_catch
                         (setPackageDiffMap redisManager deploymentKey
                            (CachedRelease.packageHash release) diffMap)
                         (fun error =>
                            console_warn "Failed to cache diff package map for updateCheck"
                              error)
                 | None => diffCacheWrites
                 end
             end)
          releases (ret tt)
  | _, _ => ret tt
  end.

End Process.
End DiffCache.

(** ** Scenarios for the caches *)

Module CacheScenarios.
Import JS IO Acquisition.
Local Open Scope string_scope.

(** The diff archive that leads from the package [H1] to the release
    it is kept with. *)
Definition diffMap : PackageHashToBlobInfoMap :=
  {[ "H1" := {| BlobInfo.size := 10%Q; BlobInfo.url := "https://blobs.example/H1-H2" |} ]}.

(** A distributed cache that holds this diff map for the release
    [H2] of every deployment, and one whose connection is down. *)
Definition diffStore : @DiffCache.DiffMapStore Fixtures.backend :=
  {| DiffCache.getPackageDiffMap := fun _ packageHash =>
       ret (if String.eqb packageHash "H2" then Some diffMap else None);
     DiffCache.setPackageDiffMap := fun _ _ _ => ret tt |}.

Definition brokenDiffStore : @DiffCache.DiffMapStore Fixtures.backend :=
  {| DiffCache.getPackageDiffMap := fun _ _ => throw "ECONNRESET";
     DiffCache.setPackageDiffMap := fun _ _ _ => throw "ECONNRESET" |}.

(** The packages by their hash: the release [H2] with its diff map. *)
Definition packageLookup : gmap string DiffCache.StoredPackage :=
  {[ "H2" := {| DiffCache.package := Fixtures.package "v2" "H2" 2;
                DiffCache.diffPackageMap := Some diffMap |} ]}.

(** The process at the time [clock], its cache of diff maps as
    given. *)
Definition processWorld (clock : Q) (cache : Microcache.t DiffCache.CachedDiffMap)
  : @World (@DiffCache.process Fixtures.backend) :=
  @Build_World (@DiffCache.process Fixtures.backend) [] clock (cache, tt).

End CacheScenarios.

(** ** The fields of the metrics (redis-manager.ts) *)

Module MetricsKeys.
Import JS.
Local Open Scope string_scope.

(** [null] is [None]. *)
Definition getLabelStatusField (label status : string) : option string :=
  if RedisManager.Utilities.isValidDeploymentStatus status
  then Some (label ++ ":" ++ status)
  else None.

Definition getLabelActiveCountField (label : string) : option string :=
  if truthy label then Some (label ++ ":" ++ RedisManager.ACTIVE) else None.

End MetricsKeys.

(** ** The report-download handler (routes/acquisition.ts) *)

Module DownloadRoute.
Import JS IO Routes.
Local Open Scope io_scope.
Local Open Scope string_scope.

Section Handler.
Context `{Backend}.

(** The body of the request is there, as in [reportStatusDeploy];
    of its fields the handler reads [deploymentKey], in both
    spellings, and [label].  As there, the reply is sent first and
    the metrics follow. *)
Definition reportStatusDownload (redisManager : MetricsManager) (req : Request) : IO Reply :=
  let b := body req in
  let deploymentKey := or_opt (deploymentKey b) (deployment_key b) in
  if negb (truthy_opt deploymentKey) || negb (truthy_opt (label b)) then
    ret (MalformedRequestError
           "A download status report must contain a valid deploymentKey and package label.")
  else
    run try_catch
          (incrementLabelStatusCount redisManager
             (str deploymentKey) (str (label b)) RedisManager.DOWNLOADED)
          (fun error => console_warn "Failed to record download metric" error) ;
    ret (SendStatus 200).

End Handler.
End DownloadRoute.

(** ** The parser of update-check requests (update-check-request.ts) *)

Module RequestParser.
Import JS RequestUtils.
Local Open Scope string_scope.

Record ParsedUpdateCheckRequest : Type := {
    deploymentKey : string;
    clientUniqueId : string;
    betaRequested : bool;
    requestLabel : string;
    requestPackageHash : string;
    rawAppVersion : string;
    normalizedAppVersion : string;
    isCompanion : bool
  }.

(** [a || b] on two fields of the query. *)
Definition qor (a b : option QueryValue) : option QueryValue :=
  if qtruthy a then a else b.

(** [String(v || "")] *)
Definition String_or_empty (v : option QueryValue) : string :=
  match v with
  | Some value => if qtruthy v then String_of value else ""
  | None => ""
  end.

(** [String(v)], where [undefined] reads ["undefined"]. *)
Definition String_of_field (v : option QueryValue) : string :=
  match v with
  | Some value => String_of value
  | None => "undefined"
  end.

(** [toLowerCase] on the code units below 256: the letters A to Z
    and the capital letters of Latin-1 (U+00C0 to U+00DE, the
    multiplication sign left out). *)
Definition toLowerCase_char (c : ascii) : ascii :=
  let n := nat_of_ascii c in
  if ((65 <=? n) && (n <=? 90) || (192 <=? n) && (n <=? 222) && negb (n =? 215))%nat
  then ascii_of_nat (n + 32)
  else c.

Fixpoint toLowerCase (s : string) : string :=
  match s with
  | EmptyString => EmptyString
  | String c s' => String (toLowerCase_char c) (toLowerCase s')
  end.

(** [req.query] is the argument. *)
Definition parseUpdateCheckRequest (query : Query) : ParsedUpdateCheckRequest :=
  let deploymentKey :=
    String_or_empty (qor (qget "deploymentKey" query) (qget "deployment_key" query)) in
  let clientUniqueId :=
    String_or_empty (qor (qget "clientUniqueId" query) (qget "client_unique_id" query)) in
  let betaRequested :=
    String.eqb (toLowerCase (String_of_field (qget "beta" query))) "true" in
  let requestLabel := String_or_empty (qget "label" query) in
  let requestPackageHash :=
    String_or_empty (qor (qget "packageHash" query) (qget "package_hash" query)) in
  let rawAppVersion :=
    String_or_empty (qor (qget "appVersion" query) (qget "app_version" query)) in
  let normalizedAppVersion := normalizeAppVersion rawAppVersion in
  let isCompanion :=
    String.eqb
      (toLowerCase
         (String_or_empty (qor (qget "isCompanion" query) (qget "is_companion" query))))
      "true" in
  {| deploymentKey := deploymentKey;
     clientUniqueId := clientUniqueId;
     betaRequested := betaRequested;
     requestLabel := requestLabel;
     requestPackageHash := requestPackageHash;
     rawAppVersion := rawAppVersion;
     normalizedAppVersion := normalizedAppVersion;
     isCompanion := isCompanion |}.

(** The object that [buildUpdateCheckCacheKey] hands to
    [queryString.stringify], in the three steps of that function
    between the parsing of the URL and the making of the key: the
    six deletions, the normalisation of the version under both
    spellings, the field of the schema. *)
Definition stripClientFields (query : Query) : Query :=
  let query := qdelete "clientUniqueId" query in
  let query := qdelete "client_unique_id" query in
  let query := qdelete "beta" query in
  let query := qdelete "packageHash" query in
  let query := qdelete "package_hash" query in
  qdelete "label" query.

Definition normalizeVersionFields (query : Query) : Query :=
  let rawAppVersion :=
    if qtruthy (qget "appVersion" query) then qget "appVersion" query
    else qget "app_version" query in
  match rawAppVersion with
  | Some raw =>
      if qtruthy rawAppVersion then
        let normalizedAppVersion := normalizeAppVersion (String_of raw) in
        let query :=
          if qtruthy (qget "appVersion" query)
          then qset "appVersion" (QString normalizedAppVersion) query else query in
        if qtruthy (qget "app_version" query)
        then qset "app_version" (QString normalizedAppVersion) query else query
      else query
  | None => query
  end.

Definition addCacheSchema (query : Query) (cacheSchema : option string) : Query :=
  match cacheSchema with
  | Some schema =>
      if truthy schema then qset "__cacheSchema" (QString schema) query else query
  | None => query
  end.

Definition cacheKeyQuery (query : Query) (cacheSchema : option string) : Query :=
  addCacheSchema (normalizeVersionFields (stripClientFields query)) cacheSchema.

End RequestParser.

(** ** The differences between two packages (package-diffing.ts) *)

Module PackageDiffer.
Import JS.
Local Open Scope string_scope.

(** A [Map<string, string>] from file names to hashes: its entries
    in the order of their insertion, each name once. *)
Definition FileHashes : Type := list (string * string).

(** [map.get(name)], [None] for undefined. *)
Fixpoint Map_get (name : string) (map : FileHashes) : option string :=
  match map with
  | [] => None
  | (name', hash) :: map' => if String.eqb name' name then Some hash else Map_get name map'
  end.

(** [map.set(name, hash)]: in place when the name is there, a new
    last entry otherwise. *)
Fixpoint Map_set (name hash : string) (map : FileHashes) : FileHashes :=
  match map with
  | [] => [(name, hash)]
  | (name', hash') :: map' =>
      if String.eqb name' name then (name', hash) :: map'
      else (name', hash') :: Map_set name hash map'
  end.

Record IArchiveDiff : Type := {
    deletedFiles : list string;
    newOrUpdatedEntries : FileHashes
  }.

Definition isEntryInMap (name hash : string) (map : FileHashes) (requireContentMatch : bool)
  : bool :=
  let hashInMap := Map_get name map in
  if requireContentMatch then bool_decide (hashInMap = Some hash) else truthy_opt hashInMap.

(** The two [forEach] run over the entries in their order. *)
Definition generateDiff (oldFileHashes newFileHashes : FileHashes) : IArchiveDiff :=
  let newOrUpdatedEntries :=
    fold_left
      (fun entries '(name, hash) =>
         if negb (isEntryInMap name hash oldFileHashes true)
         then Map_set name hash entries else entries)
      newFileHashes [] in
  let deletedFiles :=
    fold_left
      (fun files '(name, hash) =>
         if negb (isEntryInMap name hash newFileHashes false)
         then files ++ [name] else files)%list
      oldFileHashes [] in
  {| deletedFiles := deletedFiles; newOrUpdatedEntries := newOrUpdatedEntries |}.

(** For the statements: the hash of a file once the difference is
    applied to the old package, the new and updated entries first,
    then the deletions, then what the old package has. *)
Definition patched (oldFileHashes : FileHashes) (diff : IArchiveDiff) (name : string)
  : option string :=
  match Map_get name (newOrUpdatedEntries diff) with
  | Some hash => Some hash
  | None =>
      if bool_decide (name ∈ deletedFiles diff) then None
      else Map_get name oldFileHashes
  end.

End PackageDiffer.

(** ** Scenarios for the response cache *)

Module ResponseCacheScenarios.
Import JS IO.
Local Open Scope string_scope.

(** A store of hashes kept in memory: the fields written, each with
    its key and its value, the last written first. *)
Definition memoryBackend : Backend := {| Store := list (string * string * string) |}.

Definition memoryWorld : @World memoryBackend := @Build_World memoryBackend [] 0 [].

(** The value of a field under a key, and whether the key is there. *)
Fixpoint memoryField (key field : string) (s : list (string * string * string))
  : option string :=
  match s with
  | [] => None
  | (key', field', value) :: s' =>
      if String.eqb key' key && String.eqb field' field then Some value
      else memoryField key field s'
  end.

Definition memoryKey (key : string) (s : list (string * string * string)) : bool :=
  existsb (fun entry => String.eqb (fst (fst entry)) key) s.

Definition memoryClient : @RedisManager.PromisifiedRedisClient memoryBackend :=
  {| RedisManager.exists_ := fun key =>
       @store_op memoryBackend Z
         (fun s => (s, Resolved (if memoryKey key s then 1 else 0)));
     RedisManager.expire := fun key _ =>
       @store_op memoryBackend Z
         (fun s => (s, Resolved (if memoryKey key s then 1 else 0)));
     RedisManager.hget := fun key field =>
       @store_op memoryBackend (option string)
         (fun s => (s, Resolved (memoryField key field s)));
     RedisManager.hset := fun key field value =>
       @store_op memoryBackend Z
         (fun s => ((key, field, value) :: s,
                    Resolved (match memoryField key field s with
                              | Some _ => 0
                              | None => 1
                              end))) |}.

Definition memoryManager : @RedisManager.t memoryBackend :=
  {| RedisManager._promisifiedOpsClient := Some memoryClient;
     RedisManager._promisifiedMetricsClient := Some memoryClient |}.


(** A serializer that knows one response. *)
Definition jsonOf (response : CacheableResponse.t) : RedisManager.Json :=
  {| RedisManager.JSON_parse := fun text =>
       if String.eqb text "{cached}" then Resolved response else Rejected "SyntaxError";
     RedisManager.JSON_stringify := fun _ => "{cached}" |}.

End ResponseCacheScenarios.

(** ** The update-check handler (routes/acquisition.ts,
    update-check-response.ts)

    One request is followed from its arrival to the end of its chain
    of promises; the requests that the server would handle in between
    are not part of the model.  The answer given through [res] or
    [next] is the value the handler is resolved with. *)

Module UpdateCheckRoute.
Import JS IO RequestUtils RequestParser.
Local Open Scope io_scope.
Local Open Scope string_scope.

Definition UPDATECHECK_CACHE_SCHEMA_VERSION : string := "v2".

(** What the handler reads of the request of express. *)
Record Request : Type := { query : Query; originalUrl : string }.

(** How the handler answers: [res.status(statusCode).send(payload)]
    with [res.locals.fromCache] set, the payload in snake case for
    the new API; [sendMalformedRequestError]; [restErrorHandler];
    [next(error)]. *)
Inductive Answer : Type :=
  | Send (statusCode : Z) (updateCheckBody : Acquisition.UpdateCheckBody)
         (snakeCase fromCache : bool)
  | MalformedRequestError (message : string)
  | RestError (error : Error)
  | Next (error : Error).

(** Modelled from the spec: utils/validation.ts is not among the
    sources; these are the three checks the handler calls. *)
Class Validation : Type := {
    isValidUpdateCheckRequest : UpdateCheckRequest.t -> bool;
    isValidKeyField : string -> bool;
    isValidAppVersionField : string -> bool
  }.

(** update-check-response.ts *)
Definition sendUpdateCheckResponse `{Backend} `{Platform}
    (response : CacheableResponse.t) (newApi fromCache : bool)
    (options : Acquisition.Request) : IO Answer :=
  do updateCheckBody <- Acquisition.buildUpdateCheckBody response options ;
  ret (Send (CacheableResponse.statusCode response) updateCheckBody newApi fromCache).

Section Handler.
Context {base : Backend} `{Platform} `{RedisManager.Json} `{UrlModule} `{Validation}.

(** Modelled from the spec: storage.ts is not among the sources; the
    handler asks the storage for the release history of a deployment
    key, oldest release first. *)
Record Storage : Type := {
    getPackageHistoryFromDeploymentKey :
      string -> @IO base (option (list DiffCache.StoredPackage))
  }.

(** The methods of the cache client come in two records here: the
    ones for the cached responses and the ones for the diff maps. *)
Record AcquisitionConfig : Type := {
    storage : Storage;
    redisManager : @RedisManager.t base;
    diffMaps : @DiffCache.DiffMapStore base
  }.

(** The object [updateRequest] of [createResponseUsingStorage], once
    its app version is replaced by the normalised one. *)
Definition updateRequestOf (req : Request) : UpdateCheckRequest.t :=
  let deploymentKey :=
    String_of_field (qor (qget "deploymentKey" (query req))
                         (qget "deployment_key" (query req))) in
  let appVersion :=
    String_of_field (qor (qget "appVersion" (query req))
                         (qget "app_version" (query req))) in
  let packageHash :=
    String_of_field (qor (qget "packageHash" (query req))
                         (qget "package_hash" (query req))) in
  let isCompanion :=
    String_of_field (qor (qget "isCompanion" (query req))
                         (qget "is_companion" (query req))) in
  let normalizedAppVersion := normalizeAppVersion appVersion in
  {| UpdateCheckRequest.deploymentKey := deploymentKey;
     UpdateCheckRequest.appVersion :=
       if negb (String.eqb normalizedAppVersion appVersion) then normalizedAppVersion
       else appVersion;
     UpdateCheckRequest.packageHash := Some packageHash;
     UpdateCheckRequest.isCompanion :=
       Some (truthy isCompanion && String.eqb (toLowerCase isCompanion) "true");
     UpdateCheckRequest.label := Some (String_of_field (qget "label" (query req)));
     UpdateCheckRequest.clientUniqueId := None;
     UpdateCheckRequest.beta := None |}.

(** The cacheable response, or the error sent to the client for a
    request that is not valid (the promise is then resolved with
    null). *)
Definition createResponseUsingStorage (req : Request) (storage : Storage)
    (redisManager : @DiffCache.DiffMapStore base)
  : @IO base (CacheableResponse.t + Answer) :=
  let updateRequest := updateRequestOf req in
  let deploymentKey := UpdateCheckRequest.deploymentKey updateRequest in
  if isValidUpdateCheckRequest updateRequest then
    do packageHistory <-
      getPackageHistoryFromDeploymentKey storage
        (UpdateCheckRequest.deploymentKey updateRequest) ;
    let updateObject :=
      Acquisition.getUpdatePackageInfo
        (option_map (List.map DiffCache.package) packageHistory) updateRequest in
    let packageLookup :=
      fold_left
        (fun (packageLookup : gmap string DiffCache.StoredPackage) pkg =>
           if truthy (Package.packageHash (DiffCache.package pkg))
           then <[Package.packageHash (DiffCache.package pkg) := pkg]> packageLookup
           else packageLookup)
        (default [] packageHistory) ∅ in
    let cacheableResponse :=
      {| CacheableResponse.statusCode := 200;
         CacheableResponse.body := updateObject |} in
    run DiffCache.primeDiffCacheForReleases deploymentKey
          (UpdateCheckCacheResponse.releases updateObject) packageLookup
          (Some redisManager) ;
    ret (inl cacheableResponse)
  else if negb (isValidKeyField (UpdateCheckRequest.deploymentKey updateRequest)) then
    ret (inr (MalformedRequestError
      ("An update check must include a valid deployment key - please check that your app has been "
       ++ "configured correctly. To view available deployment keys, run 'code-push-standalone deployment ls <appName> -k'.")))
  else if negb (isValidAppVersionField (UpdateCheckRequest.appVersion updateRequest)) then
    ret (inr (MalformedRequestError
      ("An update check must include a binary version that conforms to the semver standard (e.g. '1.0.0'). "
       ++ "The binary version is normally inferred from the App Store/Play Store version configured with your app.")))
  else
    ret (inr (MalformedRequestError
      "An update check must include a valid deployment key and provide a semver-compliant app version.")).

(** The state of the server: the cache [updateCheckMicrocache] of
    the module, next to the state of the process. *)
Definition server : Backend :=
  {| Store := (Microcache.t CacheableResponse.t * @Store (@DiffCache.process base))%type |}.

(** A computation of the process, run in the server: the cache of
    the responses is out of its reach. *)
Definition inProcess {A : Type} (m : @IO (@DiffCache.process base) A) : @IO server A :=
  fun w =>
    let (w', outcome) :=
      m (@Build_World (@DiffCache.process base) (console w) (clock w) (snd (store w))) in
    (@Build_World server (console w') (clock w') (fst (store w), store w'), outcome).

(** [updateCheckMicrocache.get(key)] and
    [updateCheckMicrocache.set(key, response)]. *)
Definition updateCheckMicrocache_get (key : string)
  : @IO server (option CacheableResponse.t) :=
  fun w =>
    let (found, cache) := Microcache.get (fst (store w)) key (clock w) in
    (@Build_World server (console w) (clock w) (cache, snd (store w)), Resolved found).

Definition updateCheckMicrocache_set (key : string) (response : CacheableResponse.t)
  : @IO server unit :=
  fun w =>
    (@Build_World server (console w) (clock w)
       (Microcache.set (fst (store w)) key response (clock w), snd (store w)),
     Resolved tt).

(** The key and the field of the distributed cache, and the key of
    the cache of the module, as the handler computes them. *)
Definition cacheKey (req : Request) : string :=
  RedisManager.Utilities.getDeploymentKeyHash
    (deploymentKey (parseUpdateCheckRequest (query req))).

Definition cacheUrl (req : Request) : string :=
  buildUpdateCheckCacheKey (originalUrl req) (Some UPDATECHECK_CACHE_SCHEMA_VERSION).

Definition memCacheKey (req : Request) : string :=
  cacheKey req ++ "|" ++ cacheUrl req.

(** [responseOptionsBase] of the handler, without [res] and [newApi]. *)
Definition responseOptionsBase (config : AcquisitionConfig) (req : Request)
  : @Acquisition.Request (@DiffCache.process base) :=
  let parsedRequest := parseUpdateCheckRequest (query req) in
  {| Acquisition.clientUniqueId := clientUniqueId parsedRequest;
     Acquisition.betaRequested := betaRequested parsedRequest;
     Acquisition.requestLabel := requestLabel parsedRequest;
     Acquisition.requestPackageHash := requestPackageHash parsedRequest;
     Acquisition.rawAppVersion := rawAppVersion parsedRequest;
     Acquisition.normalizedAppVersion := normalizedAppVersion parsedRequest;
     Acquisition.requestIsCompanion := isCompanion parsedRequest;
     Acquisition.diffMapFetcher :=
       DiffCache.createDiffMapFetcher (deploymentKey parsedRequest)
         (Some (diffMaps config)) |}.

Definition updateCheck (config : AcquisitionConfig) (newApi : bool) (req : Request)
  : @IO server Answer :=
  let parsedRequest := parseUpdateCheckRequest (query req) in
  let key := RedisManager.Utilities.getDeploymentKeyHash (deploymentKey parsedRequest) in
  let url := buildUpdateCheckCacheKey (originalUrl req)
               (Some UPDATECHECK_CACHE_SCHEMA_VERSION) in
  let memCacheKey := key ++ "|" ++ url in
  let responseOptionsBase := responseOptionsBase config req in
  do memValue <- updateCheckMicrocache_get memCacheKey ;
  match memValue with
  | Some memValue =>
      try_catch
        (inProcess (sendUpdateCheckResponse memValue newApi true responseOptionsBase))
        (fun error => ret (Next error))
  | None =>
      try_catch
        (do read <- inProcess (DiffCache.lift
                      (RedisManager.updateCheck_readCache (redisManager config) key url)) ;
         let cachedResponse := fst read in
         let redisError := snd read in
         let fromCache := match cachedResponse with Some _ => true | None => false end in
         do response <-
           match cachedResponse with
           | Some cachedResponse => ret (inl cachedResponse)
           | None =>
               inProcess (DiffCache.lift
                 (createResponseUsingStorage req (storage config) (diffMaps config)))
           end ;
         do answer <-
           match response with
           | inr malformed => ret malformed
           | inl response =>
               do answer <- inProcess (sendUpdateCheckResponse response newApi fromCache
                                         responseOptionsBase) ;
               run updateCheckMicrocache_set memCacheKey response ;
               run (if negb fromCache then
                      inProcess (DiffCache.lift
                        (RedisManager.updateCheck_writeCache (redisManager config) key url
                           response))
                    else ret tt) ;
               ret answer
           end ;
         run match redisError with
             | Some redisError => console_warn "Redis cache error in updateCheck" redisError
             | None => ret tt
             end ;
         ret answer)
        (fun error => ret (RestError error))
  end.

(** The parts of the state of the server. *)
Definition responseCache (w : @World server) : Microcache.t CacheableResponse.t :=
  fst (store w).

Definition processWorld (w : @World server) : @World (@DiffCache.process base) :=
  @Build_World (@DiffCache.process base) (console w) (clock w) (snd (store w)).

Definition baseWorld (w : @World server) : @World base :=
  @Build_World base (console w) (clock w) (snd (snd (store w))).

(** The server with another cache of responses, and once a
    computation of the process has left the process as in [wp]. *)
Definition withResponseCache (w : @World server) (cache : Microcache.t CacheableResponse.t)
  : @World server :=
  @Build_World server (console w) (clock w) (cache, snd (store w)).

Definition withProcess (w : @World server) (wp : @World (@DiffCache.process base))
  : @World server :=
  @Build_World server (console wp) (clock wp) (fst (store w), store wp).

(** The server once a computation on the store behind the clients
    has left that store, the console and the clock as in [wb]. *)
Definition withBase (w : @World server) (wb : @World base) : @World server :=
  @Build_World server (console wb) (clock wb)
    (fst (store w), (fst (snd (store w)), store wb)).

End Handler.

(** A computation that is resolved from every state. *)
Definition resolves `{Backend} {A : Type} (m : IO A) : Prop :=
  forall w, exists w' a, m w = (w', Resolved a).

End UpdateCheckRoute.

(** ** Scenarios for the update-check handler *)

Module UpdateCheckScenarios.
Import JS IO RequestUtils UpdateCheckRoute.
Local Open Scope string_scope.

(** A key is valid when it is not empty, a version when it has three
    parts. *)
Definition validation : Validation :=
  {| isValidUpdateCheckRequest := fun updateRequest =>
       truthy (UpdateCheckRequest.deploymentKey updateRequest)
       && (length (Fixtures.splitOn "." (UpdateCheckRequest.appVersion updateRequest)) =? 3)%nat;
     isValidKeyField := truthy;
     isValidAppVersionField := fun appVersion =>
       (length (Fixtures.splitOn "." appVersion) =? 3)%nat |}.

(** The history of every deployment: the release [H1], then the
    release [H2] with the diff archive that leads to it from [H1]. *)
Definition history : list DiffCache.StoredPackage :=
  [ {| DiffCache.package := Fixtures.package "v1" "H1" 1;
       DiffCache.diffPackageMap := None |};
    {| DiffCache.package := Fixtures.package "v2" "H2" 2;
       DiffCache.diffPackageMap := Some CacheScenarios.diffMap |} ].

Definition storage {base : Backend} : @Storage base :=
  {| getPackageHistoryFromDeploymentKey := fun _ => @ret base _ (Some history) |}.

(** A storage that cannot be reached. *)
Definition brokenStorage {base : Backend} : @Storage base :=
  {| getPackageHistoryFromDeploymentKey := fun _ => @throw base _ "ETIMEDOUT" |}.

(** A distributed cache without diff maps. *)
Definition noDiffMaps {base : Backend} : @DiffCache.DiffMapStore base :=
  {| DiffCache.getPackageDiffMap := fun _ _ => @ret base _ None;
     DiffCache.setPackageDiffMap := fun _ _ _ => @ret base _ tt |}.

(** The server whose distributed cache is down, and the one whose
    distributed cache is kept in memory. *)
Definition outage : @AcquisitionConfig Fixtures.backend :=
  {| UpdateCheckRoute.storage := storage;
     redisManager := Fixtures.brokenManager;
     diffMaps := CacheScenarios.brokenDiffStore |}.

Definition unreachable : @AcquisitionConfig Fixtures.backend :=
  {| UpdateCheckRoute.storage := brokenStorage;
     redisManager := Fixtures.brokenManager;
     diffMaps := CacheScenarios.brokenDiffStore |}.

Definition inMemory (storage : @Storage ResponseCacheScenarios.memoryBackend)
  : @AcquisitionConfig ResponseCacheScenarios.memoryBackend :=
  {| UpdateCheckRoute.storage := storage;
     redisManager := ResponseCacheScenarios.memoryManager;
     diffMaps := noDiffMaps |}.

(** The update check of the device [device-1], which runs the
    release [H1] of version 1.0. *)
Definition req : Request :=
  {| query := [ ("deploymentKey", QString "key"); ("appVersion", QString "1.0");
                ("packageHash", QString "H1"); ("clientUniqueId", QString "device-1") ];
     originalUrl :=
       "/updateCheck?deploymentKey=key&appVersion=1.0&packageHash=H1&clientUniqueId=device-1" |}.

(** A check whose app version is not a version. *)
Definition reqBadVersion : Request :=
  {| query := [ ("deploymentKey", QString "key"); ("appVersion", QString "latest") ];
     originalUrl := "/updateCheck?deploymentKey=key&appVersion=latest" |}.

(** The response kept for this check: the two releases, the newest
    first. *)
Definition cachedResponse : CacheableResponse.t :=
  Fixtures.response [ Fixtures.release "v2" "H2" false None;
                      Fixtures.release "v1" "H1" false None ].

(** The server at the time [clock], its cache of responses as given,
    its cache of diff maps empty. *)
Definition serverWorld {base : Backend} (clock : Q)
    (cache : Microcache.t CacheableResponse.t) (store : @Store base)
  : @World (@server base) :=
  @Build_World (@server base) [] clock
    (cache, (Microcache.new (5 * 60 * 1000), store)).

End UpdateCheckScenarios.

(** * Properties *)

(** ** The rollout hash *)

Section HashFacts.
Import JS RolloutSelector.

Lemma toInt32_range (z : Z) : - 2 ^ 31 <= toInt32 z < 2 ^ 31.
Proof.
  unfold toInt32.
  pose proof (Z.mod_pos_bound (z + 2 ^ 31) (2 ^ 32) ltac:(lia)). lia.
Qed.

Lemma toInt32_congr (x y : Z) :
  x mod 2 ^ 32 = y mod 2 ^ 32 -> toInt32 x = toInt32 y.
Proof.
  intros E. unfold toInt32.
  rewrite (Z.add_mod x), (Z.add_mod y), E by lia. reflexivity.
Qed.

Lemma toInt32_mod (z : Z) : toInt32 z mod 2 ^ 32 = z mod 2 ^ 32.
Proof.
  unfold toInt32.
  rewrite Zminus_mod, Zmod_mod, <- Zminus_mod.
  f_equal. lia.
Qed.

Lemma toInt32_idem (z : Z) : toInt32 (toInt32 z) = toInt32 z.
Proof. apply toInt32_congr, toInt32_mod. Qed.

Lemma toInt32_small (z : Z) : - 2 ^ 31 <= z < 2 ^ 31 -> toInt32 z = z.
Proof.
  intros Hz. unfold toInt32. rewrite Z.mod_small by lia. lia.
Qed.

Lemma shl_toInt32 (h : Z) : shl (toInt32 h) 5 = shl h 5.
Proof. unfold shl. now rewrite toInt32_idem. Qed.

(** One step of the loop of the code and one wrapped step agree
    modulo 2^32. *)
Lemma step_congr (h c : Z) :
  toInt32 (shl h 5 - h + c) = toInt32 (shl (toInt32 h) 5 - toInt32 h + c).
Proof.
  rewrite shl_toInt32. apply toInt32_congr.
  rewrite (Zplus_mod (shl h 5 - h)), (Zplus_mod (shl h 5 - toInt32 h)).
  rewrite (Zminus_mod _ h), (Zminus_mod _ (toInt32 h)), toInt32_mod.
  reflexivity.
Qed.

Lemma hashLoop_wrapped (chrs : list Z) (h : Z) :
  toInt32 (hashLoop chrs h) = hash32Loop chrs (toInt32 h).
Proof.
  revert h. induction chrs as [|c chrs IH]; intros h; simpl.
  - reflexivity.
  - rewrite IH, step_congr. reflexivity.
Qed.

Lemma hash32Loop_range (chrs : list Z) (h : Z) :
  - 2 ^ 31 <= h < 2 ^ 31 -> - 2 ^ 31 <= hash32Loop chrs h < 2 ^ 31.
Proof.
  revert h. induction chrs as [|c chrs IH]; intros h Hh; simpl.
  - exact Hh.
  - apply IH, toInt32_range.
Qed.

(** The size of the accumulator of the code: each character adds
    less than 2^32 to its magnitude, so the integers of the model
    are those of the doubles of the code for every string shorter
    than 2^21 code units. *)
Lemma hashLoop_bound (chrs : list Z) (h : Z) :
  Forall (fun c => 0 <= c < 2 ^ 16) chrs ->
  Z.abs (hashLoop chrs h) <= Z.abs h + Z.of_nat (length chrs) * 2 ^ 32.
Proof.
  intros Hc. revert h. induction Hc as [|c chrs Hc _ IH]; intros h.
  - simpl. lia.
  - cbn [hashLoop length]. specialize (IH (shl h 5 - h + c)).
    pose proof (toInt32_range (Z.shiftl (toInt32 h) (5 mod 32))) as Hs.
    fold (shl h 5) in Hs. lia.
Qed.

Lemma getHashCode_codeUnits (input : string) :
  getHashCode input = hashCodeUnits (codeUnits input).
Proof.
  unfold getHashCode. destruct input; reflexivity.
Qed.

End HashFacts.

Section HashClaims.
Import JS RolloutSelector.
Local Open Scope string_scope.

(** C1, as stated, fails: on the nine characters of ["device-v7"] the
    accumulator of [getHashCode] leaves the range of 32-bit integers
    and is returned as it is, 4320129368, where the 32-bit hash is
    25162072; with a rollout of 70 the client ["device"] is selected
    for the release ["v7"] by the code (68 < 70) and would not be by
    the 32-bit hash (72 < 70 is false). *)
Lemma getHashCode_exceeds_32_bits :
  getHashCode "device-v7" = 4320129368
  /\ hash32 "device-v7" = 25162072
  /\ getHashCode "device-v7" <> hash32 "device-v7"
  /\ isSelectedForRollout "device" 70 "v7" = true
  /\ Qltb (inject_Z (Z.rem (Z.abs (hash32 "device-v7")) 100)) 70 = false.
Proof.
  repeat split; try (vm_compute; reflexivity).
  vm_compute. discriminate.
Qed.

(** C1, amended: [getHashCode] runs [h <- (h << 5) - h + code(ch)]
    from 0 with only the shift wrapped to 32 bits, so its result,
    wrapped once to 32 bits, is the 32-bit accumulator of the
    specification; the empty string hashes to 0; and
    [isSelectedForRollout] is [|h| mod 100 < rollout] for the
    unwrapped [h] of [clientId + "-" + releaseTag]. *)
Theorem getHashCode_congruent_to_hash32 :
  (forall input : string, toInt32 (getHashCode input) = hash32 input)
  /\ getHashCode "" = 0
  /\ (forall (clientId releaseTag : string) (rollout : Q),
        isSelectedForRollout clientId rollout releaseTag
        = Qltb (inject_Z (Z.abs (getHashCode (clientId ++ "-" ++ releaseTag)) mod 100)) rollout).
Proof.
  split; [|split].
  - intros input. rewrite getHashCode_codeUnits. unfold hashCodeUnits, hash32.
    rewrite hashLoop_wrapped. reflexivity.
  - reflexivity.
  - intros clientId releaseTag rollout. unfold isSelectedForRollout, DELIMITER.
    rewrite Z.rem_mod_nonneg by lia. reflexivity.
Qed.

End HashClaims.

(** ** The patterns of the version normaliser *)

Section RegexFacts.
Import Regex.

Lemma nullable_Matches (r : re) : nullable r = true <-> Matches r [].
Proof.
  split.
  - induction r; simpl; intros Hn; try discriminate.
    + constructor.
    + apply andb_true_iff in Hn as [H1 H2].
      change (@nil ascii) with (@nil ascii ++ []). constructor; auto.
    + apply orb_true_iff in Hn as [H1|H2]; [apply MAltL|apply MAltR]; auto.
    + constructor.
  - induction r; intros Hm; simpl; inversion Hm; subst; auto.
    + match goal with E : _ ++ _ = [] |- _ => apply app_eq_nil in E as [-> ->] end.
      apply andb_true_iff; split; auto.
    + apply orb_true_iff; left; auto.
    + apply orb_true_iff; right; auto.
Qed.

Lemma Matches_star_cons (r : re) (c : ascii) (w : list ascii) :
  Matches (Star r) (c :: w) ->
  exists w1 w2, w = w1 ++ w2 /\ Matches r (c :: w1) /\ Matches (Star r) w2.
Proof.
  intros Hm. remember (Star r) as s eqn:Es. remember (c :: w) as cw eqn:Ew.
  revert w Ew.
  induction Hm as [| | | | | |r' u1 u2 H1 _ H2 IH2]; intros v Ev; try discriminate.
  injection Es as ->.
  destruct u1 as [|c1 u1]; simpl in Ev.
  - apply IH2; auto.
  - injection Ev as -> <-. eauto.
Qed.

Lemma Matches_cat_inv (r1 r2 : re) (w : list ascii) :
  Matches (Cat r1 r2) w ->
  exists w1 w2, w = w1 ++ w2 /\ Matches r1 w1 /\ Matches r2 w2.
Proof. intros Hm. inversion Hm; subst. eauto. Qed.

Lemma Matches_alt_inv (r1 r2 : re) (w : list ascii) :
  Matches (Alt r1 r2) w -> Matches r1 w \/ Matches r2 w.
Proof. intros Hm. inversion Hm; subst; auto. Qed.

Lemma Matches_eps_inv (w : list ascii) : Matches Eps w -> w = [].
Proof. intros Hm. inversion Hm; subst; auto. Qed.

Lemma Matches_class_inv (p : ascii -> bool) (w : list ascii) :
  Matches (Class p) w -> exists c, w = [c] /\ p c = true.
Proof. intros Hm. inversion Hm; subst; eauto. Qed.

Lemma Matches_void_inv (w : list ascii) : ~ Matches Void w.
Proof. intros Hm. inversion Hm. Qed.

Lemma Matches_cat_cons (r1 r2 : re) (c : ascii) (w1 w2 : list ascii) :
  Matches r1 (c :: w1) -> Matches r2 w2 -> Matches (Cat r1 r2) (c :: w1 ++ w2).
Proof. intros H1 H2. change (c :: w1 ++ w2) with ((c :: w1) ++ w2). now constructor. Qed.

Lemma deriv_Matches (r : re) (c : ascii) (w : list ascii) :
  Matches (deriv c r) w <-> Matches r (c :: w).
Proof.
  revert w. induction r as [| |p|r1 IH1 r2 IH2|r1 IH1 r2 IH2|r1 IH1]; intros w; simpl.
  - split; intros Hm; inversion Hm.
  - split; intros Hm; inversion Hm.
  - destruct (p c) eqn:Ep; split; intros Hm.
    + apply Matches_eps_inv in Hm as ->. now constructor.
    + apply Matches_class_inv in Hm as (c' & [= -> ->] & _). constructor.
    + now apply Matches_void_inv in Hm.
    + apply Matches_class_inv in Hm as (c' & [= -> ->] & Hc). congruence.
  - assert (Hcat : Matches (Cat (deriv c r1) r2) w ->  Matches (Cat r1 r2) (c :: w)).
    { intros Hm. apply Matches_cat_inv in Hm as (w1 & w2 & -> & H1 & H2).
      apply Matches_cat_cons; [now apply IH1|assumption]. }
    destruct (nullable r1) eqn:En; split; intros Hm.
    + apply Matches_alt_inv in Hm as [Hl|Hr]; [auto|].
      change (c :: w) with ([] ++ c :: w).
      constructor; [now apply nullable_Matches|now apply IH2].
    + apply Matches_cat_inv in Hm as (w1 & w2 & Ew & H1 & H2).
      destruct w1 as [|c1 w1]; simpl in Ew.
      * subst w2. apply MAltR. now apply IH2.
      * injection Ew as -> ->. apply MAltL. constructor; [now apply IH1|assumption].
    + auto.
    + apply Matches_cat_inv in Hm as (w1 & w2 & Ew & H1 & H2).
      destruct w1 as [|c1 w1]; simpl in Ew.
      * apply nullable_Matches in H1. congruence.
      * injection Ew as -> ->. constructor; [now apply IH1|assumption].
  - split; intros Hm.
    + apply Matches_alt_inv in Hm as [Hl|Hr]; [apply MAltL; now apply IH1|apply MAltR; now apply IH2].
    + apply Matches_alt_inv in Hm as [Hl|Hr]; [apply MAltL; now apply IH1|apply MAltR; now apply IH2].
  - split; intros Hm.
    + apply Matches_cat_inv in Hm as (w1 & w2 & -> & H1 & H2).
      change (c :: w1 ++ w2) with ((c :: w1) ++ w2).
      constructor; [now apply IH1|assumption].
    + apply Matches_star_cons in Hm as (w1 & w2 & -> & H1 & H2).
      constructor; [now apply IH1|assumption].
Qed.

(** The derivatives decide the language. *)
Lemma matches_Matches (r : re) (w : list ascii) :
  matches r w = true <-> Matches r w.
Proof.
  revert r. induction w as [|c w IH]; intros r; simpl.
  - apply nullable_Matches.
  - rewrite IH. apply deriv_Matches.
Qed.

Lemma Matches_star_class (p : ascii -> bool) (w : list ascii) :
  Matches (Star (Class p)) w <-> forallb p w = true.
Proof.
  split.
  - revert w. induction w as [|c w IH]; intros Hm; [reflexivity|].
    apply Matches_star_cons in Hm as (w1 & w2 & -> & H1 & H2).
    apply Matches_class_inv in H1 as (c' & [= -> ->] & Hc).
    simpl in *. apply andb_true_iff; split; auto.
  - induction w as [|c w IH]; simpl; intros Hf.
    + constructor.
    + apply andb_true_iff in Hf as [Hc Hw].
      change (c :: w) with ([c] ++ w). constructor; [now constructor|auto].
Qed.

(** [p+] : a word that is not empty, of characters of the class. *)
Lemma Matches_plus_class (p : ascii -> bool) (w : list ascii) :
  Matches (Plus (Class p)) w <-> w <> [] /\ forallb p w = true.
Proof.
  unfold Plus. split.
  - intros Hm. apply Matches_cat_inv in Hm as (w1 & w2 & -> & H1 & H2).
    apply Matches_class_inv in H1 as (c & -> & Hc).
    apply Matches_star_class in H2.
    split; [discriminate|]. simpl. apply andb_true_iff; auto.
  - intros [Hne Hf]. destruct w as [|c w]; [congruence|].
    simpl in Hf. apply andb_true_iff in Hf as [Hc Hw].
    change (c :: w) with ([c] ++ w).
    constructor; [now constructor|now apply Matches_star_class].
Qed.

End RegexFacts.

(** ** The version normaliser *)

Section NormalizerFacts.
Import JS Regex RequestUtils.

Lemma list_ascii_of_string_app (s1 s2 : string) :
  list_ascii_of_string (s1 ++ s2)%string = list_ascii_of_string s1 ++ list_ascii_of_string s2.
Proof. induction s1 as [|c s1 IH]; simpl; [reflexivity|now rewrite IH]. Qed.

Lemma digit_not_plus_minus (c : ascii) : isDigit c = true -> isPlusMinus c = false.
Proof. destruct c as [[] [] [] [] [] [] [] []]; vm_compute; congruence. Qed.

Lemma digits_not_plus_minus (w : list ascii) :
  forallb isDigit w = true -> forallb (fun c => negb (isPlusMinus c)) w = true.
Proof.
  induction w as [|c w IH]; simpl; [reflexivity|].
  intros [Hc Hw]%andb_true_iff. rewrite (digit_not_plus_minus c Hc). simpl. auto.
Qed.

(** A run of characters of a class, closed by a character outside
    of it, is read in one way only. *)
Lemma span_unique (p : ascii -> bool) (a a' : list ascii) (c c' : ascii) (x x' : list ascii) :
  forallb p a = true -> forallb p a' = true -> p c = false -> p c' = false ->
  a ++ c :: x = a' ++ c' :: x' -> a = a' /\ c = c' /\ x = x'.
Proof.
  revert a'. induction a as [|d a IH]; intros [|d' a'] Ha Ha' Hc Hc' E; simpl in *.
  - injection E as -> ->. auto.
  - injection E as -> _. apply andb_true_iff in Ha' as [Hd _]. congruence.
  - injection E as -> _. apply andb_true_iff in Ha as [Hd _]. congruence.
  - injection E as -> E.
    apply andb_true_iff in Ha as [_ Ha]. apply andb_true_iff in Ha' as [_ Ha'].
    destruct (IH a' Ha Ha' Hc Hc' E) as (-> & -> & ->). auto.
Qed.

Lemma forallb_with_outsider (p : ascii -> bool) (a : list ascii) (c : ascii) (x : list ascii) :
  p c = false -> forallb p (a ++ c :: x) = false.
Proof.
  intros Hc. rewrite forallb_app. simpl. rewrite Hc. apply andb_false_r.
Qed.

(** The words matched by the second pattern. *)
Lemma reMajorMinor_shape (w : list ascii) :
  Matches reMajorMinor w ->
  exists a b t,
    w = a ++ "."%char :: b ++ t
    /\ Matches (Plus digit) a /\ Matches (Plus digit) b
    /\ (t = [] \/ exists c t', t = c :: t' /\ isPlusMinus c = true /\ forallb isDot t' = true).
Proof.
  unfold reMajorMinor. intros Hm.
  apply Matches_cat_inv in Hm as (a & w1 & -> & Ha & Hm).
  apply Matches_cat_inv in Hm as (d & w2 & -> & Hd & Hm).
  apply Matches_class_inv in Hd as (c & -> & Hc).
  apply Ascii.eqb_eq in Hc as <-.
  apply Matches_cat_inv in Hm as (b & t & -> & Hb & Ht).
  exists a, b, t. repeat split; auto.
  apply Matches_alt_inv in Ht as [Ht|Ht].
  - right. apply Matches_cat_inv in Ht as (w3 & t' & -> & H3 & Ht').
    apply Matches_class_inv in H3 as (c & -> & Hc).
    apply Matches_star_class in Ht'. exists c, t'. auto.
  - left. now apply Matches_eps_inv in Ht.
Qed.

(** A word that starts with two runs of digits, each closed by a
    dot, is matched by neither pattern. *)
Lemma three_segments_unmatched (a b rest : list ascii) :
  Matches (Plus digit) a -> Matches (Plus digit) b ->
  matches reMajorOnly (a ++ "."%char :: b ++ "."%char :: rest) = false
  /\ matches reMajorMinor (a ++ "."%char :: b ++ "."%char :: rest) = false.
Proof.
  intros [_ Ha]%Matches_plus_class [_ Hb]%Matches_plus_class. split.
  - apply not_true_is_false. intros Hm%matches_Matches.
    apply Matches_plus_class in Hm as [_ Hm].
    rewrite forallb_with_outsider in Hm by reflexivity. discriminate.
  - apply not_true_is_false. intros Hm%matches_Matches.
    apply reMajorMinor_shape in Hm as (a' & b' & t & E & Ha' & Hb' & Ht).
    apply Matches_plus_class in Ha' as [_ Ha'], Hb' as [_ Hb'].
    apply span_unique with (p := isDigit) in E as (_ & _ & E); auto.
    destruct Ht as [->|(c & t' & -> & Hc & _)].
    + rewrite app_nil_r in E. rewrite <- E in Hb'.
      rewrite forallb_with_outsider in Hb' by reflexivity. discriminate.
    + apply span_unique with (p := isDigit) in E as (_ & <- & _); auto.
      * discriminate.
      * destruct (isDigit c) eqn:Ed; [|reflexivity].
        apply digit_not_plus_minus in Ed. congruence.
Qed.

Lemma matchesPrefix_void (w : list ascii) : matchesPrefix Void w = false.
Proof. induction w; simpl; auto. Qed.

Lemma matchesPrefix_class (p : ascii -> bool) (c : ascii) (w : list ascii) :
  matchesPrefix (Class p) (c :: w) = p c.
Proof.
  simpl. destruct (p c); [now destruct w|apply matchesPrefix_void].
Qed.

Lemma searchFrom_class_none (p : ascii -> bool) (w : list ascii) (i : nat) :
  forallb (fun c => negb (p c)) w = true -> searchFrom (Class p) w i = None.
Proof.
  revert i. induction w as [|c w IH]; intros i Hw; [reflexivity|].
  simpl in Hw. apply andb_true_iff in Hw as [Hc Hw].
  cbn [searchFrom]. rewrite matchesPrefix_class.
  apply negb_true_iff in Hc. rewrite Hc. now apply IH.
Qed.

Lemma searchFrom_class_first (p : ascii -> bool) (pre : list ascii) (c : ascii)
    (rest : list ascii) (i : nat) :
  forallb (fun c => negb (p c)) pre = true -> p c = true ->
  searchFrom (Class p) (pre ++ c :: rest) i = Some (i + length pre)%nat.
Proof.
  revert i. induction pre as [|d pre IH]; intros i Hpre Hc.
  - cbn [app searchFrom]. rewrite matchesPrefix_class, Hc. f_equal. simpl. lia.
  - simpl in Hpre. apply andb_true_iff in Hpre as [Hd Hpre].
    cbn [app searchFrom]. rewrite matchesPrefix_class.
    apply negb_true_iff in Hd. rewrite Hd, IH by assumption. f_equal. simpl. lia.
Qed.

(** What [normalizeAppVersion] returns: its argument, or a string
    that starts with two runs of digits, each closed by a dot. *)
Lemma normalizeAppVersion_cases (version : string) :
  normalizeAppVersion version = version
  \/ exists a b rest,
       list_ascii_of_string (normalizeAppVersion version) = a ++ "."%char :: b ++ "."%char :: rest
       /\ Matches (Plus digit) a /\ Matches (Plus digit) b.
Proof.
  unfold normalizeAppVersion.
  destruct (truthy version); [|now left]. simpl.
  destruct (test reMajorOnly version) eqn:E1.
  { right. apply matches_Matches in E1.
    exists (list_ascii_of_string version), ["0"%char], ["0"%char].
    rewrite list_ascii_of_string_app. repeat split; auto.
    apply Matches_plus_class. split; [discriminate|reflexivity]. }
  destruct (test reMajorMinor version) eqn:E2; [|now left].
  right. apply matches_Matches, reMajorMinor_shape in E2
    as (a & b & t & E & Ha & Hb & Ht).
  pose proof Ha as [_ Da]%Matches_plus_class.
  pose proof Hb as [_ Db]%Matches_plus_class.
  assert (Hpre : forallb (fun c => negb (isPlusMinus c)) (a ++ "."%char :: b) = true).
  { rewrite forallb_app. simpl. rewrite !digits_not_plus_minus by assumption. reflexivity. }
  unfold search, reTag. rewrite E.
  destruct Ht as [->|(c & t' & -> & Hc & _)].
  - rewrite app_nil_r, searchFrom_class_none by assumption.
    exists a, b, ["0"%char]. rewrite list_ascii_of_string_app, E, app_nil_r.
    rewrite <- app_assoc. simpl. auto.
  - replace (a ++ "."%char :: b ++ c :: t') with ((a ++ "."%char :: b) ++ c :: t')
      by (rewrite <- app_assoc; reflexivity).
    rewrite searchFrom_class_first by assumption. simpl.
    unfold slice_to, slice_from.
    replace (list_ascii_of_string version) with ((a ++ "."%char :: b) ++ c :: t')
      by (rewrite E, <- app_assoc; reflexivity).
    rewrite take_app_length, drop_app_length.
    exists a, b, ("0"%char :: c :: t').
    rewrite !list_ascii_of_string_app, !list_ascii_of_string_of_list_ascii.
    rewrite <- app_assoc. simpl. auto.
Qed.

Lemma normalizeAppVersion_fixed (version : string) :
  test reMajorOnly version = false -> test reMajorMinor version = false ->
  normalizeAppVersion version = version.
Proof.
  intros E1 E2. unfold normalizeAppVersion. rewrite E1, E2.
  now destruct (negb (truthy version)).
Qed.

Lemma normalizeAppVersion_three_segments (version : string) (a b rest : list ascii) :
  list_ascii_of_string version = a ++ "."%char :: b ++ "."%char :: rest ->
  Matches (Plus digit) a -> Matches (Plus digit) b ->
  normalizeAppVersion version = version.
Proof.
  intros E Ha Hb.
  destruct (three_segments_unmatched a b rest Ha Hb) as [H1 H2].
  apply normalizeAppVersion_fixed; unfold test; now rewrite E.
Qed.

End NormalizerFacts.

Section NormalizerClaims.
Import JS Regex RequestUtils.
Local Open Scope string_scope.

(** C9: [normalizeAppVersion] is idempotent on every string, and it
    returns unchanged every string of the form [X.Y.Z] whose three
    segments are runs of digits (each matched by the pattern
    [^\d+$]). *)
Theorem normalizeAppVersion_idempotent :
  (forall v : string,
     normalizeAppVersion (normalizeAppVersion v) = normalizeAppVersion v)
  /\ (forall x y z : string,
        test reMajorOnly x = true -> test reMajorOnly y = true ->
        test reMajorOnly z = true ->
        normalizeAppVersion (x ++ "." ++ y ++ "." ++ z) = x ++ "." ++ y ++ "." ++ z).
Proof.
  split.
  - intros v. destruct (normalizeAppVersion_cases v) as [E|(a & b & rest & E & Ha & Hb)].
    + now rewrite !E.
    + eapply normalizeAppVersion_three_segments; eauto.
  - intros x y z Hx%matches_Matches Hy%matches_Matches _.
    apply (normalizeAppVersion_three_segments _
             (list_ascii_of_string x) (list_ascii_of_string y) (list_ascii_of_string z));
      auto.
    rewrite !list_ascii_of_string_app. reflexivity.
Qed.

Lemma normalizeAppVersion_idempotent_witness :
  normalizeAppVersion (normalizeAppVersion "2.1-rc+7") = normalizeAppVersion "2.1-rc+7"
  /\ normalizeAppVersion ("10" ++ "." ++ "4" ++ "." ++ "27") = "10" ++ "." ++ "4" ++ "." ++ "27".
Proof.
  split.
  - apply (proj1 normalizeAppVersion_idempotent).
  - apply (proj2 normalizeAppVersion_idempotent "10" "4" "27"); reflexivity.
Defined.

End NormalizerClaims.

(** ** Comparisons of rationals *)

Section RationalFacts.
Import JS.
Local Open Scope Q_scope.

Lemma Qltb_true_iff (x y : Q) : Qltb x y = true <-> x < y.
Proof.
  unfold Qltb. rewrite negb_true_iff. split.
  - intros E. apply Qnot_le_lt. intros Hle. apply Qle_bool_iff in Hle. congruence.
  - intros Hlt. apply not_true_is_false. intros E%Qle_bool_iff. lra.
Qed.

Lemma Qltb_false_iff (x y : Q) : Qltb x y = false <-> y <= x.
Proof.
  unfold Qltb. rewrite negb_false_iff. apply Qle_bool_iff.
Qed.

Lemma Qle_bool_false_iff (x y : Q) : Qle_bool x y = false <-> y < x.
Proof.
  split.
  - intros E. apply Qnot_le_lt. intros Hle%Qle_bool_iff. congruence.
  - intros Hlt. apply not_true_is_false. intros E%Qle_bool_iff. lra.
Qed.

Lemma Qeq_bool_false_iff (x y : Q) : Qeq_bool x y = false <-> ~ x == y.
Proof.
  split; [apply Qeq_bool_neq|].
  intros Hne. apply not_true_is_false. intros E%Qeq_bool_iff. contradiction.
Qed.

End RationalFacts.

(** ** Rounding to the nearest double

    The rational [RN v]: it is monotone, odd, and leaves the points
    of the grid of doubles where they are. *)

Section Pow2Facts.
Import Rounding.
Local Open Scope Q_scope.

Lemma pow2_pos (e : Z) : 0 < pow2 e.
Proof. apply Qpower_0_lt. reflexivity. Qed.

Lemma pow2_add (a b : Z) : pow2 (a + b) == pow2 a * pow2 b.
Proof. apply Qpower_plus. discriminate. Qed.

Lemma pow2_succ (a : Z) : pow2 (a + 1) == 2 * pow2 a.
Proof. rewrite pow2_add. change (pow2 1) with 2. ring. Qed.

Lemma pow2_pred (a : Z) : pow2 a == 2 * pow2 (a - 1).
Proof. rewrite <- pow2_succ. now replace (a - 1 + 1)%Z with a by lia. Qed.

Lemma pow2_sub (a b : Z) : pow2 (a - b) == pow2 a / pow2 b.
Proof. apply Qpower_minus. discriminate. Qed.

Lemma pow2_le (a b : Z) : (a <= b)%Z -> pow2 a <= pow2 b.
Proof. intros H. apply Qpower_le_compat_l; [exact H|discriminate]. Qed.

Lemma pow2_lt (a b : Z) : (a < b)%Z -> pow2 a < pow2 b.
Proof. intros H. apply Qpower_lt_compat_l; [exact H|reflexivity]. Qed.

Lemma pow2_lt_inv (a b : Z) : pow2 a < pow2 b -> (a < b)%Z.
Proof. intros H. apply (Qpower_lt_compat_l_inv 2); [exact H|reflexivity]. Qed.

Lemma pow2_le_inv (a b : Z) : pow2 a <= pow2 b -> (a <= b)%Z.
Proof. intros H. apply (Qpower_le_compat_l_inv 2); [exact H|reflexivity]. Qed.

Lemma pow2_Z (n : Z) : (0 <= n)%Z -> pow2 n == inject_Z (2 ^ n).
Proof. intros H. unfold pow2. now rewrite Zpower_Qpower. Qed.

Lemma pow2_ge_1 (n : Z) : (0 <= n)%Z -> 1 <= pow2 n.
Proof. intros H. change 1 with (pow2 0). now apply pow2_le. Qed.

End Pow2Facts.

Section RneFacts.
Import Rounding.
Local Open Scope Q_scope.

Lemma Qfloor_bounds (x : Q) : inject_Z (Qfloor x) <= x < inject_Z (Qfloor x) + 1.
Proof.
  split; [apply Qfloor_le|].
  pose proof (Qlt_floor x) as H. rewrite inject_Z_plus in H. exact H.
Qed.

Lemma Qfloor_unique (x : Q) (z : Z) : inject_Z z <= x < inject_Z z + 1 -> Qfloor x = z.
Proof.
  intros [H1 H2]. destruct (Qfloor_bounds x) as [H3 H4].
  assert (inject_Z (Qfloor x) < inject_Z (z + 1)) as Ha
    by (rewrite inject_Z_plus; change (inject_Z 1) with 1; lra).
  assert (inject_Z z < inject_Z (Qfloor x + 1)) as Hb
    by (rewrite inject_Z_plus; change (inject_Z 1) with 1; lra).
  rewrite <- Zlt_Qlt in Ha, Hb. lia.
Qed.

#[global] Instance rne_comp : Proper (Qeq ==> eq) rne.
Proof.
  intros x y E. unfold rne. rewrite (Qfloor_comp x y E). now rewrite E.
Qed.

Lemma rne_Z (z : Z) : rne (inject_Z z) = z.
Proof.
  unfold rne. rewrite Qfloor_Z.
  replace (Qcompare (inject_Z z - inject_Z z) (1 # 2)) with Lt; [reflexivity|].
  symmetry. apply (proj1 (Qlt_alt _ _)). lra.
Qed.

Lemma rne_near (x : Q) : inject_Z (Qfloor x) <= inject_Z (rne x) <= inject_Z (Qfloor x) + 1.
Proof.
  unfold rne.
  destruct (Qcompare (x - inject_Z (Qfloor x)) (1 # 2)); [destruct (Z.even (Qfloor x))| |];
    rewrite ?inject_Z_plus; change (inject_Z 1) with 1; lra.
Qed.

Lemma rne_le (x y : Q) : x <= y -> (rne x <= rne y)%Z.
Proof.
  intros Hxy.
  destruct (Qfloor_bounds x) as [Hx1 Hx2]. destruct (Qfloor_bounds y) as [Hy1 Hy2].
  assert (Hf : (Qfloor x <= Qfloor y)%Z) by now apply Qfloor_resp_le.
  destruct (Z.eq_dec (Qfloor x) (Qfloor y)) as [E|N].
  - unfold rne. rewrite <- E.
    destruct (Qcompare (x - inject_Z (Qfloor x)) (1 # 2)) eqn:Cx;
      destruct (Qcompare (y - inject_Z (Qfloor x)) (1 # 2)) eqn:Cy;
      try (destruct (Z.even (Qfloor x))); try lia;
      first [ apply Qeq_alt in Cx | apply Qlt_alt in Cx | apply Qgt_alt in Cx ];
      first [ apply Qeq_alt in Cy | apply Qlt_alt in Cy | apply Qgt_alt in Cy ];
      exfalso; lra.
  - pose proof (rne_near x) as [_ Hx]. pose proof (rne_near y) as [Hy _].
    assert (inject_Z (Qfloor x) + 1 <= inject_Z (Qfloor y)).
    { rewrite <- (inject_Z_plus _ 1). rewrite <- Zle_Qle. lia. }
    rewrite Zle_Qle. lra.
Qed.

Lemma rne_nonneg (x : Q) : 0 <= x -> (0 <= rne x)%Z.
Proof. intros H. rewrite <- (rne_Z 0). now apply rne_le. Qed.

End RneFacts.

Section MagFacts.
Import Rounding.
Local Open Scope Q_scope.

Lemma mag_spec (v : Q) : 0 < v -> pow2 (mag v - 1) <= v < pow2 (mag v).
Proof.
  intros Hv. destruct v as [n d]. unfold mag. cbn [Qnum Qden].
  assert (Hn : (0 < n)%Z) by (unfold Qlt in Hv; cbn in Hv; lia).
  destruct (Z.log2_spec n Hn) as [Ha1 Ha2].
  destruct (Z.log2_spec (Zpos d) eq_refl) as [Hb1 Hb2].
  set (a := Z.log2 n) in *. set (b := Z.log2 (Zpos d)) in *.
  assert (Ha : (0 <= a)%Z) by apply Z.log2_nonneg.
  assert (Hb : (0 <= b)%Z) by apply Z.log2_nonneg.
  rewrite Zle_Qle, <- pow2_Z in Ha1, Hb1 by assumption.
  rewrite Zlt_Qlt in Ha2, Hb2.
  rewrite <- Z.add_1_r, <- pow2_Z, pow2_succ in Ha2, Hb2 by lia.
  assert (E : n # d == inject_Z n / inject_Z (Zpos d)) by apply Qmake_Qdiv.
  assert (Hd : 0 < inject_Z (Zpos d)) by reflexivity.
  assert (Hab : pow2 a == pow2 (a - b) * pow2 b).
  { rewrite <- pow2_add. now replace (a - b + b)%Z with a by lia. }
  pose proof (pow2_pos (a - b)) as Hc. pose proof (pow2_pos b) as Hpb.
  assert (Hv' : (n # d) * inject_Z (Zpos d) == inject_Z n).
  { rewrite E. field. lra. }
  destruct (Qle_bool (pow2 (a - b)) (n # d)) eqn:C.
  - apply Qle_bool_iff in C. replace (a - b + 1 - 1)%Z with (a - b)%Z by lia.
    split; [exact C|]. rewrite pow2_succ.
    apply Qnot_le_lt. intros Hc'. nra.
  - assert (C' : n # d < pow2 (a - b)).
    { apply Qnot_le_lt. intros Hc'. apply Qle_bool_iff in Hc'. congruence. }
    split; [|exact C']. rewrite (pow2_pred (a - b)) in Hc, Hab.
    apply Qnot_lt_le. intros Hc'. nra.
Qed.

Lemma mag_unique (v : Q) (l : Z) : pow2 (l - 1) <= v < pow2 l -> mag v = l.
Proof.
  intros [H1 H2].
  assert (Hv : 0 < v) by (pose proof (pow2_pos (l - 1)); lra).
  destruct (mag_spec v Hv) as [H3 H4].
  assert (pow2 (l - 1) < pow2 (mag v)) as Ha%pow2_lt_inv by lra.
  assert (pow2 (mag v - 1) < pow2 l) as Hb%pow2_lt_inv by lra.
  lia.
Qed.

Lemma mag_comp (v v' : Q) : 0 < v -> v == v' -> mag v = mag v'.
Proof.
  intros Hv E. apply mag_unique. rewrite E. apply mag_spec. now rewrite <- E.
Qed.

Lemma mag_le (v v' : Q) : 0 < v -> v <= v' -> (mag v <= mag v')%Z.
Proof.
  intros Hv Hle. destruct (mag_spec v Hv) as [H1 _].
  destruct (mag_spec v') as [_ H2]; [lra|].
  assert (pow2 (mag v - 1) < pow2 (mag v')) as Ha%pow2_lt_inv by lra. lia.
Qed.

End MagFacts.

Section RNFacts.
Import Rounding.
Local Open Scope Q_scope.

Lemma fexp_le (a b : Z) : (a <= b)%Z -> (fexp a <= fexp b)%Z.
Proof. unfold fexp. lia. Qed.

Lemma pow2_split (a b : Z) : pow2 a == pow2 (a - b) * pow2 b.
Proof. rewrite <- pow2_add. now replace (a - b + b)%Z with a by lia. Qed.

Lemma Qdiv_pow2 (v : Q) (e : Z) : v / pow2 e * pow2 e == v.
Proof. pose proof (pow2_pos e). field. lra. Qed.

Lemma Qdiv_pow2_le (v w : Q) (e : Z) : v <= w -> v / pow2 e <= w / pow2 e.
Proof.
  intros H. pose proof (pow2_pos e) as He.
  apply Qle_shift_div_l; [exact He|]. now rewrite Qdiv_pow2.
Qed.

Lemma Qdiv_pow2_pow2 (a e : Z) : (e <= a)%Z -> pow2 a / pow2 e == inject_Z (2 ^ (a - e)).
Proof.
  intros H. rewrite <- pow2_sub. apply pow2_Z. lia.
Qed.

Lemma RNpos_comp (v v' : Q) : 0 < v -> v == v' -> RNpos v == RNpos v'.
Proof.
  intros Hv E. unfold RNpos. rewrite (mag_comp v v' Hv E). now rewrite E.
Qed.

Lemma RNpos_nonneg (v : Q) : 0 < v -> 0 <= RNpos v.
Proof.
  intros Hv. unfold RNpos. pose proof (pow2_pos (fexp (mag v))) as He.
  apply Qmult_le_0_compat; [|lra].
  change 0 with (inject_Z 0). rewrite <- Zle_Qle. apply rne_nonneg.
  apply Qle_shift_div_l; [exact He|]. lra.
Qed.

(** A positive rational on the grid of its magnitude is not moved. *)
Lemma RNpos_grid (v : Q) (z e : Z) :
  0 < v -> v == inject_Z z * pow2 e -> (fexp (mag v) <= e)%Z -> RNpos v == v.
Proof.
  intros Hv E He. unfold RNpos. set (c := fexp (mag v)) in *.
  assert (Ez : v / pow2 c == inject_Z (z * 2 ^ (e - c))).
  { rewrite inject_Z_mult, <- pow2_Z by lia. rewrite E, (pow2_split e c).
    pose proof (pow2_pos c). field. lra. }
  rewrite Ez, rne_Z, <- Ez. apply Qdiv_pow2.
Qed.

Lemma mag_pow2 (k : Z) : mag (pow2 k) = (k + 1)%Z.
Proof.
  apply mag_unique. replace (k + 1 - 1)%Z with k by lia.
  split; [lra|]. apply pow2_lt. lia.
Qed.

Lemma RNpos_pow2 (k : Z) : (-1074 <= k)%Z -> RNpos (pow2 k) == pow2 k.
Proof.
  intros Hk. apply (RNpos_grid _ 1 k); [apply pow2_pos|ring|].
  rewrite mag_pow2. unfold fexp. lia.
Qed.

Lemma RNpos_le_pow2 (v : Q) (k : Z) :
  (-1074 <= k)%Z -> 0 < v -> v <= pow2 k -> RNpos v <= pow2 k.
Proof.
  intros Hk Hv Hle. unfold RNpos. set (c := fexp (mag v)).
  assert (Hc : (c <= k)%Z).
  { destruct (mag_spec v Hv) as [H1 _].
    assert (pow2 (mag v - 1) <= pow2 k) as Hm%pow2_le_inv by lra.
    unfold c, fexp. lia. }
  pose proof (pow2_pos c) as Hpc.
  assert (Hr : (rne (v / pow2 c) <= 2 ^ (k - c))%Z).
  { rewrite <- (rne_Z (2 ^ (k - c))). apply rne_le.
    rewrite <- Qdiv_pow2_pow2 by exact Hc. now apply Qdiv_pow2_le. }
  rewrite Zle_Qle, <- pow2_Z in Hr by lia.
  rewrite (pow2_split k c). apply Qmult_le_compat_r; [exact Hr|lra].
Qed.

Lemma RNpos_ge_pow2 (v : Q) (k : Z) :
  (-1074 <= k)%Z -> pow2 k <= v -> pow2 k <= RNpos v.
Proof.
  intros Hk Hle. pose proof (pow2_pos k) as Hpk.
  assert (Hv : 0 < v) by lra.
  destruct (mag_spec v Hv) as [H1 H2].
  assert (pow2 k < pow2 (mag v)) as Hm%pow2_lt_inv by lra.
  apply Qle_trans with (pow2 (mag v - 1)); [apply pow2_le; lia|].
  unfold RNpos. set (c := fexp (mag v)).
  assert (Hc : (c <= mag v - 1)%Z) by (unfold c, fexp; lia).
  pose proof (pow2_pos c) as Hpc.
  assert (Hr : (2 ^ (mag v - 1 - c) <= rne (v / pow2 c))%Z).
  { rewrite <- (rne_Z (2 ^ (mag v - 1 - c))). apply rne_le.
    rewrite <- Qdiv_pow2_pow2 by exact Hc. now apply Qdiv_pow2_le. }
  rewrite Zle_Qle, <- pow2_Z in Hr by lia.
  rewrite (pow2_split (mag v - 1) c). apply Qmult_le_compat_r; [exact Hr|lra].
Qed.

Lemma RNpos_tiny (v : Q) : 0 < v -> v < pow2 (-1075) -> RNpos v == 0.
Proof.
  intros Hv Hlt. unfold RNpos.
  destruct (mag_spec v Hv) as [H1 _].
  assert (pow2 (mag v - 1) < pow2 (-1075)) as Hm%pow2_lt_inv by lra.
  replace (fexp (mag v)) with (-1074)%Z by (unfold fexp; lia).
  assert (Hx : 0 <= v / pow2 (-1074) < 1 # 2).
  { pose proof (pow2_pos (-1074)) as Hp. split.
    - apply Qle_shift_div_l; [exact Hp|lra].
    - apply Qlt_shift_div_r; [exact Hp|].
      rewrite (pow2_pred (-1074)). change (-1074 - 1)%Z with (-1075)%Z. lra. }
  assert (Er : rne (v / pow2 (-1074)) = 0%Z).
  { unfold rne. rewrite (Qfloor_unique _ 0) by (change (inject_Z 0) with 0; lra).
    replace (Qcompare _ _) with Lt; [reflexivity|].
    symmetry. apply (proj1 (Qlt_alt _ _)). change (inject_Z 0) with 0. lra. }
  rewrite Er. change (inject_Z 0) with 0. ring.
Qed.

Lemma RNpos_le (v v' : Q) : 0 < v -> v <= v' -> RNpos v <= RNpos v'.
Proof.
  intros Hv Hle. assert (Hv' : 0 < v') by lra.
  pose proof (mag_le v v' Hv Hle) as Hm.
  destruct (Z.eq_dec (mag v) (mag v')) as [E|N].
  - unfold RNpos. rewrite <- E. set (c := fexp (mag v)).
    pose proof (pow2_pos c). apply Qmult_le_compat_r; [|lra].
    rewrite <- Zle_Qle. apply rne_le. now apply Qdiv_pow2_le.
  - destruct (mag_spec v Hv) as [_ H2]. destruct (mag_spec v' Hv') as [H3 _].
    assert (H4 : pow2 (mag v) <= v').
    { apply Qle_trans with (pow2 (mag v' - 1)); [apply pow2_le; lia|exact H3]. }
    destruct (Z_le_gt_dec (-1074) (mag v)) as [Hk|Hk].
    + apply Qle_trans with (pow2 (mag v)).
      * apply RNpos_le_pow2; [exact Hk|exact Hv|lra].
      * now apply RNpos_ge_pow2.
    + rewrite RNpos_tiny; [now apply RNpos_nonneg|exact Hv|].
      apply Qlt_le_trans with (pow2 (mag v)); [exact H2|apply pow2_le; lia].
Qed.

(** Rounding on all the rationals. *)

Lemma RN_pos (v : Q) : 0 < v -> RN v = RNpos v.
Proof. intros H. unfold RN. now apply Qgt_alt in H as ->. Qed.

Lemma RN_neg (v : Q) : v < 0 -> RN v = - RNpos (- v).
Proof. intros H. unfold RN. now apply Qlt_alt in H as ->. Qed.

Lemma RN_0 (v : Q) : v == 0 -> RN v = 0.
Proof. intros H. unfold RN. now apply Qeq_alt in H as ->. Qed.

#[global] Instance RN_comp : Proper (Qeq ==> Qeq) RN.
Proof.
  intros v v' E. destruct (Q_dec v 0) as [[H|H]|H].
  - rewrite (RN_neg v H), (RN_neg v') by (rewrite <- E; exact H).
    apply Qopp_comp. apply RNpos_comp; [lra|now rewrite E].
  - rewrite (RN_pos v H), (RN_pos v') by (rewrite <- E; exact H).
    now apply RNpos_comp.
  - rewrite (RN_0 v H), (RN_0 v') by (rewrite <- E; exact H). reflexivity.
Qed.

Lemma RN_opp (v : Q) : RN (- v) == - RN v.
Proof.
  destruct (Q_dec v 0) as [[H|H]|H].
  - rewrite (RN_neg v H), (RN_pos (- v)) by lra. ring.
  - rewrite (RN_pos v H), (RN_neg (- v)) by lra.
    apply Qopp_comp. apply RNpos_comp; [lra|ring].
  - rewrite (RN_0 v H), (RN_0 (- v)) by lra. reflexivity.
Qed.

Lemma RN_nonneg (v : Q) : 0 <= v -> 0 <= RN v.
Proof.
  intros H. destruct (Qle_lt_or_eq _ _ H) as [Hp|Hz].
  - rewrite RN_pos by exact Hp. now apply RNpos_nonneg.
  - rewrite RN_0 by (symmetry; exact Hz). lra.
Qed.

Lemma RN_nonpos (v : Q) : v <= 0 -> RN v <= 0.
Proof.
  intros H. pose proof (RN_nonneg (- v)) as Hn. rewrite RN_opp in Hn. lra.
Qed.

Lemma RN_le (v v' : Q) : v <= v' -> RN v <= RN v'.
Proof.
  intros Hle. destruct (Q_dec v 0) as [[H|H]|H].
  - destruct (Qlt_le_dec v' 0) as [H'|H'].
    + rewrite (RN_neg v H), (RN_neg v' H').
      apply Qopp_le_compat. apply RNpos_le; lra.
    + apply Qle_trans with 0; [apply RN_nonpos; lra|now apply RN_nonneg].
  - rewrite (RN_pos v H), (RN_pos v') by lra. now apply RNpos_le.
  - rewrite (RN_0 v H). apply RN_nonneg. lra.
Qed.

End RNFacts.

(** ** The rounding of SpecFloat

    [binary_round_aux], by which the operations of the Standard
    Library's specification of doubles round, returns [RN]. *)

Section ShiftFacts.
Import SpecFloat FloatOps Rounding Located.
Local Open Scope Q_scope.

Lemma fexp_eq (e : Z) : SpecFloat.fexp prec emax e = fexp e.
Proof. reflexivity. Qed.

Lemma digits2_pos_size (p : positive) : digits2_pos p = Pos.size p.
Proof. induction p; cbn; congruence. Qed.

Lemma Zdigits2_spec (m : Z) :
  (0 < m)%Z -> (2 ^ (Zdigits2 m - 1) <= m < 2 ^ Zdigits2 m)%Z /\ (0 < Zdigits2 m)%Z.
Proof.
  destruct m as [|p|p]; try lia. intros _. cbn [Zdigits2]. rewrite digits2_pos_size.
  pose proof (Pos.size_gt p) as H1. pose proof (Pos.size_le p) as H2.
  zify.
  replace (Z.pos (Pos.size p)) with (Z.pos (Pos.size p) - 1 + 1)%Z in H2 at 1 by lia.
  rewrite Z.pow_add_r in H2 by lia. lia.
Qed.

Lemma Zdigits2_0 : Zdigits2 0 = 0%Z.
Proof. reflexivity. Qed.

Lemma Zdigits2_le (m : Z) (k : Z) : (0 < m)%Z -> (0 <= k)%Z -> (m < 2 ^ k)%Z -> (Zdigits2 m <= k)%Z.
Proof.
  intros Hm Hk Hlt. destruct (Zdigits2_spec m Hm) as [[H1 _] Hd].
  apply Z.lt_succ_r. replace (Z.succ k) with (k + 1)%Z by lia.
  assert (2 ^ (Zdigits2 m - 1) < 2 ^ k)%Z as H by lia.
  apply Z.pow_lt_mono_r_iff in H; lia.
Qed.

Lemma Zdigits2_ge (m : Z) (k : Z) : (0 <= k)%Z -> (2 ^ k <= m)%Z -> (k + 1 <= Zdigits2 m)%Z.
Proof.
  intros Hk Hle. assert (Hm : (0 < m)%Z) by (pose proof (Z.pow_pos_nonneg 2 k); lia).
  destruct (Zdigits2_spec m Hm) as [[_ H2] Hd].
  assert (2 ^ k < 2 ^ Zdigits2 m)%Z as H by lia.
  apply Z.pow_lt_mono_r_iff in H; lia.
Qed.

(** One shift to the right halves the number located. *)
Lemma shr_1_located (mrs : shr_record) (x : Q) :
  (0 <= shr_m mrs)%Z -> located mrs x ->
  located (shr_1 mrs) (x * (1 # 2)) /\ (0 <= shr_m (shr_1 mrs))%Z.
Proof.
  destruct mrs as [m r s]. unfold located. cbn [shr_m shr_r shr_s].
  destruct m as [|p|p]; [| |lia]; intros _.
  - destruct r, s; cbn; change (inject_Z 0) with 0; intros H; (split; [|lia]); lra.
  - destruct p as [p|p|].
    + destruct r, s; cbn; intros H; (split; [|lia]);
        rewrite Pos2Z.inj_xI, inject_Z_plus, inject_Z_mult in H;
        change (inject_Z 2) with 2 in H; change (inject_Z 1) with 1 in H; lra.
    + destruct r, s; cbn; intros H; (split; [|lia]);
        rewrite Pos2Z.inj_xO, inject_Z_mult in H; change (inject_Z 2) with 2 in H; lra.
    + change (inject_Z 1) with 1.
      destruct r, s; cbn; change (inject_Z 0) with 0; intros H; (split; [|lia]); lra.
Qed.

Lemma located_comp (mrs : shr_record) (x y : Q) : x == y -> located mrs x -> located mrs y.
Proof. intros E. unfold located. destruct (shr_r mrs), (shr_s mrs); now rewrite E. Qed.

Lemma iter_shr_1_located (p : positive) (mrs : shr_record) (x : Q) :
  (0 <= shr_m mrs)%Z -> located mrs x ->
  located (iter_pos shr_1 p mrs) (x / pow2 (Zpos p))
  /\ (0 <= shr_m (iter_pos shr_1 p mrs))%Z.
Proof.
  revert mrs x. induction p as [p IH|p IH|]; intros mrs x Hm Hx; cbn [iter_pos].
  - destruct (shr_1_located mrs x Hm Hx) as [H1 Hm1].
    destruct (IH _ _ Hm1 H1) as [H2 Hm2]. destruct (IH _ _ Hm2 H2) as [H3 Hm3].
    split; [|exact Hm3]. revert H3. apply located_comp.
    rewrite Pos2Z.inj_xI. rewrite (pow2_add (2 * Z.pos p) 1).
    replace (2 * Z.pos p)%Z with (Z.pos p + Z.pos p)%Z by lia. rewrite pow2_add.
    change (pow2 1) with 2. pose proof (pow2_pos (Z.pos p)). field. lra.
  - destruct (IH _ _ Hm Hx) as [H2 Hm2]. destruct (IH _ _ Hm2 H2) as [H3 Hm3].
    split; [|exact Hm3]. revert H3. apply located_comp.
    rewrite Pos2Z.inj_xO.
    replace (2 * Z.pos p)%Z with (Z.pos p + Z.pos p)%Z by lia. rewrite pow2_add.
    pose proof (pow2_pos (Z.pos p)). field. lra.
  - apply shr_1_located; assumption.
Qed.

Lemma shr_located (mrs : shr_record) (e n : Z) (v : Q) :
  (0 <= shr_m mrs)%Z -> (0 <= n)%Z -> located mrs (v / pow2 e) ->
  snd (shr mrs e n) = (e + n)%Z
  /\ located (fst (shr mrs e n)) (v / pow2 (e + n))
  /\ (0 <= shr_m (fst (shr mrs e n)))%Z.
Proof.
  intros Hm Hn Hx. destruct n as [|p|p]; [| |lia]; cbn [shr fst snd].
  - rewrite Z.add_0_r. auto.
  - destruct (iter_shr_1_located p mrs _ Hm Hx) as [H1 H2].
    split; [reflexivity|]. split; [|exact H2]. revert H1. apply located_comp.
    rewrite pow2_add. pose proof (pow2_pos e). pose proof (pow2_pos (Z.pos p)). field. lra.
Qed.

Lemma located_bounds (mrs : shr_record) (x : Q) :
  located mrs x -> inject_Z (shr_m mrs) <= x < inject_Z (shr_m mrs) + 1.
Proof. unfold located. destruct (shr_r mrs), (shr_s mrs); lra. Qed.

Lemma rne_located (mrs : shr_record) (x : Q) :
  located mrs x -> round_nearest_even (shr_m mrs) (loc_of_shr_record mrs) = rne x.
Proof.
  intros Hx. pose proof (located_bounds mrs x Hx) as Hb.
  unfold rne. rewrite (Qfloor_unique x (shr_m mrs) Hb).
  destruct mrs as [m r s]. unfold located in Hx. cbn [shr_m shr_r shr_s] in *.
  destruct r, s; cbn [loc_of_shr_record round_nearest_even].
  - replace (Qcompare _ _) with Gt; [reflexivity|].
    symmetry. apply (proj1 (Qgt_alt _ _)). lra.
  - replace (Qcompare _ _) with Eq; [reflexivity|].
    symmetry. apply (proj1 (Qeq_alt _ _)). rewrite Hx. ring.
  - replace (Qcompare _ _) with Lt; [reflexivity|].
    symmetry. apply (proj1 (Qlt_alt _ _)). lra.
  - replace (Qcompare _ _) with Lt; [reflexivity|].
    symmetry. apply (proj1 (Qlt_alt _ _)). lra.
Qed.

End ShiftFacts.

Section RoundFacts.
Import SpecFloat FloatOps Rounding Located.
Local Open Scope Q_scope.

Lemma Qdiv_pow2_bounds (v : Q) (e : Z) (a b : Q) :
  a <= v / pow2 e < b <-> a * pow2 e <= v < b * pow2 e.
Proof.
  pose proof (pow2_pos e) as He. split; intros [H1 H2]; split.
  - rewrite <- (Qdiv_pow2 v e).
    apply Qmult_le_compat_r; lra.
  - rewrite <- (Qdiv_pow2 v e). apply Qmult_lt_compat_r; lra.
  - apply Qle_shift_div_l; assumption.
  - apply Qlt_shift_div_r; assumption.
Qed.

Lemma Zdigits2_pow2 (mx : Z) :
  (0 < mx)%Z ->
  pow2 (Zdigits2 mx - 1) <= inject_Z mx /\ inject_Z mx + 1 <= pow2 (Zdigits2 mx).
Proof.
  intros Hm. destruct (Zdigits2_spec mx Hm) as [[H1 H2] Hd].
  rewrite !pow2_Z by lia. change (inject_Z mx + 1) with (inject_Z mx + inject_Z 1).
  rewrite <- (inject_Z_plus mx 1), <- !Zle_Qle. lia.
Qed.

Lemma cexp_located (mx ex : Z) (v : Q) :
  (0 <= mx)%Z -> 0 < v ->
  inject_Z mx <= v / pow2 ex < inject_Z mx + 1 ->
  (ex <= fexp (Zdigits2 mx + ex))%Z ->
  fexp (Zdigits2 mx + ex) = fexp (mag v).
Proof.
  intros Hm Hv Hx He. apply Qdiv_pow2_bounds in Hx as [Hx1 Hx2].
  destruct (Z.eq_dec mx 0%Z) as [->|Hne].
  - rewrite Zdigits2_0 in *. change (inject_Z 0) with 0 in *.
    destruct (mag_spec v Hv) as [H1 _].
    assert (pow2 (mag v - 1) < pow2 ex) as Hlt%pow2_lt_inv by lra.
    unfold fexp in *. lia.
  - destruct (Zdigits2_pow2 mx) as [H1 H2]; [lia|].
    f_equal. symmetry. apply mag_unique.
    pose proof (pow2_pos ex) as Hp.
    replace (Zdigits2 mx + ex - 1)%Z with (Zdigits2 mx - 1 + ex)%Z by lia.
    rewrite !pow2_add. split.
    + apply Qle_trans with (inject_Z mx * pow2 ex); [|exact Hx1].
      apply Qmult_le_compat_r; lra.
    + apply Qlt_le_trans with ((inject_Z mx + 1) * pow2 ex); [exact Hx2|].
      apply Qmult_le_compat_r; lra.
Qed.

(** The mantissa that rounding leaves has at most 53 bits, or is 2^53. *)
Lemma rne_mantissa (v : Q) :
  0 < v ->
  let k := rne (v / pow2 (fexp (mag v))) in
  (0 <= k <= 2 ^ 53)%Z
  /\ ((-1074 < fexp (mag v))%Z -> (2 ^ 52 <= k)%Z).
Proof.
  intros Hv k. destruct (mag_spec v Hv) as [H1 H2].
  set (c := fexp (mag v)) in *. pose proof (pow2_pos c) as Hc.
  assert (Hx0 : 0 <= v / pow2 c) by (apply Qle_shift_div_l; lra).
  split; [split|].
  - now apply rne_nonneg.
  - destruct (Z_le_gt_dec c (mag v)) as [Hle|Hgt].
    + apply Z.le_trans with (2 ^ (mag v - c))%Z.
      * rewrite <- (rne_Z (2 ^ (mag v - c))%Z). apply rne_le.
        rewrite <- Qdiv_pow2_pow2 by exact Hle. apply Qdiv_pow2_le. lra.
      * apply Z.pow_le_mono_r; [lia|]. unfold c, fexp. lia.
    + apply Z.le_trans with 1%Z; [|lia].
      rewrite <- (rne_Z 1%Z). apply rne_le. change (inject_Z 1) with 1.
      apply Qle_shift_div_r; [exact Hc|].
      assert (pow2 (mag v) <= pow2 c) by (apply pow2_le; lia). lra.
  - intros Hn.
    assert (Ec : c = (mag v - 53)%Z) by (unfold c, fexp in *; lia).
    rewrite <- (rne_Z (2 ^ 52)%Z). apply rne_le.
    replace 52%Z with (mag v - 1 - c)%Z by lia.
    rewrite <- Qdiv_pow2_pow2 by lia. now apply Qdiv_pow2_le.
Qed.

Lemma shr_fexp_exact (k e : Z) :
  (0 < k <= 2 ^ 53)%Z -> (-1074 <= e)%Z ->
  ((k < 2 ^ 52)%Z -> e = (-1074)%Z) ->
  exists m e',
    shr_fexp prec emax k e loc_Exact
    = ({| shr_m := Zpos m; shr_r := false; shr_s := false |}, e')
    /\ canonical_mantissa prec emax m e' = true
    /\ inject_Z (Zpos m) * pow2 e' == inject_Z k * pow2 e
    /\ ((-1074 < e')%Z -> (2 ^ 52 <= Zpos m)%Z)
    /\ (Zpos m < 2 ^ 53)%Z.
Proof.
  intros [Hk1 Hk2] He Hsub. unfold shr_fexp. rewrite fexp_eq.
  destruct (Zdigits2_spec k Hk1) as [[Hd1 Hd2] Hd].
  destruct (Z.eq_dec k (2 ^ 53)%Z) as [->|Hne].
  - replace (Zdigits2 (2 ^ 53)%Z) with 54%Z by reflexivity.
    replace (fexp (54 + e) - e)%Z with 1%Z by (unfold fexp; lia).
    exists (2 ^ 52)%positive, (e + 1)%Z. cbn [shr shr_record_of_loc iter_pos].
    split; [reflexivity|]. split; [|split; [|split]].
    + unfold canonical_mantissa. rewrite fexp_eq.
      replace (Z.pos (digits2_pos (2 ^ 52)%positive)) with 53%Z by reflexivity.
      apply Z.eqb_eq. unfold fexp. lia.
    + rewrite pow2_succ. change (inject_Z (Z.pos (2 ^ 52))) with (inject_Z (2 ^ 52)%Z).
      change (inject_Z (2 ^ 53)%Z) with (2 * inject_Z (2 ^ 52)%Z). ring.
    + intros _. reflexivity.
    + reflexivity.
  - assert (Hlt : (k < 2 ^ 53)%Z) by lia.
    assert (Hdk : (Zdigits2 k <= 53)%Z) by (apply Zdigits2_le; lia).
    assert (Hn : (fexp (Zdigits2 k + e) - e <= 0)%Z) by (unfold fexp; lia).
    destruct k as [|m|m]; try lia. exists m, e.
    split.
    { destruct (fexp (Zdigits2 (Z.pos m) + e) - e)%Z; try lia; reflexivity. }
    split; [|split; [reflexivity|split; [|exact Hlt]]].
    + unfold canonical_mantissa. rewrite fexp_eq. apply Z.eqb_eq.
      change (Z.pos (digits2_pos m)) with (Zdigits2 (Z.pos m)).
      destruct (Z_lt_ge_dec (Z.pos m) (2 ^ 52)%Z) as [Hs|Hs].
      * rewrite (Hsub Hs). unfold fexp. lia.
      * assert (53 <= Zdigits2 (Z.pos m))%Z by (apply (Zdigits2_ge _ 52%Z); lia).
        unfold fexp. lia.
    + intros He'. destruct (Z_lt_ge_dec (Z.pos m) (2 ^ 52)%Z) as [Hs|Hs]; [|lia].
      specialize (Hsub Hs). lia.
Qed.

(** The rounding of SpecFloat returns the double nearest to the
    number located by its arguments. *)
Lemma binary_round_aux_correct (s : bool) (mx ex : Z) (lx : location) (v : Q) :
  (0 <= mx)%Z -> 0 < v ->
  located (shr_record_of_loc mx lx) (v / pow2 ex) ->
  (ex <= fexp (Zdigits2 mx + ex))%Z ->
  rounds_to s (RNpos v) (binary_round_aux prec emax s mx ex lx).
Proof.
  intros Hm Hv Hloc He.
  assert (Hm0 : shr_m (shr_record_of_loc mx lx) = mx) by (destruct lx as [|[]]; reflexivity).
  pose proof (located_bounds _ _ Hloc) as Hb. rewrite Hm0 in Hb.
  pose proof (cexp_located mx ex v Hm Hv Hb He) as Ec.
  unfold binary_round_aux, shr_fexp at 1. rewrite fexp_eq.
  destruct (shr_located (shr_record_of_loc mx lx) ex (fexp (Zdigits2 mx + ex) - ex) v)
    as (He' & Hloc' & Hm'); [lia|lia|exact Hloc|].
  destruct (shr (shr_record_of_loc mx lx) ex (fexp (Zdigits2 mx + ex) - ex)) as [mrs' e'].
  cbn [fst snd] in *. replace (ex + (fexp (Zdigits2 mx + ex) - ex))%Z with (fexp (mag v)) in * by lia.
  subst e'. rewrite (rne_located mrs' _ Hloc').
  destruct (rne_mantissa v Hv) as [[Hk0 Hk1] Hk2].
  unfold RNpos. set (c := fexp (mag v)) in *. set (k := rne (v / pow2 c)) in *.
  pose proof (pow2_pos c) as Hpc.
  assert (Hc0 : (-1074 <= c)%Z) by (unfold c, fexp; lia).
  destruct (Z.eq_dec k 0%Z) as [Ek|Nk].
  - left. rewrite Ek. split; [change (inject_Z 0) with 0; ring|].
    unfold shr_fexp. rewrite fexp_eq. rewrite Zdigits2_0.
    destruct (fexp (0 + c) - c)%Z eqn:En; [reflexivity| |reflexivity].
    exfalso. unfold fexp in En. lia.
  - destruct (shr_fexp_exact k c) as (m & e'' & -> & Hcan & Hval & Hnorm & Hm53);
      [lia|exact Hc0| |].
    { intros Hs. destruct (Z.eq_dec c (-1074)%Z) as [E|N]; [exact E|].
      assert (-1074 < c)%Z as H by lia. specialize (Hk2 H). lia. }
    cbn [shr_m].
    assert (Hpm : 0 < inject_Z (Z.pos m)) by reflexivity.
    pose proof (pow2_pos e'') as Hpe.
    destruct (e'' <=? emax - prec)%Z eqn:Eb.
    + right. left. apply Z.leb_le in Eb. change (emax - prec)%Z with 971%Z in Eb.
      split.
      * rewrite <- Hval. split; [apply Qmult_lt_0_compat; assumption|].
        apply Qlt_le_trans with (pow2 53 * pow2 e'').
        -- apply Qmult_lt_compat_r; [exact Hpe|].
           rewrite pow2_Z by lia. rewrite <- Zlt_Qlt. exact Hm53.
        -- rewrite <- pow2_add. apply pow2_le. lia.
      * exists m, e''. split; [reflexivity|]. split; [|exact Hval].
        unfold bounded. rewrite Hcan. apply Z.leb_le. exact Eb.
    + right. right. apply Z.leb_gt in Eb. change (emax - prec)%Z with 971%Z in Eb.
      split; [|reflexivity]. rewrite <- Hval.
      apply Qle_trans with (pow2 52 * pow2 e'').
      * rewrite <- pow2_add. apply pow2_le. lia.
      * apply Qmult_le_compat_r; [|lra].
        rewrite pow2_Z by lia. rewrite <- Zle_Qle. apply Hnorm. lia.
Qed.

End RoundFacts.

(** ** The operations of SpecFloat on finite doubles *)

Section ValueFacts.
Import SpecFloat FloatOps Rounding Located Double.
Local Open Scope Q_scope.

Lemma valid_finite (s : bool) (m : positive) (e : Z) :
  valid_binary prec emax (S754_finite s m e) = true ->
  e = fexp (Zdigits2 (Zpos m) + e) /\ (-1074 <= e <= 971)%Z /\ (Zpos m < 2 ^ 53)%Z
  /\ (Zdigits2 (Zpos m) <= 53)%Z.
Proof.
  cbn [valid_binary]. unfold bounded, canonical_mantissa. rewrite fexp_eq.
  intros [H1 H2]%andb_prop. apply Z.eqb_eq in H1. apply Z.leb_le in H2.
  change (emax - prec)%Z with 971%Z in H2.
  change (Z.pos (digits2_pos m)) with (Zdigits2 (Z.pos m)) in H1.
  assert (Hd : (Zdigits2 (Z.pos m) <= 53)%Z) by (unfold fexp in H1; lia).
  destruct (Zdigits2_spec (Z.pos m) eq_refl) as [[_ Hlt] _].
  split; [symmetry; exact H1|]. split; [unfold fexp in H1; lia|]. split; [|exact Hd].
  apply Z.lt_le_trans with (2 ^ Zdigits2 (Z.pos m))%Z; [exact Hlt|].
  apply Z.pow_le_mono_r; lia.
Qed.

Lemma SFvalue_abs (s : bool) (m : positive) (e : Z) :
  Qabs (SFvalue (S754_finite s m e)) == inject_Z (Zpos m) * pow2 e.
Proof.
  cbn [SFvalue]. pose proof (pow2_pos e) as He.
  assert (Hm : 0 < inject_Z (Z.pos m)) by reflexivity.
  rewrite Qabs_Qmult. rewrite (Qabs_pos (pow2 e)) by (unfold pow2 in *; lra).
  destruct s; cbn [cond_Zopp].
  - change (Z.neg m) with (- Z.pos m)%Z. rewrite inject_Z_opp, Qabs_opp, Qabs_pos; [reflexivity|lra].
  - rewrite Qabs_pos; [reflexivity|lra].
Qed.

Lemma SFvalue_sign (s : bool) (m : positive) (e : Z) :
  if s then SFvalue (S754_finite s m e) < 0 else 0 < SFvalue (S754_finite s m e).
Proof.
  cbn [SFvalue]. pose proof (pow2_pos e) as He. unfold pow2 in He.
  assert (Hm : 0 < inject_Z (Z.pos m)) by reflexivity.
  destruct s; cbn [cond_Zopp].
  - change (Z.neg m) with (- Z.pos m)%Z. rewrite inject_Z_opp. nra.
  - nra.
Qed.

(** The magnitude of a double is a rational that rounding leaves
    alone, below 2^1024. *)
Lemma RNpos_double (m : positive) (e : Z) :
  valid_binary prec emax (S754_finite false m e) = true ->
  RNpos (inject_Z (Zpos m) * pow2 e) == inject_Z (Zpos m) * pow2 e
  /\ inject_Z (Zpos m) * pow2 e < pow2 1024.
Proof.
  intros Hv. destruct (valid_finite _ _ _ Hv) as (Hc & He & Hm & Hd).
  pose proof (pow2_pos e) as Hpe. assert (Hpm : 0 < inject_Z (Z.pos m)) by reflexivity.
  assert (Hpos : 0 < inject_Z (Z.pos m) * pow2 e) by (apply Qmult_lt_0_compat; assumption).
  split.
  - apply (RNpos_grid _ (Zpos m) e); [exact Hpos|reflexivity|].
    rewrite Hc at 2. apply Z.eq_le_incl. symmetry.
    apply (cexp_located (Z.pos m) e); [lia|exact Hpos| |lia].
    rewrite Qdiv_pow2_bounds. lra.
  - apply Qlt_le_trans with (pow2 53 * pow2 e).
    + apply Qmult_lt_compat_r; [exact Hpe|]. rewrite pow2_Z by lia. now rewrite <- Zlt_Qlt.
    + rewrite <- pow2_add. apply pow2_le. lia.
Qed.

Lemma Qabs_RN (v : Q) : Qabs (RN v) == RN (Qabs v).
Proof.
  destruct (Qlt_le_dec v 0) as [H|H].
  - rewrite (Qabs_neg v) by lra. rewrite RN_opp.
    apply Qabs_neg. apply RN_nonpos. lra.
  - rewrite (Qabs_pos v) by exact H. apply Qabs_pos. now apply RN_nonneg.
Qed.

Lemma rounded_finite (x : spec_float) :
  valid_binary prec emax x = true -> SFfin x = true -> rounded (SFvalue x) x.
Proof.
  intros Hv Hf. split; [exact Hv|]. left.
  destruct x as [s| |  |s m e]; try discriminate.
  - cbn [SFvalue]. rewrite RN_0 by reflexivity. split; [reflexivity|]. split; reflexivity.
  - assert (Hv' : valid_binary prec emax (S754_finite false m e) = true) by exact Hv.
    destruct (RNpos_double m e Hv') as [H1 H2].
    pose proof (SFvalue_abs s m e) as Ha. pose proof (SFvalue_sign s m e) as Hs.
    assert (Hpos : 0 < inject_Z (Z.pos m) * pow2 e).
    { apply Qmult_lt_0_compat; [reflexivity|apply pow2_pos]. }
    assert (E : RN (SFvalue (S754_finite s m e)) == SFvalue (S754_finite s m e)).
    { destruct s.
      - rewrite RN_neg by exact Hs. rewrite (Qabs_neg _) in Ha by lra.
        assert (Hn : 0 < - SFvalue (S754_finite true m e)) by lra.
        rewrite (RNpos_comp _ _ Hn Ha). rewrite H1, <- Ha. ring.
      - rewrite RN_pos by exact Hs. rewrite (Qabs_pos _) in Ha by lra.
        rewrite (RNpos_comp _ _ Hs Ha). rewrite H1, <- Ha. reflexivity. }
    split; [|split; [reflexivity|symmetry; exact E]].
    rewrite E, Ha. exact H2.
Qed.

(** From the magnitude and the sign to the number. *)
Lemma rounds_to_rounded (s : bool) (v : Q) (z : spec_float) :
  (if s then v < 0 else 0 < v) ->
  rounds_to s (RNpos (Qabs v)) z -> rounded v z.
Proof.
  intros Hs Hr.
  assert (Hv : RN v == if s then - RNpos (Qabs v) else RNpos (Qabs v)).
  { destruct s.
    - rewrite RN_neg by exact Hs. apply Qopp_comp. apply RNpos_comp; [lra|].
      symmetry. apply Qabs_neg. lra.
    - rewrite RN_pos by exact Hs. apply RNpos_comp; [lra|].
      symmetry. apply Qabs_pos. lra. }
  assert (Hpos : 0 <= RNpos (Qabs v)).
  { apply RNpos_nonneg. destruct s; [rewrite Qabs_neg|rewrite Qabs_pos]; lra. }
  set (R := RNpos (Qabs v)) in *.
  destruct Hr as [[HR ->]|[[HR (m & e & -> & Hb & Hval)]|[HR ->]]].
  - split; [reflexivity|]. left. rewrite Hv. cbn [SFfin SFvalue].
    split; [|split; [reflexivity|]].
    + destruct s; rewrite ?Qabs_opp, HR; reflexivity.
    + destruct s; rewrite HR; reflexivity.
  - split; [exact Hb|]. left. rewrite Hv. split; [|split; [reflexivity|]].
    + destruct s; rewrite ?Qabs_opp, Qabs_pos; lra.
    + cbn [SFvalue]. destruct s; cbn [cond_Zopp].
      * change (Z.neg m) with (- Z.pos m)%Z. rewrite inject_Z_opp.
        unfold pow2 in Hval. rewrite <- Hval. ring.
      * exact Hval.
  - split; [reflexivity|]. destruct s.
    + right. right. split; [|reflexivity]. rewrite Hv. lra.
    + right. left. split; [|reflexivity]. rewrite Hv. lra.
Qed.

End ValueFacts.

Section OperationFacts.
Import SpecFloat FloatOps Rounding Located Double.
Local Open Scope Q_scope.

Lemma rounded_comp (v v' : Q) (z : spec_float) : v == v' -> rounded v z -> rounded v' z.
Proof. intros E [Hv H]. split; [exact Hv|]. rewrite <- E. exact H. Qed.

Lemma rounds_to_comp (s : bool) (R R' : Q) (z : spec_float) :
  R == R' -> rounds_to s R z -> rounds_to s R' z.
Proof.
  intros E [[HR Hz]|[[HR (m & e & Hz & Hb & Hv)]|[HR Hz]]].
  - left. split; [now rewrite <- E|exact Hz].
  - right. left. split; [now rewrite <- E|]. exists m, e. now rewrite <- E.
  - right. right. split; [now rewrite <- E|exact Hz].
Qed.

Lemma rounded_zero (v : Q) (s : bool) : v == 0 -> rounded v (S754_zero s).
Proof.
  intros E. apply (rounded_comp 0 v); [now symmetry|].
  split; [reflexivity|]. left. rewrite RN_0 by reflexivity.
  split; [reflexivity|]. split; reflexivity.
Qed.

Lemma Qdiv_mult_pow2 (x : Q) (e : Z) : x * pow2 e / pow2 e == x.
Proof. pose proof (pow2_pos e). field. lra. Qed.

Lemma round_exact_correct (s : bool) (m e : Z) :
  (0 < m)%Z -> (e <= fexp (Zdigits2 m + e))%Z ->
  rounds_to s (RNpos (inject_Z m * pow2 e)) (binary_round_aux prec emax s m e loc_Exact).
Proof.
  intros Hm He. apply binary_round_aux_correct; [lia| | |exact He].
  - apply Qmult_lt_0_compat; [|apply pow2_pos].
    change 0 with (inject_Z 0). now rewrite <- Zlt_Qlt.
  - cbn [shr_record_of_loc located shr_r shr_s shr_m]. apply Qdiv_mult_pow2.
Qed.

Lemma iter_xO (m d : positive) : Zpos (Pos.iter xO m d) = (Zpos m * 2 ^ Zpos d)%Z.
Proof.
  induction d as [|d IH] using Pos.peano_ind.
  - cbn [Pos.iter]. lia.
  - rewrite Pos.iter_succ, Pos2Z.inj_xO, IH, Pos2Z.inj_succ, Z.pow_succ_r by lia. lia.
Qed.

Lemma shl_align_spec (mx : positive) (ex ez : Z) :
  (ez <= ex)%Z ->
  Zpos (fst (shl_align mx ex ez)) = (Zpos mx * 2 ^ (ex - ez))%Z
  /\ snd (shl_align mx ex ez) = ez.
Proof.
  intros Hle. unfold shl_align. destruct (ez - ex)%Z as [|d|d] eqn:Ed; try lia.
  - cbn [fst snd]. replace (ex - ez)%Z with 0%Z by lia. split; lia.
  - cbn [fst snd]. rewrite iter_xO. replace (ex - ez)%Z with (Z.pos d) by lia. split; reflexivity.
Qed.

Lemma Zdigits2_unique (m k : Z) : (2 ^ (k - 1) <= m < 2 ^ k)%Z -> (0 < k)%Z -> Zdigits2 m = k.
Proof.
  intros [H1 H2] Hk.
  assert (Hm : (0 < m)%Z) by (pose proof (Z.pow_pos_nonneg 2 (k - 1)); lia).
  pose proof (Zdigits2_le m k Hm ltac:(lia) H2).
  pose proof (Zdigits2_ge m (k - 1) ltac:(lia) H1). lia.
Qed.

Lemma Zdigits2_shift (m d : Z) : (0 < m)%Z -> (0 <= d)%Z -> Zdigits2 (m * 2 ^ d) = (Zdigits2 m + d)%Z.
Proof.
  intros Hm Hd. destruct (Zdigits2_spec m Hm) as [[H1 H2] Hk].
  apply Zdigits2_unique; [|lia].
  replace (Zdigits2 m + d - 1)%Z with (Zdigits2 m - 1 + d)%Z by lia.
  rewrite !Z.pow_add_r by lia. pose proof (Z.pow_pos_nonneg 2 d). nia.
Qed.

Lemma Zdigits2_mono (a b : Z) : (0 < a <= b)%Z -> (Zdigits2 a <= Zdigits2 b)%Z.
Proof.
  intros [Ha Hab]. destruct (Zdigits2_spec a Ha) as [[H1 _] Hk].
  pose proof (Zdigits2_ge b (Zdigits2 a - 1) ltac:(lia) ltac:(lia)). lia.
Qed.

Lemma pow2_Zscale (m : Z) (a b : Z) :
  (b <= a)%Z -> inject_Z (m * 2 ^ (a - b)) * pow2 b == inject_Z m * pow2 a.
Proof.
  intros H. rewrite inject_Z_mult, <- pow2_Z by lia.
  rewrite (pow2_split a b). ring.
Qed.

Lemma binary_round_correct (s : bool) (m : positive) (e : Z) :
  rounds_to s (RNpos (inject_Z (Zpos m) * pow2 e)) (binary_round prec emax s m e).
Proof.
  unfold binary_round. rewrite fexp_eq.
  change (Z.pos (digits2_pos m)) with (Zdigits2 (Z.pos m)).
  set (f := fexp (Zdigits2 (Z.pos m) + e)).
  destruct (Z_le_gt_dec e f) as [Hle|Hgt].
  - assert (E : shl_align m e f = (m, e)).
    { unfold shl_align. destruct (f - e)%Z eqn:Ed; try lia; reflexivity. }
    rewrite E. apply round_exact_correct; [lia|exact Hle].
  - destruct (shl_align_spec m e f ltac:(lia)) as [E1 E2].
    destruct (shl_align m e f) as [mz ez]. cbn [fst snd] in *. subst ez.
    assert (Ev : inject_Z (Z.pos mz) * pow2 f == inject_Z (Z.pos m) * pow2 e).
    { rewrite E1. apply pow2_Zscale. lia. }
    assert (Hpos : 0 < inject_Z (Z.pos mz) * pow2 f).
    { apply Qmult_lt_0_compat; [reflexivity|apply pow2_pos]. }
    pose proof (round_exact_correct s (Z.pos mz) f ltac:(lia)) as Hr.
    rewrite E1, Zdigits2_shift in Hr by lia. rewrite <- E1 in Hr.
    replace (Zdigits2 (Z.pos m) + (e - f) + f)%Z with (Zdigits2 (Z.pos m) + e)%Z in Hr by lia.
    specialize (Hr ltac:(subst f; lia)).
    exact (rounds_to_comp _ _ _ _ (RNpos_comp _ _ Hpos Ev) Hr).
Qed.

Lemma binary_normalize_correct (z e : Z) (sz : bool) :
  rounded (inject_Z z * pow2 e) (binary_normalize prec emax z e sz).
Proof.
  pose proof (pow2_pos e) as He.
  destruct z as [|m|m]; cbn [binary_normalize].
  - apply rounded_zero. ring.
  - assert (Hp : 0 < inject_Z (Z.pos m) * pow2 e).
    { apply Qmult_lt_0_compat; [reflexivity|exact He]. }
    apply (rounds_to_rounded false); [exact Hp|].
    pose proof (binary_round_correct false m e) as Hr.
    assert (E : inject_Z (Z.pos m) * pow2 e == Qabs (inject_Z (Z.pos m) * pow2 e)).
    { symmetry. apply Qabs_pos. lra. }
    exact (rounds_to_comp _ _ _ _ (RNpos_comp _ _ Hp E) Hr).
  - assert (Hp : 0 < inject_Z (Z.pos m) * pow2 e).
    { apply Qmult_lt_0_compat; [reflexivity|exact He]. }
    assert (Hn : inject_Z (Z.neg m) * pow2 e < 0).
    { change (Z.neg m) with (- Z.pos m)%Z. rewrite inject_Z_opp. lra. }
    apply (rounds_to_rounded true); [exact Hn|].
    pose proof (binary_round_correct true m e) as Hr.
    assert (E : inject_Z (Z.pos m) * pow2 e == Qabs (inject_Z (Z.neg m) * pow2 e)).
    { rewrite Qabs_neg by lra. change (Z.neg m) with (- Z.pos m)%Z. rewrite inject_Z_opp. ring. }
    exact (rounds_to_comp _ _ _ _ (RNpos_comp _ _ Hp E) Hr).
Qed.

End OperationFacts.

Section ArithmeticFacts.
Import SpecFloat FloatOps Rounding Located Double.
Local Open Scope Q_scope.

Lemma SFvalue_finite (s : bool) (m : positive) (e : Z) :
  SFvalue (S754_finite s m e) = inject_Z (cond_Zopp s (Zpos m)) * pow2 e.
Proof. reflexivity. Qed.

Lemma cond_Zopp_scale (s : bool) (m k : Z) : cond_Zopp s (m * k) = (cond_Zopp s m * k)%Z.
Proof. destruct s; cbn [cond_Zopp]; lia. Qed.

Lemma aligned_value (s : bool) (m : positive) (e ez : Z) :
  (ez <= e)%Z ->
  inject_Z (cond_Zopp s (Zpos (fst (shl_align m e ez)))) * pow2 ez
  == SFvalue (S754_finite s m e).
Proof.
  intros Hle. destruct (shl_align_spec m e ez Hle) as [-> _].
  rewrite cond_Zopp_scale, SFvalue_finite. now apply pow2_Zscale.
Qed.

Lemma Qmult_minus_distr (a b p : Q) : (a + - b) * p == a * p - b * p.
Proof. ring. Qed.

Lemma SFadd_correct (x y : spec_float) :
  valid_binary prec emax x = true -> valid_binary prec emax y = true ->
  SFfin x = true -> SFfin y = true ->
  rounded (SFvalue x + SFvalue y) (SFadd prec emax x y).
Proof.
  intros Vx Vy Fx Fy.
  destruct x as [sx| | |sx mx ex]; try discriminate;
    destruct y as [sy| | |sy my ey]; try discriminate.
  - destruct sx, sy; apply rounded_zero; reflexivity.
  - cbn [SFadd]. apply (rounded_comp (SFvalue (S754_finite sy my ey))).
    + cbn [SFvalue]. ring.
    + now apply rounded_finite.
  - cbn [SFadd]. apply (rounded_comp (SFvalue (S754_finite sx mx ex))).
    + cbn [SFvalue]. ring.
    + now apply rounded_finite.
  - cbn [SFadd]. eapply rounded_comp; [|apply binary_normalize_correct].
    rewrite inject_Z_plus, Qmult_plus_distr_l.
    rewrite !aligned_value by lia. reflexivity.
Qed.

Lemma SFsub_correct (x y : spec_float) :
  valid_binary prec emax x = true -> valid_binary prec emax y = true ->
  SFfin x = true -> SFfin y = true ->
  rounded (SFvalue x - SFvalue y) (SFsub prec emax x y).
Proof.
  intros Vx Vy Fx Fy.
  destruct x as [sx| | |sx mx ex]; try discriminate;
    destruct y as [sy| | |sy my ey]; try discriminate.
  - destruct sx, sy; apply rounded_zero; reflexivity.
  - cbn [SFsub]. apply (rounded_comp (SFvalue (S754_finite (negb sy) my ey))).
    + cbn [SFvalue]. destruct sy; cbn [negb cond_Zopp];
        change (Z.neg my) with (- Z.pos my)%Z; rewrite ?inject_Z_opp; ring.
    + apply rounded_finite; [exact Vy|reflexivity].
  - cbn [SFsub]. apply (rounded_comp (SFvalue (S754_finite sx mx ex))).
    + cbn [SFvalue]. ring.
    + now apply rounded_finite.
  - cbn [SFsub]. eapply rounded_comp; [|apply binary_normalize_correct].
    unfold Z.sub at 1. rewrite inject_Z_plus, inject_Z_opp.
    rewrite Qmult_minus_distr.
    rewrite !aligned_value by lia. reflexivity.
Qed.

Lemma valid_normal (s : bool) (m : positive) (e : Z) :
  valid_binary prec emax (S754_finite s m e) = true ->
  (-1074 < e)%Z -> Zdigits2 (Zpos m) = 53%Z.
Proof.
  intros Hv He. destruct (valid_finite s m e Hv) as (Hc & _ & _ & _).
  unfold fexp in Hc. lia.
Qed.

Lemma SFmul_correct (x y : spec_float) :
  valid_binary prec emax x = true -> valid_binary prec emax y = true ->
  SFfin x = true -> SFfin y = true ->
  rounded (SFvalue x * SFvalue y) (SFmul prec emax x y).
Proof.
  intros Vx Vy Fx Fy.
  destruct x as [sx| | |sx mx ex]; try discriminate;
    destruct y as [sy| | |sy my ey]; try discriminate;
    try (apply rounded_zero; cbn [SFvalue]; ring).
  cbn [SFmul].
  pose proof (SFvalue_sign sx mx ex) as Sx. pose proof (SFvalue_sign sy my ey) as Sy.
  pose proof (SFvalue_abs sx mx ex) as Ax. pose proof (SFvalue_abs sy my ey) as Ay.
  set (vx := SFvalue (S754_finite sx mx ex)) in *.
  set (vy := SFvalue (S754_finite sy my ey)) in *.
  apply (rounds_to_rounded (xorb sx sy)).
  { destruct sx, sy; cbn [xorb]; nra. }
  assert (E : inject_Z (Z.pos (mx * my)) * pow2 (ex + ey) == Qabs (vx * vy)).
  { rewrite Qabs_Qmult, Ax, Ay, Pos2Z.inj_mul, inject_Z_mult, pow2_add. ring. }
  assert (Hp : 0 < inject_Z (Z.pos (mx * my)) * pow2 (ex + ey)).
  { apply Qmult_lt_0_compat; [reflexivity|apply pow2_pos]. }
  apply (rounds_to_comp _ _ _ _ (RNpos_comp _ _ Hp E)).
  apply round_exact_correct; [lia|].
  destruct (valid_finite _ _ _ Vx) as (_ & Hex & _ & _).
  destruct (valid_finite _ _ _ Vy) as (_ & Hey & _ & _).
  destruct (Z_le_gt_dec (ex + ey) (-1074)) as [Hs|Hs]; [unfold fexp; lia|].
  assert (Hd : (53 <= Zdigits2 (Z.pos (mx * my)))%Z).
  { destruct (Z_le_gt_dec ex (-1074)) as [H1|H1].
    - rewrite <- (valid_normal sy my ey Vy) by lia.
      apply Zdigits2_mono. split; [lia|]. rewrite Pos2Z.inj_mul. nia.
    - rewrite <- (valid_normal sx mx ex Vx) by lia.
      apply Zdigits2_mono. split; [lia|]. rewrite Pos2Z.inj_mul. nia. }
  unfold fexp. lia.
Qed.

Lemma half_cases (r m : Z) :
  (0 <= r < m)%Z ->
  let x := inject_Z r / inject_Z m in
  match Z.compare (2 * r) m with
  | Lt => x < 1 # 2
  | Eq => x == 1 # 2
  | Gt => (1 # 2) < x
  end /\ 0 <= x < 1 /\ (r = 0%Z -> x == 0) /\ (r <> 0%Z -> 0 < x).
Proof.
  intros [Hr Hm] x.
  assert (Hmq : 0 < inject_Z m) by (change 0 with (inject_Z 0); rewrite <- Zlt_Qlt; lia).
  assert (Hrq : 0 <= inject_Z r) by (change 0 with (inject_Z 0); rewrite <- Zle_Qle; lia).
  assert (E : x * inject_Z m == inject_Z r) by (unfold x; field; lra).
  assert (Hlt : inject_Z r < inject_Z m) by (rewrite <- Zlt_Qlt; lia).
  split; [|split; [|split]].
  - destruct (Z.compare_spec (2 * r) m) as [H|H|H].
    + assert (2 * inject_Z r == inject_Z m) by (rewrite <- H, inject_Z_mult; reflexivity). nra.
    + assert (2 * inject_Z r < inject_Z m).
      { change 2 with (inject_Z 2). rewrite <- inject_Z_mult, <- Zlt_Qlt. exact H. }
      nra.
    + assert (inject_Z m < 2 * inject_Z r).
      { change 2 with (inject_Z 2). rewrite <- inject_Z_mult, <- Zlt_Qlt. exact H. }
      nra.
  - split; nra.
  - intros ->. unfold x. change (inject_Z 0) with 0. field. lra.
  - intros Hne. assert (0 < inject_Z r) by (change 0 with (inject_Z 0); rewrite <- Zlt_Qlt; lia). nra.
Qed.

Lemma new_location_located (q r m : Z) (x : Q) :
  (0 <= r < m)%Z -> x == inject_Z q + inject_Z r / inject_Z m ->
  located (shr_record_of_loc q (new_location m r)) x.
Proof.
  intros Hr E. destruct (half_cases r m Hr) as (Hh & Hb & H0 & Hpos).
  set (y := inject_Z r / inject_Z m) in *.
  unfold new_location, new_location_even, new_location_odd.
  destruct (Z.even m) eqn:Em.
  - destruct (Z.eqb_spec r 0) as [Er|Nr].
    + cbn. rewrite E, (H0 Er). ring.
    + specialize (Hpos Nr).
      destruct (Z.compare (2 * r) m); cbn; lra.
  - destruct (Z.eqb_spec r 0) as [Er|Nr].
    + cbn. rewrite E, (H0 Er). ring.
    + specialize (Hpos Nr).
      assert (Hodd : (2 * r <> m)%Z).
      { intros <-. rewrite Z.even_mul in Em. discriminate. }
      destruct (Z.compare_spec (2 * r + 1) m) as [H|H|H];
        destruct (Z.compare_spec (2 * r) m) as [H'|H'|H']; try lia; cbn; lra.
Qed.

Lemma SFdiv_core_located (m1 m2 : positive) (e1 e2 : Z) :
  let v := (inject_Z (Zpos m1) * pow2 e1) / (inject_Z (Zpos m2) * pow2 e2) in
  let '(q, e', l) := SFdiv_core_binary prec emax (Zpos m1) e1 (Zpos m2) e2 in
  (0 <= q)%Z /\ located (shr_record_of_loc q l) (v / pow2 e')
  /\ (e' <= fexp (Zdigits2 q + e'))%Z.
Proof.
  intros v. unfold SFdiv_core_binary. rewrite fexp_eq.
  set (d1 := Zdigits2 (Z.pos m1)). set (d2 := Zdigits2 (Z.pos m2)).
  set (e' := Z.min (fexp (d1 + e1 - (d2 + e2))) (e1 - e2)).
  set (s := (e1 - e2 - e')%Z).
  assert (Hs : (0 <= s)%Z) by (unfold s, e'; lia).
  set (m' := match s with Z.pos _ => Z.shiftl (Z.pos m1) s | Z0 => Z.pos m1 | Z.neg _ => 0%Z end).
  assert (Em : m' = (Z.pos m1 * 2 ^ s)%Z).
  { unfold m'. destruct s eqn:Es; try lia. now rewrite Z.shiftl_mul_pow2 by lia. }
  clearbody m'. pose proof (Z_div_mod m' (Z.pos m2) ltac:(lia)) as Hdiv.
  destruct (Z.div_eucl m' (Z.pos m2)) as [q r]. destruct Hdiv as [Ediv Hr].
  pose proof (Z.pow_pos_nonneg 2 s ltac:(lia) Hs) as Hps.
  assert (Hq : (0 <= q)%Z) by nia.
  split; [exact Hq|]. split.
  - apply new_location_located; [lia|].
    assert (E1 : v / pow2 e' == inject_Z m' / inject_Z (Z.pos m2)).
    { unfold v. rewrite Em, inject_Z_mult, <- (pow2_Z s) by lia.
      pose proof (pow2_pos e') as H1. pose proof (pow2_pos e2) as H2.
      pose proof (pow2_pos e1) as H3. pose proof (pow2_pos s) as H4.
      assert (Hm2 : 0 < inject_Z (Z.pos m2)) by reflexivity.
      assert (Es : pow2 e1 == pow2 s * pow2 e2 * pow2 e').
      { rewrite <- !pow2_add. unfold s. replace (e1 - e2 - e' + e2 + e')%Z with e1 by lia. reflexivity. }
      rewrite Es. field. repeat split; lra. }
    rewrite E1, Ediv, inject_Z_plus, inject_Z_mult.
    assert (Hm2 : 0 < inject_Z (Z.pos m2)) by reflexivity.
    field. lra.
  - destruct (Z_le_gt_dec e' (-1074)) as [H1|H1]; [unfold fexp; lia|].
    assert (H53 : (53 - d1 + d2 <= s)%Z) by (unfold s, e', fexp in *; lia).
    destruct (Zdigits2_spec (Z.pos m1) eq_refl) as [[Ha1 Ha2] Ha].
    destruct (Zdigits2_spec (Z.pos m2) eq_refl) as [[Hb1 Hb2] Hb].
    fold d1 in Ha1, Ha2, Ha. fold d2 in Hb1, Hb2, Hb.
    assert (Hbig : (Z.pos m2 * 2 ^ 52 <= m')%Z).
    { rewrite Em. apply Z.le_trans with (2 ^ d2 * 2 ^ 52)%Z; [nia|].
      apply Z.le_trans with (2 ^ (d1 - 1) * 2 ^ s)%Z; [|nia].
      rewrite <- !Z.pow_add_r by lia. apply Z.pow_le_mono_r; lia. }
    assert (Hq52 : (2 ^ 52 <= q)%Z) by nia.
    pose proof (Zdigits2_ge q 52 ltac:(lia) Hq52). unfold fexp. lia.
Qed.

Lemma SFdiv_finite_correct (sx sy : bool) (mx my : positive) (ex ey : Z) :
  rounded (SFvalue (S754_finite sx mx ex) / SFvalue (S754_finite sy my ey))
          (SFdiv prec emax (S754_finite sx mx ex) (S754_finite sy my ey)).
Proof.
  cbn [SFdiv].
  pose proof (SFdiv_core_located mx my ex ey) as Hcore. cbv zeta in Hcore.
  destruct (SFdiv_core_binary prec emax (Z.pos mx) ex (Z.pos my) ey) as [[q e'] l].
  destruct Hcore as (Hq & Hloc & He).
  pose proof (SFvalue_sign sx mx ex) as Sx. pose proof (SFvalue_sign sy my ey) as Sy.
  pose proof (SFvalue_abs sx mx ex) as Ax. pose proof (SFvalue_abs sy my ey) as Ay.
  set (vx := SFvalue (S754_finite sx mx ex)) in *.
  set (vy := SFvalue (S754_finite sy my ey)) in *.
  assert (Py : 0 < inject_Z (Z.pos my) * pow2 ey).
  { apply Qmult_lt_0_compat; [reflexivity|apply pow2_pos]. }
  assert (Px : 0 < inject_Z (Z.pos mx) * pow2 ex).
  { apply Qmult_lt_0_compat; [reflexivity|apply pow2_pos]. }
  set (v := inject_Z (Z.pos mx) * pow2 ex / (inject_Z (Z.pos my) * pow2 ey)) in *.
  assert (Hv : 0 < v) by (apply Qlt_shift_div_l; lra).
  assert (Hy0 : ~ vy == 0) by (destruct sy; lra).
  assert (E : v == Qabs (vx / vy)).
  { unfold Qdiv. rewrite Qabs_Qmult, Qabs_Qinv, Ax, Ay. reflexivity. }
  apply (rounds_to_rounded (xorb sx sy)).
  { assert (Hi : if sy then / vy < 0 else 0 < / vy).
    { destruct sy; [|now apply Qinv_lt_0_compat].
      assert (0 < / - vy) as H by (apply Qinv_lt_0_compat; lra).
      assert (E' : / - vy == - / vy) by (field; exact Hy0).
      rewrite E' in H. lra. }
    unfold Qdiv. destruct sx, sy; cbn [xorb]; nra. }
  apply (rounds_to_comp _ _ _ _ (RNpos_comp _ _ Hv E)).
  now apply binary_round_aux_correct.
Qed.

Lemma SFdiv_correct (x : spec_float) (sy : bool) (my : positive) (ey : Z) :
  SFfin x = true ->
  rounded (SFvalue x / SFvalue (S754_finite sy my ey))
          (SFdiv prec emax x (S754_finite sy my ey)).
Proof.
  intros Fx. destruct x as [sx| | |sx mx ex]; try discriminate.
  - apply rounded_zero. cbn [SFvalue]. unfold Qdiv. ring.
  - apply SFdiv_finite_correct.
Qed.

End ArithmeticFacts.

Section CompareFacts.
Import SpecFloat FloatOps Rounding Located Double.
Local Open Scope Q_scope.

Lemma SFcompare_refl (x : spec_float) : x <> S754_nan -> SFcompare x x = Some Eq.
Proof.
  destruct x as [s|s| |s m e]; intros Hx; try congruence; try (destruct s; reflexivity).
  cbn [SFcompare]. rewrite Z.compare_refl, Pos.compare_cont_refl. destruct s; reflexivity.
Qed.

Lemma SFcompare_antisym (x y : spec_float) :
  SFcompare y x = option_map CompOpp (SFcompare x y).
Proof.
  destruct x as [sx|sx| |sx mx ex], y as [sy|sy| |sy my ey];
    try reflexivity; try (destruct sx; reflexivity); try (destruct sy; reflexivity);
    try (destruct sx, sy; reflexivity).
  cbn [SFcompare option_map]. f_equal.
  rewrite (Z.compare_antisym ex ey).
  change (Pos.compare_cont Eq my mx) with (Pos.compare_cont (CompOpp Eq) my mx).
  rewrite <- (Pos.compare_cont_antisym mx my Eq).
  destruct sx, sy, (ex ?= ey)%Z, (Pos.compare_cont Eq mx my); reflexivity.
Qed.

Lemma SFcompare_nan_iff (x y : spec_float) :
  SFcompare x y = None <-> x = S754_nan \/ y = S754_nan.
Proof.
  destruct x as [sx|sx| |sx mx ex], y as [sy|sy| |sy my ey]; cbn [SFcompare];
    split; intros H; try discriminate; try (destruct H; discriminate); auto.
Qed.

Lemma Qcompare_lt (a b : Q) : a < b -> Qcompare a b = Lt.
Proof. apply Qlt_alt. Qed.

Lemma Qcompare_gt (a b : Q) : b < a -> Qcompare a b = Gt.
Proof. apply Qgt_alt. Qed.

Lemma Qcompare_eq (a b : Q) : a == b -> Qcompare a b = Eq.
Proof. apply Qeq_alt. Qed.

Lemma magnitude_lt (s1 s2 : bool) (m1 m2 : positive) (e1 e2 : Z) :
  valid_binary prec emax (S754_finite s1 m1 e1) = true ->
  valid_binary prec emax (S754_finite s2 m2 e2) = true ->
  (e1 < e2)%Z ->
  inject_Z (Zpos m1) * pow2 e1 < inject_Z (Zpos m2) * pow2 e2.
Proof.
  intros V1 V2 He.
  destruct (valid_finite _ _ _ V1) as (_ & He1 & Hm1 & _).
  pose proof (valid_normal _ _ _ V2 ltac:(lia)) as Hd2.
  destruct (Zdigits2_spec (Z.pos m2) eq_refl) as [[Hm2 _] _]. rewrite Hd2 in Hm2.
  pose proof (pow2_pos e1) as Hp1.
  apply Qlt_le_trans with (pow2 53 * pow2 e1).
  - apply Qmult_lt_compat_r; [exact Hp1|]. rewrite pow2_Z by lia. now rewrite <- Zlt_Qlt.
  - apply Qle_trans with (pow2 52 * pow2 e2).
    + rewrite <- !pow2_add. apply pow2_le. lia.
    + apply Qmult_le_compat_r; [|pose proof (pow2_pos e2); lra].
      rewrite pow2_Z by lia. rewrite <- Zle_Qle. exact Hm2.
Qed.

Lemma magnitude_compare (s1 s2 : bool) (m1 m2 : positive) (e1 e2 : Z) :
  valid_binary prec emax (S754_finite s1 m1 e1) = true ->
  valid_binary prec emax (S754_finite s2 m2 e2) = true ->
  match Z.compare e1 e2 with
  | Lt => Lt
  | Gt => Gt
  | Eq => Pos.compare_cont Eq m1 m2
  end = Qcompare (inject_Z (Zpos m1) * pow2 e1) (inject_Z (Zpos m2) * pow2 e2).
Proof.
  intros V1 V2. destruct (Z.compare_spec e1 e2) as [E|H|H].
  - subst e2. pose proof (pow2_pos e1) as Hp.
    change (Pos.compare_cont Eq m1 m2) with (Z.pos m1 ?= Z.pos m2)%Z.
    destruct (Z.compare_spec (Z.pos m1) (Z.pos m2)) as [E|Hlt|Hlt]; symmetry.
    + apply Qcompare_eq. rewrite E. reflexivity.
    + apply Qcompare_lt. apply Qmult_lt_compat_r; [exact Hp|]. now rewrite <- Zlt_Qlt.
    + apply Qcompare_gt. apply Qmult_lt_compat_r; [exact Hp|]. now rewrite <- Zlt_Qlt.
  - symmetry. apply Qcompare_lt. now apply (magnitude_lt s1 s2).
  - symmetry. apply Qcompare_gt. now apply (magnitude_lt s2 s1).
Qed.

Lemma Qcompare_opp (a b : Q) : Qcompare (- a) (- b) = CompOpp (Qcompare a b).
Proof.
  destruct (Qcompare_spec a b) as [E|H|H]; cbn [CompOpp].
  - apply Qcompare_eq. now rewrite E.
  - apply Qcompare_gt. lra.
  - apply Qcompare_lt. lra.
Qed.

Lemma SFvalue_neg (m : positive) (e : Z) :
  SFvalue (S754_finite true m e) == - (inject_Z (Zpos m) * pow2 e).
Proof.
  cbn [SFvalue cond_Zopp]. change (Z.neg m) with (- Z.pos m)%Z. rewrite inject_Z_opp.
  unfold pow2. ring.
Qed.

(** The comparison of finite doubles is the comparison of the
    numbers they stand for. *)
Lemma SFcompare_value (x y : spec_float) :
  valid_binary prec emax x = true -> valid_binary prec emax y = true ->
  SFfin x = true -> SFfin y = true ->
  SFcompare x y = Some (Qcompare (SFvalue x) (SFvalue y)).
Proof.
  intros Vx Vy Fx Fy.
  destruct x as [sx| | |sx mx ex]; try discriminate;
    destruct y as [sy| | |sy my ey]; try discriminate.
  - reflexivity.
  - cbn [SFcompare]. f_equal. pose proof (SFvalue_sign sy my ey) as Hs.
    change (SFvalue (S754_zero sx)) with 0.
    destruct sy; symmetry; [now apply Qcompare_gt|now apply Qcompare_lt].
  - cbn [SFcompare]. f_equal. pose proof (SFvalue_sign sx mx ex) as Hs.
    change (SFvalue (S754_zero sy)) with 0.
    destruct sx; symmetry; [now apply Qcompare_lt|now apply Qcompare_gt].
  - pose proof (SFvalue_sign sx mx ex) as Hx. pose proof (SFvalue_sign sy my ey) as Hy.
    cbn [SFcompare]. f_equal. destruct sx, sy.
    + transitivity (CompOpp (Qcompare (inject_Z (Z.pos mx) * pow2 ex)
                                        (inject_Z (Z.pos my) * pow2 ey))).
      * rewrite <- (magnitude_compare true true mx my ex ey Vx Vy).
        destruct (ex ?= ey)%Z; reflexivity.
      * symmetry. rewrite (SFvalue_neg mx ex), (SFvalue_neg my ey). apply Qcompare_opp.
    + symmetry. apply Qcompare_lt. lra.
    + symmetry. apply Qcompare_gt. lra.
    + exact (magnitude_compare false false mx my ex ey Vx Vy).
Qed.

Lemma SFcompare_infinity (x : spec_float) :
  SFfin x = true -> SFcompare x (S754_infinity false) = Some Lt.
Proof. destruct x; try discriminate; reflexivity. Qed.

End CompareFacts.

(** ** The operations of the primitive doubles

    Through the axioms of FloatAxioms, which relate the primitive
    operations to those of SpecFloat. *)

Section DoubleFacts.
Import PrimFloat SpecFloat FloatOps FloatAxioms Rounding Located Double.
Local Open Scope Q_scope.

Lemma rounded_finite_value (v : Q) (z : spec_float) :
  rounded v z -> Qabs (RN v) < pow2 1024 ->
  SFfin z = true /\ SFvalue z == RN v.
Proof.
  intros [_ [(_ & F & E)|[[H _]|[H _]]]] Hb.
  - split; assumption.
  - pose proof (Qle_Qabs (RN v)). lra.
  - pose proof (Qle_Qabs (- RN v)) as Ha. rewrite Qabs_opp in Ha. lra.
Qed.

Lemma RN_between (v : Q) (k : Z) :
  (-1074 <= k)%Z -> - pow2 k <= v <= pow2 k -> - pow2 k <= RN v <= pow2 k.
Proof.
  intros Hk [H1 H2]. pose proof (pow2_pos k) as Hp.
  assert (E : RN (pow2 k) == pow2 k) by (rewrite RN_pos by exact Hp; now apply RNpos_pow2).
  split.
  - rewrite <- E at 1. rewrite <- RN_opp. now apply RN_le.
  - rewrite <- E. now apply RN_le.
Qed.

Lemma in_range (v : Q) (k : Z) :
  (k < 1024)%Z -> - pow2 k <= v <= pow2 k -> Qabs v < pow2 1024.
Proof.
  intros Hk [H1 H2]. pose proof (pow2_lt k 1024 Hk).
  apply Qabs_case; intros; lra.
Qed.

Lemma sub_rounded (x y : number) :
  finite x = true -> finite y = true ->
  rounded (value x - value y) (Prim2SF (x - y)%float).
Proof.
  intros Fx Fy. rewrite sub_spec. apply SFsub_correct; auto using Prim2SF_valid.
Qed.

Lemma add_rounded (x y : number) :
  finite x = true -> finite y = true ->
  rounded (value x + value y) (Prim2SF (x + y)%float).
Proof.
  intros Fx Fy. rewrite add_spec. apply SFadd_correct; auto using Prim2SF_valid.
Qed.

Lemma mul_rounded (x y : number) :
  finite x = true -> finite y = true ->
  rounded (value x * value y) (Prim2SF (x * y)%float).
Proof.
  intros Fx Fy. rewrite mul_spec. apply SFmul_correct; auto using Prim2SF_valid.
Qed.

Lemma nonzero_finite (x : spec_float) :
  SFfin x = true -> ~ SFvalue x == 0 -> exists s m e, x = S754_finite s m e.
Proof.
  destruct x as [s| | |s m e]; try discriminate; intros _ H.
  - exfalso. apply H. reflexivity.
  - eauto.
Qed.

Lemma div_rounded (x y : number) :
  finite x = true -> finite y = true -> ~ value y == 0 ->
  rounded (value x / value y) (Prim2SF (x / y)%float).
Proof.
  intros Fx Fy Hy. rewrite div_spec. unfold value in *.
  destruct (nonzero_finite _ Fy Hy) as (s & m & e & ->).
  now apply SFdiv_correct.
Qed.

(** An operation whose rounded result is within [2^k], [k < 1024],
    returns the finite double of that value. *)
Lemma sub_finite (x y : number) (k : Z) :
  finite x = true -> finite y = true -> (-1074 <= k < 1024)%Z ->
  - pow2 k <= value x - value y <= pow2 k ->
  finite (x - y)%float = true /\ value (x - y)%float == RN (value x - value y).
Proof.
  intros Fx Fy Hk Hb. apply rounded_finite_value; [now apply sub_rounded|].
  apply (in_range _ k); [lia|]. apply RN_between; [lia|exact Hb].
Qed.

Lemma add_finite (x y : number) (k : Z) :
  finite x = true -> finite y = true -> (-1074 <= k < 1024)%Z ->
  - pow2 k <= value x + value y <= pow2 k ->
  finite (x + y)%float = true /\ value (x + y)%float == RN (value x + value y).
Proof.
  intros Fx Fy Hk Hb. apply rounded_finite_value; [now apply add_rounded|].
  apply (in_range _ k); [lia|]. apply RN_between; [lia|exact Hb].
Qed.

Lemma mul_finite (x y : number) (k : Z) :
  finite x = true -> finite y = true -> (-1074 <= k < 1024)%Z ->
  - pow2 k <= value x * value y <= pow2 k ->
  finite (x * y)%float = true /\ value (x * y)%float == RN (value x * value y).
Proof.
  intros Fx Fy Hk Hb. apply rounded_finite_value; [now apply mul_rounded|].
  apply (in_range _ k); [lia|]. apply RN_between; [lia|exact Hb].
Qed.

Lemma div_finite (x y : number) (k : Z) :
  finite x = true -> finite y = true -> ~ value y == 0 -> (-1074 <= k < 1024)%Z ->
  - pow2 k <= value x / value y <= pow2 k ->
  finite (x / y)%float = true /\ value (x / y)%float == RN (value x / value y).
Proof.
  intros Fx Fy Hy Hk Hb. apply rounded_finite_value; [now apply div_rounded|].
  apply (in_range _ k); [lia|]. apply RN_between; [lia|exact Hb].
Qed.

(** A finite double is left as it is by rounding. *)
Lemma RN_value (x : number) : finite x = true -> RN (value x) == value x.
Proof.
  intros Fx. pose proof (rounded_finite (Prim2SF x) (Prim2SF_valid x) Fx) as [_ H].
  destruct H as [(_ & _ & E)|[[_ E]|[_ E]]].
  - symmetry. exact E.
  - unfold finite in Fx. rewrite E in Fx. discriminate.
  - unfold finite in Fx. rewrite E in Fx. discriminate.
Qed.

Lemma compare_value (x y : number) :
  finite x = true -> finite y = true ->
  (x ?= y)%float = flatten_cmp_opt (Some (Qcompare (value x) (value y))).
Proof.
  intros Fx Fy. rewrite compare_spec. f_equal.
  apply SFcompare_value; auto using Prim2SF_valid.
Qed.

Lemma ltb_value (x y : number) :
  finite x = true -> finite y = true ->
  (x <? y)%float = match Qcompare (value x) (value y) with Lt => true | _ => false end.
Proof.
  intros Fx Fy. rewrite ltb_spec. unfold SFltb.
  rewrite (SFcompare_value _ _ (Prim2SF_valid x) (Prim2SF_valid y) Fx Fy). reflexivity.
Qed.

Lemma leb_value (x y : number) :
  finite x = true -> finite y = true ->
  (x <=? y)%float = match Qcompare (value x) (value y) with Gt => false | _ => true end.
Proof.
  intros Fx Fy. rewrite leb_spec. unfold SFleb.
  rewrite (SFcompare_value _ _ (Prim2SF_valid x) (Prim2SF_valid y) Fx Fy).
  unfold value. destruct (Qcompare (SFvalue (Prim2SF x)) (SFvalue (Prim2SF y))); reflexivity.
Qed.

Lemma eqb_value (x y : number) :
  finite x = true -> finite y = true ->
  (x =? y)%float = match Qcompare (value x) (value y) with Eq => true | _ => false end.
Proof.
  intros Fx Fy. rewrite eqb_spec. unfold SFeqb.
  rewrite (SFcompare_value _ _ (Prim2SF_valid x) (Prim2SF_valid y) Fx Fy). reflexivity.
Qed.

Lemma ltb_true (x y : number) :
  finite x = true -> finite y = true -> ((x <? y)%float = true <-> value x < value y).
Proof.
  intros Fx Fy. rewrite (ltb_value x y Fx Fy).
  destruct (Qcompare_spec (value x) (value y)) as [E|H|H]; split; intros;
    try discriminate; try lra; try reflexivity; try contradiction.
Qed.

Lemma ltb_false (x y : number) :
  finite x = true -> finite y = true -> ((x <? y)%float = false <-> value y <= value x).
Proof.
  intros Fx Fy. rewrite (ltb_value x y Fx Fy).
  destruct (Qcompare_spec (value x) (value y)) as [E|H|H]; split; intros;
    try discriminate; try lra; try reflexivity; try contradiction.
Qed.

Lemma leb_true (x y : number) :
  finite x = true -> finite y = true -> ((x <=? y)%float = true <-> value x <= value y).
Proof.
  intros Fx Fy. rewrite (leb_value x y Fx Fy).
  destruct (Qcompare_spec (value x) (value y)) as [E|H|H]; split; intros;
    try discriminate; try lra; try reflexivity; try contradiction.
Qed.

Lemma leb_false (x y : number) :
  finite x = true -> finite y = true -> ((x <=? y)%float = false <-> value y < value x).
Proof.
  intros Fx Fy. rewrite (leb_value x y Fx Fy).
  destruct (Qcompare_spec (value x) (value y)) as [E|H|H]; split; intros;
    try discriminate; try lra; try reflexivity; try contradiction.
Qed.

Lemma eqb_true (x y : number) :
  finite x = true -> finite y = true -> ((x =? y)%float = true <-> value x == value y).
Proof.
  intros Fx Fy. rewrite (eqb_value x y Fx Fy).
  destruct (Qcompare_spec (value x) (value y)) as [E|H|H]; split; intros;
    try discriminate; try lra; try reflexivity; try contradiction.
Qed.

Lemma eqb_false (x y : number) :
  finite x = true -> finite y = true -> ((x =? y)%float = false <-> ~ value x == value y).
Proof.
  intros Fx Fy. rewrite (eqb_value x y Fx Fy).
  destruct (Qcompare_spec (value x) (value y)) as [E|H|H]; split; intros;
    try discriminate; try lra; try reflexivity; try contradiction.
Qed.

Lemma Math_max_value (x y : number) :
  finite x = true -> finite y = true ->
  finite (Math_max x y) = true /\ value (Math_max x y) == Qmax (value x) (value y).
Proof.
  intros Fx Fy. unfold Math_max. rewrite (compare_value x y Fx Fy).
  destruct (Qcompare_spec (value x) (value y)) as [E|H|H]; cbn [flatten_cmp_opt].
  - destruct (get_sign x); (split; [assumption|]).
    + rewrite Q.max_r; [reflexivity|lra].
    + rewrite Q.max_l; [reflexivity|lra].
  - split; [assumption|]. rewrite Q.max_r; [reflexivity|lra].
  - split; [assumption|]. rewrite Q.max_l; [reflexivity|lra].
Qed.

Lemma Math_min_value (x y : number) :
  finite x = true -> finite y = true ->
  finite (Math_min x y) = true /\ value (Math_min x y) == Qmin (value x) (value y).
Proof.
  intros Fx Fy. unfold Math_min. rewrite (compare_value x y Fx Fy).
  destruct (Qcompare_spec (value x) (value y)) as [E|H|H]; cbn [flatten_cmp_opt].
  - destruct (get_sign x); (split; [assumption|]).
    + rewrite Q.min_l; [reflexivity|lra].
    + rewrite Q.min_r; [reflexivity|lra].
  - split; [assumption|]. rewrite Q.min_l; [reflexivity|lra].
  - split; [assumption|]. rewrite Q.min_r; [reflexivity|lra].
Qed.

Lemma Math_min_infinity (x z : number) :
  finite x = true -> Prim2SF z = S754_infinity false -> Math_min x z = x.
Proof.
  intros Fx Ez. unfold Math_min. rewrite compare_spec, Ez.
  now rewrite (SFcompare_infinity _ Fx).
Qed.

(** [Math.min(x, a / b)] for a quotient of finite doubles that is not
    negative: the quotient may overflow, the minimum does not. *)
Lemma Math_min_quotient (x a b : number) :
  finite x = true -> finite a = true -> finite b = true ->
  value x <= pow2 1023 -> 0 <= value a -> 0 < value b ->
  finite (Math_min x (a / b)%float) = true
  /\ value (Math_min x (a / b)%float) == Qmin (value x) (RN (value a / value b)).
Proof.
  intros Fx Fa Fb Hx Ha Hb.
  assert (Hq : 0 <= RN (value a / value b)).
  { apply RN_nonneg. apply Qle_shift_div_l; lra. }
  pose proof (pow2_lt 1023 1024 eq_refl) as Hp.
  destruct (div_rounded a b Fa Fb ltac:(lra)) as [Hv [(Hr & F & E)|[[Hr E]|[Hr E]]]].
  - destruct (Math_min_value x (a / b)%float Fx F) as [F' E'].
    split; [exact F'|]. rewrite E'. unfold value at 2. now rewrite E.
  - rewrite (Math_min_infinity _ _ Fx E). split; [exact Fx|].
    rewrite Q.min_l; [reflexivity|lra].
  - pose proof (pow2_pos 1024). lra.
Qed.

End DoubleFacts.

Section DoubleValues.
Import PrimFloat SpecFloat FloatOps FloatAxioms Rounding Located Double.
Local Open Scope Q_scope.

Lemma SF2Prim_rounded (v : Q) (z : spec_float) (k : Z) :
  rounded v z -> (-1074 <= k < 1024)%Z -> - pow2 k <= v <= pow2 k ->
  finite (SF2Prim z) = true /\ value (SF2Prim z) == RN v.
Proof.
  intros Hr Hk Hb. unfold finite, value. rewrite Prim2SF_SF2Prim by apply Hr.
  apply rounded_finite_value; [exact Hr|].
  apply (in_range _ k); [lia|]. apply RN_between; [lia|exact Hb].
Qed.

Lemma RN_Z (z : Z) : (Z.abs z < 2 ^ 53)%Z -> RN (inject_Z z) == inject_Z z.
Proof.
  assert (Hpos : forall p, (Z.pos p < 2 ^ 53)%Z -> RNpos (inject_Z (Z.pos p)) == inject_Z (Z.pos p)).
  { intros p Hp. assert (Hv : 0 < inject_Z (Z.pos p)) by reflexivity.
    apply (RNpos_grid _ (Z.pos p) 0); [exact Hv|unfold pow2; cbn; ring|].
    destruct (mag_spec _ Hv) as [H1 _].
    assert (Hlt : inject_Z (Z.pos p) < pow2 53).
    { rewrite pow2_Z by lia. now rewrite <- Zlt_Qlt. }
    assert (pow2 (mag (inject_Z (Z.pos p)) - 1) < pow2 53) as H%pow2_lt_inv by lra.
    unfold fexp. lia. }
  intros Hz. destruct z as [|p|p].
  - now rewrite RN_0.
  - rewrite RN_pos by reflexivity. apply Hpos. lia.
  - rewrite RN_neg by reflexivity.
    change (- inject_Z (Z.neg p)) with (inject_Z (Z.pos p)).
    rewrite Hpos by lia. reflexivity.
Qed.

Lemma of_Z_value (z : Z) :
  (Z.abs z < 2 ^ 53)%Z -> finite (of_Z z) = true /\ value (of_Z z) == inject_Z z.
Proof.
  intros Hz. unfold of_Z.
  pose proof (binary_normalize_correct z 0 false) as Hr.
  assert (E : inject_Z z * pow2 0 == inject_Z z) by (unfold pow2; cbn; ring).
  apply (rounded_comp _ _ _ E) in Hr.
  destruct (SF2Prim_rounded _ _ 53 Hr ltac:(lia)) as [F V].
  - rewrite pow2_Z by lia. rewrite <- inject_Z_opp, <- !Zle_Qle. lia.
  - split; [exact F|]. rewrite V. now apply RN_Z.
Qed.

Lemma Qfloor_div (n : Z) (d : positive) :
  Qfloor (inject_Z n / inject_Z (Zpos d)) = (n / Zpos d)%Z.
Proof. rewrite <- (Qfloor_comp _ _ (Qmake_Qdiv n d)). reflexivity. Qed.

Lemma Qfloor_half_Z (z : Z) : Qfloor (inject_Z z + (1 # 2)) = z.
Proof.
  apply Qfloor_unique. split; lra.
Qed.

(** [Math.round] on a finite double: the integer part of the number
    plus one half. *)
Lemma Math_round_value (x : number) :
  finite x = true ->
  finite (Math_round x) = true
  /\ value (Math_round x) == inject_Z (Qfloor (value x + (1 # 2))).
Proof.
  intros Fx. pose proof (Prim2SF_valid x) as Vx.
  unfold Math_round, finite, value in *.
  destruct (Prim2SF x) as [s| | |s m e] eqn:Ex; try discriminate.
  - rewrite Ex. split; [reflexivity|]. reflexivity.
  - destruct (Z.leb_spec 0 e) as [He|He].
    + rewrite Ex. split; [reflexivity|].
      rewrite SFvalue_finite, pow2_Z, <- inject_Z_mult by lia.
      now rewrite Qfloor_half_Z.
    + destruct (valid_finite _ _ _ Vx) as (_ & _ & Hm & _).
      set (sm := cond_Zopp s (Z.pos m)).
      assert (Hsm : (Z.abs sm < 2 ^ 53)%Z) by (unfold sm; destruct s; cbn [cond_Zopp]; lia).
      set (k := (- e)%Z). assert (Hk : (0 < k)%Z) by (unfold k; lia).
      assert (HP : (2 <= 2 ^ k)%Z).
      { change 2%Z with (2 ^ 1)%Z at 1. apply Z.pow_le_mono_r; lia. }
      replace (- e + 1)%Z with (k + 1)%Z by (unfold k; lia).
      rewrite Z.pow_add_r by lia. change (2 ^ 1)%Z with 2%Z.
      set (P := (2 ^ k)%Z) in *.
      set (z := ((2 * sm + P) / (P * 2))%Z).
      assert (Ez : Qfloor (SFvalue (S754_finite s m e) + (1 # 2)) = z).
      { rewrite SFvalue_finite. fold sm.
        assert (E : inject_Z sm * pow2 e + (1 # 2)
                    == inject_Z (2 * sm + P) / inject_Z (P * 2)).
        { replace e with (- k)%Z by (unfold k; lia).
          assert (Ep : pow2 (- k) == / inject_Z P).
          { unfold pow2. rewrite Qpower_opp. apply Qinv_comp. unfold P.
            now rewrite <- pow2_Z by lia. }
          assert (HPq : 0 < inject_Z P) by (change 0 with (inject_Z 0); rewrite <- Zlt_Qlt; lia).
          rewrite Ep, inject_Z_plus, !inject_Z_mult. change (inject_Z 2) with 2.
          field. lra. }
        rewrite (Qfloor_comp _ _ E).
        destruct (P * 2)%Z as [|d|d] eqn:Ed; try lia. apply Qfloor_div. }
      assert (Hz : (Z.abs z <= 2 ^ 52)%Z).
      { pose proof (Z.mul_div_le (2 * sm + P) (P * 2) ltac:(lia)) as H1.
        pose proof (Z.mul_succ_div_gt (2 * sm + P) (P * 2) ltac:(lia)) as H2.
        fold z in H1, H2. nia. }
      destruct (Z.eqb_spec z 0) as [E0|N0].
      * rewrite Ez, E0. destruct s; split; reflexivity.
      * destruct (of_Z_value z ltac:(lia)) as [F V]. unfold finite, value in F, V.
        split; [exact F|]. rewrite V, Ez. reflexivity.
Qed.

Lemma truthy_value (x : number) :
  finite x = true -> truthy x = negb (Qeq_bool (value x) 0).
Proof.
  intros Fx. unfold truthy, is_nan, is_zero.
  rewrite (eqb_value x x Fx Fx), (eqb_value x zero Fx eq_refl).
  change (value zero) with 0.
  rewrite (Qcompare_eq (value x) (value x)) by reflexivity. cbn [negb orb].
  destruct (Qcompare_spec (value x) 0) as [E|H|H].
  - apply Qeq_bool_iff in E as ->. reflexivity.
  - destruct (Qeq_bool (value x) 0) eqn:E; [apply Qeq_bool_iff in E; lra|reflexivity].
  - destruct (Qeq_bool (value x) 0) eqn:E; [apply Qeq_bool_iff in E; lra|reflexivity].
Qed.

Lemma of_Q_rounded (q : Q) : rounded q (Prim2SF (of_Q q)).
Proof.
  destruct q as [n d]. unfold of_Q. cbn [Qnum Qden].
  destruct n as [|n|n].
  - apply rounded_zero. reflexivity.
  - pose proof (SFdiv_finite_correct false false n d 0 0) as Hr.
    rewrite Prim2SF_SF2Prim by apply Hr.
    eapply rounded_comp; [|exact Hr].
    rewrite !SFvalue_finite. cbn [cond_Zopp]. rewrite (Qmake_Qdiv (Z.pos n) d).
    assert (E0 : pow2 0 == 1) by reflexivity. rewrite E0.
    assert (Hd : 0 < inject_Z (Z.pos d)) by reflexivity.
    revert Hd. generalize (inject_Z (Z.pos d)) (inject_Z (Z.pos n)).
    intros b a Hb. field. lra.
  - pose proof (SFdiv_finite_correct true false n d 0 0) as Hr.
    rewrite Prim2SF_SF2Prim by apply Hr.
    eapply rounded_comp; [|exact Hr].
    rewrite !SFvalue_finite. cbn [cond_Zopp]. change (- Z.pos n)%Z with (Z.neg n).
    rewrite (Qmake_Qdiv (Z.neg n) d).
    assert (E0 : pow2 0 == 1) by reflexivity. rewrite E0.
    assert (Hd : 0 < inject_Z (Z.pos d)) by reflexivity.
    revert Hd. generalize (inject_Z (Z.pos d)) (inject_Z (Z.neg n)).
    intros b a Hb. field. lra.
Qed.

Lemma of_Q_value (q : Q) (k : Z) :
  (-1074 <= k < 1024)%Z -> - pow2 k <= q <= pow2 k ->
  finite (of_Q q) = true /\ value (of_Q q) == RN q.
Proof.
  intros Hk Hb. apply rounded_finite_value; [apply of_Q_rounded|].
  apply (in_range _ k); [lia|]. apply RN_between; [lia|exact Hb].
Qed.

End DoubleValues.

(** ** The time ramp of the rollout *)

Section RampValues.
Import Rounding.
Local Open Scope Q_scope.

Lemma RN_grid (z e : Z) :
  (Z.abs z < 2 ^ 53)%Z -> (-1074 <= e)%Z ->
  RN (inject_Z z * pow2 e) == inject_Z z * pow2 e.
Proof.
  intros Hz He. pose proof (pow2_pos e) as Hp.
  assert (Hpos : forall n, (Z.pos n < 2 ^ 53)%Z ->
                           RNpos (inject_Z (Z.pos n) * pow2 e) == inject_Z (Z.pos n) * pow2 e).
  { intros n Hn. assert (Hn0 : 0 < inject_Z (Z.pos n)) by reflexivity.
    assert (Hv : 0 < inject_Z (Z.pos n) * pow2 e) by (apply Qmult_lt_0_compat; assumption).
    apply (RNpos_grid _ (Z.pos n) e); [exact Hv|reflexivity|].
    destruct (mag_spec _ Hv) as [H1 _].
    assert (Hlt : inject_Z (Z.pos n) * pow2 e < pow2 (53 + e)).
    { rewrite pow2_add. apply Qmult_lt_compat_r; [exact Hp|].
      rewrite pow2_Z by lia. now rewrite <- Zlt_Qlt. }
    assert (pow2 (mag (inject_Z (Z.pos n) * pow2 e) - 1) < pow2 (53 + e)) as H%pow2_lt_inv by lra.
    unfold fexp. lia. }
  destruct z as [|n|n].
  - rewrite RN_0; [|ring]. ring.
  - rewrite RN_pos by (apply Qmult_lt_0_compat; [reflexivity|exact Hp]). apply Hpos. lia.
  - assert (E : inject_Z (Z.neg n) * pow2 e == - (inject_Z (Z.pos n) * pow2 e)).
    { change (Z.neg n) with (- Z.pos n)%Z. rewrite inject_Z_opp. ring. }
    rewrite E, RN_opp. apply Qopp_comp.
    rewrite RN_pos by (apply Qmult_lt_0_compat; [reflexivity|exact Hp]). apply Hpos. lia.
Qed.

Lemma RN_1 : RN 1 == 1.
Proof. exact (RN_Z 1 eq_refl). Qed.

Lemma RN_100 : RN 100 == 100.
Proof. exact (RN_Z 100 eq_refl). Qed.

Lemma Qdiv_1000_le (x y : Q) : x <= y -> x / 1000 <= y / 1000.
Proof. intros H. unfold Qdiv. apply Qmult_le_compat_r; [exact H|discriminate]. Qed.

Lemma Qdiv_1000 (x : Q) : x / 1000 * 1000 == x.
Proof. field. Qed.

(** The last line of [getEffectiveRollout] on the numbers: what is
    returned for the base [r] and the progress [g]. *)
Local Abbreviation tail r g :=
  (Qmin 100
     (Qmax r
        (RN (inject_Z (Qfloor (RN (RN (r + RN (RN (100 - r) * g)) * 1000) + (1 # 2)))
             / 1000)))).

Local Abbreviation progress d P := (Qmin 1 (RN (d / P))).

Lemma tail_range (r g : Q) : r <= 100 -> r <= tail r g <= 100.
Proof.
  intros Hr. split.
  - apply Q.min_glb; [exact Hr|apply Q.le_max_l].
  - apply Q.le_min_l.
Qed.

Lemma tail_above (r g : Q) : 100 <= r -> tail r g == 100.
Proof.
  intros Hr. apply Q.min_l. eapply Qle_trans; [exact Hr|apply Q.le_max_l].
Qed.

Lemma tail_mono (r g1 g2 : Q) : r <= 100 -> g1 <= g2 -> tail r g1 <= tail r g2.
Proof.
  intros Hr Hg.
  assert (Ha : 0 <= RN (100 - r)).
  { apply RN_nonneg. lra. }
  apply Q.min_le_compat_l, Q.max_le_compat_l, RN_le, Qdiv_1000_le.
  rewrite <- Zle_Qle. apply Qfloor_resp_le.
  apply Qplus_le_compat; [|apply Qle_refl].
  apply RN_le. apply Qmult_le_compat_r; [|discriminate].
  apply RN_le. apply Qplus_le_compat; [apply Qle_refl|].
  apply RN_le. rewrite !(Qmult_comm (RN (100 - r))).
  apply Qmult_le_compat_r; assumption.
Qed.

Local Abbreviation u := (pow2 (-20)).

Lemma tail_full (r : Q) : 0 <= r <= 100 -> tail r 1 == 100.
Proof.
  intros [H0 H100]. apply Q.min_l.
  eapply Qle_trans; [|apply Q.le_max_r].
  assert (Eu : u == 1 # 1048576) by reflexivity.
  set (G := Qfloor (r / u)).
  assert (HG : inject_Z G * u <= r < (inject_Z G + 1) * u).
  { destruct (Qfloor_bounds (r / u)) as [H1 H2]. fold G in H1, H2.
    apply Qdiv_pow2_bounds. split; assumption. }
  destruct HG as [HG1 HG2].
  assert (HGZ : (0 <= G <= 104857600)%Z).
  { split.
    - change 0%Z with (Qfloor 0). apply Qfloor_resp_le.
      apply Qle_shift_div_l; [apply pow2_pos|lra].
    - change 104857600%Z with (Qfloor (100 / u)). apply Qfloor_resp_le.
      apply Qdiv_pow2_le. exact H100. }
  assert (E100 : 100 == inject_Z 104857600 * u) by reflexivity.
  (* 100 - r is above a point of the grid, which rounding leaves *)
  assert (Ha : inject_Z (104857600 - G - 1) * u <= RN (RN (100 - r) * 1)).
  { rewrite <- (RN_grid (104857600 - G - 1) (-20)) by lia.
    apply RN_le. rewrite Qmult_1_r.
    rewrite <- (RN_grid (104857600 - G - 1) (-20)) by lia.
    apply RN_le. unfold Z.sub. rewrite !inject_Z_plus, !inject_Z_opp.
    change (inject_Z 1) with 1. lra. }
  assert (Hc : inject_Z 104857599 * u <= RN (r + RN (RN (100 - r) * 1))).
  { rewrite <- (RN_grid 104857599 (-20)) by lia. apply RN_le.
    unfold Z.sub in Ha. rewrite !inject_Z_plus, !inject_Z_opp in Ha.
    change (inject_Z 1) with 1 in Ha.
    change (inject_Z 104857599) with (inject_Z 104857600 - 1). lra. }
  assert (Hm : inject_Z 104857599000 * u <= RN (RN (r + RN (RN (100 - r) * 1)) * 1000)).
  { rewrite <- (RN_grid 104857599000 (-20)) by lia. apply RN_le.
    change (inject_Z 104857599000) with (inject_Z 104857599 * 1000). lra. }
  assert (Hf : (100000 <= Qfloor (RN (RN (r + RN (RN (100 - r) * 1)) * 1000) + (1 # 2)))%Z).
  { change 100000%Z with (Qfloor 100000). apply Qfloor_resp_le.
    change (inject_Z 104857599000) with 104857599000 in Hm. lra. }
  rewrite <- RN_100 at 1. apply RN_le.
  apply Qle_shift_div_l; [reflexivity|].
  change (100 * 1000) with (inject_Z 100000). now rewrite <- Zle_Qle.
Qed.

Lemma progress_range (d P : Q) : 0 <= d -> 0 < P -> 0 <= progress d P <= 1.
Proof.
  intros Hd HP. split; [|apply Q.le_min_l].
  apply Q.min_glb; [discriminate|]. apply RN_nonneg. apply Qle_shift_div_l; lra.
Qed.

Lemma progress_mono (d1 d2 P : Q) : 0 < P -> d1 <= d2 -> progress d1 P <= progress d2 P.
Proof.
  intros HP Hd. apply Q.min_le_compat_l, RN_le.
  unfold Qdiv. apply Qmult_le_compat_r; [exact Hd|].
  apply Qlt_le_weak, Qinv_lt_0_compat, HP.
Qed.

Lemma progress_full (d P : Q) : 0 < P -> P <= d -> progress d P == 1.
Proof.
  intros HP Hd. apply Q.min_l. rewrite <- RN_1 at 1. apply RN_le.
  apply Qle_shift_div_l; lra.
Qed.

End RampValues.

Section RampDoubles.
Import PrimFloat Rounding Double RolloutSelector.
Local Open Scope Q_scope.

Lemma value_0 : finite 0%float = true /\ value 0%float == 0.
Proof. split; reflexivity. Qed.

Lemma value_1 : finite 1%float = true /\ value 1%float == 1.
Proof. split; reflexivity. Qed.

Lemma value_100 : finite 100%float = true /\ value 100%float == 100.
Proof. split; reflexivity. Qed.

Lemma value_1000 : finite 1000%float = true /\ value 1000%float == 1000.
Proof. split; reflexivity. Qed.

Lemma value_MS_PER_MINUTE : finite MS_PER_MINUTE = true /\ value MS_PER_MINUTE == 60000.
Proof. split; reflexivity. Qed.

Lemma pow2_1000_facts :
  1024 <= pow2 1000
  /\ pow2 1001 == 2 * pow2 1000 /\ pow2 1002 == 4 * pow2 1000
  /\ pow2 1012 == 4096 * pow2 1000 /\ pow2 1013 == 8192 * pow2 1000
  /\ pow2 1016 == 65536 * pow2 1000 /\ pow2 1017 == 131072 * pow2 1000
  /\ pow2 1000 <= pow2 1023.
Proof.
  split; [exact (pow2_le 10 1000 ltac:(lia))|].
  repeat split; try (apply (pow2_add _ 1000)). apply pow2_le. lia.
Qed.

Lemma scale_bound (a g K : Q) : - K <= a <= K -> 0 <= g <= 1 -> - K <= a * g <= K.
Proof. intros [H1 H2] [H3 H4]. split; nra. Qed.

Lemma within_or_else (k : Z) (o : option number) :
  (0 <= k)%Z -> within_opt k o -> within k (or_else o 0%float).
Proof.
  intros Hk Ho. assert (H0 : within k 0%float).
  { split; [reflexivity|]. change (value 0%float) with 0.
    pose proof (pow2_pos k). lra. }
  destruct o as [x|]; [|exact H0]. unfold or_else. destruct (truthy x); [exact Ho|exact H0].
Qed.

Local Abbreviation tail r g :=
  (Qmin 100
     (Qmax r
        (RN (inject_Z (Qfloor (RN (RN (r + RN (RN (100 - r) * g)) * 1000) + (1 # 2)))
             / 1000)))).

Local Abbreviation progress d P := (Qmin 1 (RN (d / P))).

(** What [getEffectiveRollout] returns for a rollout that is not
    finished and an upload time that is not zero, when the numbers
    are of magnitude at most 2^1000: the base itself, or a finite
    double whose value is that of the last line. *)
Lemma getEffectiveRollout_cases (input : RolloutComputationInput) (r t now : number) :
  rollout input = Some r -> uploadTime input = Some t ->
  within 1000 r -> (r =? 100)%float = false ->
  within 1000 t -> ~ value t == 0 ->
  within_opt 1000 (holdDurationMinutes input) ->
  within_opt 1000 (rampDurationMinutes input) ->
  within 1000 now ->
  let h := value (or_else (holdDurationMinutes input) 0%float) in
  let p := value (or_else (rampDurationMinutes input) 0%float) in
  let e := RN (value now - value t) in
  let H := RN (h * 60000) in
  let P := RN (p * 60000) in
  let d := Qmax 0 (RN (e - H)) in
  exists q, getEffectiveRollout (Some input) now = Some q /\ finite q = true
    /\ ((((0 < H /\ e < H) \/ (H == 0 /\ e < 0) \/ p <= 0 \/ d <= 0) /\ q = r)
        \/ (~ (0 < H /\ e < H) /\ ~ (H == 0 /\ e < 0) /\ 0 < p /\ 0 < d
            /\ value q == tail (value r) (progress d P))).
Proof.
  intros Hr Ht [Fr Br] H100 [Ft Bt] Ht0 Bh Bp [Fn Bn] h p e H P d.
  destruct (within_or_else 1000 _ ltac:(lia) Bh) as [Fh Bh'].
  destruct (within_or_else 1000 _ ltac:(lia) Bp) as [Fp Bp'].
  fold h in Bh'. fold p in Bp'.
  destruct pow2_1000_facts as (B10 & B1 & B2 & B12 & B13 & B16 & B17 & B1023).
  destruct value_0 as [F0 V0]. destruct value_1 as [F1 V1].
  destruct value_100 as [F100 V100]. destruct value_1000 as [F1000 V1000].
  destruct value_MS_PER_MINUTE as [FM VM].
  eexists. split; [reflexivity|]. cbv zeta. rewrite Hr, Ht.
  cbn [isUnfinishedRolloutNumber]. rewrite H100. cbn [negb].
  rewrite (truthy_value t Ft).
  destruct (Qeq_bool (value t) 0) eqn:Et0; [apply Qeq_bool_iff in Et0; contradiction|].
  cbn [negb].
  set (hd := or_else (holdDurationMinutes input) 0%float) in *.
  set (pd := or_else (rampDurationMinutes input) 0%float) in *.
  (* elapsedMs and holdMs *)
  destruct (sub_finite now t 1001 Fn Ft ltac:(lia) ltac:(lra)) as [Fe Ve]. fold e in Ve.
  set (elapsedMs := (now - t)%float) in *.
  assert (Be : - pow2 1001 <= e <= pow2 1001) by (apply RN_between; [lia|lra]).
  destruct (mul_finite hd MS_PER_MINUTE 1016 Fh FM ltac:(lia)) as [FH VH].
  { rewrite VM. fold h. lra. }
  rewrite VM in VH. fold h H in VH.
  set (holdMs := (hd * MS_PER_MINUTE)%float) in *.
  assert (BH : - pow2 1016 <= H <= pow2 1016) by (apply RN_between; [lia|lra]).
  destruct (mul_finite pd MS_PER_MINUTE 1016 Fp FM ltac:(lia)) as [FP VP].
  { rewrite VM. fold p. lra. }
  rewrite VM in VP. fold p P in VP.
  set (rampMs := (pd * MS_PER_MINUTE)%float) in *.
  destruct (sub_finite elapsedMs holdMs 1017 Fe FH ltac:(lia)) as [Fd Vd].
  { rewrite Ve, VH. lra. }
  rewrite Ve, VH in Vd.
  assert (Bd : - pow2 1017 <= RN (e - H) <= pow2 1017) by (apply RN_between; [lia|lra]).
  destruct (Math_max_value 0%float (elapsedMs - holdMs)%float F0 Fd) as [FD VD].
  rewrite V0, Vd in VD. fold d in VD.
  set (rampElapsed := Math_max 0%float (elapsedMs - holdMs)%float) in *.
  assert (Hd0 : 0 <= d) by apply Q.le_max_l.
  (* the tests *)
  pose proof (ltb_true 0%float holdMs F0 FH) as T1. rewrite V0, VH in T1.
  pose proof (ltb_true elapsedMs holdMs Fe FH) as T2. rewrite Ve, VH in T2.
  pose proof (eqb_true holdMs 0%float FH F0) as T3. rewrite V0, VH in T3.
  pose proof (ltb_true elapsedMs 0%float Fe F0) as T4. rewrite V0, Ve in T4.
  pose proof (leb_true pd 0%float Fp F0) as T5. rewrite V0 in T5. fold p in T5.
  pose proof (leb_true rampElapsed 0%float FD F0) as T6. rewrite V0, VD in T6.
  destruct ((0 <? holdMs)%float && (elapsedMs <? holdMs)%float
            || (holdMs =? 0)%float && (elapsedMs <? 0)%float) eqn:G.
  { split; [exact Fr|]. left. split; [|reflexivity].
    apply orb_prop in G as [[G1 G2]%andb_prop|[G1 G2]%andb_prop].
    - left. split; [now apply T1|now apply T2].
    - right. left. split; [now apply T3|now apply T4]. }
  assert (N1 : ~ (0 < H /\ e < H)).
  { intros [A1 A2]. apply T1 in A1. apply T2 in A2. rewrite A1, A2 in G. discriminate. }
  assert (N2 : ~ (H == 0 /\ e < 0)).
  { intros [A1 A2]. apply T3 in A1. apply T4 in A2. rewrite A1, A2 in G.
    rewrite orb_true_r in G. discriminate. }
  destruct (pd <=? 0)%float eqn:G5.
  { split; [exact Fr|]. left. split; [|reflexivity]. right. right. left. now apply T5. }
  assert (Hp : 0 < p).
  { destruct (Qlt_le_dec 0 p) as [A|A]; [exact A|]. apply T5 in A. congruence. }
  destruct (rampElapsed <=? 0)%float eqn:G6.
  { split; [exact Fr|]. left. split; [|reflexivity]. right. right. right. now apply T6. }
  assert (Hd : 0 < d).
  { destruct (Qlt_le_dec 0 d) as [A|A]; [exact A|]. apply T6 in A. congruence. }
  (* the ramp *)
  assert (HP : 0 < P).
  { unfold P. apply Qlt_le_trans with (RN p).
    - unfold p. rewrite (RN_value pd Fp). exact Hp.
    - apply RN_le. lra. }
  destruct (Math_min_quotient 1%float rampElapsed rampMs F1 FD FP) as [Fg Vg].
  { rewrite V1. lra. } { rewrite VD. exact Hd0. } { rewrite VP. exact HP. }
  rewrite V1, VD, VP in Vg.
  set (g := Math_min 1%float (rampElapsed / rampMs)%float) in *.
  pose proof (progress_range d P Hd0 HP) as Bg. rewrite <- Vg in Bg.
  destruct (sub_finite 100%float r 1001 F100 Fr ltac:(lia)) as [Fa Va].
  { rewrite V100. lra. }
  rewrite V100 in Va.
  assert (Ba : - pow2 1001 <= RN (100 - value r) <= pow2 1001) by (apply RN_between; [lia|lra]).
  rewrite <- Va in Ba.
  destruct (mul_finite (100 - r)%float g 1001 Fa Fg ltac:(lia)) as [Fm Vm].
  { now apply scale_bound. }
  assert (Bm : - pow2 1001 <= value ((100 - r) * g)%float <= pow2 1001).
  { rewrite Vm. apply RN_between; [lia|]. now apply scale_bound. }
  destruct (add_finite r ((100 - r) * g)%float 1002 Fr Fm ltac:(lia)) as [Fc Vc]; [lra|].
  assert (Bc : - pow2 1002 <= value (r + (100 - r) * g)%float <= pow2 1002).
  { rewrite Vc. apply RN_between; [lia|lra]. }
  set (computed := (r + (100 - r) * g)%float) in *.
  destruct (mul_finite computed 1000%float 1012 Fc F1000 ltac:(lia)) as [Fk Vk].
  { rewrite V1000. lra. }
  assert (Bk : - pow2 1012 <= value (computed * 1000)%float <= pow2 1012).
  { rewrite Vk. apply RN_between; [lia|]. rewrite V1000. lra. }
  destruct (Math_round_value (computed * 1000)%float Fk) as [FR VR].
  assert (BR : - pow2 1013 <= value (Math_round (computed * 1000)%float) <= pow2 1013).
  { rewrite VR. destruct (Qfloor_bounds (value (computed * 1000)%float + (1 # 2))) as [A1 A2].
    lra. }
  assert (N1000 : ~ value 1000%float == 0) by (rewrite V1000; discriminate).
  destruct (div_finite (Math_round (computed * 1000)%float) 1000%float 1013 FR F1000 N1000 ltac:(lia))
    as [FX VX].
  { rewrite V1000.
    assert (A := Qdiv_1000 (value (Math_round (computed * 1000)%float))).
    split; lra. }
  destruct (Math_max_value r (Math_round (computed * 1000) / 1000)%float Fr FX) as [FY VY].
  destruct (Math_min_value 100%float _ F100 FY) as [FZ VZ].
  split; [exact FZ|]. right. repeat (split; [assumption|]).
  rewrite VZ, V100, VY, VX, V1000, VR, Vk, V1000, Vc, Vm, Va, Vg. reflexivity.
Qed.

End RampDoubles.

Section RampOrder.
Import PrimFloat Rounding Double RolloutSelector.
Local Open Scope Q_scope.

Local Abbreviation tail r g :=
  (Qmin 100
     (Qmax r
        (RN (inject_Z (Qfloor (RN (RN (r + RN (RN (100 - r) * g)) * 1000) + (1 # 2)))
             / 1000)))).

Local Abbreviation progress d P := (Qmin 1 (RN (d / P))).

Lemma within_100 (r : number) : finite r = true -> 0 <= value r <= 100 -> within 1000 r.
Proof.
  intros Fr Hr. split; [exact Fr|].
  destruct pow2_1000_facts as (B10 & _). lra.
Qed.

Lemma ramp_elapsed_mono (e1 e2 H : Q) :
  e1 <= e2 -> Qmax 0 (RN (e1 - H)) <= Qmax 0 (RN (e2 - H)).
Proof. intros He. apply Q.max_le_compat_l, RN_le. lra. Qed.

(** As time passes the result does not decrease when the base is at
    most 100, and it stays at 100 or above when the base is. *)
Lemma getEffectiveRollout_order (input : RolloutComputationInput) (r now1 now2 : number) :
  rollout input = Some r -> within 1000 r ->
  within_opt 1000 (uploadTime input) ->
  within_opt 1000 (holdDurationMinutes input) ->
  within_opt 1000 (rampDurationMinutes input) ->
  within 1000 now1 -> within 1000 now2 -> value now1 <= value now2 ->
  exists q1 q2,
    getEffectiveRollout (Some input) now1 = Some q1
    /\ getEffectiveRollout (Some input) now2 = Some q2
    /\ finite q1 = true /\ finite q2 = true
    /\ (value r <= 100 -> value q1 <= value q2)
    /\ (100 <= value r -> 100 <= value q1 /\ 100 <= value q2).
Proof.
  intros Hr Br Bt Bh Bp Bn1 Bn2 Hnow.
  assert (Hsame : getEffectiveRollout (Some input) now1 = Some r ->
            getEffectiveRollout (Some input) now2 = Some r ->
            exists q1 q2,
              getEffectiveRollout (Some input) now1 = Some q1
              /\ getEffectiveRollout (Some input) now2 = Some q2
              /\ finite q1 = true /\ finite q2 = true
              /\ (value r <= 100 -> value q1 <= value q2)
              /\ (100 <= value r -> 100 <= value q1 /\ 100 <= value q2)).
  { intros E1 E2. exists r, r. destruct Br as [Fr _].
    repeat split; auto; lra. }
  destruct (r =? 100)%float eqn:E100.
  { apply Hsame; unfold getEffectiveRollout; rewrite Hr; cbn [isUnfinishedRolloutNumber];
      rewrite E100; reflexivity. }
  destruct (uploadTime input) as [t|] eqn:Ht.
  2:{ apply Hsame; unfold getEffectiveRollout; rewrite Hr, Ht;
        cbn [isUnfinishedRolloutNumber]; rewrite E100; reflexivity. }
  cbn [within_opt] in Bt.
  destruct (truthy t) eqn:Et.
  2:{ apply Hsame; unfold getEffectiveRollout; rewrite Hr, Ht;
        cbn [isUnfinishedRolloutNumber]; rewrite E100; cbn [negb]; rewrite Et; reflexivity. }
  assert (Ht0 : ~ value t == 0).
  { rewrite (truthy_value t (proj1 Bt)) in Et. intros E. apply Qeq_bool_iff in E.
    rewrite E in Et. discriminate. }
  destruct (getEffectiveRollout_cases input r t now1 Hr Ht Br E100 Bt Ht0 Bh Bp Bn1)
    as (q1 & E1 & F1 & C1).
  destruct (getEffectiveRollout_cases input r t now2 Hr Ht Br E100 Bt Ht0 Bh Bp Bn2)
    as (q2 & E2 & F2 & C2).
  exists q1, q2. split; [exact E1|]. split; [exact E2|]. split; [exact F1|]. split; [exact F2|].
  cbv zeta in C1, C2.
  set (h := value (or_else (holdDurationMinutes input) 0%float)) in *.
  set (p := value (or_else (rampDurationMinutes input) 0%float)) in *.
  set (H := RN (h * 60000)) in *. set (P := RN (p * 60000)) in *.
  assert (He : RN (value now1 - value t) <= RN (value now2 - value t)) by (apply RN_le; lra).
  set (e1 := RN (value now1 - value t)) in *. set (e2 := RN (value now2 - value t)) in *.
  pose proof (ramp_elapsed_mono e1 e2 H He) as Hd.
  set (d1 := Qmax 0 (RN (e1 - H))) in *. set (d2 := Qmax 0 (RN (e2 - H))) in *.
  assert (HP : 0 < p -> 0 < P).
  { intros Hp. unfold P. apply Qlt_le_trans with (RN p).
    - unfold p. rewrite (RN_value _ (proj1 (within_or_else 1000 _ ltac:(lia) Bp))). exact Hp.
    - apply RN_le. lra. }
  split.
  - intros Hr100.
    destruct C1 as [[_ ->]|(N1 & N2 & Hp & Hd1 & V1)].
    + destruct C2 as [[_ ->]|(_ & _ & _ & _ & V2)]; [lra|].
      rewrite V2. apply tail_range. exact Hr100.
    + destruct C2 as [[[G|[G|[G|G]]] _]|(_ & _ & _ & _ & V2)].
      * exfalso. apply N1. split; [tauto|lra].
      * exfalso. apply N2. split; [tauto|].
        destruct (Qlt_le_dec e1 0) as [A|A]; [exact A|lra].
      * lra.
      * lra.
      * rewrite V1, V2. apply tail_mono; [exact Hr100|].
        apply progress_mono; [now apply HP|exact Hd].
  - intros Hr100. split.
    + destruct C1 as [[_ ->]|(_ & _ & _ & _ & V1)]; [exact Hr100|].
      rewrite V1, tail_above; [lra|exact Hr100].
    + destruct C2 as [[_ ->]|(_ & _ & _ & _ & V2)]; [exact Hr100|].
      rewrite V2, tail_above; [lra|exact Hr100].
Qed.

End RampOrder.

Section RampClaims.
Import PrimFloat Rounding Double RolloutSelector.
Local Open Scope Q_scope.

Lemma getEffectiveRollout_no_upload_time (input : RolloutComputationInput) (r t now : number) :
  rollout input = Some r -> uploadTime input = Some t -> truthy t = false ->
  getEffectiveRollout (Some input) now = Some r.
Proof.
  intros Hr Ht Et. unfold getEffectiveRollout. rewrite Hr, Ht.
  cbn [isUnfinishedRolloutNumber]. destruct (r =? 100)%float; cbn [negb]; [reflexivity|].
  rewrite Et. reflexivity.
Qed.

(** C7, as stated, fails at an upload time that is present and is 0
    (the epoch): [!uploadTime] holds, the base rollout is returned at
    every time, and the rollout never reaches 100, however long after
    the end of the ramp. *)
Lemma getEffectiveRollout_upload_time_zero :
  let input := {| rollout := Some 50%float; holdDurationMinutes := None;
                  rampDurationMinutes := Some 10%float; uploadTime := Some 0%float |} in
  0 < value 10%float * value MS_PER_MINUTE
  /\ value 0%float + value 0%float * value MS_PER_MINUTE + value 10%float * value MS_PER_MINUTE
     <= value 600000%float
  /\ getEffectiveRollout (Some input) 600000%float = Some 50%float
  /\ ~ value 50%float == 100.
Proof.
  cbv zeta. repeat split; try (vm_compute; congruence).
Qed.

(** The doubles round: one minute of ramp after a hold of 2^60 ms or
    so, the upload having been 96 ms before the epoch, the exact
    time elapsed is the hold and the ramp, and the difference of the
    doubles is 96 ms short of it: the rollout is not yet 100. *)
Lemma getEffectiveRollout_rounded_elapsed :
  let input := {| rollout := Some 50%float;
                  holdDurationMinutes := Some 19215358410120%float;
                  rampDurationMinutes := Some 1%float;
                  uploadTime := Some (-96)%float |} in
  let now := 1152921504607259904%float in
  value (-96)%float + value 19215358410120%float * value MS_PER_MINUTE
    + value 1%float * value MS_PER_MINUTE <= value now
  /\ exists q, getEffectiveRollout (Some input) now = Some q /\ (q <? 100)%float = true.
Proof.
  cbv zeta. split; [vm_compute; congruence|].
  eexists. split; [reflexivity|]. vm_compute. reflexivity.
Qed.

(** Numbers out of range: the time elapsed and the hold overflow,
    their difference is NaN, and NaN is returned. *)
Lemma getEffectiveRollout_overflow :
  let input := {| rollout := Some 10%float;
                  holdDurationMinutes := Some 0x1p+1010%float;
                  rampDurationMinutes := Some 1%float;
                  uploadTime := Some (- 0x1p+1023)%float |} in
  finite 0x1p+1010%float = true /\ finite 0x1p+1023%float = true
  /\ getEffectiveRollout (Some input) 0x1p+1023%float = Some nan.
Proof.
  cbv zeta. repeat split; vm_compute; reflexivity.
Qed.

(** C7, amended, on doubles of magnitude at most 2^1000: for a
    rollout in [0,100] that is present and is not 100 and an upload
    time that is present, [getEffectiveRollout] is non-decreasing in
    [now] and returns the base rollout at every
    [now <= uploadTime + holdMs]; when moreover the upload time is
    not 0, [rampMs > 0], and neither the difference
    [now - uploadTime] nor the product [holdMs] of the doubles is
    rounded, it returns 100 at every
    [now >= uploadTime + holdMs + rampMs].  The sums and products of
    the conditions are those of the numbers, not of the doubles. *)
Theorem getEffectiveRollout_monotone (input : RolloutComputationInput) (r t : number) :
  rollout input = Some r -> finite r = true -> ~ value r == 100 -> 0 <= value r <= 100 ->
  uploadTime input = Some t -> within 1000 t ->
  within_opt 1000 (holdDurationMinutes input) ->
  within_opt 1000 (rampDurationMinutes input) ->
  let holdMs := value (or_else (holdDurationMinutes input) 0%float) * value MS_PER_MINUTE in
  let rampMs := value (or_else (rampDurationMinutes input) 0%float) * value MS_PER_MINUTE in
  (forall now1 now2 : number,
     within 1000 now1 -> within 1000 now2 -> value now1 <= value now2 ->
     exists q1 q2,
       getEffectiveRollout (Some input) now1 = Some q1
       /\ getEffectiveRollout (Some input) now2 = Some q2
       /\ (q1 <=? q2)%float = true)
  /\ (forall now : number,
        within 1000 now -> value now <= value t + holdMs ->
        getEffectiveRollout (Some input) now = Some r)
  /\ (~ value t == 0 -> 0 < rampMs ->
      forall now : number,
        within 1000 now ->
        value (now - t)%float == value now - value t ->
        value (or_else (holdDurationMinutes input) 0%float * MS_PER_MINUTE)%float == holdMs ->
        value t + holdMs + rampMs <= value now ->
        exists q, getEffectiveRollout (Some input) now = Some q
                  /\ finite q = true /\ value q == 100).
Proof.
  intros Hr Fr Hne Hr100 Ht Bt Bh Bp holdMs rampMs.
  pose proof (within_100 r Fr Hr100) as Br.
  assert (E100 : (r =? 100)%float = false).
  { apply (eqb_false r 100%float Fr eq_refl). intros E. apply Hne.
    rewrite E. apply value_100. }
  assert (VM : value MS_PER_MINUTE == 60000) by reflexivity.
  destruct (within_or_else 1000 _ ltac:(lia) Bp) as [Fp _].
  split; [|split].
  - intros now1 now2 Bn1 Bn2 Hnow.
    destruct (getEffectiveRollout_order input r now1 now2 Hr Br) as (q1 & q2 & E1 & E2 & F1 & F2 & Hle & _);
      try assumption; [rewrite Ht; exact Bt|].
    exists q1, q2. split; [exact E1|]. split; [exact E2|].
    apply (leb_true q1 q2 F1 F2). apply Hle. tauto.
  - intros now Bn Hnow.
    destruct (truthy t) eqn:Et; [|now apply (getEffectiveRollout_no_upload_time input r t)].
    assert (Ht0 : ~ value t == 0).
    { rewrite (truthy_value t (proj1 Bt)) in Et. intros E. apply Qeq_bool_iff in E.
      rewrite E in Et. discriminate. }
    destruct (getEffectiveRollout_cases input r t now Hr Ht Br E100 Bt Ht0 Bh Bp Bn)
      as (q & E & F & [[_ ->]|(_ & _ & _ & Hd & _)]); [exact E|].
    exfalso. cbv zeta in Hd.
    assert (Hle : RN (value now - value t)
                  <= RN (value (or_else (holdDurationMinutes input) 0%float) * 60000)).
    { apply RN_le. unfold holdMs in Hnow. rewrite VM in Hnow. lra. }
    assert (H0 : RN (RN (value now - value t)
                     - RN (value (or_else (holdDurationMinutes input) 0%float) * 60000)) <= 0).
    { apply RN_nonpos. lra. }
    rewrite Q.max_l in Hd by exact H0. lra.
  - intros Ht0 HR now Bn Xe XH Hnow.
    destruct pow2_1000_facts as (B10 & B1 & _ & _ & _ & B16 & _).
    destruct (within_or_else 1000 _ ltac:(lia) Bh) as [Fh Bh'].
    destruct (sub_finite now t 1001 (proj1 Bn) (proj1 Bt) ltac:(lia)) as [_ Ve].
    { destruct Bn as [_ Bn], Bt as [_ Bt']. lra. }
    rewrite Ve in Xe. clear Ve.
    destruct (mul_finite _ MS_PER_MINUTE 1016 Fh eq_refl ltac:(lia)) as [_ VH].
    { rewrite VM. lra. }
    rewrite VH in XH. clear VH.
    destruct (getEffectiveRollout_cases input r t now Hr Ht Br E100 Bt Ht0 Bh Bp Bn)
      as (q & E & F & C).
    exists q. split; [exact E|]. split; [exact F|].
    cbv zeta in C. unfold holdMs, rampMs in *. rewrite VM in *.
    set (h := value (or_else (holdDurationMinutes input) 0%float)) in *.
    set (p := value (or_else (rampDurationMinutes input) 0%float)) in *.
    rewrite Xe, XH in C.
    assert (Hp : 0 < p) by lra.
    assert (HP : 0 < RN (p * 60000)).
    { apply Qlt_le_trans with (RN p).
      - unfold p. rewrite (RN_value _ Fp). exact Hp.
      - apply RN_le. lra. }
    assert (Hd : RN (p * 60000) <= Qmax 0 (RN (value now - value t - h * 60000))).
    { eapply Qle_trans; [|apply Q.le_max_r]. apply RN_le. lra. }
    destruct C as [[[G|[G|[G|G]]] _]|(_ & _ & _ & _ & V)]; try lra.
    rewrite V. apply Qle_antisym.
    + apply tail_range. tauto.
    + rewrite <- (tail_full (value r) Hr100) at 1.
      apply tail_mono; [tauto|].
      rewrite (progress_full _ _ HP Hd). apply Qle_refl.
Qed.

Lemma getEffectiveRollout_monotone_witness :
  let input := {| rollout := Some 20%float; holdDurationMinutes := Some 5%float;
                  rampDurationMinutes := Some 10%float; uploadTime := Some 1000%float |} in
  (forall now1 now2 : number,
     within 1000 now1 -> within 1000 now2 -> value now1 <= value now2 ->
     exists q1 q2,
       getEffectiveRollout (Some input) now1 = Some q1
       /\ getEffectiveRollout (Some input) now2 = Some q2
       /\ (q1 <=? q2)%float = true)
  /\ (forall now : number,
        within 1000 now -> value now <= value 1000%float + value 5%float * value MS_PER_MINUTE ->
        getEffectiveRollout (Some input) now = Some 20%float)
  /\ (forall now : number,
        within 1000 now ->
        value (now - 1000)%float == value now - value 1000%float ->
        value 1000%float + value 5%float * value MS_PER_MINUTE
          + value 10%float * value MS_PER_MINUTE <= value now ->
        exists q, getEffectiveRollout (Some input) now = Some q
                  /\ finite q = true /\ value q == 100).
Proof.
  intros input.
  destruct (getEffectiveRollout_monotone input 20%float 1000%float) as (Hmono & Hbase & Hfull).
  - reflexivity.
  - reflexivity.
  - vm_compute. discriminate.
  - split; vm_compute; discriminate.
  - reflexivity.
  - split; [reflexivity|split; vm_compute; discriminate].
  - split; [reflexivity|split; vm_compute; discriminate].
  - split; [reflexivity|split; vm_compute; discriminate].
  - split; [exact Hmono|split; [exact Hbase|]].
    intros now Bn Xe Hnow. apply Hfull; try assumption.
    + vm_compute. discriminate.
    + reflexivity.
    + vm_compute. reflexivity.
Defined.

End RampClaims.

Section DoubleOrder.
Import PrimFloat SpecFloat FloatOps FloatAxioms Double.

(** Facts of the order of doubles that hold for every double, NaN
    and the infinities among them. *)
Lemma compare_leb (x y : number) :
  match (x ?= y)%float with
  | FLt => (x <=? y)%float = true
  | FEq => (x <=? y)%float = true /\ (y <=? x)%float = true
  | FGt => (y <=? x)%float = true
  | FNotComparable => True
  end.
Proof.
  rewrite compare_spec, !leb_spec. unfold SFleb.
  rewrite (SFcompare_antisym (Prim2SF x) (Prim2SF y)).
  destruct (SFcompare (Prim2SF x) (Prim2SF y)) as [[]|]; cbn; auto.
Qed.

Lemma leb_refl (x y : number) :
  (x <=? y)%float = true -> (x <=? x)%float = true /\ (y <=? y)%float = true.
Proof.
  rewrite !leb_spec. unfold SFleb. intros H.
  assert (Hx : Prim2SF x <> S754_nan).
  { intros E. rewrite E in H. discriminate. }
  assert (Hy : Prim2SF y <> S754_nan).
  { intros E. rewrite E in H. destruct (Prim2SF x); discriminate. }
  now rewrite !SFcompare_refl.
Qed.

Lemma is_nan_compare (x y : number) : is_nan y = true -> (x ?= y)%float = FNotComparable.
Proof.
  unfold is_nan. rewrite eqb_spec, compare_spec. unfold SFeqb. intros H.
  destruct (Prim2SF y) as [s|s| |s m e] eqn:E.
  - rewrite SFcompare_refl in H by discriminate. discriminate.
  - rewrite SFcompare_refl in H by discriminate. discriminate.
  - destruct (Prim2SF x); reflexivity.
  - rewrite SFcompare_refl in H by discriminate. discriminate.
Qed.

Lemma Math_max_above (r x : number) :
  (r <=? r)%float = true ->
  is_nan (Math_max r x) = true
  \/ ((r <=? Math_max r x)%float = true /\ (Math_max r x <=? Math_max r x)%float = true).
Proof.
  intros Hr. unfold Math_max. pose proof (compare_leb r x) as H.
  destruct (r ?= x)%float.
  - destruct H as [H1 H2]. destruct (get_sign r); right.
    + split; [exact H1|apply (leb_refl _ _ H2)].
    + split; exact Hr.
  - right. split; [exact H|apply (leb_refl _ _ H)].
  - right. split; exact Hr.
  - left. reflexivity.
Qed.

Lemma Math_min_below (r m : number) :
  (r <=? 100)%float = true ->
  is_nan m = true \/ ((r <=? m)%float = true /\ (m <=? m)%float = true) ->
  is_nan (Math_min 100%float m) = true
  \/ ((r <=? Math_min 100%float m)%float = true /\ (Math_min 100%float m <=? 100)%float = true).
Proof.
  intros Hr [Hn|[H1 H2]]; unfold Math_min.
  - rewrite (is_nan_compare _ _ Hn). left. reflexivity.
  - pose proof (compare_leb 100%float m) as H.
    destruct (100 ?= m)%float.
    + right. change (get_sign 100%float) with false. cbn iota. split; [exact H1|apply H].
    + right. split; [exact Hr|reflexivity].
    + right. split; [exact H1|exact H].
    + left. reflexivity.
Qed.

End DoubleOrder.

Section RangeClaims.
Import PrimFloat Double RolloutSelector.

(** Whatever the doubles, NaN and the infinities among them, the
    result for a rollout of at most 100 is NaN, or lies between the
    rollout and 100. *)
Lemma getEffectiveRollout_range (input : RolloutComputationInput) (r now : number) :
  rollout input = Some r -> (r <=? 100)%float = true ->
  exists q, getEffectiveRollout (Some input) now = Some q
            /\ (is_nan q = true \/ ((r <=? q)%float = true /\ (q <=? 100)%float = true)).
Proof.
  intros Hr H100. destruct (leb_refl _ _ H100) as [Hrr _].
  eexists. split; [reflexivity|]. cbv zeta. rewrite Hr.
  assert (Hself : is_nan r = true \/ ((r <=? r)%float = true /\ (r <=? 100)%float = true))
    by (right; split; assumption).
  destruct (negb (isUnfinishedRolloutNumber (Some r))); [exact Hself|].
  destruct (uploadTime input) as [t|]; [|exact Hself].
  repeat match goal with
         | |- context [if ?c then _ else _] => destruct c; [exact Hself|]
         end.
  apply Math_min_below; [exact H100|]. apply Math_max_above. exact Hrr.
Qed.

(** X3: whatever the durations, the upload time and the time of the
    call, NaN and the infinities among them, the effective rollout of
    a release whose rollout is at most 100 is NaN (the doubles on the
    way have overflowed) or lies between that rollout and 100. *)
Theorem getEffectiveRollout_between_base_and_100 (input : RolloutComputationInput)
    (r now : number) :
  rollout input = Some r -> (r <=? 100)%float = true ->
  exists q, getEffectiveRollout (Some input) now = Some q
            /\ (is_nan q = true \/ ((r <=? q)%float = true /\ (q <=? 100)%float = true)).
Proof.
  intros Hrollout Hr. exact (getEffectiveRollout_range input r now Hrollout Hr).
Qed.

Lemma getEffectiveRollout_between_base_and_100_witness :
  exists q,
    getEffectiveRollout
      (Some {| rollout := Some 20%float; holdDurationMinutes := Some 5%float;
               rampDurationMinutes := Some 10%float; uploadTime := Some 1000%float |})
      500000%float
    = Some q
    /\ (is_nan q = true \/ ((20 <=? q)%float = true /\ (q <=? 100)%float = true)).
Proof.
  apply getEffectiveRollout_between_base_and_100.
  - reflexivity.
  - reflexivity.
Defined.

End RangeClaims.

(** ** The selection engine: the helpers of the walk *)

Section EngineFacts.
Import JS IO RolloutSelector Acquisition.
Context `{Backend} `{Platform}.

Lemma proxyBlobUrl_total (azureUrl : string) (w : World) :
  exists w' url, proxyBlobUrl azureUrl w = (w', Resolved url).
Proof.
  unfold proxyBlobUrl, try_catch, getUpdateCheckProxyUrl, ret.
  destruct process_env_UPDATE_CHECK_PROXY_URL as [p|]; [|eauto].
  destruct (truthy p); simpl; [|eauto].
  destruct (URL_rebase p azureUrl); simpl; eauto.
Qed.

(** The proxied URL is the URL itself (no proxy configured, or an
    error on the way) or what the URL class makes of the two. *)
Lemma proxyBlobUrl_result (azureUrl : string) (w w' : World) (url : string) :
  proxyBlobUrl azureUrl w = (w', Resolved url) ->
  url = azureUrl
  \/ exists p, process_env_UPDATE_CHECK_PROXY_URL = Some p
               /\ URL_rebase p azureUrl = Resolved url.
Proof.
  unfold proxyBlobUrl, try_catch, getUpdateCheckProxyUrl, ret.
  destruct process_env_UPDATE_CHECK_PROXY_URL as [p|]; [|intros [= _ ->]; auto].
  destruct (truthy p); simpl; [|intros [= _ ->]; auto].
  destruct (URL_rebase p azureUrl) eqn:E; simpl; intros [= _ ->]; eauto.
Qed.

Lemma createUpdateInfoFromRelease_spec (release : CachedRelease.t) (w : World) :
  exists w' url,
    proxyBlobUrl (CachedRelease.blobUrl release) w = (w', Resolved url)
    /\ createUpdateInfoFromRelease release w
       = (w', Resolved
                {| UpdateCheckResponse.downloadURL := Some url;
                   UpdateCheckResponse.description := CachedRelease.description release;
                   UpdateCheckResponse.isAvailable :=
                     negb (truthy_bool (CachedRelease.isDisabled release));
                   UpdateCheckResponse.isMandatory :=
                     Some (truthy_bool (CachedRelease.isMandatory release));
                   UpdateCheckResponse.appVersion := CachedRelease.appVersion release;
                   UpdateCheckResponse.packageHash := Some (CachedRelease.packageHash release);
                   UpdateCheckResponse.label := CachedRelease.label release;
                   UpdateCheckResponse.packageSize := Some (CachedRelease.size release);
                   UpdateCheckResponse.updateAppVersion := false;
                   UpdateCheckResponse.target_binary_range :=
                     Some (CachedRelease.appVersion release) |}).
Proof.
  destruct (proxyBlobUrl_total (CachedRelease.blobUrl release) w) as (w' & url & E).
  exists w', url. split; [exact E|].
  unfold createUpdateInfoFromRelease, bind. rewrite E. reflexivity.
Qed.

Lemma isClientSelectedForRollout_spec (release : CachedRelease.t)
    (clientUniqueId releaseKey : string) (w : World) :
  exists b,
    isClientSelectedForRollout release clientUniqueId releaseKey w = (w, Resolved b)
    /\ (truthy clientUniqueId = false -> b = false).
Proof.
  unfold isClientSelectedForRollout.
  destruct (CachedRelease.rollout release); [|exists false; auto].
  destruct (truthy clientUniqueId); cbn [negb]; [|exists false; auto].
  unfold bind, Date_now, ret. eexists. split; [reflexivity|discriminate].
Qed.

(** [hydrateDiffPayloadForRelease] always resolves, and touches only
    the download URL and the size. *)
Lemma hydrateDiffPayloadForRelease_keeps (updateInfo : UpdateCheckResponse.t)
    (release : option CachedRelease.t) (requestPackageHash : string)
    (diffMapFetcher : DiffMapFetcher) (w : World) :
  exists w' updateInfo',
    hydrateDiffPayloadForRelease updateInfo release requestPackageHash diffMapFetcher w
    = (w', Resolved updateInfo')
    /\ UpdateCheckResponse.packageHash updateInfo' = UpdateCheckResponse.packageHash updateInfo
    /\ UpdateCheckResponse.label updateInfo' = UpdateCheckResponse.label updateInfo
    /\ UpdateCheckResponse.isAvailable updateInfo' = UpdateCheckResponse.isAvailable updateInfo.
Proof.
  unfold hydrateDiffPayloadForRelease.
  destruct release as [release|]; [|exists w, updateInfo; auto].
  destruct (truthy requestPackageHash) eqn:Eh; simpl; [|exists w, updateInfo; auto].
  unfold try_catch, bind.
  destruct (diffMapFetcher (CachedRelease.packageHash release) w) as [w1 [[diffMap|]|e]];
    try (eexists _, updateInfo; split; [reflexivity|auto]).
  unfold applyDiffPayload. rewrite Eh. simpl.
  destruct (diffMap !! requestPackageHash) as [diff|];
    [|eexists _, updateInfo; split; [reflexivity|auto]].
  unfold bind.
  destruct (proxyBlobUrl_total (BlobInfo.url diff) w1) as (w2 & url & ->).
  eexists _, _. split; [reflexivity|auto].
Qed.

(** The diff map is fetched and has an entry for the hash of the
    request. *)
Lemma hydrateDiffPayloadForRelease_diff (updateInfo : UpdateCheckResponse.t)
    (release : CachedRelease.t) (requestPackageHash : string)
    (diffMapFetcher : DiffMapFetcher) (w w1 : World)
    (diffMap : PackageHashToBlobInfoMap) (diff : BlobInfo.t) :
  truthy requestPackageHash = true ->
  diffMapFetcher (CachedRelease.packageHash release) w = (w1, Resolved (Some diffMap)) ->
  diffMap !! requestPackageHash = Some diff ->
  exists w' url,
    proxyBlobUrl (BlobInfo.url diff) w1 = (w', Resolved url)
    /\ hydrateDiffPayloadForRelease updateInfo (Some release) requestPackageHash diffMapFetcher w
       = (w', Resolved (UpdateCheckResponse.set_packageSize (BlobInfo.size diff)
                          (UpdateCheckResponse.set_downloadURL url updateInfo))).
Proof.
  intros Eh Ef Ed.
  destruct (proxyBlobUrl_total (BlobInfo.url diff) w1) as (w' & url & Ep).
  exists w', url. split; [exact Ep|].
  unfold hydrateDiffPayloadForRelease. rewrite Eh. simpl.
  unfold try_catch, bind. rewrite Ef.
  unfold applyDiffPayload. rewrite Eh, Ed. simpl. unfold bind. rewrite Ep. reflexivity.
Qed.

(** The fetch is rejected: a warning, and the update information
    as it was. *)
Lemma hydrateDiffPayloadForRelease_rejected (updateInfo : UpdateCheckResponse.t)
    (release : CachedRelease.t) (requestPackageHash : string)
    (diffMapFetcher : DiffMapFetcher) (w w1 : World) (e : Error) :
  truthy requestPackageHash = true ->
  diffMapFetcher (CachedRelease.packageHash release) w = (w1, Rejected e) ->
  exists w',
    hydrateDiffPayloadForRelease updateInfo (Some release) requestPackageHash diffMapFetcher w
    = (w', Resolved updateInfo)
    /\ console w'
       = console w1 ++ [ {| level := WARN;
                            text := "Failed to hydrate diff package map for updateCheck";
                            detail := Some e |} ].
Proof.
  intros Eh Ef.
  unfold hydrateDiffPayloadForRelease. rewrite Eh. simpl.
  unfold try_catch, bind. rewrite Ef. simpl.
  eexists. split; reflexivity.
Qed.

End EngineFacts.

(** ** The selection engine: the walk *)

Section WalkFacts.
Import JS IO RolloutSelector Acquisition.
Context `{Backend} `{Platform}.
Variable rq : Request.

Lemma walk_cons_continue (release : option CachedRelease.t)
    (rest : list (option CachedRelease.t)) (vars vars1 : Walk) (w w1 : World) :
  walkRelease rq vars release w = (w1, Resolved (Continue vars1)) ->
  walk rq (release :: rest) vars w = walk rq rest vars1 w1.
Proof. intros E. cbn [walk]. unfold bind. rewrite E. reflexivity. Qed.

Lemma walk_cons_return (release : option CachedRelease.t)
    (rest : list (option CachedRelease.t)) (vars : Walk) (w w1 : World)
    (body : UpdateCheckBody) :
  walkRelease rq vars release w = (w1, Resolved (Return body)) ->
  walk rq (release :: rest) vars w = (w1, Resolved (Return body)).
Proof. intros E. cbn [walk]. unfold bind. rewrite E. reflexivity. Qed.

Lemma walk_app_continue (l1 l2 : list (option CachedRelease.t)) (vars vars1 : Walk)
    (w w1 : World) :
  walk rq l1 vars w = (w1, Resolved (Continue vars1)) ->
  walk rq (l1 ++ l2) vars w = walk rq l2 vars1 w1.
Proof.
  revert vars w. induction l1 as [|release l1 IH]; intros vars w E.
  - injection E as -> ->. reflexivity.
  - cbn [walk app] in *. unfold bind in *.
    destruct (walkRelease rq vars release w) as [w' [[v'|b]|e]]; try discriminate.
    now apply IH.
Qed.

(** A turn once an update is selected: the selection stays, and
    [forceMandatory] can only be raised; or the walk ends on the
    current release with the selected update completed. *)
Lemma walkRelease_selected (vars : Walk) (update : UpdateCheckResponse.t)
    (selected : CachedRelease.t) (release : option CachedRelease.t) (w : World) :
  selectedUpdate vars = Some update -> selectedRelease vars = Some selected ->
  (exists vars',
      walkRelease rq vars release w = (w, Resolved (Continue vars'))
      /\ selectedUpdate vars' = Some update /\ selectedRelease vars' = Some selected
      /\ (forceMandatory vars = true -> forceMandatory vars' = true))
  \/ (exists w2 update',
         hydrateDiffPayloadForRelease update (Some selected)
           (requestPackageHash rq) (diffMapFetcher rq) w = (w2, Resolved update')
         /\ walkRelease rq vars release w
            = (w2, Resolved (Return (finalizeUpdateCheckResponse update' selected
                                       (forceMandatory vars) (rawAppVersion rq)
                                       (normalizedAppVersion rq))))).
Proof.
  intros Hu Hs. unfold walkRelease.
  destruct release as [release|]; [|left; exists vars; auto].
  destruct (isClientPackage release (requestLabel rq) (requestPackageHash rq)).
  - destruct (truthy_bool (CachedRelease.isDisabled release)); simpl.
    + left; exists vars; auto.
    + destruct (hydrateDiffPayloadForRelease_keeps update (Some selected)
                  (requestPackageHash rq) (diffMapFetcher rq) w) as (w2 & u' & E & _).
      right. exists w2, u'. split; [exact E|].
      rewrite Hu, Hs. unfold bind. rewrite E. reflexivity.
  - simpl. destruct (truthy_bool (CachedRelease.isDisabled release));
      [left; exists vars; auto|].
    destruct (releaseApplies rq release); simpl; [|left; exists vars; auto].
    rewrite Hu. left.
    destruct (truthy_bool (CachedRelease.isMandatory release));
      eexists; (split; [reflexivity|auto]).
Qed.

(** A turn while no update is selected: the release is passed over
    (and, when it applies, is enabled and is mandatory, the latch
    [pendingMandatory] is set); or it is the current release and the
    walk ends without update; or it is selected. *)
Lemma walkRelease_unselected (vars : Walk) (release : option CachedRelease.t) (w : World) :
  selectedUpdate vars = None ->
  (exists vars',
      walkRelease rq vars release w = (w, Resolved (Continue vars'))
      /\ selectedUpdate vars' = None
      /\ selectedRelease vars' = selectedRelease vars
      /\ (pendingMandatory vars = true -> pendingMandatory vars' = true)
      /\ (forall r, release = Some r -> releaseApplies rq r = true ->
            truthy_bool (CachedRelease.isDisabled r) = false ->
            truthy_bool (CachedRelease.isMandatory r) = true ->
            pendingMandatory vars' = true))
  \/ walkRelease rq vars release w = (w, Resolved (Return (noUpdateBody rq)))
  \/ (exists r w' update,
         release = Some r
         /\ createUpdateInfoFromRelease r w = (w', Resolved update)
         /\ walkRelease rq vars release w
            = (w', Resolved
                     (Continue
                        {| selectedUpdate := Some update;
                           selectedRelease := Some r;
                           forceMandatory :=
                             pendingMandatory vars
                             || truthy_bool (CachedRelease.isMandatory r);
                           pendingMandatory := pendingMandatory vars |}))
         /\ (isUnfinishedRollout (CachedRelease.rollout r) = true ->
             betaRequested rq = true \/ truthy (clientUniqueId rq) = true)).
Proof.
  intros Hu.
  destruct release as [release|].
  2:{ left; exists vars. repeat split; auto. discriminate. }
  remember (walkRelease rq vars (Some release) w) as result eqn:E.
  unfold walkRelease in E.
  destruct (isClientPackage release (requestLabel rq) (requestPackageHash rq)).
  - destruct (truthy_bool (CachedRelease.isDisabled release)) eqn:Ed; simpl in E.
    + left; exists vars. subst result. repeat split; auto. intros r [= <-]. congruence.
    + right; left. rewrite Hu in E. exact E.
  - simpl in E. destruct (truthy_bool (CachedRelease.isDisabled release)) eqn:Ed.
    { left; exists vars. subst result. repeat split; auto. intros r [= <-]. congruence. }
    destruct (releaseApplies rq release) eqn:Ea; simpl in E.
    2:{ left; exists vars. subst result. repeat split; auto. intros r [= <-]. congruence. }
    rewrite Hu in E.
    destruct (createUpdateInfoFromRelease_spec release w) as (w' & url & _ & Ec).
    destruct (isClientSelectedForRollout_spec release (clientUniqueId rq)
                (releaseKey release) w) as (b & Eb' & Hb).
    destruct (isUnfinishedRollout (CachedRelease.rollout release)) eqn:Er;
      [destruct (betaRequested rq) eqn:Eb|];
      simpl in E; unfold bind in E; rewrite ?Eb' in E;
      [|destruct b|]; rewrite ?Ec in E; simpl in E; subst result.
    + right; right. eexists release, w', _. repeat split; eauto.
    + right; right. eexists release, w', _. repeat split; eauto.
      intros _. right.
      destruct (truthy (clientUniqueId rq)); [reflexivity|discriminate (Hb eq_refl)].
    + left.
      destruct (truthy_bool (CachedRelease.isMandatory release)) eqn:Em;
        eexists; (split; [reflexivity|]); repeat split; auto.
      intros r [= <-]. congruence.
    + right; right. eexists release, w', _. repeat split; eauto.
      intros Hr. congruence.
Qed.

Lemma walk_selected_continue (l : list (option CachedRelease.t)) (vars vars' : Walk)
    (update : UpdateCheckResponse.t) (selected : CachedRelease.t) (w w' : World) :
  selectedUpdate vars = Some update -> selectedRelease vars = Some selected ->
  walk rq l vars w = (w', Resolved (Continue vars')) ->
  selectedUpdate vars' = Some update.
Proof.
  revert vars w. induction l as [|release l IH]; intros vars w Hu Hs E.
  - injection E as _ <-. exact Hu.
  - destruct (walkRelease_selected vars update selected release w Hu Hs)
      as [(v1 & E1 & Hu1 & Hs1 & _)|(w2 & u' & _ & E1)].
    + rewrite (walk_cons_continue _ _ _ _ _ _ E1) in E. eauto.
    + rewrite (walk_cons_return _ _ _ _ _ _ E1) in E. discriminate.
Qed.

(** Once an update is selected, the rest of the walk and what
    follows it complete that update: the diff payload is looked up
    in the world of the selection, and [forceMandatory] is not
    lowered. *)
Lemma walk_selected_finish (l : list (option CachedRelease.t)) (vars : Walk)
    (update update' : UpdateCheckResponse.t) (selected : CachedRelease.t) (w w2 : World) :
  selectedUpdate vars = Some update -> selectedRelease vars = Some selected ->
  hydrateDiffPayloadForRelease update (Some selected)
    (requestPackageHash rq) (diffMapFetcher rq) w = (w2, Resolved update') ->
  exists force,
    (forceMandatory vars = true -> force = true)
    /\ bind (walk rq l vars) (afterWalk rq) w
       = (w2, Resolved (finalizeUpdateCheckResponse update' selected force
                          (rawAppVersion rq) (normalizedAppVersion rq))).
Proof.
  revert vars. induction l as [|release l IH]; intros vars Hu Hs Eh.
  - exists (forceMandatory vars). split; [auto|].
    unfold bind. cbn [walk]. unfold ret at 1. cbn [afterWalk].
    rewrite Hu, Hs. unfold bind. rewrite Eh. reflexivity.
  - destruct (walkRelease_selected vars update selected release w Hu Hs)
      as [(v1 & E1 & Hu1 & Hs1 & Hf1)|(w2' & u' & Eh' & E1)].
    + destruct (IH v1 Hu1 Hs1 Eh) as (force & Hforce & E).
      exists force. split; [auto|].
      unfold bind in *. rewrite (walk_cons_continue _ _ _ _ _ _ E1). exact E.
    + rewrite Eh in Eh'. injection Eh' as <- <-.
      exists (forceMandatory vars). split; [auto|].
      unfold bind. rewrite (walk_cons_return _ _ _ _ _ _ E1). reflexivity.
Qed.

(** A stretch of the walk that ends with no update selected: the
    world is as before, and a release of the stretch that applies,
    is enabled and is mandatory has set the latch. *)
Lemma walk_unselected_prefix (pre : list (option CachedRelease.t)) (vars vars1 : Walk)
    (w w1 : World) :
  selectedUpdate vars = None ->
  walk rq pre vars w = (w1, Resolved (Continue vars1)) ->
  selectedUpdate vars1 = None ->
  w1 = w
  /\ (pendingMandatory vars = true -> pendingMandatory vars1 = true)
  /\ (forall r, In (Some r) pre -> releaseApplies rq r = true ->
        truthy_bool (CachedRelease.isDisabled r) = false ->
        truthy_bool (CachedRelease.isMandatory r) = true ->
        pendingMandatory vars1 = true).
Proof.
  revert vars. induction pre as [|release pre IH]; intros vars Hu E Hu1.
  - injection E as <- <-. repeat split; auto.
  - destruct (walkRelease_unselected vars release w Hu)
      as [(v' & E' & Hu' & _ & Hp & Hlatch)|[E'|(r & w' & u & -> & Ec & E' & _)]].
    + rewrite (walk_cons_continue _ _ _ _ _ _ E') in E.
      destruct (IH v' Hu' E Hu1) as (-> & Hp' & Hin).
      repeat split; auto.
      intros r [->|Hr] Ha Hd Hm; eauto.
    + rewrite (walk_cons_return _ _ _ _ _ _ E') in E. discriminate.
    + rewrite (walk_cons_continue _ _ _ _ _ _ E') in E.
      eapply walk_selected_continue in E; [|reflexivity|reflexivity].
      congruence.
Qed.

(** The walk from its start: no update, or the update built from a
    release of the list, completed. *)
Lemma walk_unselected_outcome (l : list (option CachedRelease.t)) (vars : Walk) (w : World) :
  selectedUpdate vars = None ->
  bind (walk rq l vars) (afterWalk rq) w = (w, Resolved (noUpdateBody rq))
  \/ exists r w1 update w2 update' force,
       In (Some r) l
       /\ createUpdateInfoFromRelease r w = (w1, Resolved update)
       /\ (isUnfinishedRollout (CachedRelease.rollout r) = true ->
           betaRequested rq = true \/ truthy (clientUniqueId rq) = true)
       /\ hydrateDiffPayloadForRelease update (Some r)
            (requestPackageHash rq) (diffMapFetcher rq) w1 = (w2, Resolved update')
       /\ bind (walk rq l vars) (afterWalk rq) w
          = (w2, Resolved (finalizeUpdateCheckResponse update' r force
                             (rawAppVersion rq) (normalizedAppVersion rq))).
Proof.
  revert vars. induction l as [|release l IH]; intros vars Hu.
  - left. unfold bind. cbn [walk]. unfold ret at 1. cbn [afterWalk]. rewrite Hu. reflexivity.
  - destruct (walkRelease_unselected vars release w Hu)
      as [(v' & E' & Hu' & _)|[E'|(r & w' & u & -> & Ec & E' & Hroll)]].
    + destruct (IH v' Hu') as [E|(r & w1 & u & w2 & u' & force & Hin & Ec & Hroll & Eh & E)].
      * left. unfold bind in *. rewrite (walk_cons_continue _ _ _ _ _ _ E'). exact E.
      * right. exists r, w1, u, w2, u', force. repeat split; auto.
        -- now right.
        -- unfold bind in *. rewrite (walk_cons_continue _ _ _ _ _ _ E'). exact E.
    + left. unfold bind. rewrite (walk_cons_return _ _ _ _ _ _ E'). reflexivity.
    + destruct (hydrateDiffPayloadForRelease_keeps u (Some r)
                  (requestPackageHash rq) (diffMapFetcher rq) w') as (w2 & u' & Eh & _).
      match type of E' with _ = (_, Resolved (Continue ?v)) =>
        destruct (walk_selected_finish l v u u' r w' w2 eq_refl eq_refl Eh)
          as (force & _ & E)
      end.
      right. exists r, w', u, w2, u', force. repeat split; auto.
      * now left.
      * unfold bind in *. rewrite (walk_cons_continue _ _ _ _ _ _ E'). exact E.
Qed.

(** Without client identifier and without beta, the release held by
    [selectedRelease] is never one whose rollout is unfinished. *)
Lemma walk_anonymous_selection (l : list (option CachedRelease.t)) (vars vars' : Walk)
    (w w' : World) :
  truthy (clientUniqueId rq) = false -> betaRequested rq = false ->
  (selectedUpdate vars = None /\ selectedRelease vars = None)
  \/ (exists update selected,
         selectedUpdate vars = Some update /\ selectedRelease vars = Some selected
         /\ isUnfinishedRollout (CachedRelease.rollout selected) = false) ->
  walk rq l vars w = (w', Resolved (Continue vars')) ->
  forall selected, selectedRelease vars' = Some selected ->
    isUnfinishedRollout (CachedRelease.rollout selected) = false.
Proof.
  intros Hclient Hbeta. revert vars w.
  induction l as [|release l IH]; intros vars w Hinv E selected Hs.
  - injection E as _ <-.
    destruct Hinv as [[_ Hnone]|(u & s & _ & Hsome & Hfin)]; congruence.
  - destruct Hinv as [[Hu Hnone]|(u & s & Hu & Hsome & Hfin)].
    + destruct (walkRelease_unselected vars release w Hu)
        as [(v' & E' & Hu' & Hs' & _)|[E'|(r & w1 & u & -> & Ec & E' & Hroll)]].
      * rewrite (walk_cons_continue _ _ _ _ _ _ E') in E.
        apply (IH v' w); auto. left. split; congruence.
      * rewrite (walk_cons_return _ _ _ _ _ _ E') in E. discriminate.
      * rewrite (walk_cons_continue _ _ _ _ _ _ E') in E.
        eapply IH; [|exact E|exact Hs].
        right. exists u, r. repeat split.
        destruct (isUnfinishedRollout (CachedRelease.rollout r)); [|reflexivity].
        destruct (Hroll eq_refl); congruence.
    + destruct (walkRelease_selected vars u s release w Hu Hsome)
        as [(v' & E' & Hu' & Hs' & _)|(w2 & u' & _ & E')].
      * rewrite (walk_cons_continue _ _ _ _ _ _ E') in E.
        eapply IH; [|exact E|exact Hs]. right. eauto.
      * rewrite (walk_cons_return _ _ _ _ _ _ E') in E. discriminate.
Qed.

End WalkFacts.

(** ** The selection engine: mandatory updates *)

Section MandatoryClaims.
Import JS IO RolloutSelector Acquisition.

(** C4: when the walk of [buildUpdateCheckBody] selects a release
    (no update is selected after the releases before it, and its
    turn selects one), and a release walked before it applies to the
    request, is enabled and is mandatory, the update returned is the
    selected release with [isMandatory = true]. *)
Theorem buildUpdateCheckBody_forwards_mandatory `{Backend} `{Platform}
    (rq : Request) (response : CacheableResponse.t)
    (pre post : list (option CachedRelease.t)) (selected newer : CachedRelease.t)
    (update : UpdateCheckResponse.t) (w w1 w2 : World) (vars1 vars2 : Walk) :
  UpdateCheckCacheResponse.releases (CacheableResponse.body response)
  = Some (pre ++ Some selected :: post) ->
  walk rq pre walkStart w = (w1, Resolved (Continue vars1)) ->
  selectedUpdate vars1 = None ->
  walkRelease rq vars1 (Some selected) w1 = (w2, Resolved (Continue vars2)) ->
  selectedUpdate vars2 = Some update ->
  In (Some newer) pre ->
  releaseApplies rq newer = true ->
  truthy_bool (CachedRelease.isDisabled newer) = false ->
  truthy_bool (CachedRelease.isMandatory newer) = true ->
  exists w' body,
    buildUpdateCheckBody response rq w = (w', Resolved body)
    /\ UpdateCheckResponse.isMandatory (updateInfo body) = Some true
    /\ UpdateCheckResponse.packageHash (updateInfo body)
       = Some (CachedRelease.packageHash selected).
Proof.
  intros Hreleases Epre Hu1 Esel Hu2 Hin Ha Hd Hm.
  destruct (walk_unselected_prefix rq pre walkStart vars1 w w1 eq_refl Epre Hu1)
    as (-> & _ & Hlatch).
  pose proof (Hlatch newer Hin Ha Hd Hm) as Hpending.
  destruct (walkRelease_unselected rq vars1 (Some selected) w Hu1)
    as [(v' & E' & Hu' & _)|[E'|(r & w' & u & [= <-] & Ec & E' & _)]].
  { rewrite E' in Esel. injection Esel as _ <-. congruence. }
  { rewrite E' in Esel. discriminate. }
  rewrite E' in Esel. injection Esel as <- <-.
  cbn [selectedUpdate] in Hu2. injection Hu2 as <-.
  destruct (hydrateDiffPayloadForRelease_keeps u (Some selected)
              (requestPackageHash rq) (diffMapFetcher rq) w') as (w3 & u' & Eh & Hhash & _).
  match type of E' with _ = (_, Resolved (Continue ?v)) =>
    destruct (walk_selected_finish rq post v u u' selected w' w3 eq_refl eq_refl Eh)
      as (force & Hforce & E)
  end.
  cbn [forceMandatory] in Hforce. rewrite Hpending in Hforce.
  rewrite (Hforce eq_refl) in E.
  exists w3. eexists. split; [|split].
  - unfold buildUpdateCheckBody. rewrite Hreleases.
    unfold bind in *. rewrite (walk_app_continue rq _ _ _ _ _ _ Epre).
    rewrite (walk_cons_continue rq _ _ _ _ _ _ E'). exact E.
  - reflexivity.
  - unfold finalizeUpdateCheckResponse. cbn. rewrite Hhash.
    destruct (createUpdateInfoFromRelease_spec selected w) as (w'' & url & _ & Ec').
    rewrite Ec' in Ec. injection Ec as _ <-. reflexivity.
Qed.

(** The newest release is mandatory and is rolled out to half of the
    clients, a client without identifier is not in its cohort: the
    next release is returned, as mandatory. *)
Lemma buildUpdateCheckBody_forwards_mandatory_witness :
  exists w' body,
    @buildUpdateCheckBody Fixtures.backend Fixtures.platform
      (Fixtures.response [Fixtures.release "v3" "H3" true (Some 50%Q);
                          Fixtures.release "v2" "H2" false None;
                          Fixtures.release "v1" "H1" false None])
      (Fixtures.request "" "H1" (fun _ => ret None)) Fixtures.world
    = (w', Resolved body)
    /\ UpdateCheckResponse.isMandatory (updateInfo body) = Some true
    /\ UpdateCheckResponse.packageHash (updateInfo body) = Some "H2"%string.
Proof.
  eapply (@buildUpdateCheckBody_forwards_mandatory Fixtures.backend Fixtures.platform
            (Fixtures.request "" "H1" (fun _ => ret None)) _
            [Some (Fixtures.release "v3" "H3" true (Some 50%Q))]
            [Some (Fixtures.release "v1" "H1" false None)]
            (Fixtures.release "v2" "H2" false None)
            (Fixtures.release "v3" "H3" true (Some 50%Q))).
  - reflexivity.
  - vm_compute. reflexivity.
  - reflexivity.
  - vm_compute. reflexivity.
  - reflexivity.
  - left. reflexivity.
  - reflexivity.
  - reflexivity.
  - reflexivity.
Defined.

End MandatoryClaims.

(** ** The selection engine: the diff payload *)

Section DiffClaims.
Import JS IO RolloutSelector Acquisition.

(** C8: when the walk of [buildUpdateCheckBody] selects a release and
    the request carries a package hash, then (1) if the diff map of
    the selected release is fetched and has an entry for the hash of
    the request, the download URL returned is the (proxied) URL of
    that entry and the size returned is its size; and (2) if the
    fetch is rejected, the result is still resolved, with the
    (proxied) URL and the size of the full bundle, and one warning
    more on the console. *)
Theorem buildUpdateCheckBody_diff_payload `{Backend} `{Platform}
    (rq : Request) (response : CacheableResponse.t)
    (pre post : list (option CachedRelease.t)) (selected : CachedRelease.t)
    (update : UpdateCheckResponse.t) (w w1 w2 : World) (vars1 vars2 : Walk) :
  UpdateCheckCacheResponse.releases (CacheableResponse.body response)
  = Some (pre ++ Some selected :: post) ->
  walk rq pre walkStart w = (w1, Resolved (Continue vars1)) ->
  selectedUpdate vars1 = None ->
  walkRelease rq vars1 (Some selected) w1 = (w2, Resolved (Continue vars2)) ->
  selectedUpdate vars2 = Some update ->
  truthy (requestPackageHash rq) = true ->
  (forall (w3 : World) (diffMap : PackageHashToBlobInfoMap) (diff : BlobInfo.t),
      diffMapFetcher rq (CachedRelease.packageHash selected) w2
      = (w3, Resolved (Some diffMap)) ->
      diffMap !! requestPackageHash rq = Some diff ->
      exists w' body url,
        buildUpdateCheckBody response rq w = (w', Resolved body)
        /\ proxyBlobUrl (BlobInfo.url diff) w3 = (w', Resolved url)
        /\ UpdateCheckResponse.downloadURL (updateInfo body) = Some url
        /\ UpdateCheckResponse.packageSize (updateInfo body) = Some (BlobInfo.size diff))
  /\ (forall (w3 : World) (e : Error),
        diffMapFetcher rq (CachedRelease.packageHash selected) w2 = (w3, Rejected e) ->
        exists w' body url,
          buildUpdateCheckBody response rq w = (w', Resolved body)
          /\ proxyBlobUrl (CachedRelease.blobUrl selected) w1 = (w2, Resolved url)
          /\ UpdateCheckResponse.downloadURL (updateInfo body) = Some url
          /\ UpdateCheckResponse.packageSize (updateInfo body)
             = Some (CachedRelease.size selected)
          /\ console w'
             = console w3
               ++ [ {| level := WARN;
                       text := "Failed to hydrate diff package map for updateCheck";
                       detail := Some e |} ]).
Proof.
  intros Hreleases Epre Hu1 Esel Hu2 Hhash.
  destruct (walk_unselected_prefix rq pre walkStart vars1 w w1 eq_refl Epre Hu1)
    as (-> & _ & _).
  destruct (walkRelease_unselected rq vars1 (Some selected) w Hu1)
    as [(v' & E' & Hu' & _)|[E'|(r & w' & u & [= <-] & Ec & E' & _)]].
  { rewrite E' in Esel. injection Esel as _ <-. congruence. }
  { rewrite E' in Esel. discriminate. }
  rewrite E' in Esel. injection Esel as <- <-.
  cbn [selectedUpdate] in Hu2. injection Hu2 as <-.
  destruct (createUpdateInfoFromRelease_spec selected w) as (w'' & url0 & Eurl0 & Ec').
  rewrite Ec' in Ec. injection Ec as -> Eu.
  assert (Hrun : forall w3 u',
             hydrateDiffPayloadForRelease u (Some selected)
               (requestPackageHash rq) (diffMapFetcher rq) w' = (w3, Resolved u') ->
             exists force,
               buildUpdateCheckBody response rq w
               = (w3, Resolved (finalizeUpdateCheckResponse u' selected force
                                  (rawAppVersion rq) (normalizedAppVersion rq)))).
  { intros w3 u' Eh.
    match type of E' with _ = (_, Resolved (Continue ?v)) =>
      destruct (walk_selected_finish rq post v u u' selected w' w3 eq_refl eq_refl Eh)
        as (force & _ & E)
    end.
    exists force. unfold buildUpdateCheckBody. rewrite Hreleases.
    unfold bind in *. rewrite (walk_app_continue rq _ _ _ _ _ _ Epre).
    rewrite (walk_cons_continue rq _ _ _ _ _ _ E'). exact E. }
  split.
  - intros w3 diffMap diff Ef Ed.
    destruct (hydrateDiffPayloadForRelease_diff u selected _ _ w' w3 diffMap diff
                Hhash Ef Ed) as (w4 & url & Ep & Eh).
    destruct (Hrun _ _ Eh) as (force & E).
    exists w4. eexists. exists url. split; [exact E|]. split; [exact Ep|].
    unfold finalizeUpdateCheckResponse. destruct force; split; reflexivity.
  - intros w3 e Ef.
    destruct (hydrateDiffPayloadForRelease_rejected u selected _ _ w' w3 e Hhash Ef)
      as (w4 & Eh & Hconsole).
    destruct (Hrun _ _ Eh) as (force & E).
    exists w4. eexists. exists url0. split; [exact E|]. split; [exact Eurl0|].
    subst u. unfold finalizeUpdateCheckResponse. destruct force; repeat split; auto.
Qed.

(** The client runs H1 and is offered H2: with a diff from H1 in the
    diff map of H2, the diff is what is returned; with a fetch that
    fails, the full bundle of H2. *)
Lemma buildUpdateCheckBody_diff_payload_witness :
  let diff := {| BlobInfo.size := 10; BlobInfo.url := "https://blobs.example/H1-H2.diff" |} in
  let releases := [Fixtures.release "v2" "H2" false None;
                   Fixtures.release "v1" "H1" false None] in
  (exists w' body,
      @buildUpdateCheckBody Fixtures.backend Fixtures.platform
        (Fixtures.response releases)
        (Fixtures.request "c1" "H1" (fun _ => ret (Some {[ "H1"%string := diff ]})))
        Fixtures.world
      = (w', Resolved body)
      /\ UpdateCheckResponse.downloadURL (updateInfo body)
         = Some "https://blobs.example/H1-H2.diff"%string
      /\ UpdateCheckResponse.packageSize (updateInfo body) = Some 10%Q)
  /\ (exists w' body,
        @buildUpdateCheckBody Fixtures.backend Fixtures.platform
          (Fixtures.response releases)
          (Fixtures.request "c1" "H1" (fun _ => throw "ECONNRESET"%string))
          Fixtures.world
        = (w', Resolved body)
        /\ UpdateCheckResponse.downloadURL (updateInfo body)
           = Some "https://blobs.example/H2"%string
        /\ UpdateCheckResponse.packageSize (updateInfo body) = Some 1000%Q).
Proof.
  intros diff releases. split.
  - pose proof
      (fun update w1 w2 vars1 vars2 =>
         @buildUpdateCheckBody_diff_payload Fixtures.backend Fixtures.platform
           (Fixtures.request "c1" "H1" (fun _ => ret (Some {[ "H1"%string := diff ]})))
           (Fixtures.response releases) []
           [Some (Fixtures.release "v1" "H1" false None)]
           (Fixtures.release "v2" "H2" false None)
           update Fixtures.world w1 w2 vars1 vars2 eq_refl) as Hthm.
    edestruct Hthm as [Hdiff _];
      [reflexivity|reflexivity|vm_compute; reflexivity|reflexivity|reflexivity|].
    edestruct Hdiff as (w' & body & url & E & Ep & Hurl & Hsize);
      [reflexivity|vm_compute; reflexivity|].
    vm_compute in Ep. injection Ep as _ <-. eauto.
  - pose proof
      (fun update w1 w2 vars1 vars2 =>
         @buildUpdateCheckBody_diff_payload Fixtures.backend Fixtures.platform
           (Fixtures.request "c1" "H1" (fun _ => throw "ECONNRESET"%string))
           (Fixtures.response releases) []
           [Some (Fixtures.release "v1" "H1" false None)]
           (Fixtures.release "v2" "H2" false None)
           update Fixtures.world w1 w2 vars1 vars2 eq_refl) as Hthm.
    edestruct Hthm as [_ Hfail];
      [reflexivity|reflexivity|vm_compute; reflexivity|reflexivity|reflexivity|].
    edestruct Hfail as (w' & body & url & E & Ep & Hurl & Hsize & _); [reflexivity|].
    vm_compute in Ep. injection Ep as <-. eauto.
Defined.

End DiffClaims.

(** ** The selection engine: clients without identifier *)

Section AnonymousClaims.
Import JS IO RolloutSelector Acquisition.

(** C10: [isClientSelectedForRollout] returns false for the empty
    client identifier; for a request with an empty client identifier
    and without beta, the walk of [buildUpdateCheckBody] never holds
    in [selectedRelease] a release whose rollout is unfinished
    (present and not 100), and [buildUpdateCheckBody] resolves either
    with the no-update body or with the update of a release of the
    list whose rollout is finished. *)
Theorem buildUpdateCheckBody_anonymous_client `{Backend} `{Platform}
    (rq : Request) (response : CacheableResponse.t) (w : World) :
  clientUniqueId rq = ""%string -> betaRequested rq = false ->
  (forall release releaseKey w0,
      isClientSelectedForRollout release ""%string releaseKey w0 = (w0, Resolved false))
  /\ (forall releases w1 vars selected,
        walk rq releases walkStart w = (w1, Resolved (Continue vars)) ->
        selectedRelease vars = Some selected ->
        isUnfinishedRollout (CachedRelease.rollout selected) = false)
  /\ exists w' body,
       buildUpdateCheckBody response rq w = (w', Resolved body)
       /\ (body = noUpdateBody rq
           \/ exists release releases,
                UpdateCheckCacheResponse.releases (CacheableResponse.body response)
                = Some releases
                /\ In (Some release) releases
                /\ isUnfinishedRollout (CachedRelease.rollout release) = false
                /\ UpdateCheckResponse.packageHash (updateInfo body)
                   = Some (CachedRelease.packageHash release)
                /\ UpdateCheckResponse.label (updateInfo body)
                   = CachedRelease.label release).
Proof.
  intros Hclient Hbeta. split; [|split].
  { intros release releaseKey w0.
    destruct (isClientSelectedForRollout_spec release ""%string releaseKey w0)
      as (b & E & Hb).
    rewrite E, (Hb eq_refl). reflexivity. }
  { intros releases w1 vars selected E Hs.
    apply (walk_anonymous_selection rq releases walkStart vars w w1); auto.
    now rewrite Hclient. }
  unfold buildUpdateCheckBody.
  destruct (UpdateCheckCacheResponse.releases (CacheableResponse.body response))
    as [releases|] eqn:Hreleases.
  2:{ exists w, (noUpdateBody rq). split; [reflexivity|now left]. }
  destruct (walk_unselected_outcome rq releases walkStart w eq_refl)
    as [E|(r & w1 & u & w2 & u' & force & Hin & Ec & Hroll & Eh & E)].
  { exists w, (noUpdateBody rq). split; [exact E|now left]. }
  exists w2. eexists. split; [exact E|]. right.
  exists r, releases. split; [reflexivity|]. split; [exact Hin|].
  destruct (hydrateDiffPayloadForRelease_keeps u (Some r)
              (requestPackageHash rq) (diffMapFetcher rq) w1)
    as (w2' & u'' & Eh' & Hhash & Hlabel & _).
  rewrite Eh in Eh'. injection Eh' as _ <-.
  destruct (createUpdateInfoFromRelease_spec r w) as (w1' & url & _ & Ec').
  rewrite Ec' in Ec. injection Ec as _ <-.
  split; [|split].
  - destruct (isUnfinishedRollout (CachedRelease.rollout r)); [|reflexivity].
    destruct (Hroll eq_refl) as [Hb|Hc]; [congruence|].
    rewrite Hclient in Hc. discriminate.
  - unfold finalizeUpdateCheckResponse. destruct force; cbn; rewrite Hhash; reflexivity.
  - unfold finalizeUpdateCheckResponse. destruct force; cbn; rewrite Hlabel; reflexivity.
Qed.

(** The newest release is rolled out to half of the clients: the
    client without identifier gets the release before it. *)
Lemma buildUpdateCheckBody_anonymous_client_witness :
  exists w' body,
    @buildUpdateCheckBody Fixtures.backend Fixtures.platform
      (Fixtures.response [Fixtures.release "v3" "H3" false (Some 50%Q);
                          Fixtures.release "v2" "H2" false (Some 100%Q);
                          Fixtures.release "v1" "H1" false None])
      (Fixtures.request "" "H1" (fun _ => ret None)) Fixtures.world
    = (w', Resolved body)
    /\ UpdateCheckResponse.label (updateInfo body) = Some "v2"%string.
Proof.
  destruct (@buildUpdateCheckBody_anonymous_client Fixtures.backend Fixtures.platform
              (Fixtures.request "" "H1" (fun _ => ret None))
              (Fixtures.response [Fixtures.release "v3" "H3" false (Some 50%Q);
                                  Fixtures.release "v2" "H2" false (Some 100%Q);
                                  Fixtures.release "v1" "H1" false None])
              Fixtures.world eq_refl eq_refl)
    as (_ & _ & w' & body & E & _).
  exists w', body. split; [exact E|].
  vm_compute in E. injection E as _ <-. reflexivity.
Defined.

End AnonymousClaims.

(** ** The order of the releases *)

Section OrderFacts.
Import JS IO RolloutSelector Acquisition.
Context `{Backend} `{Platform}.

Lemma StronglySorted_rev {A : Type} (R : A -> A -> Prop) (l : list A) :
  StronglySorted R l -> StronglySorted (fun x y => R y x) (rev l).
Proof.
  induction 1 as [|a l _ IH Ha]; simpl; [constructor|].
  apply StronglySorted_app_2; [|exact IH|repeat constructor].
  intros x1 x2 Hx1 Hx2. apply list_elem_of_singleton in Hx2 as ->.
  rewrite Forall_forall in Ha. apply Ha.
  apply list_elem_of_In, in_rev, list_elem_of_In. exact Hx1.
Qed.

Lemma StronglySorted_filter {A : Type} (R : A -> A -> Prop) (f : A -> bool) (l : list A) :
  StronglySorted R l -> StronglySorted R (List.filter f l).
Proof.
  induction 1 as [|a l _ IH Ha]; simpl; [constructor|].
  destruct (f a); [|exact IH].
  constructor; [exact IH|].
  rewrite Forall_forall in *. intros x Hx%list_elem_of_In%filter_In.
  apply Ha, list_elem_of_In, Hx.
Qed.

(** The loop that pushes the packages that apply. *)
Lemma push_loop {A B : Type} (f : A -> bool) (g : A -> B) (l : list A) (acc : list B) :
  fold_left (fun releases pkg => if f pkg then releases ++ [g pkg] else releases) l acc
  = acc ++ map g (List.filter f l).
Proof.
  revert acc. induction l as [|a l IH]; intros acc; simpl.
  - now rewrite app_nil_r.
  - rewrite IH. destruct (f a); [|reflexivity].
    simpl. now rewrite <- app_assoc.
Qed.

(** The first release of the list is selected when it is not the
    package of the client, is enabled, applies and is fully rolled
    out. *)
Lemma walkRelease_selects (rq : Request) (vars : Walk) (release : CachedRelease.t)
    (w : World) :
  selectedUpdate vars = None ->
  isClientPackage release (requestLabel rq) (requestPackageHash rq) = false ->
  truthy_bool (CachedRelease.isDisabled release) = false ->
  releaseApplies rq release = true ->
  isUnfinishedRollout (CachedRelease.rollout release) = false ->
  exists w' update,
    createUpdateInfoFromRelease release w = (w', Resolved update)
    /\ walkRelease rq vars (Some release) w
       = (w', Resolved
                (Continue
                   {| selectedUpdate := Some update;
                      selectedRelease := Some release;
                      forceMandatory :=
                        pendingMandatory vars
                        || truthy_bool (CachedRelease.isMandatory release);
                      pendingMandatory := pendingMandatory vars |})).
Proof.
  intros Hu Hcur Hd Ha Hr.
  destruct (createUpdateInfoFromRelease_spec release w) as (w' & url & _ & Ec).
  eexists w', _. split; [exact Ec|].
  unfold walkRelease. rewrite Hcur, Hd, Ha, Hu, Hr. simpl.
  unfold bind. rewrite Ec, ?Hd. reflexivity.
Qed.

End OrderFacts.

Section OrderClaims.
Import JS IO RolloutSelector RequestUtils Acquisition.

(** C2, as stated, fails: from a history of two packages uploaded at
    times 1 and 2, oldest first, [getUpdatePackageInfo] makes the list
    whose first release is the one uploaded at time 2 and whose last
    is the one uploaded at time 1, and [buildUpdateCheckBody] offers
    the first of the list, which is the newest. *)
Lemma getUpdatePackageInfo_reverses_history :
  let history := [Fixtures.package "v1" "H1" 1; Fixtures.package "v2" "H2" 2] in
  let cached := @getUpdatePackageInfo Fixtures.platform (Some history) Fixtures.updateRequest in
  StronglySorted (fun p q => (Package.uploadTime p < Package.uploadTime q)%Q) history
  /\ (exists first last,
         UpdateCheckCacheResponse.releases cached = Some [Some first; Some last]
         /\ CachedRelease.rolloutUploadTime first = Some 2%Q
         /\ CachedRelease.rolloutUploadTime last = Some 1%Q
         /\ ~ (2 < 1)%Q
         /\ CachedRelease.label first = Some "v2"%string)
  /\ exists w' body,
       @buildUpdateCheckBody Fixtures.backend Fixtures.platform
         {| CacheableResponse.statusCode := 200; CacheableResponse.body := cached |}
         (Fixtures.request "c1" "" (fun _ => ret None)) Fixtures.world
       = (w', Resolved body)
       /\ UpdateCheckResponse.label (updateInfo body) = Some "v2"%string.
Proof.
  cbv zeta. split; [|split].
  - repeat constructor.
  - eexists _, _. split; [vm_compute; reflexivity|].
    split; [reflexivity|]. split; [reflexivity|]. split; [|reflexivity].
    intros Hlt. discriminate Hlt.
  - eexists _, _. split; [vm_compute; reflexivity|reflexivity].
Qed.

(** C2, amended: the releases made by [getUpdatePackageInfo] are the
    packages of the history that apply to the request, in the reverse
    of the order of the history, so that for a history ordered
    oldest first they are strictly decreasing by upload time (newest
    release first); and [buildUpdateCheckBody] walks the list from its
    first release: a first release that is not the package of the
    client, is enabled, applies and is fully rolled out is the one
    returned, whatever follows it. *)
Theorem getUpdatePackageInfo_newest_first `{Backend} `{Platform}
    (history : list Package.t) (request : UpdateCheckRequest.t) :
  StronglySorted (fun p q => (Package.uploadTime p < Package.uploadTime q)%Q) history ->
  let applies := fun pkg =>
    truthy_bool (UpdateCheckRequest.isCompanion request)
    || semver_satisfies (normalizeAppVersion (UpdateCheckRequest.appVersion request))
         (Package.appVersion pkg) in
  UpdateCheckCacheResponse.releases (getUpdatePackageInfo (Some history) request)
  = Some (map (fun pkg => Some (convertToCachedRelease pkg))
            (List.filter applies (rev history)))
  /\ StronglySorted (fun p q => (Package.uploadTime q < Package.uploadTime p)%Q)
       (List.filter applies (rev history))
  /\ forall (rq : Request) (release : CachedRelease.t)
            (rest : list (option CachedRelease.t)) (statusCode : Z) (w : World),
       isClientPackage release (requestLabel rq) (requestPackageHash rq) = false ->
       truthy_bool (CachedRelease.isDisabled release) = false ->
       releaseApplies rq release = true ->
       isUnfinishedRollout (CachedRelease.rollout release) = false ->
       exists w' body,
         buildUpdateCheckBody
           {| CacheableResponse.statusCode := statusCode;
              CacheableResponse.body :=
                {| UpdateCheckCacheResponse.releases := Some (Some release :: rest) |} |}
           rq w
         = (w', Resolved body)
         /\ UpdateCheckResponse.packageHash (updateInfo body)
            = Some (CachedRelease.packageHash release)
         /\ UpdateCheckResponse.label (updateInfo body) = CachedRelease.label release.
Proof.
  intros Hsorted applies. split; [|split].
  - unfold getUpdatePackageInfo. cbn [UpdateCheckCacheResponse.releases].
    destruct history as [|p history]; [reflexivity|].
    f_equal.
    exact (push_loop applies (fun pkg => Some (convertToCachedRelease pkg))
             (rev (p :: history)) []).
  - apply StronglySorted_filter, StronglySorted_rev, Hsorted.
  - intros rq release rest statusCode w Hcur Hd Ha Hr.
    destruct (walkRelease_selects rq walkStart release w eq_refl Hcur Hd Ha Hr)
      as (w1 & u & Ec & E').
    destruct (hydrateDiffPayloadForRelease_keeps u (Some release)
                (requestPackageHash rq) (diffMapFetcher rq) w1)
      as (w2 & u' & Eh & Hhash & Hlabel & _).
    match type of E' with _ = (_, Resolved (Continue ?v)) =>
      destruct (walk_selected_finish rq rest v u u' release w1 w2 eq_refl eq_refl Eh)
        as (force & _ & E)
    end.
    destruct (createUpdateInfoFromRelease_spec release w) as (w1' & url & _ & Ec').
    rewrite Ec' in Ec. injection Ec as _ <-.
    exists w2. eexists. split; [|split].
    + unfold buildUpdateCheckBody. cbn [CacheableResponse.body UpdateCheckCacheResponse.releases].
      unfold bind in *. rewrite (walk_cons_continue rq _ _ _ _ _ _ E'). exact E.
    + unfold finalizeUpdateCheckResponse. destruct force; cbn; rewrite Hhash; reflexivity.
    + unfold finalizeUpdateCheckResponse. destruct force; cbn; rewrite Hlabel; reflexivity.
Qed.

Lemma getUpdatePackageInfo_newest_first_witness :
  let history := [Fixtures.package "v1" "H1" 1; Fixtures.package "v2" "H2" 2;
                  Fixtures.package "v3" "H3" 5] in
  UpdateCheckCacheResponse.releases
    (@getUpdatePackageInfo Fixtures.platform (Some history) Fixtures.updateRequest)
  = Some (map (fun pkg => Some (@convertToCachedRelease pkg)) (rev history))
  /\ StronglySorted (fun p q => (Package.uploadTime q < Package.uploadTime p)%Q) (rev history)
  /\ exists w' body,
       @buildUpdateCheckBody Fixtures.backend Fixtures.platform
         {| CacheableResponse.statusCode := 200;
            CacheableResponse.body :=
              {| UpdateCheckCacheResponse.releases :=
                   Some (map (fun pkg => Some (@convertToCachedRelease pkg)) (rev history)) |} |}
         (Fixtures.request "c1" "H1" (fun _ => ret None)) Fixtures.world
       = (w', Resolved body)
       /\ UpdateCheckResponse.packageHash (updateInfo body) = Some "H3"%string
       /\ UpdateCheckResponse.label (updateInfo body) = Some "v3"%string.
Proof.
  intros history.
  destruct (@getUpdatePackageInfo_newest_first Fixtures.backend Fixtures.platform
              history Fixtures.updateRequest) as (Hreleases & Hsorted & Hfirst).
  - repeat constructor.
  - split; [exact Hreleases|split; [exact Hsorted|]].
    apply (Hfirst (Fixtures.request "c1" "H1" (fun _ => ret None))
             (@convertToCachedRelease (Fixtures.package "v3" "H3" 5))); reflexivity.
Defined.

End OrderClaims.

(** ** The response cache under errors of the store *)

Section CacheErrorClaims.
Import JS IO RedisManager.
Local Open Scope string_scope.





End CacheErrorClaims.

(** ** The deploy reports *)

Section DeployReportClaims.
Import JS IO Routes.
Local Open Scope string_scope.

(** C5, as stated, fails: a report for a label with the status
    ["Downloaded"] is not rejected; the reply is 200 and the report
    is counted by [recordUpdate]. *)
Lemma reportStatusDeploy_accepts_Downloaded :
  exists w',
    @reportStatusDeploy Fixtures.journalBackend Fixtures.recentSdk Fixtures.journalManager
      (Fixtures.deployReport (Some "Downloaded")) Fixtures.journalWorld
    = (w', Resolved (SendStatus 200))
    /\ store w' = ["recordUpdate key v1"].
Proof.
  eexists. split; vm_compute; reflexivity.
Qed.

Lemma isValidDeploymentStatus_false (s : string) :
  s <> "DeploymentSucceeded" -> s <> "DeploymentFailed" -> s <> "Downloaded" ->
  RedisManager.Utilities.isValidDeploymentStatus s = false.
Proof.
  intros H1 H2 H3. unfold RedisManager.Utilities.isValidDeploymentStatus.
  apply String.eqb_neq in H1, H2, H3.
  unfold RedisManager.DEPLOYMENT_SUCCEEDED, RedisManager.DEPLOYMENT_FAILED,
    RedisManager.DOWNLOADED.
  now rewrite H1, H2, H3.
Qed.

(** C5, amended: a deploy report whose body has a label is answered
    400 MalformedRequest, before any metrics call (whatever the
    manager, the world is left as it was), unless its status is
    ["DeploymentSucceeded"], ["DeploymentFailed"] or ["Downloaded"]. *)
Theorem reportStatusDeploy_rejects_invalid_status `{Backend} `{SemverOrder}
    (redisManager : MetricsManager) (req : Request) (w : World) :
  truthy_opt (label (body req)) = true ->
  status (body req) <> Some "DeploymentSucceeded" ->
  status (body req) <> Some "DeploymentFailed" ->
  status (body req) <> Some "Downloaded" ->
  exists message,
    reportStatusDeploy redisManager req w = (w, Resolved (MalformedRequestError message))
    /\ replyStatus (MalformedRequestError message) = 400%Z.
Proof.
  intros Hlabel H1 H2 H3. unfold reportStatusDeploy. rewrite Hlabel. cbn [andb].
  destruct (negb (truthy_opt (or_opt (deploymentKey (body req)) (deployment_key (body req))))
            || negb (truthy_opt (or_opt (appVersion (body req)) (app_version (body req)))));
    [eexists; split; reflexivity|].
  destruct (truthy_opt (status (body req))) eqn:Es; cbn [negb];
    [|eexists; split; reflexivity].
  destruct (status (body req)) as [s|]; [|discriminate].
  cbn [str]. rewrite isValidDeploymentStatus_false by (intros ->; congruence).
  eexists; split; reflexivity.
Qed.

Lemma reportStatusDeploy_rejects_invalid_status_witness :
  exists message,
    @reportStatusDeploy Fixtures.journalBackend Fixtures.recentSdk Fixtures.journalManager
      (Fixtures.deployReport (Some "Installed")) Fixtures.journalWorld
    = (Fixtures.journalWorld, Resolved (MalformedRequestError message))
    /\ replyStatus (MalformedRequestError message) = 400%Z.
Proof.
  apply (@reportStatusDeploy_rejects_invalid_status Fixtures.journalBackend Fixtures.recentSdk
           Fixtures.journalManager (Fixtures.deployReport (Some "Installed"))
           Fixtures.journalWorld); [reflexivity|discriminate|discriminate|discriminate].
Defined.

End DeployReportClaims.

(** ** The cache key *)

Section CacheKeyFacts.
Import JS RequestUtils.
Local Open Scope string_scope.
Context `{UrlModule}.

Lemma filter_filter_andb {A : Type} (f g : A -> bool) (l : list A) :
  List.filter f (List.filter g l) = List.filter (fun x => g x && f x) l.
Proof.
  induction l as [|a l IH]; simpl; [reflexivity|].
  destruct (g a); simpl; [destruct (f a)|]; now rewrite IH.
Qed.

(** The six deletions of the code, after the fields of the claim
    are dropped. *)
Lemma six_deletions (q : Query) :
  qdelete "label"
    (qdelete "package_hash"
       (qdelete "packageHash"
          (qdelete "beta" (qdelete "client_unique_id" (qdelete "clientUniqueId" q)))))
  = qdelete "package_hash" (qdelete "client_unique_id" (List.filter otherField q)).
Proof.
  unfold qdelete. rewrite !filter_filter_andb. apply List.filter_ext.
  intros [k v]. unfold otherField, clientFields. simpl.
  destruct (String.eqb k "clientUniqueId"), (String.eqb k "client_unique_id"),
    (String.eqb k "beta"), (String.eqb k "packageHash"),
    (String.eqb k "package_hash"), (String.eqb k "label"); reflexivity.
Qed.

Lemma qdelete_app (k : string) (q1 q2 : Query) :
  qdelete k (q1 ++ q2)%list = (qdelete k q1 ++ qdelete k q2)%list.
Proof. unfold qdelete. apply List.filter_app. Qed.

Lemma qdelete_keys (k k' : string) (q : Query) :
  In k' (map fst (qdelete k q)) -> In k' (map fst q).
Proof.
  unfold qdelete. rewrite !in_map_iff. intros (kv & E & Hin%List.filter_In). exists kv. tauto.
Qed.

Lemma qget_middle (k : string) (v : QueryValue) (q1 q2 : Query) :
  ~ In k (map fst q1) -> qget k (q1 ++ (k, v) :: q2)%list = Some v.
Proof.
  induction q1 as [|[k' v'] q1 IH]; simpl; intros Hk.
  - now rewrite String.eqb_refl.
  - destruct (String.eqb k' k) eqn:E; [apply String.eqb_eq in E; tauto|].
    apply IH. tauto.
Qed.

Lemma qset_middle (k : string) (v v' : QueryValue) (q1 q2 : Query) :
  ~ In k (map fst q1) ->
  qset k v' (q1 ++ (k, v) :: q2)%list = (q1 ++ (k, v') :: q2)%list.
Proof.
  induction q1 as [|[k1 v1] q1 IH]; simpl; intros Hk.
  - now rewrite String.eqb_refl.
  - destruct (String.eqb k1 k) eqn:E; [apply String.eqb_eq in E; tauto|].
    rewrite IH by tauto. reflexivity.
Qed.

(** The key is made from the path and from the query without the
    six fields. *)
Lemma buildUpdateCheckCacheKey_stripped (url1 url2 : string) (cacheSchema : option string) :
  pathname (URL_parse url1) = pathname (URL_parse url2) ->
  List.filter otherField (query (URL_parse url1))
  = List.filter otherField (query (URL_parse url2)) ->
  buildUpdateCheckCacheKey url1 cacheSchema = buildUpdateCheckCacheKey url2 cacheSchema.
Proof.
  intros Hpath Hquery. unfold buildUpdateCheckCacheKey. cbv zeta.
  rewrite !six_deletions, Hpath, Hquery. reflexivity.
Qed.

(** The six deletions keep the field [appVersion] where it is. *)
Lemma six_deletions_keep_appVersion (v : QueryValue) (q1 q2 : Query) :
  qdelete "label"
    (qdelete "package_hash"
       (qdelete "packageHash"
          (qdelete "beta"
             (qdelete "client_unique_id"
                (qdelete "clientUniqueId" (q1 ++ ("appVersion", v) :: q2)%list)))))
  = (qdelete "label"
       (qdelete "package_hash"
          (qdelete "packageHash"
             (qdelete "beta" (qdelete "client_unique_id" (qdelete "clientUniqueId" q1)))))
     ++ ("appVersion", v)
        :: qdelete "label"
             (qdelete "package_hash"
                (qdelete "packageHash"
                   (qdelete "beta"
                      (qdelete "client_unique_id" (qdelete "clientUniqueId" q2))))))%list.
Proof.
  unfold qdelete. rewrite !List.filter_app. reflexivity.
Qed.

(** Two versions with the same normal form, under [appVersion]. *)
Lemma buildUpdateCheckCacheKey_appVersion (url1 url2 : string) (cacheSchema : option string)
    (q1 q2 : Query) (v1 v2 : string) :
  pathname (URL_parse url1) = pathname (URL_parse url2) ->
  query (URL_parse url1) = (q1 ++ ("appVersion", QString v1) :: q2)%list ->
  query (URL_parse url2) = (q1 ++ ("appVersion", QString v2) :: q2)%list ->
  ~ In "appVersion" (map fst q1) ->
  truthy v1 = true -> truthy v2 = true ->
  normalizeAppVersion v1 = normalizeAppVersion v2 ->
  buildUpdateCheckCacheKey url1 cacheSchema = buildUpdateCheckCacheKey url2 cacheSchema.
Proof.
  intros Hpath Hq1 Hq2 Hfresh Ht1 Ht2 Hnorm.
  unfold buildUpdateCheckCacheKey. cbv zeta.
  rewrite Hpath, Hq1, Hq2, !six_deletions_keep_appVersion.
  set (d := fun q => qdelete "label" (qdelete "package_hash" (qdelete "packageHash"
                       (qdelete "beta" (qdelete "client_unique_id"
                          (qdelete "clientUniqueId" q)))))).
  fold (d q1) (d q2).
  assert (Hd : ~ In "appVersion" (map fst (d q1))).
  { intros Hin. apply Hfresh. unfold d in Hin.
    repeat apply qdelete_keys in Hin. exact Hin. }
  rewrite !qget_middle by exact Hd.
  change (qtruthy (Some (QString v1))) with (truthy v1).
  change (qtruthy (Some (QString v2))) with (truthy v2).
  rewrite Ht1, Ht2. cbv beta iota.
  change (qtruthy (Some (QString v1))) with (truthy v1).
  change (qtruthy (Some (QString v2))) with (truthy v2).
  rewrite Ht1, Ht2. cbv beta iota.
  change (String_of (QString v1)) with v1.
  change (String_of (QString v2)) with v2.
  rewrite !qset_middle by exact Hd.
  rewrite Hnorm. reflexivity.
Qed.

End CacheKeyFacts.

Section CacheKeyClaims.
Import JS RequestUtils.
Local Open Scope string_scope.

(** C6: two URLs with the same path whose queries, read as objects,
    are the same once the fields [clientUniqueId], [beta],
    [packageHash] and [label] are left out (so that they differ only
    in the values or the presence of these fields) have the same
    key; and so have two URLs that are the same except that the
    field [appVersion] is ["2"] in one and ["2.0.0"] in the other. *)
Theorem buildUpdateCheckCacheKey_ignores_client_fields `{UrlModule} :
  (forall (url1 url2 : string) (cacheSchema : option string),
      pathname (URL_parse url1) = pathname (URL_parse url2) ->
      List.filter otherField (query (URL_parse url1))
      = List.filter otherField (query (URL_parse url2)) ->
      buildUpdateCheckCacheKey url1 cacheSchema = buildUpdateCheckCacheKey url2 cacheSchema)
  /\ (forall (url1 url2 : string) (cacheSchema : option string) (before after : Query),
        pathname (URL_parse url1) = pathname (URL_parse url2) ->
        query (URL_parse url1) = (before ++ ("appVersion", QString "2") :: after)%list ->
        query (URL_parse url2) = (before ++ ("appVersion", QString "2.0.0") :: after)%list ->
        NoDup (map fst (query (URL_parse url1))) ->
        buildUpdateCheckCacheKey url1 cacheSchema = buildUpdateCheckCacheKey url2 cacheSchema).
Proof.
  split.
  - intros url1 url2 cacheSchema. apply buildUpdateCheckCacheKey_stripped.
  - intros url1 url2 cacheSchema before after Hpath Hq1 Hq2 Hnodup.
    apply (buildUpdateCheckCacheKey_appVersion url1 url2 cacheSchema before after
             "2" "2.0.0" Hpath Hq1 Hq2); try reflexivity.
    rewrite Hq1, map_app in Hnodup. cbn [map fst] in Hnodup.
    apply NoDup_ListNoDup, List.NoDup_remove_2 in Hnodup.
    intros Hin. apply Hnodup, in_or_app. now left.
Qed.

Lemma buildUpdateCheckCacheKey_ignores_client_fields_witness :
  @buildUpdateCheckCacheKey Fixtures.urlModule
    "/updateCheck?deploymentKey=k&appVersion=1.2.0&clientUniqueId=a&label=v3" (Some "v2")
  = @buildUpdateCheckCacheKey Fixtures.urlModule
      "/updateCheck?deploymentKey=k&beta=true&appVersion=1.2.0&packageHash=H1" (Some "v2")
  /\ @buildUpdateCheckCacheKey Fixtures.urlModule
       "/updateCheck?deploymentKey=k&appVersion=2&isCompanion=false" (Some "v2")
     = @buildUpdateCheckCacheKey Fixtures.urlModule
         "/updateCheck?deploymentKey=k&appVersion=2.0.0&isCompanion=false" (Some "v2").
Proof.
  split.
  - apply (proj1 (@buildUpdateCheckCacheKey_ignores_client_fields Fixtures.urlModule));
      reflexivity.
  - apply (proj2 (@buildUpdateCheckCacheKey_ignores_client_fields Fixtures.urlModule)
             _ _ _ [("deploymentKey", QString "k")] [("isCompanion", QString "false")]);
      try reflexivity.
    vm_compute. apply NoDup_ListNoDup. repeat constructor; simpl; intuition discriminate.
Defined.

End CacheKeyClaims.

(** ** The rollout selector: cohorts *)

Section CohortFacts.
Import JS RolloutSelector.
Local Open Scope Q_scope.

(** The bucket of a client for a release lies in [0, 100). *)
Lemma bucket_range (h : Z) : 0 <= inject_Z (Z.rem (Z.abs h) 100) < 100.
Proof.
  pose proof (Z.rem_bound_pos (Z.abs h) 100 ltac:(lia) ltac:(lia)) as [Hlo Hhi].
  split.
  - change 0 with (inject_Z 0). now rewrite <- Zle_Qle.
  - change 100 with (inject_Z 100). now rewrite <- Zlt_Qlt.
Qed.

End CohortFacts.

Section RolloutSeam.
Import PrimFloat SpecFloat FloatOps Rounding Double RolloutSelector.
Local Open Scope Q_scope.

Lemma to_Q_finite (x : number) : finite x = true -> to_Q x = value x.
Proof.
  unfold finite, to_Q, value. destruct (Prim2SF x); try discriminate; reflexivity.
Qed.

Lemma of_Q_small (q : Q) :
  small 1000 q -> within 1000 (of_Q q) /\ value (of_Q q) == RN q.
Proof.
  intros Hq. destruct (of_Q_value q 1000 ltac:(lia) Hq) as [F V].
  split; [|exact V]. split; [exact F|]. rewrite V. apply RN_between; [lia|exact Hq].
Qed.

Lemma of_Q_small_opt (o : option Q) :
  small_opt 1000 o -> within_opt 1000 (option_map of_Q o).
Proof.
  destruct o as [q|]; [|trivial]. intros Hq. now apply of_Q_small.
Qed.

(** The effective rollouts of a release at two times, as the engine
    computes them from its rationals. *)
Lemma getEffectiveRollout_of_release (rollout : Q) (hold ramp upload : option Q) (now1 now2 : Q) :
  small 1000 rollout -> small_opt 1000 hold -> small_opt 1000 ramp -> small_opt 1000 upload ->
  small 1000 now1 -> small 1000 now2 -> now1 <= now2 ->
  let input := {| RolloutSelector.rollout := Some (of_Q rollout);
                  holdDurationMinutes := option_map of_Q hold;
                  rampDurationMinutes := option_map of_Q ramp;
                  uploadTime := option_map of_Q upload |} in
  exists q1 q2,
    getEffectiveRollout (Some input) (of_Q now1) = Some q1
    /\ getEffectiveRollout (Some input) (of_Q now2) = Some q2
    /\ (to_Q q1 <= to_Q q2 \/ 100 <= to_Q q2).
Proof.
  intros Br Bh Bp Bu B1 B2 Hnow input.
  destruct (of_Q_small _ Br) as [Wr Vr].
  destruct (of_Q_small _ B1) as [W1 V1]. destruct (of_Q_small _ B2) as [W2 V2].
  destruct (getEffectiveRollout_order input (of_Q rollout) (of_Q now1) (of_Q now2))
    as (q1 & q2 & E1 & E2 & F1 & F2 & Hle & Hge);
    try reflexivity; try assumption; try (now apply of_Q_small_opt).
  { rewrite V1, V2. now apply RN_le. }
  exists q1, q2. split; [exact E1|]. split; [exact E2|].
  rewrite (to_Q_finite q1 F1), (to_Q_finite q2 F2).
  destruct (Qlt_le_dec 100 (value (of_Q rollout))) as [Hbig|Hsmall].
  - right. apply Hge. lra.
  - left. now apply Hle.
Qed.

End RolloutSeam.

Section CohortProperties.
Import JS IO RolloutSelector Acquisition.
Local Open Scope Q_scope.

(** X1: the cohorts of a release are nested: a client selected at
    some rollout percentage is selected at every larger one. *)
Theorem isSelectedForRollout_monotone (clientId releaseTag : string) (rollout1 rollout2 : Q) :
  rollout1 <= rollout2 ->
  isSelectedForRollout clientId rollout1 releaseTag = true ->
  isSelectedForRollout clientId rollout2 releaseTag = true.
Proof.
  unfold isSelectedForRollout. intros Hle H1%Qltb_true_iff.
  apply Qltb_true_iff. lra.
Qed.

Lemma isSelectedForRollout_monotone_witness :
  isSelectedForRollout "device" 90 "v7" = true.
Proof.
  apply (isSelectedForRollout_monotone "device" "v7" 70 90).
  - vm_compute. discriminate.
  - vm_compute. reflexivity.
Defined.

(** X2: a rollout of 100 or more selects every client for every
    release, and a rollout of 0 or less selects none. *)
Theorem isSelectedForRollout_extremes (clientId releaseTag : string) (rollout : Q) :
  (100 <= rollout -> isSelectedForRollout clientId rollout releaseTag = true)
  /\ (rollout <= 0 -> isSelectedForRollout clientId rollout releaseTag = false).
Proof.
  unfold isSelectedForRollout.
  pose proof (bucket_range (getHashCode (clientId ++ DELIMITER ++ releaseTag))) as [Hlo Hhi].
  split; intros Hr.
  - apply Qltb_true_iff. lra.
  - apply Qltb_false_iff. lra.
Qed.

Lemma isSelectedForRollout_extremes_witness :
  isSelectedForRollout "device" 100 "v7" = true
  /\ isSelectedForRollout "device" 0 "v7" = false.
Proof.
  split.
  - apply (proj1 (isSelectedForRollout_extremes "device" "v7" 100)). vm_compute. discriminate.
  - apply (proj2 (isSelectedForRollout_extremes "device" "v7" 0)). vm_compute. discriminate.
Defined.

(** X4: a client selected for the rollout of a release at some time
    is selected for it at every later time: the ramp only ever adds
    clients to the cohort.  The fields of the release and the two
    times are of magnitude at most 2^1000, so that no double of
    [getEffectiveRollout] is out of range. *)
Theorem isClientSelectedForRollout_sticky `{Backend} (release : CachedRelease.t)
    (clientUniqueId releaseKey : string) (w1 w2 : World) :
  Double.small_opt 1000 (CachedRelease.rollout release) ->
  Double.small_opt 1000 (CachedRelease.rolloutHoldDurationMinutes release) ->
  Double.small_opt 1000 (CachedRelease.rolloutRampDurationMinutes release) ->
  Double.small_opt 1000 (CachedRelease.rolloutUploadTime release) ->
  Double.small 1000 (clock w1) -> Double.small 1000 (clock w2) ->
  clock w1 <= clock w2 ->
  isClientSelectedForRollout release clientUniqueId releaseKey w1 = (w1, Resolved true) ->
  isClientSelectedForRollout release clientUniqueId releaseKey w2 = (w2, Resolved true).
Proof.
  unfold isClientSelectedForRollout. intros Br Bh Bp Bu B1 B2 Hclock.
  destruct (CachedRelease.rollout release) as [r|] eqn:Hrollout; [|discriminate].
  destruct (truthy clientUniqueId); cbn [negb]; [|discriminate].
  unfold bind, Date_now, ret. cbn [option_map].
  destruct (getEffectiveRollout_of_release r
              (CachedRelease.rolloutHoldDurationMinutes release)
              (CachedRelease.rolloutRampDurationMinutes release)
              (CachedRelease.rolloutUploadTime release)
              (clock w1) (clock w2) Br Bh Bp Bu B1 B2 Hclock)
    as (q1 & q2 & E1 & E2 & Hq).
  cbv zeta in E1, E2. rewrite E1, E2.
  intros E. assert (E' : isSelectedForRollout clientUniqueId (Double.to_Q q1) releaseKey = true)
    by congruence.
  clear E. f_equal. f_equal.
  unfold isSelectedForRollout in *. apply Qltb_true_iff in E'. apply Qltb_true_iff.
  pose proof (bucket_range (getHashCode (clientUniqueId ++ DELIMITER ++ releaseKey)))
    as [_ Hhi].
  destruct Hq; lra.
Qed.

Lemma isClientSelectedForRollout_sticky_witness :
  @isClientSelectedForRollout Fixtures.backend
    (Fixtures.rampedRelease "v7" "H7") "device" "v7"
    (@Build_World Fixtures.backend [] 901000 tt)
  = (@Build_World Fixtures.backend [] 901000 tt, Resolved true).
Proof.
  apply (@isClientSelectedForRollout_sticky Fixtures.backend
           (Fixtures.rampedRelease "v7" "H7") "device" "v7"
           (@Build_World Fixtures.backend [] 781000 tt)).
  - split; vm_compute; discriminate.
  - split; vm_compute; discriminate.
  - split; vm_compute; discriminate.
  - split; vm_compute; discriminate.
  - split; vm_compute; discriminate.
  - split; vm_compute; discriminate.
  - vm_compute. discriminate.
  - vm_compute. reflexivity.
Defined.

End CohortProperties.

(** ** The version normaliser: what it rewrites *)

Section NormalizerShapes.
Import JS Regex RequestUtils.
Local Open Scope string_scope.

Lemma string_eq_by_list (s1 s2 : string) :
  list_ascii_of_string s1 = list_ascii_of_string s2 -> s1 = s2.
Proof.
  intros E. rewrite <- (string_of_list_ascii_of_string s1), E.
  apply string_of_list_ascii_of_string.
Qed.

Lemma digits_Matches (s : string) :
  s <> "" -> forallb isDigit (list_ascii_of_string s) = true ->
  Matches (Plus digit) (list_ascii_of_string s).
Proof.
  intros Hne Hd. apply Matches_plus_class. split; [|exact Hd].
  destruct s; [congruence|discriminate].
Qed.

Lemma truthy_app_l (s t : string) : s <> "" -> truthy (s ++ t) = true.
Proof. destruct s; [congruence|reflexivity]. Qed.

(** A string with a character that is not a digit is not a run of
    digits. *)
Lemma reMajorOnly_outsider (a : list ascii) (c : ascii) (x : list ascii) :
  isDigit c = false -> matches reMajorOnly (a ++ c :: x)%list = false.
Proof.
  intros Hc. apply not_true_is_false. intros Hm%matches_Matches.
  apply Matches_plus_class in Hm as [_ Hm].
  rewrite forallb_with_outsider in Hm by exact Hc. discriminate.
Qed.

(** X5: a version [major.minor], with or without a tag that starts
    with [+] or [-] and holds no line terminator, gets the patch
    number 0 between the minor number and the tag: ["2.1"] becomes
    ["2.1.0"] and ["2.1-rc"] becomes ["2.1.0-rc"]. *)
Theorem normalizeAppVersion_inserts_patch (major minor tag : string) :
  major <> "" -> forallb isDigit (list_ascii_of_string major) = true ->
  minor <> "" -> forallb isDigit (list_ascii_of_string minor) = true ->
  tag = ""
  \/ (exists c rest, tag = String c rest /\ isPlusMinus c = true
                     /\ forallb isDot (list_ascii_of_string rest) = true) ->
  normalizeAppVersion (major ++ "." ++ minor ++ tag) = major ++ "." ++ minor ++ ".0" ++ tag.
Proof.
  intros Hmaj Dmaj Hmin Dmin Htag.
  pose proof (digits_Matches major Hmaj Dmaj) as Ma.
  pose proof (digits_Matches minor Hmin Dmin) as Mb.
  set (a := list_ascii_of_string major) in *. set (b := list_ascii_of_string minor) in *.
  assert (Ev : list_ascii_of_string (major ++ "." ++ minor ++ tag)
               = ((a ++ "."%char :: b) ++ list_ascii_of_string tag)%list).
  { rewrite !list_ascii_of_string_app, <- app_assoc. reflexivity. }
  assert (Hpre : forallb (fun c => negb (isPlusMinus c)) (a ++ "."%char :: b)%list = true).
  { rewrite forallb_app. simpl. rewrite !digits_not_plus_minus by assumption. reflexivity. }
  unfold normalizeAppVersion. rewrite truthy_app_l by exact Hmaj. cbn [negb].
  unfold test, search, slice_to, slice_from. rewrite Ev.
  replace (matches reMajorOnly ((a ++ "."%char :: b) ++ list_ascii_of_string tag)%list)
    with false
    by (symmetry; rewrite <- app_assoc; now apply reMajorOnly_outsider).
  assert (Hm : matches reMajorMinor ((a ++ "."%char :: b) ++ list_ascii_of_string tag)%list
               = true).
  { apply matches_Matches. rewrite <- app_assoc. unfold reMajorMinor.
    apply MCat; [exact Ma|].
    apply (MCat _ _ ["."%char] (b ++ list_ascii_of_string tag)%list);
      [apply MClass; reflexivity|].
    apply MCat; [exact Mb|].
    destruct Htag as [->|(c & rest & -> & Hc & Hrest)].
    - apply MAltR. apply MEps.
    - apply MAltL. apply (MCat _ _ [c] (list_ascii_of_string rest));
        [now apply MClass|now apply Matches_star_class]. }
  rewrite Hm. unfold reTag.
  destruct Htag as [->|(c & rest & -> & Hc & Hrest)].
  - cbn [list_ascii_of_string]. rewrite app_nil_r, searchFrom_class_none by exact Hpre.
    apply string_eq_by_list. rewrite !list_ascii_of_string_app.
    cbn [list_ascii_of_string]. rewrite ?app_nil_r, <- !app_assoc. reflexivity.
  - cbn [list_ascii_of_string]. rewrite searchFrom_class_first by assumption. cbn [Nat.add].
    rewrite take_app_length, drop_app_length.
    apply string_eq_by_list.
    rewrite !list_ascii_of_string_app, !list_ascii_of_string_of_list_ascii.
    cbn [list_ascii_of_string]. rewrite <- !app_assoc. reflexivity.
Qed.

Lemma normalizeAppVersion_inserts_patch_witness :
  normalizeAppVersion ("2" ++ "." ++ "1" ++ "-rc+7") = "2" ++ "." ++ "1" ++ ".0" ++ "-rc+7".
Proof.
  apply normalizeAppVersion_inserts_patch; try discriminate; try reflexivity.
  right. exists "-"%char, "rc+7". repeat split.
Defined.

End NormalizerShapes.

(** ** The selection engine: which release is offered *)

Section SelectionFacts.
Import JS IO RolloutSelector Acquisition Selection.
Context `{Backend} `{Platform}.
Variable rq : Request.

(** A turn on an entry that cannot be offered, while no update is
    selected: the walk goes on as it was, or ends without update. *)
Lemma walkRelease_not_eligible (vars : Walk) (entry : option CachedRelease.t) (w : World) :
  selectedUpdate vars = None ->
  (forall r, entry = Some r -> eligible rq r = false) ->
  (passedOver rq entry = true
   /\ walkRelease rq vars entry w = (w, Resolved (Continue vars)))
  \/ (endsWalk rq entry = true
      /\ walkRelease rq vars entry w = (w, Resolved (Return (noUpdateBody rq)))).
Proof.
  intros Hu Hne. destruct entry as [r|]; [|left; split; reflexivity].
  specialize (Hne r eq_refl). unfold eligible, isCurrent in Hne.
  unfold walkRelease, passedOver, endsWalk, isCurrent.
  destruct (isClientPackage r (requestLabel rq) (requestPackageHash rq));
    destruct (truthy_bool (CachedRelease.isDisabled r)); cbn in *.
  - left. split; reflexivity.
  - right. rewrite Hu. split; reflexivity.
  - left. split; reflexivity.
  - rewrite andb_true_r in Hne. rewrite Hne. left. split; reflexivity.
Qed.

(** A turn that selects an update selects a release that can be
    offered. *)
Lemma walkRelease_takes_eligible (vars vars' : Walk) (r : CachedRelease.t) (w w' : World)
    (update : UpdateCheckResponse.t) :
  selectedUpdate vars = None ->
  walkRelease rq vars (Some r) w = (w', Resolved (Continue vars')) ->
  selectedUpdate vars' = Some update ->
  eligible rq r = true.
Proof.
  intros Hu E Hu'. unfold eligible, isCurrent. unfold walkRelease in E.
  destruct (isClientPackage r (requestLabel rq) (requestPackageHash rq));
    destruct (truthy_bool (CachedRelease.isDisabled r)); cbn in *;
    try (injection E as _ <-; congruence).
  - rewrite Hu in E. discriminate.
  - destruct (releaseApplies rq r); [reflexivity|].
    cbn in E. injection E as _ <-. congruence.
Qed.

(** The walk from a state without selection: no update, or the
    completed update of a release of the list that can be offered. *)
Lemma walk_offers_eligible (l : list (option CachedRelease.t)) (vars : Walk) (w : World) :
  selectedUpdate vars = None ->
  bind (walk rq l vars) (afterWalk rq) w = (w, Resolved (noUpdateBody rq))
  \/ exists r w1 update w2 update' force,
       In (Some r) l /\ eligible rq r = true
       /\ createUpdateInfoFromRelease r w = (w1, Resolved update)
       /\ hydrateDiffPayloadForRelease update (Some r)
            (requestPackageHash rq) (diffMapFetcher rq) w1 = (w2, Resolved update')
       /\ bind (walk rq l vars) (afterWalk rq) w
          = (w2, Resolved (finalizeUpdateCheckResponse update' r force
                             (rawAppVersion rq) (normalizedAppVersion rq))).
Proof.
  revert vars. induction l as [|release l IH]; intros vars Hu.
  - left. unfold bind. cbn [walk]. unfold ret at 1. cbn [afterWalk]. rewrite Hu. reflexivity.
  - destruct (walkRelease_unselected rq vars release w Hu)
      as [(v' & E' & Hu' & _)|[E'|(r & w' & u & -> & Ec & E' & _)]].
    + destruct (IH v' Hu') as [E|(r & w1 & u & w2 & u' & force & Hin & He & Ec & Eh & E)].
      * left. unfold bind in *. rewrite (walk_cons_continue _ _ _ _ _ _ _ E'). exact E.
      * right. exists r, w1, u, w2, u', force. repeat split; auto.
        -- now right.
        -- unfold bind in *. rewrite (walk_cons_continue _ _ _ _ _ _ _ E'). exact E.
    + left. unfold bind. rewrite (walk_cons_return _ _ _ _ _ _ _ E'). reflexivity.
    + destruct (hydrateDiffPayloadForRelease_keeps u (Some r)
                  (requestPackageHash rq) (diffMapFetcher rq) w') as (w2 & u' & Eh & _).
      pose proof (walkRelease_takes_eligible _ _ _ _ _ u Hu E' eq_refl) as He.
      match type of E' with _ = (_, Resolved (Continue ?v)) =>
        destruct (walk_selected_finish rq l v u u' r w' w2 eq_refl eq_refl Eh)
          as (force & _ & E)
      end.
      right. exists r, w', u, w2, u', force. repeat split; auto.
      * now left.
      * unfold bind in *. rewrite (walk_cons_continue _ _ _ _ _ _ _ E'). exact E.
Qed.

(** The fields of a completed update that come from the release. *)
Lemma completed_update_fields (r : CachedRelease.t) (w w1 w2 : World)
    (update update' : UpdateCheckResponse.t) (force : bool) :
  createUpdateInfoFromRelease r w = (w1, Resolved update) ->
  hydrateDiffPayloadForRelease update (Some r)
    (requestPackageHash rq) (diffMapFetcher rq) w1 = (w2, Resolved update') ->
  let info := updateInfo (finalizeUpdateCheckResponse update' r force
                            (rawAppVersion rq) (normalizedAppVersion rq)) in
  UpdateCheckResponse.isAvailable info = negb (truthy_bool (CachedRelease.isDisabled r))
  /\ UpdateCheckResponse.packageHash info = Some (CachedRelease.packageHash r)
  /\ UpdateCheckResponse.label info = CachedRelease.label r
  /\ UpdateCheckResponse.target_binary_range info = Some (CachedRelease.appVersion r)
  /\ UpdateCheckResponse.appVersion info
     = or_else (rawAppVersion rq) (normalizedAppVersion rq)
  /\ (force = true -> UpdateCheckResponse.isMandatory info = Some true).
Proof.
  intros Ec Eh.
  destruct (createUpdateInfoFromRelease_spec r w) as (w1' & url & _ & Ec').
  rewrite Ec' in Ec. injection Ec as _ <-.
  destruct (hydrateDiffPayloadForRelease_keeps
              {| UpdateCheckResponse.downloadURL := Some url;
                 UpdateCheckResponse.description := CachedRelease.description r;
                 UpdateCheckResponse.isAvailable :=
                   negb (truthy_bool (CachedRelease.isDisabled r));
                 UpdateCheckResponse.isMandatory :=
                   Some (truthy_bool (CachedRelease.isMandatory r));
                 UpdateCheckResponse.appVersion := CachedRelease.appVersion r;
                 UpdateCheckResponse.packageHash := Some (CachedRelease.packageHash r);
                 UpdateCheckResponse.label := CachedRelease.label r;
                 UpdateCheckResponse.packageSize := Some (CachedRelease.size r);
                 UpdateCheckResponse.updateAppVersion := false;
                 UpdateCheckResponse.target_binary_range :=
                   Some (CachedRelease.appVersion r) |}
              (Some r) (requestPackageHash rq) (diffMapFetcher rq) w1)
    as (w2' & u'' & Eh' & Hhash & Hlabel & Havail).
  rewrite Eh in Eh'. injection Eh' as _ <-.
  unfold finalizeUpdateCheckResponse.
  destruct force; cbn; rewrite Hhash, Hlabel, Havail; repeat split; auto; discriminate.
Qed.

(** The walk goes past a stretch of entries that are passed over. *)
Lemma walk_passed_over (pre rest : list (option CachedRelease.t)) (vars : Walk) (w : World) :
  Forall (fun entry => passedOver rq entry = true) pre ->
  walk rq (pre ++ rest) vars w = walk rq rest vars w.
Proof.
  induction 1 as [|entry pre Hentry _ IH]; [reflexivity|].
  cbn [app]. rewrite <- IH. apply walk_cons_continue.
  destruct entry as [r|]; [|reflexivity].
  unfold passedOver, isCurrent in Hentry. unfold walkRelease.
  destruct (isClientPackage r (requestLabel rq) (requestPackageHash rq));
    destruct (truthy_bool (CachedRelease.isDisabled r)); cbn in *;
    try reflexivity; try discriminate.
  apply negb_true_iff in Hentry as ->. reflexivity.
Qed.

(** On the enabled release that the client runs, the walk ends,
    whatever follows. *)
Lemma walk_ends_at_current (pre post : list (option CachedRelease.t))
    (entry : option CachedRelease.t) (vars : Walk) (w : World) :
  endsWalk rq entry = true ->
  walk rq (pre ++ entry :: post) vars w = walk rq (pre ++ [entry]) vars w.
Proof.
  intros Hend. revert vars w. induction pre as [|p pre IH]; intros vars w.
  - destruct entry as [r|]; [|discriminate].
    apply andb_true_iff in Hend as [Hcur Hen]. apply negb_true_iff in Hen.
    unfold isCurrent in Hcur.
    cbn [app walk]. unfold bind, walkRelease. rewrite Hcur, Hen. cbn.
    destruct (selectedUpdate vars) as [u|]; [|reflexivity].
    destruct (selectedRelease vars) as [s|]; [|reflexivity].
    unfold bind.
    destruct (hydrateDiffPayloadForRelease u (Some s) (requestPackageHash rq)
                (diffMapFetcher rq) w) as [w1 [u'|e]]; reflexivity.
  - cbn [app walk]. unfold bind.
    destruct (walkRelease rq vars p w) as [w1 [[v1|b]|e]]; auto.
Qed.

(** A release that can be offered is selected when its rollout is
    finished or the request asks for beta releases. *)
Lemma walkRelease_selects_eligible (vars : Walk) (r : CachedRelease.t) (w : World) :
  selectedUpdate vars = None ->
  eligible rq r = true ->
  isUnfinishedRollout (CachedRelease.rollout r) = false \/ betaRequested rq = true ->
  exists w' update,
    createUpdateInfoFromRelease r w = (w', Resolved update)
    /\ walkRelease rq vars (Some r) w
       = (w', Resolved
                (Continue
                   {| selectedUpdate := Some update;
                      selectedRelease := Some r;
                      forceMandatory :=
                        pendingMandatory vars
                        || truthy_bool (CachedRelease.isMandatory r);
                      pendingMandatory := pendingMandatory vars |})).
Proof.
  intros Hu He Hsel. unfold eligible, isCurrent in He.
  apply andb_true_iff in He as [[Hd Ha]%andb_true_iff Hcur].
  apply negb_true_iff in Hd, Hcur.
  destruct (createUpdateInfoFromRelease_spec r w) as (w' & url & _ & Ec).
  eexists w', _. split; [exact Ec|].
  unfold walkRelease. rewrite Hcur, Hd, Ha, Hu. cbn.
  destruct Hsel as [Hr|Hb].
  - rewrite Hr. cbn. unfold bind. rewrite Ec, ?Hd. reflexivity.
  - rewrite Hb. destruct (isUnfinishedRollout (CachedRelease.rollout r));
      cbn; unfold bind; rewrite Ec, ?Hd; reflexivity.
Qed.

(** A turn once an update is selected, on an entry where the walk
    does not end: the selection stays, [forceMandatory] can only be
    raised, and is raised by a mandatory release that can be
    offered. *)
Lemma walkRelease_selected_goes_on (vars : Walk) (update : UpdateCheckResponse.t)
    (entry : option CachedRelease.t) (w : World) :
  selectedUpdate vars = Some update ->
  endsWalk rq entry = false ->
  exists vars',
    walkRelease rq vars entry w = (w, Resolved (Continue vars'))
    /\ selectedUpdate vars' = Some update
    /\ selectedRelease vars' = selectedRelease vars
    /\ (forceMandatory vars = true -> forceMandatory vars' = true)
    /\ (forall r, entry = Some r -> eligible rq r = true ->
          truthy_bool (CachedRelease.isMandatory r) = true ->
          forceMandatory vars' = true).
Proof.
  intros Hu Hend. destruct entry as [r|].
  2:{ exists vars. repeat split; auto. discriminate. }
  unfold endsWalk, isCurrent in Hend. unfold walkRelease, eligible, isCurrent.
  destruct (isClientPackage r (requestLabel rq) (requestPackageHash rq));
    destruct (truthy_bool (CachedRelease.isDisabled r)) eqn:Hd; cbn in *; try discriminate.
  - exists vars. repeat split; auto. intros r' [= <-]. rewrite Hd. discriminate.
  - exists vars. repeat split; auto. intros r' [= <-]. rewrite Hd. discriminate.
  - destruct (releaseApplies rq r) eqn:Ha; cbn.
    2:{ exists vars. repeat split; auto. intros r' [= <-]. rewrite Hd, Ha. discriminate. }
    rewrite Hu.
    destruct (truthy_bool (CachedRelease.isMandatory r)) eqn:Hm;
      eexists; (split; [reflexivity|]); repeat split; auto.
    intros r' [= <-]. congruence.
Qed.

Lemma walk_selected_goes_on (l : list (option CachedRelease.t)) (vars : Walk)
    (update : UpdateCheckResponse.t) (w : World) :
  selectedUpdate vars = Some update ->
  Forall (fun entry => endsWalk rq entry = false) l ->
  exists vars',
    walk rq l vars w = (w, Resolved (Continue vars'))
    /\ selectedUpdate vars' = Some update
    /\ selectedRelease vars' = selectedRelease vars
    /\ (forceMandatory vars = true -> forceMandatory vars' = true)
    /\ (forall r, In (Some r) l -> eligible rq r = true ->
          truthy_bool (CachedRelease.isMandatory r) = true ->
          forceMandatory vars' = true).
Proof.
  intros Hu Hl. revert vars Hu.
  induction Hl as [|entry l Hentry _ IH]; intros vars Hu.
  - exists vars. repeat split; auto; intros r [].
  - destruct (walkRelease_selected_goes_on vars update entry w Hu Hentry)
      as (v1 & E1 & Hu1 & Hs1 & Hf1 & Hm1).
    destruct (IH v1 Hu1) as (v2 & E2 & Hu2 & Hs2 & Hf2 & Hm2).
    exists v2. rewrite (walk_cons_continue _ _ _ _ _ _ _ E1).
    repeat split; auto; [congruence|].
    intros r [->|Hin] He Hm; eauto.
Qed.

(** Without package hash in the request, the diff map is not
    fetched. *)
Lemma hydrateDiffPayloadForRelease_without_hash (updateInfo : UpdateCheckResponse.t)
    (release : option CachedRelease.t) (requestPackageHash : string)
    (diffMapFetcher : DiffMapFetcher) :
  truthy requestPackageHash = false ->
  hydrateDiffPayloadForRelease updateInfo release requestPackageHash diffMapFetcher
  = ret updateInfo.
Proof.
  intros Hh. unfold hydrateDiffPayloadForRelease. rewrite Hh.
  now destruct release.
Qed.

End SelectionFacts.

Section SelectionProperties.
Import JS IO RolloutSelector Acquisition Selection.

Lemma buildUpdateCheckBody_walk `{Backend} `{Platform}
    (response : CacheableResponse.t) (rq : Request) :
  buildUpdateCheckBody response rq
  = bind (walk rq (releasesOf response) walkStart) (afterWalk rq).
Proof. reflexivity. Qed.

(** X6: [buildUpdateCheckBody] never rejects, whatever the fetcher
    of diff maps does, and what it resolves with is the no-update
    body or the update of a release of the list that is enabled,
    applies to the request and is not the one the client runs: the
    update is available, carries the hash and the label of that
    release, its [appVersion] as [target_binary_range], and the
    version of the request as [appVersion]. *)
Theorem buildUpdateCheckBody_offers_eligible `{Backend} `{Platform}
    (response : CacheableResponse.t) (rq : Request) (w : World) :
  exists w' body,
    buildUpdateCheckBody response rq w = (w', Resolved body)
    /\ (body = noUpdateBody rq
        \/ exists r,
             In (Some r) (releasesOf response)
             /\ eligible rq r = true
             /\ UpdateCheckResponse.isAvailable (updateInfo body) = true
             /\ UpdateCheckResponse.packageHash (updateInfo body)
                = Some (CachedRelease.packageHash r)
             /\ UpdateCheckResponse.label (updateInfo body) = CachedRelease.label r
             /\ UpdateCheckResponse.target_binary_range (updateInfo body)
                = Some (CachedRelease.appVersion r)
             /\ UpdateCheckResponse.appVersion (updateInfo body)
                = or_else (rawAppVersion rq) (normalizedAppVersion rq)).
Proof.
  rewrite buildUpdateCheckBody_walk.
  destruct (walk_offers_eligible rq (releasesOf response) walkStart w eq_refl)
    as [E|(r & w1 & u & w2 & u' & force & Hin & He & Ec & Eh & E)].
  { exists w, (noUpdateBody rq). split; [exact E|now left]. }
  exists w2. eexists. split; [exact E|]. right. exists r.
  destruct (completed_update_fields rq r w w1 w2 u u' force Ec Eh)
    as (Havail & Hhash & Hlabel & Hrange & Hversion & _).
  repeat split; auto.
  rewrite Havail. unfold eligible in He.
  apply andb_true_iff in He as [[Hd _]%andb_true_iff _]. exact Hd.
Qed.

(** X7: when no release of the list is enabled, applies to the
    request and differs from the one the client runs (an empty or
    missing list, for one), the answer is the no-update body, and
    nothing is logged, fetched or changed on the way. *)
Theorem buildUpdateCheckBody_nothing_to_offer `{Backend} `{Platform}
    (response : CacheableResponse.t) (rq : Request) (w : World) :
  (forall r, In (Some r) (releasesOf response) -> eligible rq r = false) ->
  buildUpdateCheckBody response rq w = (w, Resolved (noUpdateBody rq)).
Proof.
  intros Hnone. rewrite buildUpdateCheckBody_walk.
  destruct (walk_offers_eligible rq (releasesOf response) walkStart w eq_refl)
    as [E|(r & w1 & u & w2 & u' & force & Hin & He & _)]; [exact E|].
  rewrite (Hnone r Hin) in He. discriminate.
Qed.

Lemma buildUpdateCheckBody_nothing_to_offer_witness :
  let rq := Fixtures.request "c1" "H1" (fun _ => ret None) in
  @buildUpdateCheckBody Fixtures.backend Fixtures.platform
    (Fixtures.response [Fixtures.release "v1" "H1" false None]) rq Fixtures.world
  = (Fixtures.world, Resolved (noUpdateBody rq)).
Proof.
  intros rq.
  apply (@buildUpdateCheckBody_nothing_to_offer Fixtures.backend Fixtures.platform).
  intros r [[= <-]|[]]. reflexivity.
Defined.

(** X8: a client that runs an enabled release of the list is never
    offered a release that comes after it in the list (an older
    one): the answer is the no-update body or the update of a release
    that comes before it. *)
Theorem buildUpdateCheckBody_never_downgrades `{Backend} `{Platform}
    (response : CacheableResponse.t) (rq : Request)
    (pre post : list (option CachedRelease.t)) (current : CachedRelease.t) (w : World) :
  releasesOf response = pre ++ Some current :: post ->
  isCurrent rq current = true ->
  truthy_bool (CachedRelease.isDisabled current) = false ->
  exists w' body,
    buildUpdateCheckBody response rq w = (w', Resolved body)
    /\ (body = noUpdateBody rq
        \/ exists r,
             In (Some r) pre
             /\ UpdateCheckResponse.packageHash (updateInfo body)
                = Some (CachedRelease.packageHash r)
             /\ UpdateCheckResponse.label (updateInfo body) = CachedRelease.label r).
Proof.
  intros Hreleases Hcur Hen. rewrite buildUpdateCheckBody_walk, Hreleases.
  assert (Hend : endsWalk rq (Some current) = true).
  { unfold endsWalk. now rewrite Hcur, Hen. }
  unfold bind. rewrite (walk_ends_at_current rq pre post (Some current) _ _ Hend).
  destruct (walk_offers_eligible rq (pre ++ [Some current]) walkStart w eq_refl)
    as [E|(r & w1 & u & w2 & u' & force & Hin & He & Ec & Eh & E)].
  { exists w, (noUpdateBody rq). split; [exact E|now left]. }
  exists w2. eexists. split; [exact E|]. right. exists r.
  destruct (completed_update_fields rq r w w1 w2 u u' force Ec Eh)
    as (_ & Hhash & Hlabel & _).
  repeat split; auto.
  apply in_app_or in Hin as [Hin|[[= <-]|[]]]; [exact Hin|].
  unfold eligible in He. rewrite Hcur, andb_false_r in He. discriminate.
Qed.

Lemma buildUpdateCheckBody_never_downgrades_witness :
  let rq := Fixtures.request "c1" "H2" (fun _ => ret None) in
  exists w' body,
    @buildUpdateCheckBody Fixtures.backend Fixtures.platform
      (Fixtures.response [Fixtures.release "v3" "H3" false (Some 0%Q);
                          Fixtures.release "v2" "H2" false None;
                          Fixtures.release "v1" "H1" false None]) rq Fixtures.world
    = (w', Resolved body)
    /\ (body = noUpdateBody rq
        \/ exists r,
             In (Some r) [Some (Fixtures.release "v3" "H3" false (Some 0%Q))]
             /\ UpdateCheckResponse.packageHash (updateInfo body)
                = Some (CachedRelease.packageHash r)
             /\ UpdateCheckResponse.label (updateInfo body) = CachedRelease.label r).
Proof.
  intros rq.
  apply (@buildUpdateCheckBody_never_downgrades Fixtures.backend Fixtures.platform
           _ rq [Some (Fixtures.release "v3" "H3" false (Some 0%Q))]
           [Some (Fixtures.release "v1" "H1" false None)]
           (Fixtures.release "v2" "H2" false None)); reflexivity.
Defined.

(** X9: the first release of the list that is enabled, applies and
    is not the client's own is the one offered as soon as its rollout
    is finished, and to a request for beta releases whatever its
    rollout; the entries before it that the walk passes over (nulls,
    disabled releases, the disabled release of the client among
    them, and releases for other versions) do not count. *)
Theorem buildUpdateCheckBody_offers_newest `{Backend} `{Platform}
    (response : CacheableResponse.t) (rq : Request)
    (pre post : list (option CachedRelease.t)) (release : CachedRelease.t) (w : World) :
  releasesOf response = pre ++ Some release :: post ->
  Forall (fun entry => passedOver rq entry = true) pre ->
  eligible rq release = true ->
  isUnfinishedRollout (CachedRelease.rollout release) = false \/ betaRequested rq = true ->
  exists w' body,
    buildUpdateCheckBody response rq w = (w', Resolved body)
    /\ UpdateCheckResponse.isAvailable (updateInfo body) = true
    /\ UpdateCheckResponse.packageHash (updateInfo body)
       = Some (CachedRelease.packageHash release)
    /\ UpdateCheckResponse.label (updateInfo body) = CachedRelease.label release.
Proof.
  intros Hreleases Hpre He Hsel. rewrite buildUpdateCheckBody_walk, Hreleases.
  destruct (walkRelease_selects_eligible rq walkStart release w eq_refl He Hsel)
    as (w1 & u & Ec & E').
  destruct (hydrateDiffPayloadForRelease_keeps u (Some release)
              (requestPackageHash rq) (diffMapFetcher rq) w1) as (w2 & u' & Eh & _).
  match type of E' with _ = (_, Resolved (Continue ?v)) =>
    destruct (walk_selected_finish rq post v u u' release w1 w2 eq_refl eq_refl Eh)
      as (force & _ & E)
  end.
  destruct (completed_update_fields rq release w w1 w2 u u' force Ec Eh)
    as (Havail & Hhash & Hlabel & _).
  exists w2. eexists. split; [|split; [|split]].
  - unfold bind in *. rewrite (walk_passed_over rq pre _ _ _ Hpre).
    rewrite (walk_cons_continue rq _ _ _ _ _ _ E'). exact E.
  - rewrite Havail. unfold eligible in He.
    apply andb_true_iff in He as [[Hd _]%andb_true_iff _]. exact Hd.
  - exact Hhash.
  - exact Hlabel.
Qed.

Lemma buildUpdateCheckBody_offers_newest_witness :
  exists w' body,
    @buildUpdateCheckBody Fixtures.backend Fixtures.platform
      (Fixtures.response [Fixtures.release "v3" "H3" false (Some 5%Q);
                          Fixtures.release "v2" "H2" false None])
      Scenarios.betaRequest Fixtures.world
    = (w', Resolved body)
    /\ UpdateCheckResponse.isAvailable (updateInfo body) = true
    /\ UpdateCheckResponse.packageHash (updateInfo body) = Some "H3"%string
    /\ UpdateCheckResponse.label (updateInfo body) = Some "v3"%string.
Proof.
  apply (@buildUpdateCheckBody_offers_newest Fixtures.backend Fixtures.platform
           _ Scenarios.betaRequest [] [Some (Fixtures.release "v2" "H2" false None)]
           (Fixtures.release "v3" "H3" false (Some 5%Q))).
  - reflexivity.
  - constructor.
  - reflexivity.
  - right. reflexivity.
Defined.

(** X10: when a release walked after the selected one and before
    the walk ends (a release between the one offered and the one the
    client runs) is mandatory, is enabled and applies, the update
    offered is mandatory. *)
Theorem buildUpdateCheckBody_mandatory_between `{Backend} `{Platform}
    (response : CacheableResponse.t) (rq : Request)
    (pre between post : list (option CachedRelease.t))
    (selected skipped : CachedRelease.t) (w : World) :
  releasesOf response = pre ++ Some selected :: between ++ post ->
  Forall (fun entry => passedOver rq entry = true) pre ->
  eligible rq selected = true ->
  isUnfinishedRollout (CachedRelease.rollout selected) = false \/ betaRequested rq = true ->
  Forall (fun entry => endsWalk rq entry = false) between ->
  In (Some skipped) between ->
  eligible rq skipped = true ->
  truthy_bool (CachedRelease.isMandatory skipped) = true ->
  exists w' body,
    buildUpdateCheckBody response rq w = (w', Resolved body)
    /\ UpdateCheckResponse.isMandatory (updateInfo body) = Some true
    /\ UpdateCheckResponse.packageHash (updateInfo body)
       = Some (CachedRelease.packageHash selected).
Proof.
  intros Hreleases Hpre He Hsel Hbetween Hin Hes Hm.
  rewrite buildUpdateCheckBody_walk, Hreleases.
  destruct (walkRelease_selects_eligible rq walkStart selected w eq_refl He Hsel)
    as (w1 & u & Ec & E').
  match type of E' with _ = (_, Resolved (Continue ?v)) =>
    destruct (walk_selected_goes_on rq between v u w1 eq_refl Hbetween)
      as (v2 & E2 & Hu2 & Hs2 & _ & Hforce)
  end.
  cbn [selectedRelease] in Hs2.
  destruct (hydrateDiffPayloadForRelease_keeps u (Some selected)
              (requestPackageHash rq) (diffMapFetcher rq) w1) as (w2 & u' & Eh & _).
  destruct (walk_selected_finish rq post v2 u u' selected w1 w2 Hu2 Hs2 Eh)
    as (force & Hf & E).
  rewrite (Hf (Hforce skipped Hin Hes Hm)) in E.
  destruct (completed_update_fields rq selected w w1 w2 u u' true Ec Eh)
    as (_ & Hhash & _ & _ & _ & Hmandatory).
  exists w2. eexists. split; [|split].
  - unfold bind in *. rewrite (walk_passed_over rq pre _ _ _ Hpre).
    rewrite (walk_cons_continue rq _ _ _ _ _ _ E').
    rewrite (walk_app_continue rq _ _ _ _ _ _ E2). exact E.
  - auto.
  - exact Hhash.
Qed.

Lemma buildUpdateCheckBody_mandatory_between_witness :
  exists w' body,
    @buildUpdateCheckBody Fixtures.backend Fixtures.platform
      (Fixtures.response [Fixtures.release "v3" "H3" false None;
                          Fixtures.release "v2" "H2" true None;
                          Fixtures.release "v1" "H1" false None])
      (Fixtures.request "c1" "H1" (fun _ => ret None)) Fixtures.world
    = (w', Resolved body)
    /\ UpdateCheckResponse.isMandatory (updateInfo body) = Some true
    /\ UpdateCheckResponse.packageHash (updateInfo body) = Some "H3"%string.
Proof.
  apply (@buildUpdateCheckBody_mandatory_between Fixtures.backend Fixtures.platform
           _ (Fixtures.request "c1" "H1" (fun _ => ret None))
           [] [Some (Fixtures.release "v2" "H2" true None)]
           [Some (Fixtures.release "v1" "H1" false None)]
           (Fixtures.release "v3" "H3" false None)
           (Fixtures.release "v2" "H2" true None)).
  - reflexivity.
  - constructor.
  - reflexivity.
  - left. reflexivity.
  - repeat constructor.
  - left. reflexivity.
  - reflexivity.
  - reflexivity.
Defined.

End SelectionProperties.

Section FetcherProperties.
Import JS IO RolloutSelector Acquisition Selection.

Lemma walkRelease_withFetcher `{Backend} `{Platform} (rq : Request)
    (fetcher : DiffMapFetcher) (vars : Walk) (entry : option CachedRelease.t) :
  truthy (requestPackageHash rq) = false ->
  walkRelease (withFetcher rq fetcher) vars entry = walkRelease rq vars entry.
Proof.
  intros Hh. destruct entry as [r|]; [|reflexivity].
  unfold walkRelease, releaseApplies.
  cbn [withFetcher clientUniqueId betaRequested requestLabel requestPackageHash
       rawAppVersion normalizedAppVersion requestIsCompanion diffMapFetcher].
  destruct (selectedUpdate vars) as [u|]; [|reflexivity].
  destruct (selectedRelease vars) as [s|]; [|reflexivity].
  now rewrite !hydrateDiffPayloadForRelease_without_hash by exact Hh.
Qed.

Lemma walk_withFetcher `{Backend} `{Platform} (rq : Request) (fetcher : DiffMapFetcher)
    (l : list (option CachedRelease.t)) (vars : Walk) (w : World) :
  truthy (requestPackageHash rq) = false ->
  walk (withFetcher rq fetcher) l vars w = walk rq l vars w.
Proof.
  intros Hh. revert vars w. induction l as [|entry l IH]; intros vars w; [reflexivity|].
  cbn [walk]. unfold bind. rewrite walkRelease_withFetcher by exact Hh.
  destruct (walkRelease rq vars entry w) as [w1 [[v1|b]|e]]; auto.
Qed.

(** X11: for a request without package hash, the fetcher of diff
    maps is never called: with any other fetcher the engine does the
    same and answers the same. *)
Theorem buildUpdateCheckBody_without_hash_ignores_fetcher `{Backend} `{Platform}
    (response : CacheableResponse.t) (rq : Request) (fetcher : DiffMapFetcher) (w : World) :
  truthy (requestPackageHash rq) = false ->
  buildUpdateCheckBody response (withFetcher rq fetcher) w
  = buildUpdateCheckBody response rq w.
Proof.
  intros Hh. rewrite !buildUpdateCheckBody_walk. unfold bind.
  rewrite walk_withFetcher by exact Hh.
  destruct (walk rq (releasesOf response) walkStart w) as [w1 [[v1|b]|e]]; try reflexivity.
  unfold afterWalk.
  cbn [withFetcher requestPackageHash rawAppVersion normalizedAppVersion diffMapFetcher].
  destruct (selectedUpdate v1) as [u|]; [|reflexivity].
  destruct (selectedRelease v1) as [s|]; [|reflexivity].
  now rewrite !hydrateDiffPayloadForRelease_without_hash by exact Hh.
Qed.

Lemma buildUpdateCheckBody_without_hash_ignores_fetcher_witness :
  let response := Fixtures.response [Fixtures.release "v2" "H2" false None] in
  @buildUpdateCheckBody Fixtures.backend Fixtures.platform response
    (withFetcher (Fixtures.request "c1" "" (fun _ => ret None)) (fun _ => throw "ECONNRESET"))
    Fixtures.world
  = @buildUpdateCheckBody Fixtures.backend Fixtures.platform response
      (Fixtures.request "c1" "" (fun _ => ret None)) Fixtures.world.
Proof.
  intros response.
  apply (@buildUpdateCheckBody_without_hash_ignores_fetcher Fixtures.backend Fixtures.platform).
  reflexivity.
Defined.

(** X12: [proxyBlobUrl] never rejects.  Without a proxy URL in the
    environment it resolves with the blob URL and does nothing else;
    when the URL class throws on the way, it resolves with the blob
    URL after one warning that carries the error; otherwise with
    what the URL class made of the proxy URL and the blob URL. *)
Theorem proxyBlobUrl_falls_back `{Backend} `{Platform} (azureUrl : string) (w : World) :
  exists w' url,
    proxyBlobUrl azureUrl w = (w', Resolved url)
    /\ (truthy_opt process_env_UPDATE_CHECK_PROXY_URL = false -> w' = w /\ url = azureUrl)
    /\ (forall p e, process_env_UPDATE_CHECK_PROXY_URL = Some p -> truthy p = true ->
          URL_rebase p azureUrl = Rejected e ->
          url = azureUrl
          /\ console w' = console w ++ [ {| level := WARN; text := "Failed to proxy blob URL:";
                                            detail := Some e |} ])
    /\ (forall p url', process_env_UPDATE_CHECK_PROXY_URL = Some p -> truthy p = true ->
          URL_rebase p azureUrl = Resolved url' -> w' = w /\ url = url').
Proof.
  unfold proxyBlobUrl, try_catch, getUpdateCheckProxyUrl, ret.
  destruct process_env_UPDATE_CHECK_PROXY_URL as [p|]; cbn [truthy_opt].
  2:{ exists w, azureUrl. repeat split; auto; discriminate. }
  destruct (truthy p) eqn:Hp; cbn [negb].
  2:{ exists w, azureUrl. repeat split; auto; intros; congruence. }
  destruct (URL_rebase p azureUrl) as [url'|e] eqn:Er.
  - exists w, url'. repeat split; try discriminate; intros; congruence.
  - eexists _, azureUrl. split; [reflexivity|].
    repeat split; try discriminate; intros; try congruence.
    match goal with E : Some _ = Some _ |- _ => injection E as <- end.
    match goal with E : URL_rebase _ _ = Rejected _ |- _ =>
      rewrite Er in E; injection E as <- end.
    reflexivity.
Qed.

Lemma proxyBlobUrl_falls_back_witness :
  exists w' url,
    @proxyBlobUrl Fixtures.backend Fixtures.platform "https://blobs.example/H1" Fixtures.world
    = (w', Resolved url)
    /\ w' = Fixtures.world /\ url = "https://blobs.example/H1"%string.
Proof.
  destruct (@proxyBlobUrl_falls_back Fixtures.backend Fixtures.platform
              "https://blobs.example/H1" Fixtures.world) as (w' & url & E & Hnone & _).
  exists w', url. split; [exact E|]. apply Hnone. reflexivity.
Defined.

End FetcherProperties.

(** ** The in-process cache *)

Section MicrocacheProperties.
Import JS.
Local Open Scope Q_scope.

Lemma Qle_bool_false (x y : Q) : y < x -> Qle_bool x y = false.
Proof. intros Hlt. now apply Qle_bool_false_iff. Qed.

Lemma Qle_bool_true (x y : Q) : x <= y -> Qle_bool x y = true.
Proof. intros Hle. now apply Qle_bool_iff. Qed.

Lemma Microcache_get_set_eq {T : Type} (this : Microcache.t T) (key : string)
    (value : T) (now now' : Q) :
  0 < Microcache.ttlMs this -> now' < now + Microcache.ttlMs this ->
  Microcache.get (Microcache.set this key value now) key now'
  = (Some value, Microcache.set this key value now).
Proof.
  intros Httl Hnow. unfold Microcache.set.
  rewrite (Qle_bool_false _ _ Httl). unfold Microcache.get. cbn.
  rewrite (Qle_bool_false _ _ Httl), lookup_insert_eq. cbn.
  now rewrite (Qle_bool_false _ _ Hnow).
Qed.

(** A read leaves the TTL as it is, and after a read that found
    nothing in a cache that is enabled, nothing is kept under the
    key. *)
Lemma Microcache_get_miss {T : Type} (this this' : Microcache.t T) (key : string) (now : Q) :
  Microcache.get this key now = (None, this') ->
  Microcache.ttlMs this' = Microcache.ttlMs this
  /\ (0 < Microcache.ttlMs this -> Microcache.store this' !! key = None).
Proof.
  unfold Microcache.get.
  destruct (Qle_bool (Microcache.ttlMs this) 0) eqn:Ettl.
  { intros [= <-]. split; [reflexivity|].
    intros Hpos. apply Qle_bool_iff in Ettl. lra. }
  destruct (Microcache.store this !! key) as [entry|] eqn:Ek.
  2:{ intros [= <-]. auto. }
  destruct (Qle_bool (Microcache.expiresAt entry) now); [|discriminate].
  intros [= <-]. cbn. split; [reflexivity|]. intros _. apply lookup_delete_eq.
Qed.

(** X13: an entry written at time [now] by a cache whose TTL is
    positive is read back, and the cache left as it is, at every
    time before [now + ttlMs]. *)
Theorem Microcache_get_after_set {T : Type} (this : Microcache.t T) (key : string)
    (value : T) (now now' : Q) :
  0 < Microcache.ttlMs this -> now' < now + Microcache.ttlMs this ->
  Microcache.get (Microcache.set this key value now) key now'
  = (Some value, Microcache.set this key value now).
Proof.
  intros Httl Hnow. unfold Microcache.set.
  rewrite (Qle_bool_false _ _ Httl). unfold Microcache.get. cbn.
  rewrite (Qle_bool_false _ _ Httl), lookup_insert_eq. cbn.
  now rewrite (Qle_bool_false _ _ Hnow).
Qed.

Lemma Microcache_get_after_set_witness :
  Microcache.get (Microcache.set (Microcache.new 30000) "k" 7%Z 1000) "k" 30999
  = (Some 7%Z, Microcache.set (Microcache.new 30000) "k" 7%Z 1000).
Proof.
  apply (@Microcache_get_after_set Z (Microcache.new 30000) "k" 7%Z 1000 30999);
    vm_compute; reflexivity.
Defined.

(** X14: at [now + ttlMs] and at every later time the entry is
    expired: the read returns null and removes it, so that it is
    read at no time afterwards, even an earlier one; the other
    entries stay. *)
Theorem Microcache_get_expired {T : Type} (this : Microcache.t T) (key : string)
    (value : T) (now now' : Q) :
  0 < Microcache.ttlMs this -> now + Microcache.ttlMs this <= now' ->
  exists this',
    Microcache.get (Microcache.set this key value now) key now' = (None, this')
    /\ Microcache.store this' !! key = None
    /\ (forall now'', Microcache.get this' key now'' = (None, this'))
    /\ (forall key', key' <> key ->
          Microcache.store this' !! key' = Microcache.store this !! key').
Proof.
  intros Httl Hnow. unfold Microcache.set.
  rewrite (Qle_bool_false _ _ Httl). unfold Microcache.get. cbn.
  rewrite (Qle_bool_false _ _ Httl), lookup_insert_eq. cbn.
  rewrite (Qle_bool_true _ _ Hnow).
  eexists. split; [reflexivity|]. cbn. rewrite lookup_delete_eq.
  split; [reflexivity|]. split.
  - intros now''. now destruct (Qle_bool (Microcache.ttlMs this) 0).
  - intros key' Hne. now rewrite lookup_delete_ne, lookup_insert_ne by congruence.
Qed.

Lemma Microcache_get_expired_witness :
  exists this',
    Microcache.get (Microcache.set (Microcache.new 30000) "k" 7%Z 1000) "k" 31000
    = (None, this')
    /\ Microcache.store this' !! "k" = None
    /\ (forall now'', Microcache.get this' "k" now'' = (None, this'))
    /\ (forall key', key' <> "k" ->
          Microcache.store this' !! key' = Microcache.store (Microcache.new (T:=Z) 30000) !! key').
Proof.
  apply (@Microcache_get_expired Z (Microcache.new 30000) "k" 7%Z 1000 31000);
    vm_compute; [reflexivity|discriminate].
Defined.

(** X15: a cache made with a TTL that is zero or negative is
    disabled: [set] leaves it as it is, and [get] returns null. *)
Theorem Microcache_disabled {T : Type} (ttlMs : Q) (key key' : string) (value : T)
    (now now' : Q) :
  ttlMs <= 0 ->
  Microcache.set (Microcache.new ttlMs) key value now = Microcache.new ttlMs
  /\ Microcache.get (Microcache.new (T:=T) ttlMs) key' now' = (None, Microcache.new ttlMs).
Proof.
  intros Httl.
  assert (Hoff : Qle_bool (Microcache.ttlMs (Microcache.new (T:=T) ttlMs)) 0 = true).
  { apply Qle_bool_iff. cbn. destruct (Qeq_bool ttlMs 0).
    - apply Q.max_lub; lra.
    - apply Q.max_lub; lra. }
  unfold Microcache.set, Microcache.get. rewrite Hoff. split; reflexivity.
Qed.

Lemma Microcache_disabled_witness :
  Microcache.set (Microcache.new (-5)) "k" 7%Z 1000 = Microcache.new (-5)
  /\ Microcache.get (Microcache.new (T:=Z) (-5)) "k" 1000 = (None, Microcache.new (-5)).
Proof.
  apply (@Microcache_disabled Z (-5) "k" "k" 7%Z 1000 1000). vm_compute. discriminate.
Defined.

End MicrocacheProperties.

(** ** The cache of diff maps *)

Section DiffCacheProperties.
Import JS IO Acquisition DiffCache.
Local Open Scope string_scope.

(** X16: a lookup answered by the distributed cache, be it with a
    diff map or with null, is kept in the cache of the process: for
    the time of the TTL the same lookup is answered from memory, with
    the same result and without a call to the distributed cache,
    whatever its state. *)
Theorem createDiffMapFetcher_memoizes `{base : Backend} (deploymentKey packageHash : string)
    (redisManager other : DiffMapStore) (w w1 w2 : @World process)
    (diffMap : option PackageHashToBlobInfoMap) :
  truthy deploymentKey = true -> truthy packageHash = true ->
  (0 < Microcache.ttlMs (fst (store w)))%Q ->
  fst (Microcache.get (fst (store w)) (deploymentKey ++ ":" ++ packageHash) (clock w)) = None ->
  createDiffMapFetcher deploymentKey (Some redisManager) packageHash w
  = (w1, Resolved diffMap) ->
  fst (store w2) = fst (store w1) ->
  (clock w2 < clock w1 + Microcache.ttlMs (fst (store w)))%Q ->
  createDiffMapFetcher deploymentKey (Some other) packageHash w2 = (w2, Resolved diffMap).
Proof.
  intros Hkey Hhash Httl Hmiss E Hstore Hclock.
  unfold createDiffMapFetcher in *.
  rewrite Hkey in E |- *. cbn [negb] in E |- *. rewrite Hhash in E |- *. cbn [negb] in E |- *.
  unfold bind, diffMapCache_get, diffMapCache_set, lift, ret in *.
  destruct (Microcache.get (fst (store w)) (deploymentKey ++ ":" ++ packageHash) (clock w))
    as [found cache] eqn:Eget.
  cbn [fst] in Hmiss. subst found.
  destruct (Microcache_get_miss _ _ _ _ Eget) as [Ettl _].
  cbn [console clock store fst snd] in E.
  destruct (getPackageDiffMap redisManager deploymentKey packageHash _)
    as [wA [d|e]]; [|discriminate].
  cbn [console clock store fst snd] in E. injection E as <- <-.
  cbn [console clock store fst snd] in *.
  destruct w2 as [c2 k2 [cache2 s2]]. cbn [console clock store fst snd] in *. subst cache2.
  rewrite Microcache_get_set_eq by (rewrite Ettl; assumption).
  reflexivity.
Qed.

Lemma createDiffMapFetcher_memoizes_witness :
  let cache :=
    Microcache.set (Microcache.new 300000) "key:H2" (Some CacheScenarios.diffMap) 1000 in
  createDiffMapFetcher "key" (Some CacheScenarios.brokenDiffStore) "H2"
    (CacheScenarios.processWorld 300999 cache)
  = (CacheScenarios.processWorld 300999 cache, Resolved (Some CacheScenarios.diffMap)).
Proof.
  intros cache.
  apply (@createDiffMapFetcher_memoizes Fixtures.backend "key" "H2"
           CacheScenarios.diffStore CacheScenarios.brokenDiffStore
           (CacheScenarios.processWorld 1000 (Microcache.new 300000))
           (CacheScenarios.processWorld 1000 cache)).
  - reflexivity.
  - reflexivity.
  - vm_compute. reflexivity.
  - reflexivity.
  - reflexivity.
  - reflexivity.
  - vm_compute. reflexivity.
Defined.

(** X17: a lookup that misses the cache of the process and that the
    distributed cache rejects is rejected by the fetcher with the
    same error, and nothing is kept for it: the cache of the process
    is as the lookup left it, without an entry under the key when
    its TTL is positive. *)
Theorem createDiffMapFetcher_failure_not_cached `{base : Backend}
    (deploymentKey packageHash : string) (redisManager : DiffMapStore)
    (w : @World process) (wb : @World base) (error : Error) :
  truthy deploymentKey = true -> truthy packageHash = true ->
  fst (Microcache.get (fst (store w)) (deploymentKey ++ ":" ++ packageHash) (clock w)) = None ->
  getPackageDiffMap redisManager deploymentKey packageHash
    (@Build_World base (console w) (clock w) (snd (store w))) = (wb, Rejected error) ->
  exists w1,
    createDiffMapFetcher deploymentKey (Some redisManager) packageHash w = (w1, Rejected error)
    /\ fst (store w1)
       = snd (Microcache.get (fst (store w)) (deploymentKey ++ ":" ++ packageHash) (clock w))
    /\ ((0 < Microcache.ttlMs (fst (store w)))%Q ->
        Microcache.store (fst (store w1)) !! (deploymentKey ++ ":" ++ packageHash) = None).
Proof.
  intros Hkey Hhash Hmiss Eg.
  unfold createDiffMapFetcher.
  rewrite Hkey. cbn [negb]. rewrite Hhash. cbn [negb].
  unfold bind, diffMapCache_get, diffMapCache_set, lift, ret.
  destruct (Microcache.get (fst (store w)) (deploymentKey ++ ":" ++ packageHash) (clock w))
    as [found cache] eqn:Eget.
  cbn [fst snd] in Hmiss |- *. subst found.
  destruct (Microcache_get_miss _ _ _ _ Eget) as [_ Hnone].
  cbn [console clock store fst snd]. rewrite Eg.
  eexists. split; [reflexivity|]. cbn [store fst]. split; [reflexivity|exact Hnone].
Qed.

Lemma createDiffMapFetcher_failure_not_cached_witness :
  exists w1,
    createDiffMapFetcher "key" (Some CacheScenarios.brokenDiffStore) "H2"
      (CacheScenarios.processWorld 1000 (Microcache.new 300000))
    = (w1, Rejected "ECONNRESET")
    /\ fst (store w1)
       = snd (Microcache.get (Microcache.new 300000) ("key" ++ ":" ++ "H2") 1000)
    /\ ((0 < 300000)%Q ->
        Microcache.store (fst (store w1)) !! ("key" ++ ":" ++ "H2") = None).
Proof.
  apply (@createDiffMapFetcher_failure_not_cached Fixtures.backend "key" "H2"
           CacheScenarios.brokenDiffStore
           (CacheScenarios.processWorld 1000 (Microcache.new 300000))
           (@Build_World Fixtures.backend [] 1000 tt)).
  - reflexivity.
  - reflexivity.
  - reflexivity.
  - reflexivity.
Defined.

(** The writes queued so far always resolve. *)
Lemma prime_writes_resolve `{base : Backend} (deploymentKey : string)
    (packageLookup : gmap string StoredPackage) (redisManager : DiffMapStore)
    (releases : list (option CachedRelease.t)) (writes : IO unit) :
  (forall w, exists w', writes w = (w', Resolved tt)) ->
  forall w, exists w',
    fold_left
      (fun diffCacheWrites release =>
         match release with
         | None => diffCacheWrites
         | Some release =>
             match packageLookup !! CachedRelease.packageHash release ≫= diffPackageMap with
             | Some diffMap =>
                 if bool_decide (diffMap = ∅) then diffCacheWrites
                 else
                   bind diffCacheWrites
                     (fun _ =>
                        try_catch
                          (setPackageDiffMap redisManager deploymentKey
                             (CachedRelease.packageHash release) diffMap)
                          (fun error =>
                             console_warn "Failed to cache diff package map for updateCheck"
                               error))
             | None => diffCacheWrites
             end
         end)
      releases writes w
    = (w', Resolved tt).
Proof.
  revert writes. induction releases as [|release releases IH]; intros writes Hw; [exact Hw|].
  cbn [fold_left]. apply IH.
  destruct release as [release|]; [|exact Hw].
  destruct (packageLookup !! CachedRelease.packageHash release ≫= diffPackageMap)
    as [diffMap|]; [|exact Hw].
  destruct (bool_decide (diffMap = ∅)); [exact Hw|].
  intros w. destruct (Hw w) as (w1 & E1). unfold bind, try_catch. rewrite E1.
  destruct (setPackageDiffMap redisManager deploymentKey
              (CachedRelease.packageHash release) diffMap w1) as [w2 [[]|e]]; eauto.
Qed.

(** X18: priming the distributed cache of diff maps never rejects,
    whatever its writes do; without deployment key or without
    releases it does nothing. *)
Theorem primeDiffCacheForReleases_never_rejects `{base : Backend} (deploymentKey : string)
    (releases : option (list (option CachedRelease.t)))
    (packageLookup : gmap string StoredPackage) (redisManager : option DiffMapStore)
    (w : World) :
  (exists w',
      primeDiffCacheForReleases deploymentKey releases packageLookup redisManager w
      = (w', Resolved tt))
  /\ (truthy deploymentKey = false \/ releases = None \/ releases = Some [] ->
      primeDiffCacheForReleases deploymentKey releases packageLookup redisManager w
      = (w, Resolved tt)).
Proof.
  unfold primeDiffCacheForReleases. split.
  - destruct redisManager as [redisManager|]; [|now exists w].
    destruct releases as [[|release releases]|]; try (now exists w).
    destruct (truthy deploymentKey); cbn [negb]; [|now exists w].
    apply prime_writes_resolve. intros w0. now exists w0.
  - intros Hcase. destruct redisManager as [redisManager|]; [|reflexivity].
    destruct releases as [[|release releases]|]; try reflexivity.
    destruct Hcase as [->|[|]]; [reflexivity|discriminate|discriminate].
Qed.

Lemma primeDiffCacheForReleases_never_rejects_witness :
  let releases := Some [Some (Fixtures.release "v2" "H2" false None)] in
  (exists w',
      primeDiffCacheForReleases "key" releases CacheScenarios.packageLookup
        (Some CacheScenarios.brokenDiffStore) Fixtures.world
      = (w', Resolved tt))
  /\ primeDiffCacheForReleases "" releases CacheScenarios.packageLookup
       (Some CacheScenarios.brokenDiffStore) Fixtures.world
     = (Fixtures.world, Resolved tt).
Proof.
  intros releases. split.
  - apply (@primeDiffCacheForReleases_never_rejects Fixtures.backend).
  - apply (@primeDiffCacheForReleases_never_rejects Fixtures.backend). left. reflexivity.
Defined.

End DiffCacheProperties.

(** ** The keys and fields of the metrics *)

Section MetricsKeysProperties.
Import JS MetricsKeys.
Local Open Scope string_scope.

Lemma rev_field (label status : string) :
  rev (list_ascii_of_string (label ++ ":" ++ status))
  = (rev (list_ascii_of_string status) ++ ":"%char :: rev (list_ascii_of_string label))%list.
Proof.
  rewrite !list_ascii_of_string_app. cbn [list_ascii_of_string app].
  rewrite rev_app_distr. cbn [rev]. rewrite <- app_assoc. reflexivity.
Qed.

Lemma rev_string_inj (s1 s2 : string) :
  rev (list_ascii_of_string s1) = rev (list_ascii_of_string s2) -> s1 = s2.
Proof.
  intros E. apply string_eq_by_list.
  rewrite <- (rev_involutive (list_ascii_of_string s1)), E. apply rev_involutive.
Qed.

Lemma isValidDeploymentStatus_cases (status : string) :
  RedisManager.Utilities.isValidDeploymentStatus status = true ->
  status = RedisManager.DEPLOYMENT_SUCCEEDED
  \/ status = RedisManager.DEPLOYMENT_FAILED
  \/ status = RedisManager.DOWNLOADED.
Proof.
  unfold RedisManager.Utilities.isValidDeploymentStatus.
  intros [[E|E]%orb_true_iff|E]%orb_true_iff; apply String.eqb_eq in E; auto.
Qed.

(** X19: the fields of the counters are unambiguous: the field of a
    status counter determines its label and its status, the field of
    an active counter determines its label, and no field is both,
    whatever characters the labels hold. *)
Theorem metrics_fields_unambiguous :
  (forall label1 status1 label2 status2 field,
      getLabelStatusField label1 status1 = Some field ->
      getLabelStatusField label2 status2 = Some field ->
      label1 = label2 /\ status1 = status2)
  /\ (forall label1 label2 field,
        getLabelActiveCountField label1 = Some field ->
        getLabelActiveCountField label2 = Some field ->
        label1 = label2)
  /\ (forall label1 label2 status field,
        getLabelActiveCountField label1 = Some field ->
        getLabelStatusField label2 status <> Some field).
Proof.
  unfold getLabelStatusField, getLabelActiveCountField. split; [|split].
  - intros label1 status1 label2 status2 field.
    destruct (RedisManager.Utilities.isValidDeploymentStatus status1) eqn:E1; [|discriminate].
    destruct (RedisManager.Utilities.isValidDeploymentStatus status2) eqn:E2; [|discriminate].
    intros [= <-] [= E]. apply (f_equal list_ascii_of_string), (f_equal (@rev ascii)) in E.
    rewrite !rev_field in E.
    apply isValidDeploymentStatus_cases in E1, E2.
    destruct E1 as [-> | [-> | ->]], E2 as [-> | [-> | ->]]; cbn in E;
      try discriminate E;
      (split; [|reflexivity]); apply rev_string_inj; congruence.
  - intros label1 label2 field.
    destruct (truthy label1); [|discriminate]. destruct (truthy label2); [|discriminate].
    intros [= <-] [= E]. apply (f_equal list_ascii_of_string), (f_equal (@rev ascii)) in E.
    rewrite !rev_field in E. cbn in E. apply rev_string_inj. congruence.
  - intros label1 label2 status field.
    destruct (truthy label1); [|discriminate].
    destruct (RedisManager.Utilities.isValidDeploymentStatus status) eqn:E2; [|discriminate].
    intros [= <-] [= E]. apply (f_equal list_ascii_of_string), (f_equal (@rev ascii)) in E.
    rewrite !rev_field in E.
    apply isValidDeploymentStatus_cases in E2.
    destruct E2 as [-> | [-> | ->]]; cbn in E; discriminate E.
Qed.

Lemma metrics_fields_unambiguous_witness :
  getLabelStatusField "v1:Active" "Downloaded" <> Some "v1:Active:Downloaded:Active"
  /\ getLabelStatusField "v1" "DeploymentFailed" <> getLabelActiveCountField "v1".
Proof.
  split.
  - apply (proj2 (proj2 metrics_fields_unambiguous) "v1:Active:Downloaded"). reflexivity.
  - apply (proj2 (proj2 metrics_fields_unambiguous) "v1" "v1"). reflexivity.
Defined.

End MetricsKeysProperties.

(** ** The report handlers *)

Section ReportProperties.
Import JS IO Routes DownloadRoute.
Local Open Scope string_scope.

(** The metrics of a report, with their [catch], always resolve. *)
Lemma metrics_caught `{Backend} (metrics : IO unit) (message : string) (reply : Reply)
    (w : World) :
  exists w',
    bind (try_catch metrics (fun error => console_warn message error))
      (fun _ => ret reply) w
    = (w', Resolved reply).
Proof.
  unfold bind, try_catch. destruct (metrics w) as [w1 [[]|e]]; cbn; eauto.
Qed.

(** X20: the reply to a deploy report is decided by the request
    alone: whatever the metrics methods of the cache manager do, and
    reject as they may, the handler resolves with that reply; and
    when the reply is 400 nothing was logged and no metric was
    touched. *)
Theorem reportStatusDeploy_reply_independent_of_metrics `{Backend} `{SemverOrder}
    (req : Request) :
  exists reply,
    forall (redisManager : MetricsManager) (w : World),
      exists w',
        reportStatusDeploy redisManager req w = (w', Resolved reply)
        /\ (replyStatus reply = 400 -> w' = w).
Proof.
  unfold reportStatusDeploy.
  repeat match goal with
         | |- context [if ?c then ret ?r else _] =>
             destruct c;
             [exists r; intros redisManager w; exists w; split; [reflexivity|reflexivity]|]
         | |- context [if ?c then bind _ _ else _] =>
             destruct c;
             [exists (SendStatus 200); intros redisManager w;
              match goal with
              | |- exists w', bind (try_catch ?m _) _ _ = _ /\ _ =>
                  destruct (metrics_caught m "Failed to record deploy metric"
                              (SendStatus 200) w) as (w' & E)
              end;
              exists w'; split; [exact E|discriminate]|]
         end.
  exists (SendStatus 200). intros redisManager w.
  match goal with
  | |- exists w', bind (try_catch ?m _) _ _ = _ /\ _ =>
      destruct (metrics_caught m "Failed to record legacy deploy metric"
                  (SendStatus 200) w) as (w' & E)
  end.
  exists w'. split; [exact E|discriminate].
Qed.

Lemma reportStatusDeploy_reply_independent_of_metrics_witness :
  exists reply,
    forall (redisManager : @MetricsManager Fixtures.journalBackend)
           (w : @World Fixtures.journalBackend),
      exists w',
        @reportStatusDeploy Fixtures.journalBackend Fixtures.recentSdk redisManager
          (Fixtures.deployReport (Some "DeploymentSucceeded")) w
        = (w', Resolved reply)
        /\ (replyStatus reply = 400 -> w' = w).
Proof.
  apply (@reportStatusDeploy_reply_independent_of_metrics
           Fixtures.journalBackend Fixtures.recentSdk).
Defined.

(** X21: a download report is answered 200 exactly when it names a
    deployment key and a label, and 400 otherwise, without a call to
    the metrics; a failure of the metrics never fails the report: it
    is answered 200 all the same. *)
Theorem reportStatusDownload_reply `{Backend} (redisManager : MetricsManager)
    (req : Request) (w : World) :
  exists w' reply,
    reportStatusDownload redisManager req w = (w', Resolved reply)
    /\ (replyStatus reply = 200
        <-> truthy_opt (or_opt (deploymentKey (body req)) (deployment_key (body req))) = true
            /\ truthy_opt (label (body req)) = true)
    /\ (replyStatus reply = 400 -> w' = w)
    /\ (replyStatus reply = 200 \/ replyStatus reply = 400).
Proof.
  unfold reportStatusDownload.
  destruct (truthy_opt (or_opt (deploymentKey (body req)) (deployment_key (body req))));
    destruct (truthy_opt (label (body req))); cbn [negb orb];
    try (eexists w, _; split; [reflexivity|]; cbn; intuition congruence).
  match goal with
  | |- exists w' reply, bind (try_catch ?m _) _ _ = _ /\ _ =>
      destruct (metrics_caught m "Failed to record download metric" (SendStatus 200) w)
        as (w' & E)
  end.
  exists w', (SendStatus 200). split; [exact E|]. cbn. intuition congruence.
Qed.

Lemma reportStatusDownload_reply_witness :
  exists w' reply,
    @reportStatusDownload Fixtures.journalBackend Fixtures.journalManager
      (Fixtures.deployReport None) Fixtures.journalWorld
    = (w', Resolved reply)
    /\ replyStatus reply = 200.
Proof.
  destruct (@reportStatusDownload_reply Fixtures.journalBackend Fixtures.journalManager
              (Fixtures.deployReport None) Fixtures.journalWorld)
    as (w' & reply & E & Hok & _).
  exists w', reply. split; [exact E|]. apply Hok. split; reflexivity.
Defined.

End ReportProperties.

(** ** The response cache: what is written is read back *)

Section ResponseCacheProperties.
Import JS IO RedisManager.
Local Open Scope string_scope.

(** X22: a response written to the cache is read back from it: when
    [setCachedResponse] resolves, [getCachedResponse] for the same
    key and URL resolves with that response, provided that JSON reads
    back what it serializes and that the store keeps the field
    written by [hset], also through [expire]. *)
Theorem getCachedResponse_after_setCachedResponse `{Backend} `{Json}
    (ops metrics : PromisifiedRedisClient) (expiryKey url : string)
    (response : CacheableResponse.t) (w w1 : World) :
  let this := {| _promisifiedOpsClient := Some ops;
                 _promisifiedMetricsClient := Some metrics |} in
  let kept := fun w0 : World =>
    forall w0', store w0' = store w0 ->
      exists w0'', hget ops expiryKey url w0' = (w0'', Resolved (Some (JSON_stringify response))) in
  truthy (JSON_stringify response) = true ->
  JSON_parse (JSON_stringify response) = Resolved response ->
  (forall w0 w0' n,
      hset ops expiryKey url (JSON_stringify response) w0 = (w0', Resolved n) -> kept w0') ->
  (forall w0 w0' n,
      expire ops expiryKey DEFAULT_EXPIRY w0 = (w0', Resolved n) -> kept w0 -> kept w0') ->
  setCachedResponse this expiryKey url response w = (w1, Resolved tt) ->
  exists w2, getCachedResponse this expiryKey url w1 = (w2, Resolved (Some response)).
Proof.
  intros this kept Htruthy Hjson Hhset Hexpire E.
  assert (Hkept : kept w1).
  { unfold setCachedResponse in E. cbn [isEnabled this negb _promisifiedOpsClient
                                        _promisifiedMetricsClient] in E.
    unfold bind, try_catch, console_log, console_error, console_write, ret, throw in E.
    destruct (exists_ ops expiryKey _) as [wb [n|e]]; [|discriminate].
    destruct (hset ops expiryKey url (JSON_stringify response) _) as [wd [m|e]] eqn:Es;
      [|discriminate].
    apply Hhset in Es.
    destruct (n =? 0)%Z.
    - destruct (expire ops expiryKey DEFAULT_EXPIRY _) as [wf [k|e]] eqn:Ee; [|discriminate].
      apply Hexpire in Ee; [|intros w0' Hs; apply Es; exact Hs].
      injection E as <-. intros w0' Hs. apply Ee. exact Hs.
    - injection E as <-. intros w0' Hs. apply Es. exact Hs. }
  unfold getCachedResponse. cbn [isEnabled this negb _promisifiedOpsClient
                                 _promisifiedMetricsClient].
  unfold bind, try_catch, console_log, console_write, ret.
  match goal with
  | |- context [hget ops expiryKey url ?w0] =>
      destruct (Hkept w0 eq_refl) as (w0'' & ->)
  end.
  cbn [truthy_opt].
  change (default "" (Some (JSON_stringify response))) with (JSON_stringify response).
  rewrite Htruthy, Hjson. eauto.
Qed.

Lemma memoryClient_keeps (key field value : string)
    (w0 w0' : @World ResponseCacheScenarios.memoryBackend) :
  ResponseCacheScenarios.memoryField key field (store w0) = Some value ->
  store w0' = store w0 ->
  exists w0'',
    hget ResponseCacheScenarios.memoryClient key field w0' = (w0'', Resolved (Some value)).
Proof.
  intros Hv Hs. cbn. unfold store_op. rewrite Hs, Hv. eauto.
Qed.

Lemma getCachedResponse_after_setCachedResponse_witness :
  let response := Fixtures.response [Fixtures.release "v1" "H1" false None] in
  let written :=
    fst (@setCachedResponse ResponseCacheScenarios.memoryBackend
           (ResponseCacheScenarios.jsonOf response) ResponseCacheScenarios.memoryManager
           "deploymentKey:key" "/updateCheck?deploymentKey=key" response
           ResponseCacheScenarios.memoryWorld) in
  exists w2,
    @getCachedResponse ResponseCacheScenarios.memoryBackend
      (ResponseCacheScenarios.jsonOf response) ResponseCacheScenarios.memoryManager
      "deploymentKey:key" "/updateCheck?deploymentKey=key" written
    = (w2, Resolved (Some response)).
Proof.
  intros response written.
  apply (@getCachedResponse_after_setCachedResponse
           ResponseCacheScenarios.memoryBackend (ResponseCacheScenarios.jsonOf response)
           ResponseCacheScenarios.memoryClient ResponseCacheScenarios.memoryClient
           "deploymentKey:key" "/updateCheck?deploymentKey=key" response
           ResponseCacheScenarios.memoryWorld written).
  - reflexivity.
  - reflexivity.
  - intros w0 w0' n [= <- _] w1 Hs. eapply memoryClient_keeps; [|exact Hs].
    reflexivity.
  - intros w0 w0' n [= <- _] Hk w1 Hs. apply Hk. exact Hs.
  - vm_compute. reflexivity.
Defined.



End ResponseCacheProperties.

(** ** The parser of requests and the key of the cache *)

Section ParserFacts.
Import JS RequestUtils RequestParser.
Local Open Scope string_scope.

Lemma buildUpdateCheckCacheKey_cacheKeyQuery `{UrlModule} (originalUrl : string)
    (cacheSchema : option string) :
  buildUpdateCheckCacheKey originalUrl cacheSchema
  = pathname_string (pathname (URL_parse originalUrl)) ++ "?"
    ++ queryString_stringify (cacheKeyQuery (query (URL_parse originalUrl)) cacheSchema).
Proof. reflexivity. Qed.

Lemma qget_qdelete_ne (k k' : string) (q : Query) :
  k <> k' -> qget k (qdelete k' q) = qget k q.
Proof.
  intros Hne. unfold qdelete. induction q as [|[k1 v1] q IH]; [reflexivity|].
  cbn [List.filter fst negb]. destruct (String.eqb_spec k1 k') as [->|Hk1]; cbn [negb qget].
  - rewrite IH. destruct (String.eqb_spec k' k); [congruence|reflexivity].
  - now rewrite IH.
Qed.

Lemma qget_qset_ne (k k' : string) (v : QueryValue) (q : Query) :
  k <> k' -> qget k (qset k' v q) = qget k q.
Proof.
  intros Hne. induction q as [|[k1 v1] q IH]; cbn [qset qget].
  - destruct (String.eqb_spec k' k); [congruence|reflexivity].
  - destruct (String.eqb_spec k1 k') as [->|Hk1]; cbn [qget].
    + destruct (String.eqb_spec k' k); [congruence|reflexivity].
    + now rewrite IH.
Qed.

Lemma qget_qset_eq (k : string) (v : QueryValue) (q : Query) :
  qget k (qset k v q) = Some v.
Proof.
  induction q as [|[k1 v1] q IH]; cbn [qset qget].
  - now rewrite String.eqb_refl.
  - destruct (String.eqb_spec k1 k) as [->|Hk1]; cbn [qget].
    + now rewrite String.eqb_refl.
    + destruct (String.eqb_spec k1 k); [congruence|exact IH].
Qed.

(** The six deletions leave the other fields as they are. *)
Lemma qget_stripClientFields (k : string) (q : Query) :
  ~ In k ["clientUniqueId"; "client_unique_id"; "beta"; "packageHash"; "package_hash"; "label"] ->
  qget k (stripClientFields q) = qget k q.
Proof.
  intros Hk. unfold stripClientFields.
  rewrite !qget_qdelete_ne; [reflexivity|..]; intros ->; apply Hk; simpl; tauto.
Qed.

Lemma String_or_empty_QString (x : string) : String_or_empty (Some (QString x)) = x.
Proof. unfold String_or_empty. cbn. now destruct x. Qed.

Lemma String_or_empty_falsy (v : option QueryValue) :
  qtruthy v = false -> String_or_empty v = "".
Proof. unfold String_or_empty. intros E. destruct v; [now rewrite E|reflexivity]. Qed.

Lemma String_or_empty_truthy (value : QueryValue) :
  qtruthy (Some value) = true -> String_or_empty (Some value) = String_of value.
Proof. unfold String_or_empty. now intros ->. Qed.

Lemma normalizeAppVersion_twice (v : string) :
  normalizeAppVersion (normalizeAppVersion v) = normalizeAppVersion v.
Proof.
  destruct (normalizeAppVersion_cases v) as [E|(a & b & rest & E & Ha & Hb)].
  - now rewrite !E.
  - eapply normalizeAppVersion_three_segments; eauto.
Qed.

(** The step that normalises the version: the other fields stay, and
    the version read from the two fields has the same normal form
    before and after. *)
Lemma normalizeVersionFields_spec (q : Query) :
  (forall k, k <> "appVersion" -> k <> "app_version" ->
             qget k (normalizeVersionFields q) = qget k q)
  /\ normalizeAppVersion
       (String_or_empty (qor (qget "appVersion" (normalizeVersionFields q))
                             (qget "app_version" (normalizeVersionFields q))))
     = normalizeAppVersion
         (String_or_empty (qor (qget "appVersion" q) (qget "app_version" q))).
Proof.
  unfold normalizeVersionFields, qor.
  destruct (qtruthy (qget "appVersion" q)) eqn:Ta.
  - destruct (qget "appVersion" q) as [va|] eqn:Ea; [|discriminate].
    rewrite Ta. cbv zeta.
    rewrite (qget_qset_ne "app_version" "appVersion") by discriminate.
    set (norm := normalizeAppVersion (String_of va)).
    destruct (qtruthy (qget "app_version" q)) eqn:Ts.
    + split.
      * intros k Hk1 Hk2. now rewrite !qget_qset_ne by assumption.
      * rewrite (qget_qset_ne "appVersion" "app_version") by discriminate.
        rewrite !qget_qset_eq.
        destruct (qtruthy (Some (QString norm)));
          rewrite String_or_empty_QString, String_or_empty_truthy by exact Ta;
          apply normalizeAppVersion_twice.
    + split.
      * intros k Hk1 Hk2. now rewrite !qget_qset_ne by assumption.
      * rewrite (qget_qset_ne "app_version" "appVersion") by discriminate.
        rewrite qget_qset_eq, (String_or_empty_truthy va Ta).
        destruct (qtruthy (Some (QString norm))) eqn:Tn.
        -- rewrite String_or_empty_QString. apply normalizeAppVersion_twice.
        -- rewrite String_or_empty_falsy by exact Ts.
           cbn in Tn. change (normalizeAppVersion (String_of va)) with norm.
           destruct norm; [reflexivity|discriminate].
  - destruct (qget "app_version" q) as [vs|] eqn:Es.
    2:{ split; [reflexivity|]. now rewrite Ta, Es. }
    destruct (qtruthy (Some vs)) eqn:Ts.
    2:{ split; [reflexivity|]. now rewrite Ta, Es. }
    cbv zeta. rewrite ?Ta, ?Es, ?Ts.
    set (norm := normalizeAppVersion (String_of vs)).
    split.
    + intros k Hk1 Hk2. now rewrite !qget_qset_ne by assumption.
    + rewrite (qget_qset_ne "appVersion" "app_version") by discriminate.
      rewrite Ta, qget_qset_eq, String_or_empty_QString, (String_or_empty_truthy vs Ts).
      apply normalizeAppVersion_twice.
Qed.

Lemma qget_addCacheSchema (k : string) (q : Query) (cacheSchema : option string) :
  k <> "__cacheSchema" -> qget k (addCacheSchema q cacheSchema) = qget k q.
Proof.
  intros Hk. unfold addCacheSchema. destruct cacheSchema as [schema|]; [|reflexivity].
  destruct (truthy schema); [|reflexivity]. now apply qget_qset_ne.
Qed.

(** A field that the key keeps as it is. *)
Lemma qget_cacheKeyQuery (k : string) (q : Query) (cacheSchema : option string) :
  ~ In k ["clientUniqueId"; "client_unique_id"; "beta"; "packageHash"; "package_hash";
          "label"; "appVersion"; "app_version"; "__cacheSchema"] ->
  qget k (cacheKeyQuery q cacheSchema) = qget k q.
Proof.
  intros Hk. unfold cacheKeyQuery.
  rewrite qget_addCacheSchema by (intros ->; apply Hk; simpl; tauto).
  rewrite (proj1 (normalizeVersionFields_spec _)) by (intros ->; apply Hk; simpl; tauto).
  apply qget_stripClientFields. intros Hin. apply Hk. simpl in *. tauto.
Qed.

(** What the parser reads of the query of the key. *)
Lemma parseUpdateCheckRequest_cacheKeyQuery (q : Query) (cacheSchema : option string) :
  deploymentKey (parseUpdateCheckRequest (cacheKeyQuery q cacheSchema))
  = deploymentKey (parseUpdateCheckRequest q)
  /\ normalizedAppVersion (parseUpdateCheckRequest (cacheKeyQuery q cacheSchema))
     = normalizedAppVersion (parseUpdateCheckRequest q)
  /\ isCompanion (parseUpdateCheckRequest (cacheKeyQuery q cacheSchema))
     = isCompanion (parseUpdateCheckRequest q).
Proof.
  unfold parseUpdateCheckRequest.
  cbn [deploymentKey normalizedAppVersion isCompanion].
  rewrite !(qget_cacheKeyQuery "deploymentKey"), !(qget_cacheKeyQuery "deployment_key"),
    !(qget_cacheKeyQuery "isCompanion"), !(qget_cacheKeyQuery "is_companion")
    by (simpl; intuition discriminate).
  split; [reflexivity|]. split; [|reflexivity].
  unfold cacheKeyQuery.
  rewrite !qget_addCacheSchema by discriminate.
  rewrite (proj2 (normalizeVersionFields_spec _)).
  now rewrite !qget_stripClientFields by (simpl; intuition discriminate).
Qed.

End ParserFacts.

Section ParserProperties.
Import JS RequestUtils RequestParser.
Local Open Scope string_scope.

(** X24: the key of the cache determines what the cached response
    depends on: two requests whose queries give
    [buildUpdateCheckCacheKey] the same object to serialize are
    parsed to the same deployment key, the same normalised version
    and the same companion flag. *)
Theorem cacheKeyQuery_determines_request (query1 query2 : Query)
    (cacheSchema : option string) :
  cacheKeyQuery query1 cacheSchema = cacheKeyQuery query2 cacheSchema ->
  deploymentKey (parseUpdateCheckRequest query1)
  = deploymentKey (parseUpdateCheckRequest query2)
  /\ normalizedAppVersion (parseUpdateCheckRequest query1)
     = normalizedAppVersion (parseUpdateCheckRequest query2)
  /\ isCompanion (parseUpdateCheckRequest query1)
     = isCompanion (parseUpdateCheckRequest query2).
Proof.
  intros E.
  destruct (parseUpdateCheckRequest_cacheKeyQuery query1 cacheSchema) as (Hd1 & Hv1 & Hc1).
  destruct (parseUpdateCheckRequest_cacheKeyQuery query2 cacheSchema) as (Hd2 & Hv2 & Hc2).
  rewrite E in Hd1, Hv1, Hc1. repeat split; congruence.
Qed.

Lemma cacheKeyQuery_determines_request_witness :
  let query1 := [("deploymentKey", QString "k"); ("appVersion", QString "2");
                 ("clientUniqueId", QString "a"); ("label", QString "v3")] in
  let query2 := [("deploymentKey", QString "k"); ("beta", QString "true");
                 ("appVersion", QString "2.0.0")] in
  deploymentKey (parseUpdateCheckRequest query1)
  = deploymentKey (parseUpdateCheckRequest query2)
  /\ normalizedAppVersion (parseUpdateCheckRequest query1)
     = normalizedAppVersion (parseUpdateCheckRequest query2)
  /\ isCompanion (parseUpdateCheckRequest query1)
     = isCompanion (parseUpdateCheckRequest query2).
Proof.
  intros query1 query2.
  apply (cacheKeyQuery_determines_request query1 query2 (Some "v2")).
  reflexivity.
Defined.

End ParserProperties.

(** ** The differences between two packages *)

Section PackageDifferFacts.
Import JS PackageDiffer.
Local Open Scope string_scope.

Lemma Map_get_Map_set_eq (name hash : string) (map : FileHashes) :
  Map_get name (Map_set name hash map) = Some hash.
Proof.
  induction map as [|[n h] map IH]; cbn [Map_set Map_get].
  - now rewrite String.eqb_refl.
  - destruct (String.eqb_spec n name) as [->|Hn]; cbn [Map_get].
    + now rewrite String.eqb_refl.
    + destruct (String.eqb_spec n name); [congruence|exact IH].
Qed.

Lemma Map_get_Map_set_ne (name name' hash : string) (map : FileHashes) :
  name <> name' -> Map_get name (Map_set name' hash map) = Map_get name map.
Proof.
  intros Hne. induction map as [|[n h] map IH]; cbn [Map_set Map_get].
  - destruct (String.eqb_spec name' name); [congruence|reflexivity].
  - destruct (String.eqb_spec n name') as [->|Hn]; cbn [Map_get].
    + destruct (String.eqb_spec name' name); [congruence|reflexivity].
    + now rewrite IH.
Qed.

Lemma Map_get_None (name : string) (map : FileHashes) :
  Map_get name map = None <-> ~ In name (List.map fst map).
Proof.
  induction map as [|[n h] map IH]; cbn [Map_get List.map fst In]; [tauto|].
  destruct (String.eqb_spec n name) as [->|Hn].
  - split; [discriminate|tauto].
  - rewrite IH. tauto.
Qed.

Lemma Map_get_Some (name hash : string) (map : FileHashes) :
  Map_get name map = Some hash -> In name (List.map fst map).
Proof.
  induction map as [|[n h] map IH]; cbn [Map_get List.map fst In]; [discriminate|].
  destruct (String.eqb_spec n name) as [->|Hn]; auto.
Qed.

Lemma Map_get_In (name hash : string) (map : FileHashes) :
  List.NoDup (List.map fst map) -> In (name, hash) map -> Map_get name map = Some hash.
Proof.
  induction map as [|[n h] map IH]; cbn [Map_get List.map fst In]; [tauto|].
  intros Hnd [[= -> ->]|Hin].
  - now rewrite String.eqb_refl.
  - inversion Hnd as [|? ? Hn Hnd']; subst.
    destruct (String.eqb_spec n name) as [->|_]; [|auto].
    exfalso. apply Hn. apply in_map_iff. now exists (name, hash).
Qed.

(** The first loop: the entries of the new package that the old one
    does not have with the same hash. *)
Lemma newOrUpdated_loop (old new acc : FileHashes) (name : string) :
  List.NoDup (List.map fst new) ->
  Map_get name
    (fold_left
       (fun entries '(name, hash) =>
          if negb (isEntryInMap name hash old true)
          then Map_set name hash entries else entries)
       new acc)
  = match Map_get name new with
    | Some hash =>
        if bool_decide (Map_get name old = Some hash) then Map_get name acc else Some hash
    | None => Map_get name acc
    end.
Proof.
  revert acc. induction new as [|[n h] new IH]; intros acc Hnd; [reflexivity|].
  inversion Hnd as [|? ? Hn Hnd']; subst.
  cbn [fold_left Map_get]. rewrite IH by exact Hnd'. unfold isEntryInMap.
  destruct (String.eqb_spec n name) as [->|Hne].
  - apply Map_get_None in Hn. rewrite Hn.
    destruct (bool_decide (Map_get name old = Some h)); cbn [negb]; [reflexivity|].
    apply Map_get_Map_set_eq.
  - assert (Hacc : Map_get name
                     (if negb (bool_decide (Map_get n old = Some h))
                      then Map_set n h acc else acc) = Map_get name acc).
    { destruct (bool_decide (Map_get n old = Some h)); cbn [negb]; [reflexivity|].
      apply Map_get_Map_set_ne. congruence. }
    now rewrite Hacc.
Qed.

(** The second loop: the names of the old package that the new one
    does not have with a hash that is not empty. *)
Lemma deletedFiles_loop (old new : FileHashes) (acc : list string) :
  fold_left
    (fun files '(name, hash) =>
       if negb (isEntryInMap name hash new false) then files ++ [name] else files)%list
    old acc
  = (acc ++ List.map fst
              (List.filter (fun entry => negb (truthy_opt (Map_get (fst entry) new))) old))%list.
Proof.
  revert acc. induction old as [|[n h] old IH]; intros acc; cbn [fold_left List.filter].
  - now rewrite app_nil_r.
  - rewrite IH. unfold isEntryInMap. cbn [fst].
    destruct (truthy_opt (Map_get n new)); cbn [negb List.map fst]; [reflexivity|].
    now rewrite <- app_assoc.
Qed.

Lemma deletedFiles_spec (old new : FileHashes) (name : string) :
  In name (deletedFiles (generateDiff old new))
  <-> In name (List.map fst old) /\ truthy_opt (Map_get name new) = false.
Proof.
  unfold generateDiff. cbn [deletedFiles]. rewrite deletedFiles_loop. cbn [app].
  rewrite in_map_iff. split.
  - intros ([n h] & <- & [Hin Ht]%List.filter_In). cbn [fst] in *. split.
    + apply in_map_iff. now exists (n, h).
    + now apply negb_true_iff.
  - intros [([n h] & <- & Hin)%in_map_iff Ht]. exists (n, h). split; [reflexivity|].
    apply List.filter_In. split; [exact Hin|]. cbn [fst] in *. now rewrite Ht.
Qed.

Lemma filter_nothing {A : Type} (f : A -> bool) (l : list A) :
  (forall x, In x l -> f x = false) -> List.filter f l = [].
Proof.
  induction l as [|a l IH]; intros Hall; [reflexivity|].
  cbn [List.filter]. rewrite Hall by now left. apply IH. intros x Hx. apply Hall. now right.
Qed.

Lemma fold_left_unchanged {A B : Type} (step : B -> A -> B) (l : list A) (acc : B) :
  (forall x b, In x l -> step b x = b) -> fold_left step l acc = acc.
Proof.
  induction l as [|a l IH]; intros Hall; [reflexivity|].
  cbn [fold_left]. rewrite Hall by now left. apply IH. intros x b Hx. apply Hall. now right.
Qed.

End PackageDifferFacts.

Section PackageDifferProperties.
Import JS PackageDiffer.
Local Open Scope string_scope.

(** X25: the difference leads from the old package to the new one:
    once the new and updated entries are written and the deleted
    files removed, every file name has the hash that the new package
    gives it, and is absent where the new package has no such file;
    this for a new package that names each file once and has no
    empty hash. *)
Theorem generateDiff_patches_old_to_new (oldFileHashes newFileHashes : FileHashes)
    (name : string) :
  List.NoDup (List.map fst newFileHashes) ->
  Forall (fun entry => truthy (snd entry) = true) newFileHashes ->
  patched oldFileHashes (generateDiff oldFileHashes newFileHashes) name
  = Map_get name newFileHashes.
Proof.
  intros Hnd Hhashes. unfold patched.
  pose proof (deletedFiles_spec oldFileHashes newFileHashes name) as Hdel.
  unfold generateDiff in *. cbn [newOrUpdatedEntries deletedFiles] in *.
  rewrite newOrUpdated_loop by exact Hnd. cbn [Map_get].
  destruct (Map_get name newFileHashes) as [hash|] eqn:Enew.
  - assert (Ht : truthy hash = true).
    { clear Hdel. induction Hhashes as [|[n h] new Hh _ IH]; [discriminate|].
      inversion Hnd as [|? ? _ Hnd']; subst. cbn [Map_get] in Enew.
      destruct (String.eqb n name); [injection Enew as <-; exact Hh|auto]. }
    destruct (bool_decide (Map_get name oldFileHashes = Some hash)) eqn:Eold; [|reflexivity].
    apply bool_decide_eq_true in Eold.
    rewrite bool_decide_eq_false_2; [exact Eold|].
    rewrite list_elem_of_In, Hdel. cbn [truthy_opt]. rewrite Ht. intros [_ ?]. discriminate.
  - destruct (Map_get name oldFileHashes) as [hash|] eqn:Eold; [|now case_bool_decide].
    rewrite bool_decide_eq_true_2; [reflexivity|].
    rewrite list_elem_of_In, Hdel. split; [|reflexivity].
    eapply Map_get_Some, Eold.
Qed.

Lemma generateDiff_patches_old_to_new_witness :
  let old := [("index.js", "a1"); ("logo.png", "b2"); ("old.css", "c3")] in
  let new := [("index.js", "a9"); ("logo.png", "b2"); ("new.css", "d4")] in
  patched old (generateDiff old new) "index.js" = Some "a9"
  /\ patched old (generateDiff old new) "old.css" = None.
Proof.
  intros old new.
  assert (Hnd : List.NoDup (List.map fst new)).
  { repeat constructor; simpl; intuition discriminate. }
  assert (Hhashes : Forall (fun entry => truthy (snd entry) = true) new).
  { repeat constructor. }
  split.
  - apply (generateDiff_patches_old_to_new old new "index.js" Hnd Hhashes).
  - apply (generateDiff_patches_old_to_new old new "old.css" Hnd Hhashes).
Defined.

(** X26: between two packages with the same files and hashes
    (each file named once, no hash empty) there is no difference:
    nothing is deleted, nothing is new or updated. *)
Theorem generateDiff_same_package (fileHashes : FileHashes) :
  List.NoDup (List.map fst fileHashes) ->
  Forall (fun entry => truthy (snd entry) = true) fileHashes ->
  generateDiff fileHashes fileHashes
  = {| deletedFiles := []; newOrUpdatedEntries := [] |}.
Proof.
  intros Hnd Hhashes.
  assert (Hget : forall n h, In (n, h) fileHashes -> Map_get n fileHashes = Some h).
  { intros n h. now apply Map_get_In. }
  unfold generateDiff. f_equal.
  - rewrite deletedFiles_loop. cbn [app].
    rewrite filter_nothing; [reflexivity|].
    intros [n h] Hin. cbn [fst]. rewrite (Hget n h Hin). cbn [truthy_opt].
    rewrite Forall_forall in Hhashes.
    apply list_elem_of_In, Hhashes in Hin. cbn [snd] in Hin. now rewrite Hin.
  - apply fold_left_unchanged. intros [n h] entries Hin.
    unfold isEntryInMap. rewrite (Hget n h Hin).
    now rewrite bool_decide_eq_true_2.
Qed.

Lemma generateDiff_same_package_witness :
  generateDiff [("index.js", "a1"); ("logo.png", "b2")] [("index.js", "a1"); ("logo.png", "b2")]
  = {| deletedFiles := []; newOrUpdatedEntries := [] |}.
Proof.
  apply generateDiff_same_package.
  - repeat constructor; simpl; intuition discriminate.
  - repeat constructor.
Defined.

End PackageDifferProperties.

(** ** The update-check handler *)

Section ResolvedFacts.
Import JS IO UpdateCheckRoute.
Context `{Backend}.

Lemma resolves_ret {A : Type} (a : A) : resolves (ret a).
Proof. intros w. unfold ret. eauto. Qed.

Lemma resolves_bind {A B : Type} (m : IO A) (k : A -> IO B) :
  resolves m -> (forall a, resolves (k a)) -> resolves (bind m k).
Proof.
  intros Hm Hk w. unfold bind. destruct (Hm w) as (w1 & a & ->). apply Hk.
Qed.

Lemma resolves_try_catch {A : Type} (m : IO A) (h : Error -> IO A) :
  (forall e, resolves (h e)) -> resolves (try_catch m h).
Proof.
  intros Hh w. unfold try_catch. destruct (m w) as [w1 [a|e]]; [eauto|apply Hh].
Qed.

Lemma resolves_console_write (l : Level) (msg : string) (err : option Error) :
  resolves (console_write l msg err).
Proof. intros w. unfold console_write. eauto. Qed.

End ResolvedFacts.

Ltac resolved :=
  repeat first
    [ apply resolves_ret
    | apply resolves_console_write
    | apply resolves_bind; [|intros ?]
    | apply resolves_try_catch; intros ?
    | match goal with
      | |- UpdateCheckRoute.resolves (if ?b then _ else _) => destruct b
      | |- UpdateCheckRoute.resolves (match ?x with _ => _ end) => destruct x
      end ].

Section EngineResolves.
Import JS IO RolloutSelector Acquisition UpdateCheckRoute.
Context `{Backend} `{Platform}.

Lemma proxyBlobUrl_resolves (azureUrl : string) : resolves (proxyBlobUrl azureUrl).
Proof. intros w. apply proxyBlobUrl_total. Qed.

Lemma createUpdateInfoFromRelease_resolves (release : CachedRelease.t) :
  resolves (createUpdateInfoFromRelease release).
Proof.
  unfold createUpdateInfoFromRelease. resolved.
Qed.

Lemma isClientSelectedForRollout_resolves (release : CachedRelease.t)
    (clientUniqueId releaseKey : string) :
  resolves (isClientSelectedForRollout release clientUniqueId releaseKey).
Proof.
  unfold isClientSelectedForRollout. resolved.
  intros w. unfold Date_now. eauto.
Qed.

(** The errors of the fetcher and of the proxy are caught. *)
Lemma hydrateDiffPayloadForRelease_resolves (updateInfo : UpdateCheckResponse.t)
    (release : option CachedRelease.t) (requestPackageHash : string)
    (diffMapFetcher : DiffMapFetcher) :
  resolves (hydrateDiffPayloadForRelease updateInfo release requestPackageHash diffMapFetcher).
Proof.
  unfold hydrateDiffPayloadForRelease. resolved.
Qed.

Lemma walkRelease_resolves (rq : Acquisition.Request) (vars : Walk) (release : option CachedRelease.t) :
  resolves (walkRelease rq vars release).
Proof.
  unfold walkRelease. resolved;
    first [ apply hydrateDiffPayloadForRelease_resolves
          | apply createUpdateInfoFromRelease_resolves
          | apply isClientSelectedForRollout_resolves ].
Qed.

Lemma walk_resolves (rq : Acquisition.Request) (releases : list (option CachedRelease.t)) (vars : Walk) :
  resolves (walk rq releases vars).
Proof.
  revert vars. induction releases as [|release rest IH]; intros vars; cbn [walk].
  - apply resolves_ret.
  - apply resolves_bind; [apply walkRelease_resolves|].
    intros [vars'|body]; [apply IH|apply resolves_ret].
Qed.

(** The engine answers whatever the fetcher of diff maps does. *)
Lemma buildUpdateCheckBody_resolves (response : CacheableResponse.t) (rq : Acquisition.Request) :
  resolves (buildUpdateCheckBody response rq).
Proof.
  unfold buildUpdateCheckBody. apply resolves_bind; [apply walk_resolves|].
  intros turn. unfold afterWalk. resolved. apply hydrateDiffPayloadForRelease_resolves.
Qed.

Lemma sendUpdateCheckResponse_resolves (response : CacheableResponse.t)
    (newApi fromCache : bool) (rq : Acquisition.Request) (w : World) :
  exists w' body,
    buildUpdateCheckBody response rq w = (w', Resolved body)
    /\ sendUpdateCheckResponse response newApi fromCache rq w
       = (w', Resolved (Send (CacheableResponse.statusCode response) body newApi fromCache)).
Proof.
  destruct (buildUpdateCheckBody_resolves response rq w) as (w' & body & E).
  exists w', body. split; [exact E|].
  unfold sendUpdateCheckResponse, bind. now rewrite E.
Qed.

End EngineResolves.

Section HandlerFacts.
Import JS IO RequestUtils RequestParser UpdateCheckRoute.
Context {base : Backend} `{Platform} `{RedisManager.Json} `{UrlModule} `{Validation}.

Lemma bind_resolved `{Backend} {A B : Type} (m : IO A) (k : A -> IO B) (w w' : World) (a : A) :
  m w = (w', Resolved a) -> bind m k w = k a w'.
Proof. intros E. unfold bind. now rewrite E. Qed.

Lemma Microcache_get_hit {T : Type} (this : Microcache.t T) (key : string) (now : Q)
    (value : T) :
  fst (Microcache.get this key now) = Some value ->
  Microcache.get this key now = (Some value, this).
Proof.
  unfold Microcache.get.
  destruct (Qle_bool (Microcache.ttlMs this) 0); [discriminate|].
  destruct (Microcache.store this !! key) as [entry|]; [|discriminate].
  destruct (Qle_bool (Microcache.expiresAt entry) now); [discriminate|].
  cbn. now intros [= ->].
Qed.

(** A computation on the store behind the clients, run in the
    server. *)
Lemma inProcess_lift {A : Type} (m : @IO base A) (w : @World server) (wb : @World base)
    (outcome : Outcome A) :
  m (baseWorld w) = (wb, outcome) ->
  inProcess (DiffCache.lift m) w = (withBase w wb, outcome).
Proof.
  intros E. unfold inProcess, DiffCache.lift, baseWorld, withBase in *.
  cbn [console clock store fst snd]. now rewrite E.
Qed.

(** The handler when the cache of the module has the response. *)
Lemma updateCheck_hit (config : AcquisitionConfig) (newApi : bool) (req : Request)
    (w : @World server) (response : CacheableResponse.t) :
  fst (Microcache.get (responseCache w) (memCacheKey req) (clock w)) = Some response ->
  updateCheck config newApi req w
  = try_catch
      (inProcess (sendUpdateCheckResponse response newApi true (responseOptionsBase config req)))
      (fun error => ret (Next error)) w.
Proof.
  intros Hhit. apply Microcache_get_hit in Hhit.
  unfold updateCheck.
  change (RedisManager.Utilities.getDeploymentKeyHash
            (deploymentKey (parseUpdateCheckRequest (query req)))
          ++ "|" ++ buildUpdateCheckCacheKey (originalUrl req)
                      (Some UPDATECHECK_CACHE_SCHEMA_VERSION))%string
    with (memCacheKey req).
  cbv zeta.
  rewrite (bind_resolved _ _ w w (Some response)); [reflexivity|].
  unfold updateCheckMicrocache_get. unfold responseCache in Hhit. rewrite Hhit.
  destruct w as [c t [rc ps]]. reflexivity.
Qed.

End HandlerFacts.

Section HandlerMiss.
Import JS IO RequestUtils RequestParser UpdateCheckRoute.
Context {base : Backend} `{Platform} `{RedisManager.Json} `{UrlModule} `{Validation}.

Lemma inProcess_run {A : Type} (m : @IO (@DiffCache.process base) A) (w : @World server)
    (wp : @World (@DiffCache.process base)) (outcome : Outcome A) :
  m (processWorld w) = (wp, outcome) ->
  inProcess m w = (withProcess w wp, outcome).
Proof.
  intros E. unfold inProcess, processWorld, withProcess in *. now rewrite E.
Qed.

Lemma updateCheckMicrocache_get_miss (req : Request) (w : @World server)
    (cache : Microcache.t CacheableResponse.t) :
  Microcache.get (responseCache w) (memCacheKey req) (clock w) = (None, cache) ->
  updateCheckMicrocache_get (memCacheKey req) w = (withResponseCache w cache, Resolved None).
Proof.
  intros Hmiss. unfold updateCheckMicrocache_get.
  unfold responseCache in Hmiss. now rewrite Hmiss.
Qed.

Lemma readCache_found (redisManager : RedisManager.t) (key url : string)
    (wb wb' : @World base) (response : CacheableResponse.t) :
  RedisManager.getCachedResponse redisManager key url wb = (wb', Resolved (Some response)) ->
  RedisManager.updateCheck_readCache redisManager key url wb
  = (wb', Resolved (Some response, None)).
Proof.
  intros E. unfold RedisManager.updateCheck_readCache, try_catch, bind. now rewrite E.
Qed.


Lemma writeCache_resolves (redisManager : RedisManager.t) (key url : string)
    (response : CacheableResponse.t) :
  resolves (RedisManager.updateCheck_writeCache redisManager key url response).
Proof.
  unfold RedisManager.updateCheck_writeCache. apply resolves_try_catch.
  intros e. apply resolves_console_write.
Qed.

Lemma inProcess_responseCache {A : Type} (m : @IO (@DiffCache.process base) A)
    (w w' : @World server) (outcome : Outcome A) :
  inProcess m w = (w', outcome) -> responseCache w' = responseCache w.
Proof.
  unfold inProcess. destruct (m _) as [wp o]. now intros [= <- _].
Qed.




End HandlerMiss.

Ltac after_miss req Hmiss :=
  unfold UpdateCheckRoute.updateCheck;
  change (RedisManager.Utilities.getDeploymentKeyHash
            (RequestParser.deploymentKey
               (RequestParser.parseUpdateCheckRequest (UpdateCheckRoute.query req))))
    with (UpdateCheckRoute.cacheKey req);
  change (RequestUtils.buildUpdateCheckCacheKey (UpdateCheckRoute.originalUrl req)
            (Some UpdateCheckRoute.UPDATECHECK_CACHE_SCHEMA_VERSION))
    with (UpdateCheckRoute.cacheUrl req);
  change (UpdateCheckRoute.cacheKey req ++ "|" ++ UpdateCheckRoute.cacheUrl req)%string
    with (UpdateCheckRoute.memCacheKey req);
  cbv zeta;
  rewrite (bind_resolved _ _ _ _ _ (updateCheckMicrocache_get_miss _ _ _ Hmiss)).

Section HandlerProperties.
Import JS IO RequestUtils RequestParser UpdateCheckRoute.
Local Open Scope string_scope.

(** X27: while the cache of the module holds a response for the key
    of the request, the handler answers from it: it sends the status
    code of that response with the body the engine builds from it,
    marked as coming from the cache, and leaves the cache of
    responses as it is.  Neither the storage nor the commands of the
    response cache are used: the run is the same with any other
    storage and any other client of the response cache. *)
Theorem updateCheck_served_from_microcache
    {base : Backend} `{Platform} `{RedisManager.Json} `{UrlModule} `{Validation}
    (config config' : AcquisitionConfig) (newApi : bool) (req : Request)
    (w : @World server) (response : CacheableResponse.t) :
  fst (Microcache.get (responseCache w) (memCacheKey req) (clock w)) = Some response ->
  diffMaps config' = diffMaps config ->
  (exists wp body,
      Acquisition.buildUpdateCheckBody response (responseOptionsBase config req)
        (processWorld w) = (wp, Resolved body)
      /\ updateCheck config newApi req w
         = (withProcess w wp,
            Resolved (Send (CacheableResponse.statusCode response) body newApi true)))
  /\ updateCheck config' newApi req w = updateCheck config newApi req w.
Proof.
  intros Hhit Hdiff.
  destruct (sendUpdateCheckResponse_resolves response newApi true
              (responseOptionsBase config req) (processWorld w))
    as (wp & body & Ebody & Esend).
  apply inProcess_run in Esend.
  assert (Hall : forall cfg : AcquisitionConfig,
             diffMaps cfg = diffMaps config ->
             updateCheck cfg newApi req w
             = (withProcess w wp,
                Resolved (Send (CacheableResponse.statusCode response) body newApi true))).
  { intros cfg Ed. rewrite (updateCheck_hit cfg newApi req w response Hhit).
    assert (Eo : responseOptionsBase cfg req = responseOptionsBase config req).
    { unfold responseOptionsBase. now rewrite Ed. }
    rewrite Eo. unfold try_catch. now rewrite Esend. }
  split.
  - exists wp, body. split; [exact Ebody|]. now apply Hall.
  - rewrite (Hall config' Hdiff). symmetry. now apply Hall.
Qed.

Lemma updateCheck_served_from_microcache_witness :
  let w :=
    @UpdateCheckScenarios.serverWorld Fixtures.backend 10
      (Microcache.set (Microcache.new 30000)
         (@memCacheKey Fixtures.urlModule UpdateCheckScenarios.req)
         UpdateCheckScenarios.cachedResponse 0) tt in
  (exists wp body,
      @Acquisition.buildUpdateCheckBody _ Fixtures.platform UpdateCheckScenarios.cachedResponse
        (@responseOptionsBase Fixtures.backend UpdateCheckScenarios.outage
           UpdateCheckScenarios.req)
        (processWorld w) = (wp, Resolved body)
      /\ @updateCheck Fixtures.backend Fixtures.platform Fixtures.json Fixtures.urlModule
           UpdateCheckScenarios.validation UpdateCheckScenarios.outage false
           UpdateCheckScenarios.req w
         = (withProcess w wp,
            Resolved (Send 200 body false true)))
  /\ @updateCheck Fixtures.backend Fixtures.platform Fixtures.json Fixtures.urlModule
       UpdateCheckScenarios.validation UpdateCheckScenarios.unreachable false
       UpdateCheckScenarios.req w
     = @updateCheck Fixtures.backend Fixtures.platform Fixtures.json Fixtures.urlModule
         UpdateCheckScenarios.validation UpdateCheckScenarios.outage false
         UpdateCheckScenarios.req w.
Proof.
  intros w.
  apply (@updateCheck_served_from_microcache Fixtures.backend Fixtures.platform Fixtures.json
           Fixtures.urlModule UpdateCheckScenarios.validation UpdateCheckScenarios.outage
           UpdateCheckScenarios.unreachable false UpdateCheckScenarios.req w
           UpdateCheckScenarios.cachedResponse).
  - vm_compute. reflexivity.
  - reflexivity.
Defined.

(** X28: when the cache of the module has nothing for the request
    and the distributed cache returns a response, the handler sends
    the status code of that response, marked as coming from the
    cache, without asking the storage (the run is the same with any
    other storage), and it keeps the response in the cache of the
    module: when its TTL is positive, a lookup under the same key
    then finds the response. *)
Theorem updateCheck_served_from_cache
    {base : Backend} `{Platform} `{RedisManager.Json} `{UrlModule} `{Validation}
    (config config' : AcquisitionConfig) (newApi : bool) (req : Request)
    (w : @World server) (wb : @World base) (response : CacheableResponse.t) :
  fst (Microcache.get (responseCache w) (memCacheKey req) (clock w)) = None ->
  RedisManager.getCachedResponse (redisManager config) (cacheKey req) (cacheUrl req)
    (baseWorld w) = (wb, Resolved (Some response)) ->
  redisManager config' = redisManager config ->
  diffMaps config' = diffMaps config ->
  (exists w' body,
      updateCheck config newApi req w
      = (w', Resolved (Send (CacheableResponse.statusCode response) body newApi true))
      /\ ((0 < Microcache.ttlMs (responseCache w))%Q ->
          fst (Microcache.get (responseCache w') (memCacheKey req) (clock w'))
          = Some response))
  /\ updateCheck config' newApi req w = updateCheck config newApi req w.
Proof.
  intros Hmiss Hread Hmanager Hdiff.
  destruct (Microcache.get (responseCache w) (memCacheKey req) (clock w))
    as [found cache] eqn:Eget.
  cbn [fst] in Hmiss. subst found.
  set (w0 := withResponseCache w cache).
  assert (Eread := inProcess_lift _ w0 wb _ (readCache_found _ _ _ _ _ _ Hread)).
  set (w1 := withBase w0 wb) in *.
  destruct (sendUpdateCheckResponse_resolves response newApi true
              (responseOptionsBase config req) (processWorld w1))
    as (wp & body & _ & Esend).
  apply inProcess_run in Esend.
  assert (Hall : forall cfg : AcquisitionConfig,
             redisManager cfg = redisManager config -> diffMaps cfg = diffMaps config ->
             updateCheck cfg newApi req w
             = (withResponseCache (withProcess w1 wp)
                  (Microcache.set cache (memCacheKey req) response (clock wp)),
                Resolved (Send (CacheableResponse.statusCode response) body newApi true))).
  { intros cfg Em Ed. after_miss req Eget.
    assert (Eo : responseOptionsBase cfg req = responseOptionsBase config req).
    { unfold responseOptionsBase. now rewrite Ed. }
    rewrite Em, Eo.
    unfold try_catch, bind. fold w0. rewrite Eread. cbn [fst snd negb]. unfold ret at 1.
    rewrite Esend. reflexivity. }
  split.
  - eexists _, body. split; [apply Hall; reflexivity|].
    intros Httl. unfold responseCache, withResponseCache.
    cbn [console clock store fst snd withProcess].
    destruct (Microcache_get_miss _ _ _ _ Eget) as [Ettl _].
    rewrite Microcache_get_set_eq; [reflexivity| |].
    + rewrite Ettl. exact Httl.
    + rewrite Ettl. unfold responseCache in Httl.
      rewrite <- (Qplus_0_r (clock wp)) at 1. apply Qplus_lt_r. exact Httl.
  - rewrite (Hall config' Hmanager Hdiff). symmetry. now apply Hall.
Qed.

Lemma updateCheck_served_from_cache_witness :
  let json := ResponseCacheScenarios.jsonOf UpdateCheckScenarios.cachedResponse in
  let w :=
    @UpdateCheckScenarios.serverWorld ResponseCacheScenarios.memoryBackend 0
      (Microcache.new 30000)
      [ (@cacheKey UpdateCheckScenarios.req,
         @cacheUrl Fixtures.urlModule UpdateCheckScenarios.req, "{cached}") ] in
  (exists w' body,
      @updateCheck _ Fixtures.platform json Fixtures.urlModule UpdateCheckScenarios.validation
        (UpdateCheckScenarios.inMemory UpdateCheckScenarios.storage) false
        UpdateCheckScenarios.req w
      = (w', Resolved (Send 200 body false true))
      /\ ((0 < Microcache.ttlMs (responseCache w))%Q ->
          fst (Microcache.get (responseCache w')
                 (@memCacheKey Fixtures.urlModule UpdateCheckScenarios.req) (clock w'))
          = Some UpdateCheckScenarios.cachedResponse))
  /\ @updateCheck _ Fixtures.platform json Fixtures.urlModule UpdateCheckScenarios.validation
       (UpdateCheckScenarios.inMemory UpdateCheckScenarios.brokenStorage) false
       UpdateCheckScenarios.req w
     = @updateCheck _ Fixtures.platform json Fixtures.urlModule
         UpdateCheckScenarios.validation
         (UpdateCheckScenarios.inMemory UpdateCheckScenarios.storage) false
         UpdateCheckScenarios.req w.
Proof.
  intros json w.
  apply (@updateCheck_served_from_cache ResponseCacheScenarios.memoryBackend Fixtures.platform
           json Fixtures.urlModule UpdateCheckScenarios.validation
           (UpdateCheckScenarios.inMemory UpdateCheckScenarios.storage)
           (UpdateCheckScenarios.inMemory UpdateCheckScenarios.brokenStorage)
           false UpdateCheckScenarios.req w
           (fst (@RedisManager.getCachedResponse ResponseCacheScenarios.memoryBackend json
                   ResponseCacheScenarios.memoryManager
                   (@cacheKey UpdateCheckScenarios.req)
                   (@cacheUrl Fixtures.urlModule UpdateCheckScenarios.req) (baseWorld w)))
           UpdateCheckScenarios.cachedResponse).
  - vm_compute. reflexivity.
  - vm_compute. reflexivity.
  - reflexivity.
  - reflexivity.
Defined.



(** X30: only responses that were sent are kept in the cache of the
    module.  When the handler answers with anything but a sent
    response (a malformed-request error, or an error given to the
    error handler), the cache of the module is as the lookup of the
    handler left it. *)
Theorem updateCheck_caches_only_sent_responses
    {base : Backend} `{Platform} `{RedisManager.Json} `{UrlModule} `{Validation}
    (config : AcquisitionConfig) (newApi : bool) (req : Request)
    (w w' : @World server) (answer : Answer) :
  updateCheck config newApi req w = (w', Resolved answer) ->
  (forall statusCode body snakeCase fromCache,
      answer <> Send statusCode body snakeCase fromCache) ->
  responseCache w'
  = snd (Microcache.get (responseCache w) (memCacheKey req) (clock w)).
Proof.
  intros E Hnot.
  destruct (Microcache.get (responseCache w) (memCacheKey req) (clock w))
    as [[memValue|] cache] eqn:Eget; cbn [snd].
  - exfalso. rewrite (updateCheck_hit config newApi req w memValue) in E
      by now rewrite Eget.
    destruct (sendUpdateCheckResponse_resolves memValue newApi true
                (responseOptionsBase config req) (processWorld w))
      as (wp & body & _ & Esend).
    apply inProcess_run in Esend. unfold try_catch in E. rewrite Esend in E.
    injection E as _ <-. now eapply Hnot.
  - revert E. after_miss req Eget.
    set (w0 := withResponseCache w cache).
    unfold try_catch, bind.
    destruct (inProcess (DiffCache.lift (RedisManager.updateCheck_readCache _ _ _)) w0)
      as [w1 [[cachedResponse redisError]|e]] eqn:Eread;
      apply inProcess_responseCache in Eread; cbn [fst snd negb].
    2:{ unfold ret. now intros [= <- _]. }
    destruct cachedResponse as [cachedResponse|].
    + unfold ret at 1.
      destruct (sendUpdateCheckResponse_resolves cachedResponse newApi true
                  (responseOptionsBase config req) (processWorld w1))
        as (wp & body & _ & Esend).
      apply inProcess_run in Esend. rewrite Esend.
      unfold updateCheckMicrocache_set, ret.
      destruct redisError; unfold console_warn, console_write;
        intros [= _ <-]; exfalso; now eapply Hnot.
    + destruct (inProcess (DiffCache.lift (createResponseUsingStorage _ _ _)) w1)
        as [w2 [[response|malformed]|e]] eqn:Ecreate;
        apply inProcess_responseCache in Ecreate.
      * destruct (sendUpdateCheckResponse_resolves response newApi false
                    (responseOptionsBase config req) (processWorld w2))
          as (wp & body & _ & Esend).
        apply inProcess_run in Esend. rewrite Esend.
        unfold updateCheckMicrocache_set. cbn [fst snd negb].
        match goal with
        | |- context [inProcess (DiffCache.lift (RedisManager.updateCheck_writeCache
                                                   ?m ?k ?u ?r)) ?w3] =>
            destruct (writeCache_resolves m k u r (baseWorld w3)) as (wb4 & [] & Ewrite);
            apply inProcess_lift in Ewrite; rewrite Ewrite
        end.
        unfold ret.
        destruct redisError; unfold console_warn, console_write;
          intros [= _ <-]; exfalso; now eapply Hnot.
      * unfold ret.
        destruct redisError; unfold console_warn, console_write;
          intros [= <- _]; unfold responseCache in *; cbn [store fst];
          now rewrite Ecreate, Eread.
      * unfold ret. intros [= <- _]. now rewrite Ecreate, Eread.
Qed.

Lemma updateCheck_caches_only_sent_responses_witness :
  let w :=
    @UpdateCheckScenarios.serverWorld Fixtures.backend 0 (Microcache.new 30000) tt in
  let result :=
    @updateCheck Fixtures.backend Fixtures.platform Fixtures.json Fixtures.urlModule
      UpdateCheckScenarios.validation UpdateCheckScenarios.outage false
      UpdateCheckScenarios.reqBadVersion w in
  responseCache (fst result)
  = snd (Microcache.get (responseCache w)
           (@memCacheKey Fixtures.urlModule UpdateCheckScenarios.reqBadVersion) (clock w)).
Proof.
  intros w result.
  apply (@updateCheck_caches_only_sent_responses Fixtures.backend Fixtures.platform
           Fixtures.json Fixtures.urlModule UpdateCheckScenarios.validation
           UpdateCheckScenarios.outage false UpdateCheckScenarios.reqBadVersion w (fst result)
           (MalformedRequestError
              ("An update check must include a binary version that conforms to the semver standard (e.g. '1.0.0'). "
               ++ "The binary version is normally inferred from the App Store/Play Store version configured with your app."))).
  - vm_compute. reflexivity.
  - intros statusCode body snakeCase fromCache. discriminate.
Defined.

End HandlerProperties.
